(** * Two-tier iframe state synchronisation: the three library copies

    The repository holds three near-duplicate copies of the reference
    library:

    - the plain JavaScript copy ([Module JS]): class [IframeStateSync] and
      [createChildClient] with an atom object written inline;
    - the TypeScript copy ([Module TS]): the same class on top of the vendored
      [createAtom], and its [createChildClient];
    - the svelte demo copy ([Module Svelte], [Module SvelteChild]): a
      parent-side [IframeStateSync] on top of the vendored [createStore] and
      a stand-alone child client.

    Each copy is embedded as state-passing code in a small monad that carries
    the state of the coordinator and of the part of the browser it touches
    (content windows, load listeners, the clock), an optional thrown error,
    and the list of observable effects of a call: messages posted, user
    callbacks invoked, console lines written.

    User callbacks are opaque: a call of callback [cb] with value [v] is the
    effect [Invoke cb v]; callbacks are taken not to throw and not to call
    back into the library while they run. *)

From Stdlib Require Import List String ZArith Bool Arith Lia.
Import ListNotations.
Open Scope string_scope.
Open Scope list_scope.

Set Implicit Arguments.

(** ** Values, messages and effects *)

(** [AtomValue = string | number | boolean | object | null | undefined]
    (types.ts).  Numbers are integers here; an object is a reference. *)
Inductive AtomValue : Type :=
| VUndefined
| VNull
| VBool (b : bool)
| VNumber (n : Z)
| VString (s : string)
| VObject (ref : nat).

(** [v !== undefined] *)
Definition is_defined (v : AtomValue) : bool :=
  match v with VUndefined => false | _ => true end.

(** Identity of an iframe element, of a window, of a user callback. *)
Definition Iframe := nat.
Definition Window := nat.
Definition Callback := nat.

(** [SyncMessage] and [SyncRequestMessage] (types.ts). *)
Inductive Message : Type :=
| AtomSync (key : string) (value : AtomValue) (timestamp : Z)
| AtomSyncRequest (timestamp : Z).

(** What a message event can carry in [event.data]: one of the two protocol
    messages, an object with another (or no) [type] tag, or [null] /
    [undefined], on which reading [data.type] throws. *)
Inductive EventData : Type :=
| DataMessage (m : Message)
| DataOther
| DataNullish.

Record MessageEvent : Type := {
  data : EventData;
  source : option Window
}.

(** The receiver of a [postMessage] call: [iframe.contentWindow] of a
    registered iframe element, [event.source], or [window.parent]. *)
Inductive Target : Type :=
| ToIframe (f : Iframe) (w : Window)
| ToSource (w : Window)
| ToParent.

(** Console lines, one constructor per logging statement of the sources. *)
Inductive LogLine : Type :=
| LogInitialized (isRoot : bool)
| LogRegisteredAtom (key : string) (initialValue : AtomValue)
| LogAlreadyRegistered (key : string)
| LogRegisteredIframe (f : Iframe)
| LogUnregisteredIframe (f : Iframe)
| LogBroadcasted (key : string) (value : AtomValue)
| LogSyncedAll (f : Iframe)
| LogIframeLoaded
| LogSynced (key : string) (value : AtomValue)
| LogUnknownAtom (key : string)
| LogNotFound (key : string)
| LogNotFoundForSubscription (key : string)
| LogReceived (key : string) (value : AtomValue)
| LogStateRequest
| LogCannotRequest
| LogRequested
| LogCannotSend
| LogSent (key : string) (value : AtomValue)
| LogSubscribed (key : string)
| LogUnsubscribed (key : string)
| LogDestroyed.

Inductive Effect : Type :=
| PostMessage (target : Target) (message : Message) (targetOrigin : string)
| Invoke (cb : Callback) (v : AtomValue)
| ConsoleLog (line : LogLine)
| ConsoleWarn (line : LogLine).

(** The errors the sources throw. *)
Inductive JsError : Type :=
| AlreadyRegistered (key : string)   (* Atom with key ... already registered *)
| AtomNotFound (key : string)        (* Atom with key ... not found *)
| ClientAtomNotFound (key : string)  (* Atom ... not found *)
| TypeError.

Definition is_post (e : Effect) : bool :=
  match e with PostMessage _ _ _ => true | _ => false end.

Definition is_console (e : Effect) : bool :=
  match e with ConsoleLog _ | ConsoleWarn _ => true | _ => false end.

Definition posts_to_iframe (f : Iframe) (e : Effect) : bool :=
  match e with PostMessage (ToIframe f' _) _ _ => Nat.eqb f f' | _ => false end.

(** Key and value of an [atom-sync] message, without its timestamp. *)
Definition payload (m : Message) : option (string * AtomValue) :=
  match m with
  | AtomSync k v _ => Some (k, v)
  | AtomSyncRequest _ => None
  end.

(** ** JavaScript [Set] and [Map]

    Both iterate in insertion order.  A [Set] is a list without repetition,
    a [Map] an association list with one entry per key; [Map.set] on a
    present key replaces the value in place. *)
Section Collections.
Variable A : Type.
Variable eqb : A -> A -> bool.

Definition set_has (x : A) (l : list A) : bool := existsb (eqb x) l.

Definition set_add (x : A) (l : list A) : list A :=
  if set_has x l then l else l ++ [x].

Definition set_delete (x : A) (l : list A) : list A :=
  filter (fun y => negb (eqb x y)) l.

Variable V : Type.

Fixpoint map_get (k : A) (m : list (A * V)) : option V :=
  match m with
  | [] => None
  | (k', v) :: m' => if eqb k k' then Some v else map_get k m'
  end.

Definition map_has (k : A) (m : list (A * V)) : bool :=
  match map_get k m with Some _ => true | None => false end.

Fixpoint map_set (k : A) (v : V) (m : list (A * V)) : list (A * V) :=
  match m with
  | [] => [(k, v)]
  | (k', v') :: m' =>
      if eqb k k' then (k, v) :: m' else (k', v') :: map_set k v m'
  end.

Definition map_delete (k : A) (m : list (A * V)) : list (A * V) :=
  filter (fun e => negb (eqb k (fst e))) m.
End Collections.

(** ** The monad of a call: state, thrown error, effects *)

Inductive Outcome (A : Type) : Type :=
| Normal (a : A)
| Thrown (e : JsError).
Arguments Thrown {A} e.

Record Run (S A : Type) : Type := mkRun {
  outcome : Outcome A;
  final : S;
  effects : list Effect
}.

Definition M (S A : Type) : Type := S -> Run S A.

Definition ret {S A} (a : A) : M S A :=
  fun s => mkRun (Normal a) s [].

Definition bind {S A B} (m : M S A) (f : A -> M S B) : M S B :=
  fun s =>
    let r := m s in
    match outcome r with
    | Normal a =>
        let r' := f a (final r) in
        mkRun (outcome r') (final r') (effects r ++ effects r')
    | Thrown e => mkRun (Thrown e) (final r) (effects r)
    end.

Definition throw {S A} (e : JsError) : M S A :=
  fun s => mkRun (Thrown e) s [].

Definition get {S} : M S S := fun s => mkRun (Normal s) s [].

Definition modify {S} (f : S -> S) : M S unit :=
  fun s => mkRun (Normal tt) (f s) [].

Definition emit {S} (e : Effect) : M S unit :=
  fun s => mkRun (Normal tt) s [e].

Definition when {S} (b : bool) (m : M S unit) : M S unit :=
  if b then m else ret tt.

Fixpoint forEach {S A} (l : list A) (f : A -> M S unit) : M S unit :=
  match l with
  | [] => ret tt
  | x :: l' => bind (f x) (fun _ => forEach l' f)
  end.

Declare Scope js_scope.
Delimit Scope js_scope with js.
Notation "x <- m ;; k" := (bind m (fun x => k))
  (at level 61, m at next level, right associativity) : js_scope.
Notation "m ;; k" := (bind m (fun _ => k))
  (at level 61, right associativity) : js_scope.
Open Scope js_scope.

(** A run preceded by effects that were emitted before it. *)
Definition prepend {S A} (l : list Effect) (r : Run S A) : Run S A :=
  mkRun (outcome r) (final r) (l ++ effects r).

(** A call returned without throwing. *)
Definition returns {S A} (r : Run S A) : Prop :=
  exists a, outcome r = Normal a.

Definition raises {S A} (r : Run S A) : Prop :=
  exists e, outcome r = Thrown e.

(** A run that ends in a state in [I] and has emitted only effects in [E]. *)
Definition within {S A} (I : S -> Prop) (E : Effect -> Prop) (r : Run S A)
  : Prop :=
  I (final r) /\ forall e, In e (effects r) -> E e.

(** The property names that an object literal inherits from
    [Object.prototype]: for these [atoms[key]] is not [undefined] although
    nothing was stored under the key. *)
Definition inherited_property (key : string) : bool :=
  existsb (String.eqb key)
    ["__proto__"; "constructor"; "hasOwnProperty"; "isPrototypeOf";
     "propertyIsEnumerable"; "toLocaleString"; "toString"; "valueOf";
     "__defineGetter__"; "__defineSetter__"; "__lookupGetter__";
     "__lookupSetter__"].

(** An effect that, if it is a message, carries the target origin
    [origin]. *)
Definition carries (origin : string) (e : Effect) : Prop :=
  match e with
  | PostMessage _ _ o => o = origin
  | _ => True
  end.

(** ** Subscribers

    A subscriber of a cell is a JavaScript function.  In the JavaScript and
    TypeScript copies the library subscribes one closure per cell, which
    broadcasts under the cell's key; all the others are user callbacks,
    subscribed as they are. *)
Inductive Subscriber : Type :=
| SubBroadcast (key : string)
| SubUser (cb : Callback).

Definition subscriber_eqb (a b : Subscriber) : bool :=
  match a, b with
  | SubBroadcast k, SubBroadcast k' => String.eqb k k'
  | SubUser c, SubUser c' => Nat.eqb c c'
  | _, _ => false
  end.

Definition target_eqb (a b : Target) : bool :=
  match a, b with
  | ToIframe f w, ToIframe f' w' => Nat.eqb f f' && Nat.eqb w w'
  | ToSource w, ToSource w' => Nat.eqb w w'
  | ToParent, ToParent => true
  | _, _ => false
  end.

(** The messages posted to one target, in order. *)
Fixpoint posted_to (t : Target) (l : list Effect) : list Message :=
  match l with
  | [] => []
  | PostMessage t' m _ :: l' =>
      if target_eqb t t' then m :: posted_to t l' else posted_to t l'
  | _ :: l' => posted_to t l'
  end.

(** The values a callback was invoked with, in order. *)
Fixpoint invocations (cb : Callback) (l : list Effect) : list AtomValue :=
  match l with
  | [] => []
  | Invoke cb' v :: l' =>
      if Nat.eqb cb cb' then v :: invocations cb l' else invocations cb l'
  | _ :: l' => invocations cb l'
  end.

(** The keys of the broadcasting closures among the subscribers of a cell,
    in the order of the subscriptions. *)
Definition broadcast_keys (subs : list Subscriber) : list string :=
  flat_map (fun fn =>
              match fn with SubBroadcast k => [k] | SubUser _ => [] end) subs.

(** ** The vendored value container *)
Module Vendored.

(** Modelled from the spec: the vendored reactive value container
    ([createAtom] and [createStore] of the third-party store library) is
    not part of the repository.  The spec gives it as a value holder that
    is constructed with an initial value, has synchronous get and set,
    where set invokes every subscriber, and subscribe with immediate replay
    of the current value, returning a way to unsubscribe.  The record holds
    the value and the subscribed functions (of type [F]) in subscription
    order; the calls of the subscribers are made by the coordinator that
    owns the cell ([atom_set], [atom_subscribe], [store_send],
    [store_subscribe] of each copy). *)
Record Cell (F : Type) : Type := mkCell {
  value : AtomValue;
  subscribers : list F
}.

Section Methods.
Variable F : Type.
Variable eqb : F -> F -> bool.

Definition create (initialValue : AtomValue) : Cell F :=
  mkCell initialValue [].

Definition cell_set (v : AtomValue) (c : Cell F) : Cell F :=
  mkCell v (subscribers c).

Definition cell_subscribe (sub : F) (c : Cell F) : Cell F :=
  mkCell (value c) (set_add eqb sub (subscribers c)).

Definition cell_unsubscribe (sub : F) (c : Cell F) : Cell F :=
  mkCell (value c) (set_delete eqb sub (subscribers c)).
End Methods.

End Vendored.

(** ** The TypeScript copy *)
Module TS.
Import Vendored.

(** [ReturnType<typeof createAtom>] *)
Definition Atom : Type := Cell Subscriber.

(** [IframeSyncOptions]: both fields optional. *)
Record IframeSyncOptions : Type := {
  opt_targetOrigin : option string;
  opt_debug : option bool
}.

(** [Required<IframeSyncOptions>] *)
Record Options : Type := {
  targetOrigin : string;
  debug : bool
}.

(** The fields of the class, then the part of the browser the instance
    works against: the content window of each iframe element, the load
    listeners this instance has attached (one entry per [addEventListener]
    call, naming the element), and the clock read by [Date.now()], whose
    n-th reading is [now n]. *)
Record State : Type := mkState {
  atoms : list (string * Atom);
  iframes : list Iframe;
  options : Options;
  isRoot : bool;
  contentWindow : Iframe -> option Window;
  loadListeners : list Iframe;
  now : nat -> Z;
  ticks : nat
}.

Definition with_atoms (a : list (string * Atom)) (s : State) : State :=
  mkState a (iframes s) (options s) (isRoot s) (contentWindow s)
          (loadListeners s) (now s) (ticks s).

Definition with_iframes (l : list Iframe) (s : State) : State :=
  mkState (atoms s) l (options s) (isRoot s) (contentWindow s)
          (loadListeners s) (now s) (ticks s).

Definition with_loadListeners (l : list Iframe) (s : State) : State :=
  mkState (atoms s) (iframes s) (options s) (isRoot s) (contentWindow s)
          l (now s) (ticks s).

Definition with_contentWindow (d : Iframe -> option Window) (s : State)
  : State :=
  mkState (atoms s) (iframes s) (options s) (isRoot s) d
          (loadListeners s) (now s) (ticks s).

Definition with_ticks (n : nat) (s : State) : State :=
  mkState (atoms s) (iframes s) (options s) (isRoot s) (contentWindow s)
          (loadListeners s) (now s) n.

(** [Date.now()] *)
Definition Date_now : M State Z :=
  fun s => mkRun (Normal (now s (ticks s))) (with_ticks (S (ticks s)) s) [].

(** [console.log] / [console.warn] under [if (this.options.debug)] *)
Definition debug_log (line : LogLine) : M State unit :=
  s <- get ;; when (debug (options s)) (emit (ConsoleLog line)).

Definition debug_warn (line : LogLine) : M State unit :=
  s <- get ;; when (debug (options s)) (emit (ConsoleWarn line)).

(** [iframe.contentWindow?.postMessage(message, this.options.targetOrigin)] *)
Definition post_to_iframe (iframe : Iframe) (message : Message)
  : M State unit :=
  s <- get ;;
  match contentWindow s iframe with
  | Some w =>
      emit (PostMessage (ToIframe iframe w) message (targetOrigin (options s)))
  | None => ret tt
  end.

(** [constructor(options = {})], run in a window that is its own top
    ([isTop]) or not, against a document and a clock.  The message
    listener it installs is [handleMessage] below. *)
Definition constructor (opts : IframeSyncOptions) (isTop : bool)
    (dom : Iframe -> option Window) (clock : nat -> Z) : Run State unit :=
  let o := {| targetOrigin :=
                match opt_targetOrigin opts with Some t => t | None => "*" end;
              debug :=
                match opt_debug opts with Some d => d | None => false end |} in
  debug_log (LogInitialized isTop)
    (mkState [] [] o isTop dom [] clock 0).

Definition no_options : IframeSyncOptions :=
  {| opt_targetOrigin := None; opt_debug := None |}.

(** [broadcastToIframes(key, value)] *)
Definition broadcastToIframes (key : string) (value : AtomValue)
  : M State unit :=
  ts <- Date_now ;;
  s <- get ;;
  forEach (iframes s) (fun iframe =>
    post_to_iframe iframe (AtomSync key value ts)) ;;
  debug_log (LogBroadcasted key value).

(** Calling a subscriber function with a value. *)
Definition call_subscriber (sub : Subscriber) (v : AtomValue)
  : M State unit :=
  match sub with
  | SubBroadcast key => broadcastToIframes key v
  | SubUser cb => emit (Invoke cb v)
  end.

(** The methods of the atom registered under [key].  The map never drops or
    replaces an entry, so the atom object of a key is the entry of the map;
    a key without entry has no atom object and the method does nothing. *)
Definition atom_get (key : string) : M State AtomValue :=
  s <- get ;;
  match map_get String.eqb key (atoms s) with
  | Some a => ret (value a)
  | None => ret VUndefined
  end.

Definition atom_set (key : string) (v : AtomValue) : M State unit :=
  s <- get ;;
  match map_get String.eqb key (atoms s) with
  | Some a =>
      modify (with_atoms (map_set String.eqb key (cell_set v a) (atoms s))) ;;
      forEach (subscribers a) (fun sub => call_subscriber sub v)
  | None => ret tt
  end.

Definition atom_subscribe (key : string) (sub : Subscriber)
  : M State unit :=
  s <- get ;;
  match map_get String.eqb key (atoms s) with
  | Some a =>
      modify (with_atoms
                (map_set String.eqb key (cell_subscribe subscriber_eqb sub a) (atoms s))) ;;
      call_subscriber sub (value a)
  | None => ret tt
  end.

(** [subscription.unsubscribe()] *)
Definition atom_unsubscribe (key : string) (sub : Subscriber)
  : M State unit :=
  s <- get ;;
  match map_get String.eqb key (atoms s) with
  | Some a =>
      modify (with_atoms
                (map_set String.eqb key (cell_unsubscribe subscriber_eqb sub a) (atoms s)))
  | None => ret tt
  end.

(** [registerAtom(config)]; the atom it returns is addressed by its key. *)
Definition registerAtom (key : string) (initialValue : AtomValue)
  : M State unit :=
  s <- get ;;
  if map_has String.eqb key (atoms s) then throw (AlreadyRegistered key)
  else
    modify (with_atoms
              (map_set String.eqb key (create Subscriber initialValue) (atoms s))) ;;
    when (isRoot s) (atom_subscribe key (SubBroadcast key)) ;;
    debug_log (LogRegisteredAtom key initialValue).

(** The cell a fresh registration creates: in a root coordinator it
    carries the broadcasting subscriber from the start. *)
Definition fresh_cell (root : bool) (key : string) (v : AtomValue) : Atom :=
  if root then cell_subscribe subscriber_eqb (SubBroadcast key)
                 (create Subscriber v)
  else create Subscriber v.

(** [getAtom(key)] *)
Definition getAtom (key : string) : M State Atom :=
  s <- get ;;
  match map_get String.eqb key (atoms s) with
  | Some a => ret a
  | None => throw (AtomNotFound key)
  end.

(** [registerIframe(iframe)] *)
Definition registerIframe (iframe : Iframe) : M State unit :=
  modify (fun s => with_iframes (set_add Nat.eqb iframe (iframes s)) s) ;;
  modify (fun s => with_loadListeners (loadListeners s ++ [iframe]) s) ;;
  debug_log (LogRegisteredIframe iframe).

(** [unregisterIframe(iframe)] *)
Definition unregisterIframe (iframe : Iframe) : M State unit :=
  modify (fun s => with_iframes (set_delete Nat.eqb iframe (iframes s)) s) ;;
  debug_log (LogUnregisteredIframe iframe).

(** [syncToIframe(iframe)] *)
Definition syncToIframe (iframe : Iframe) : M State unit :=
  s <- get ;;
  forEach (atoms s) (fun entry =>
    ts <- Date_now ;;
    post_to_iframe iframe (AtomSync (fst entry) (value (snd entry)) ts)) ;;
  debug_log (LogSyncedAll iframe).

(** The listener of [setupMessageListener()]. *)
Definition handleMessage (event : MessageEvent) : M State unit :=
  match data event with
  | DataNullish => throw TypeError
  | DataOther => ret tt
  | DataMessage (AtomSync key v _) =>
      s <- get ;;
      match map_get String.eqb key (atoms s) with
      | None => debug_warn (LogUnknownAtom key)
      | Some _ =>
          atom_set key v ;;
          debug_log (LogReceived key v)
      end
  | DataMessage (AtomSyncRequest _) =>
      s <- get ;;
      if isRoot s then
        debug_log LogStateRequest ;;
        forEach (atoms s) (fun entry =>
          match source event with
          | Some w =>
              ts <- Date_now ;;
              emit (PostMessage (ToSource w)
                      (AtomSync (fst entry) (value (snd entry)) ts)
                      (targetOrigin (options s)))
          | None => ret tt
          end)
      else ret tt
  end.

(** [requestStateFromParent()] *)
Definition requestStateFromParent : M State unit :=
  s <- get ;;
  if isRoot s then debug_warn LogCannotRequest
  else
    ts <- Date_now ;;
    emit (PostMessage ToParent (AtomSyncRequest ts)
            (targetOrigin (options s))) ;;
    debug_log LogRequested.

(** [sendToParent(key, value)] *)
Definition sendToParent (key : string) (v : AtomValue) : M State unit :=
  s <- get ;;
  if isRoot s then debug_warn LogCannotSend
  else
    ts <- Date_now ;;
    emit (PostMessage ToParent (AtomSync key v ts)
            (targetOrigin (options s))) ;;
    debug_log (LogSent key v).

(** A [load] event on an iframe element runs the listeners attached to
    it, in the order they were attached; each is
    [() => this.syncToIframe(iframe)]. *)
Definition fire_load (iframe : Iframe) : M State unit :=
  s <- get ;;
  forEach (filter (Nat.eqb iframe) (loadListeners s))
          (fun _ => syncToIframe iframe).

(** What can happen to a coordinator: the calls of its interface and of
    the atoms it has handed out (reached here through [getAtom]), the two
    browser events it listens to, and a change of the content window of
    an iframe element. *)
Inductive Op : Type :=
| RegisterAtom (key : string) (initialValue : AtomValue)
| GetAtom (key : string)
| AtomGet (key : string)
| AtomSet (key : string) (v : AtomValue)
| AtomSubscribe (key : string) (cb : Callback)
| AtomUnsubscribe (key : string) (cb : Callback)
| RegisterIframe (f : Iframe)
| UnregisterIframe (f : Iframe)
| RequestStateFromParent
| SendToParent (key : string) (v : AtomValue)
| MessageArrives (event : MessageEvent)
| LoadFires (f : Iframe)
| ContentWindowBecomes (f : Iframe) (w : option Window).

Definition step (op : Op) : M State unit :=
  match op with
  | RegisterAtom key v => registerAtom key v
  | GetAtom key => _ <- getAtom key ;; ret tt
  | AtomGet key => _ <- getAtom key ;; _ <- atom_get key ;; ret tt
  | AtomSet key v => _ <- getAtom key ;; atom_set key v
  | AtomSubscribe key cb => _ <- getAtom key ;; atom_subscribe key (SubUser cb)
  | AtomUnsubscribe key cb =>
      _ <- getAtom key ;; atom_unsubscribe key (SubUser cb)
  | RegisterIframe f => registerIframe f
  | UnregisterIframe f => unregisterIframe f
  | RequestStateFromParent => requestStateFromParent
  | SendToParent key v => sendToParent key v
  | MessageArrives event => handleMessage event
  | LoadFires f => fire_load f
  | ContentWindowBecomes f w =>
      modify (fun s =>
        with_contentWindow
          (fun g => if Nat.eqb g f then w else contentWindow s g) s)
  end.

(** The state after a sequence of operations; an operation that throws
    leaves the state as it was when it threw, and the caller goes on. *)
Definition run (ops : list Op) (s : State) : State :=
  fold_left (fun s op => final (step op s)) ops s.

Fixpoint trace (ops : list Op) (s : State) : list Effect :=
  match ops with
  | [] => []
  | op :: ops' => effects (step op s) ++ trace ops' (final (step op s))
  end.

(** The states of a coordinator constructed in a top-level window. *)
Definition reachable_root (s : State) : Prop :=
  exists opts dom clock ops,
    s = run ops (final (constructor opts true dom clock)).

(** Every cell of the map carries the broadcasting subscriber of its
    key. *)
Definition broadcast_wired (s : State) : Prop :=
  forall k a, map_get String.eqb k (atoms s) = Some a ->
              In (SubBroadcast k) (subscribers a).

(** The key and current value of every cell, in the order of the map. *)
Definition cells (s : State) : list (option (string * AtomValue)) :=
  map (fun e => Some (fst e, value (snd e))) (atoms s).

(** The states of a coordinator constructed in a window that has a
    parent. *)
Definition reachable_child (s : State) : Prop :=
  exists opts dom clock ops,
    s = run ops (final (constructor opts false dom clock)).

(** No cell carries a broadcasting subscriber. *)
Definition unwired (s : State) : Prop :=
  forall k a, map_get String.eqb k (atoms s) = Some a ->
              broadcast_keys (subscribers a) = [].

(** *** [createChildClient] *)

(** [ChildAtomConfig]; an absent [initialValue] reads as [undefined]. *)
Record ChildAtomConfig : Type := {
  cfg_key : string;
  cfg_initialValue : AtomValue
}.

(** The client: its [sync] instance and the keys of its [atoms] record,
    whose values are the atoms that [sync] holds under these keys.
    [atoms] is an object literal: besides the configured keys it answers
    to the property names it inherits ([inherited_property]); had the key
    [__proto__] been configured it would inherit the members of that atom
    as well, which the statements about keys that are not configured
    exclude. *)
Record Client : Type := mkClient {
  sync : State;
  record : list string
}.

Definition on_sync {A} (m : M State A) : M Client A :=
  fun c =>
    let r := m (sync c) in
    mkRun (outcome r) (mkClient (final r) (record c)) (effects r).

Definition createChildClient (atomConfigs : list ChildAtomConfig)
    (opts : IframeSyncOptions) (isTop : bool)
    (dom : Iframe -> option Window) (clock : nat -> Z) : Run Client unit :=
  let r0 := constructor opts isTop dom clock in
  let body : M Client unit :=
    forEach atomConfigs (fun config =>
      on_sync (registerAtom (cfg_key config)
                 (if is_defined (cfg_initialValue config)
                  then cfg_initialValue config else VNull)) ;;
      modify (fun c =>
        mkClient (sync c) (set_add String.eqb (cfg_key config) (record c)))) ;;
    on_sync requestStateFromParent in
  let r := body (mkClient (final r0) []) in
  mkRun (outcome r) (final r) (effects r0 ++ effects r).

(** [config.initialValue !== undefined ? config.initialValue : null] *)
Definition initial (config : ChildAtomConfig) : AtomValue :=
  if is_defined (cfg_initialValue config) then cfg_initialValue config
  else VNull.

(** [const atom = atoms[key]; if (!atom) throw ...], up to the first use
    of [atom].  For a key that was not configured but names an inherited
    property, [atoms[key]] is that member of [Object.prototype]: it passes
    the guard and has no [get], [set] or [subscribe], so the call that
    follows the guard throws a [TypeError]. *)
Definition client_atom (key : string) : M Client unit :=
  c <- get ;;
  if set_has String.eqb key (record c) then ret tt
  else if inherited_property key then throw TypeError
  else throw (ClientAtomNotFound key).

Definition updateAtom (key : string) (v : AtomValue) : M Client unit :=
  client_atom key ;;
  on_sync (atom_set key v) ;;
  on_sync (sendToParent key v).

Definition getAtomValue (key : string) : M Client AtomValue :=
  client_atom key ;;
  on_sync (atom_get key).

(** [subscribeToAtom(key, callback)]; the function it returns is
    [unsubscribeFromAtom key callback]. *)
Definition subscribeToAtom (key : string) (cb : Callback) : M Client unit :=
  client_atom key ;;
  on_sync (atom_subscribe key (SubUser cb)).

Definition unsubscribeFromAtom (key : string) (cb : Callback)
  : M Client unit :=
  on_sync (atom_unsubscribe key (SubUser cb)).

Inductive ClientOp : Type :=
| OnSync (op : Op)
| UpdateAtom (key : string) (v : AtomValue)
| GetAtomValue (key : string)
| SubscribeToAtom (key : string) (cb : Callback)
| UnsubscribeFromAtom (key : string) (cb : Callback).

Definition client_step (op : ClientOp) : M Client unit :=
  match op with
  | OnSync o => on_sync (step o)
  | UpdateAtom key v => updateAtom key v
  | GetAtomValue key => _ <- getAtomValue key ;; ret tt
  | SubscribeToAtom key cb => subscribeToAtom key cb
  | UnsubscribeFromAtom key cb => unsubscribeFromAtom key cb
  end.

Definition client_run (ops : list ClientOp) (c : Client) : Client :=
  fold_left (fun c op => final (client_step op c)) ops c.

(** The message events that posted messages produce in the window of the
    client, handled one after the other by the listener of its
    coordinator; [src] is the window that posted them. *)
Definition deliver (msgs : list Message) (src : option Window)
  : M Client unit :=
  forEach msgs (fun m =>
    on_sync (handleMessage {| data := DataMessage m; source := src |})).

(** Callback [cb] is not among the subscribers of the cell of [key]. *)
Definition not_subscribed (key : string) (cb : Callback) (s : State)
  : Prop :=
  forall a, map_get String.eqb key (atoms s) = Some a ->
            ~ In (SubUser cb) (subscribers a).

(** The client operations that subscribe [cb] to the cell of [key]. *)
Definition subscribes (key : string) (cb : Callback) (op : ClientOp)
  : Prop :=
  op = SubscribeToAtom key cb \/ op = OnSync (AtomSubscribe key cb).

End TS.

(** ** The JavaScript copy *)
Module JS.

(** The atom object literal of [registerAtom]: its [value] and
    [subscribers] fields.  Its methods are [atom_get], [atom_set],
    [atom_subscribe] and [atom_unsubscribe] below. *)
Record Atom : Type := mkAtom {
  value : AtomValue;
  subscribers : list Subscriber
}.

(** The [options] argument: each field may be absent. *)
Record OptionsArg : Type := {
  opt_targetOrigin : option string;
  opt_debug : option bool
}.

Record Options : Type := {
  targetOrigin : string;
  debug : bool
}.

(** Atom objects live in a heap and are named by their address: the map
    holds addresses, and so does every caller that kept the result of
    [registerAtom].  The other fields are as in the TypeScript copy. *)
Record State : Type := mkState {
  heap : list Atom;
  atoms : list (string * nat);
  iframes : list Iframe;
  options : Options;
  isRoot : bool;
  contentWindow : Iframe -> option Window;
  loadListeners : list Iframe;
  now : nat -> Z;
  ticks : nat
}.

Fixpoint heap_update (h : nat) (a : Atom) (l : list Atom) : list Atom :=
  match l, h with
  | [], _ => []
  | _ :: t, O => a :: t
  | x :: t, S h' => x :: heap_update h' a t
  end.

Definition with_heap (hp : list Atom) (s : State) : State :=
  mkState hp (atoms s) (iframes s) (options s) (isRoot s) (contentWindow s)
          (loadListeners s) (now s) (ticks s).

Definition with_atoms (a : list (string * nat)) (s : State) : State :=
  mkState (heap s) a (iframes s) (options s) (isRoot s) (contentWindow s)
          (loadListeners s) (now s) (ticks s).

Definition with_iframes (l : list Iframe) (s : State) : State :=
  mkState (heap s) (atoms s) l (options s) (isRoot s) (contentWindow s)
          (loadListeners s) (now s) (ticks s).

Definition with_loadListeners (l : list Iframe) (s : State) : State :=
  mkState (heap s) (atoms s) (iframes s) (options s) (isRoot s)
          (contentWindow s) l (now s) (ticks s).

Definition with_contentWindow (d : Iframe -> option Window) (s : State)
  : State :=
  mkState (heap s) (atoms s) (iframes s) (options s) (isRoot s) d
          (loadListeners s) (now s) (ticks s).

Definition with_ticks (n : nat) (s : State) : State :=
  mkState (heap s) (atoms s) (iframes s) (options s) (isRoot s)
          (contentWindow s) (loadListeners s) (now s) n.

Definition Date_now : M State Z :=
  fun s => mkRun (Normal (now s (ticks s))) (with_ticks (S (ticks s)) s) [].

Definition debug_log (line : LogLine) : M State unit :=
  s <- get ;; when (debug (options s)) (emit (ConsoleLog line)).

Definition debug_warn (line : LogLine) : M State unit :=
  s <- get ;; when (debug (options s)) (emit (ConsoleWarn line)).

Definition post_to_iframe (iframe : Iframe) (message : Message)
  : M State unit :=
  s <- get ;;
  match contentWindow s iframe with
  | Some w =>
      emit (PostMessage (ToIframe iframe w) message (targetOrigin (options s)))
  | None => ret tt
  end.

(** [constructor(options = {})]:
    [this.options = { targetOrigin: '*', debug: true, ...options }]. *)
Definition constructor (opts : OptionsArg) (isTop : bool)
    (dom : Iframe -> option Window) (clock : nat -> Z) : Run State unit :=
  let o := {| targetOrigin :=
                match opt_targetOrigin opts with Some t => t | None => "*" end;
              debug :=
                match opt_debug opts with Some d => d | None => true end |} in
  debug_log (LogInitialized isTop)
    (mkState [] [] [] o isTop dom [] clock 0).

Definition no_options : OptionsArg :=
  {| opt_targetOrigin := None; opt_debug := None |}.

(** [broadcastToIframes(key, value)] *)
Definition broadcastToIframes (key : string) (v : AtomValue)
  : M State unit :=
  ts <- Date_now ;;
  s <- get ;;
  forEach (iframes s) (fun iframe =>
    post_to_iframe iframe (AtomSync key v ts)) ;;
  debug_log (LogBroadcasted key v).

Definition call_subscriber (sub : Subscriber) (v : AtomValue)
  : M State unit :=
  match sub with
  | SubBroadcast key => broadcastToIframes key v
  | SubUser cb => emit (Invoke cb v)
  end.

(** [get: function() { return this.value; }] *)
Definition atom_get (h : nat) : M State AtomValue :=
  s <- get ;;
  match nth_error (heap s) h with
  | Some a => ret (value a)
  | None => ret VUndefined
  end.

(** [set: function(newValue) { this.value = newValue;
      this.subscribers.forEach(fn => fn(newValue)); }] *)
Definition atom_set (h : nat) (newValue : AtomValue) : M State unit :=
  s <- get ;;
  match nth_error (heap s) h with
  | Some a =>
      modify (with_heap
                (heap_update h (mkAtom newValue (subscribers a)) (heap s))) ;;
      forEach (subscribers a) (fun fn => call_subscriber fn newValue)
  | None => ret tt
  end.

(** [subscribe: function(fn) { this.subscribers.add(fn); fn(this.value);
      return () => this.subscribers.delete(fn); }] *)
Definition atom_subscribe (h : nat) (fn : Subscriber) : M State unit :=
  s <- get ;;
  match nth_error (heap s) h with
  | Some a =>
      modify (with_heap
                (heap_update h
                   (mkAtom (value a)
                           (set_add subscriber_eqb fn (subscribers a)))
                   (heap s))) ;;
      call_subscriber fn (value a)
  | None => ret tt
  end.

(** The function returned by [subscribe]. *)
Definition atom_unsubscribe (h : nat) (fn : Subscriber) : M State unit :=
  s <- get ;;
  match nth_error (heap s) h with
  | Some a =>
      modify (with_heap
                (heap_update h
                   (mkAtom (value a)
                           (set_delete subscriber_eqb fn (subscribers a)))
                   (heap s)))
  | None => ret tt
  end.

(** [registerAtom(config)]; returns the address of the new atom. *)
Definition registerAtom (key : string) (initialValue : AtomValue)
  : M State nat :=
  s <- get ;;
  let h := List.length (heap s) in
  modify (with_heap (heap s ++ [mkAtom initialValue []])) ;;
  modify (fun s => with_atoms (map_set String.eqb key h (atoms s)) s) ;;
  when (isRoot s) (atom_subscribe h (SubBroadcast key)) ;;
  debug_log (LogRegisteredAtom key initialValue) ;;
  ret h.

(** [getAtom(key)] *)
Definition getAtom (key : string) : M State nat :=
  s <- get ;;
  match map_get String.eqb key (atoms s) with
  | Some h => ret h
  | None => throw (AtomNotFound key)
  end.

(** [registerIframe(iframe)] *)
Definition registerIframe (iframe : Iframe) : M State unit :=
  modify (fun s => with_iframes (set_add Nat.eqb iframe (iframes s)) s) ;;
  modify (fun s => with_loadListeners (loadListeners s ++ [iframe]) s) ;;
  debug_log (LogRegisteredIframe iframe).

(** [syncToIframe(iframe)]; [atom.get()] reads the heap.  The message is
    an argument of the optional call [iframe.contentWindow?.postMessage],
    so without a content window neither the atom nor the clock is read. *)
Definition syncToIframe (iframe : Iframe) : M State unit :=
  s <- get ;;
  forEach (atoms s) (fun entry =>
    s' <- get ;;
    match contentWindow s' iframe with
    | Some w =>
        v <- atom_get (snd entry) ;;
        ts <- Date_now ;;
        emit (PostMessage (ToIframe iframe w) (AtomSync (fst entry) v ts)
                (targetOrigin (options s')))
    | None => ret tt
    end) ;;
  debug_log (LogSyncedAll iframe).

(** The listener of [setupMessageListener()]. *)
Definition handleMessage (event : MessageEvent) : M State unit :=
  match data event with
  | DataNullish => throw TypeError
  | DataOther => ret tt
  | DataMessage (AtomSync key v _) =>
      s <- get ;;
      match map_get String.eqb key (atoms s) with
      | Some h =>
          atom_set h v ;;
          debug_log (LogReceived key v)
      | None => ret tt
      end
  | DataMessage (AtomSyncRequest _) =>
      s <- get ;;
      if isRoot s then
        debug_log LogStateRequest ;;
        forEach (atoms s) (fun entry =>
          match source event with
          | Some w =>
              v <- atom_get (snd entry) ;;
              ts <- Date_now ;;
              emit (PostMessage (ToSource w) (AtomSync (fst entry) v ts)
                      (targetOrigin (options s)))
          | None => ret tt
          end)
      else ret tt
  end.

(** [requestStateFromParent()] *)
Definition requestStateFromParent : M State unit :=
  s <- get ;;
  if isRoot s then debug_warn LogCannotRequest
  else
    ts <- Date_now ;;
    emit (PostMessage ToParent (AtomSyncRequest ts)
            (targetOrigin (options s))) ;;
    debug_log LogRequested.

(** [sendToParent(key, value)] *)
Definition sendToParent (key : string) (v : AtomValue) : M State unit :=
  s <- get ;;
  if isRoot s then debug_warn LogCannotSend
  else
    ts <- Date_now ;;
    emit (PostMessage ToParent (AtomSync key v ts)
            (targetOrigin (options s))) ;;
    debug_log (LogSent key v).

Definition fire_load (iframe : Iframe) : M State unit :=
  s <- get ;;
  forEach (filter (Nat.eqb iframe) (loadListeners s))
          (fun _ => syncToIframe iframe).

(** The calls of the interface, the methods of an atom object held by its
    address, the two browser events and a change of a content window. *)
Inductive Op : Type :=
| RegisterAtom (key : string) (initialValue : AtomValue)
| GetAtom (key : string)
| AtomGet (h : nat)
| AtomSet (h : nat) (v : AtomValue)
| AtomSubscribe (h : nat) (cb : Callback)
| AtomUnsubscribe (h : nat) (cb : Callback)
| RegisterIframe (f : Iframe)
| RequestStateFromParent
| SendToParent (key : string) (v : AtomValue)
| MessageArrives (event : MessageEvent)
| LoadFires (f : Iframe)
| ContentWindowBecomes (f : Iframe) (w : option Window).

Definition step (op : Op) : M State unit :=
  match op with
  | RegisterAtom key v => _ <- registerAtom key v ;; ret tt
  | GetAtom key => _ <- getAtom key ;; ret tt
  | AtomGet h => _ <- atom_get h ;; ret tt
  | AtomSet h v => atom_set h v
  | AtomSubscribe h cb => atom_subscribe h (SubUser cb)
  | AtomUnsubscribe h cb => atom_unsubscribe h (SubUser cb)
  | RegisterIframe f => registerIframe f
  | RequestStateFromParent => requestStateFromParent
  | SendToParent key v => sendToParent key v
  | MessageArrives event => handleMessage event
  | LoadFires f => fire_load f
  | ContentWindowBecomes f w =>
      modify (fun s =>
        with_contentWindow
          (fun g => if Nat.eqb g f then w else contentWindow s g) s)
  end.

Definition run (ops : list Op) (s : State) : State :=
  fold_left (fun s op => final (step op s)) ops s.

(** The key of every entry of the map with the current value of the atom
    it points to, in the order of the map. *)
Definition cells (s : State) : list (option (string * AtomValue)) :=
  map (fun e =>
         Some (fst e,
               match nth_error (heap s) (snd e) with
               | Some a => value a
               | None => VUndefined
               end)) (atoms s).

(** Callback [cb] is not among the subscribers of the atom at [h]. *)
Definition not_subscribed (h : nat) (cb : Callback) (s : State) : Prop :=
  forall a, nth_error (heap s) h = Some a ->
            ~ In (SubUser cb) (subscribers a).

(** The effects of a sequence of operations, in order. *)
Fixpoint trace (ops : list Op) (s : State) : list Effect :=
  match ops with
  | [] => []
  | op :: ops' => effects (step op s) ++ trace ops' (final (step op s))
  end.

(** The states of a coordinator constructed in a top-level window, and in
    a window that has a parent. *)
Definition reachable_root (s : State) : Prop :=
  exists opts dom clock ops,
    s = run ops (final (constructor opts true dom clock)).

Definition reachable_child (s : State) : Prop :=
  exists opts dom clock ops,
    s = run ops (final (constructor opts false dom clock)).

(** No iframe element is twice in the set, and every atom of the map
    carries the broadcasting closure of its key, once, and no other. *)
Definition wired (s : State) : Prop :=
  NoDup (iframes s) /\
  forall key h, map_get String.eqb key (atoms s) = Some h ->
    exists a, nth_error (heap s) h = Some a /\
              broadcast_keys (subscribers a) = [key].

(** No atom carries a broadcasting closure. *)
Definition unwired (s : State) : Prop :=
  forall h a, nth_error (heap s) h = Some a ->
              broadcast_keys (subscribers a) = [].

(** *** [createChildClient] *)

(** An entry of [atomConfigs]; an absent [initialValue] reads as
    [undefined]. *)
Record ChildAtomConfig : Type := {
  cfg_key : string;
  cfg_initialValue : AtomValue
}.

(** The client: its [sync] instance and its [atoms] object, which maps a
    key to the atom object that [registerAtom] returned for it.  [atoms]
    is an object literal: besides the configured keys it answers to the
    property names it inherits ([inherited_property]); had the key
    [__proto__] been configured it would inherit the members of that atom
    as well, which the statements about keys that are not configured
    exclude. *)
Record Client : Type := mkClient {
  sync : State;
  record : list (string * nat)
}.

Definition on_sync {A} (m : M State A) : M Client A :=
  fun c =>
    let r := m (sync c) in
    mkRun (outcome r) (mkClient (final r) (record c)) (effects r).

Definition createChildClient (atomConfigs : list ChildAtomConfig)
    (opts : OptionsArg) (isTop : bool)
    (dom : Iframe -> option Window) (clock : nat -> Z) : Run Client unit :=
  let r0 := constructor opts isTop dom clock in
  let body : M Client unit :=
    forEach atomConfigs (fun config =>
      h <- on_sync (registerAtom (cfg_key config)
                      (if is_defined (cfg_initialValue config)
                       then cfg_initialValue config else VNull)) ;;
      modify (fun c =>
        mkClient (sync c)
                 (map_set String.eqb (cfg_key config) h (record c)))) ;;
    on_sync requestStateFromParent in
  let r := body (mkClient (final r0) []) in
  mkRun (outcome r) (final r) (effects r0 ++ effects r).

(** [const atom = atoms[key]; if (!atom) throw ...], up to the first use
    of [atom].  For a key that was not configured but names an inherited
    property, [atoms[key]] is that member of [Object.prototype]: it passes
    the guard and has no [get], [set] or [subscribe], so the call that
    follows the guard throws a [TypeError]. *)
Definition client_atom (key : string) : M Client nat :=
  c <- get ;;
  match map_get String.eqb key (record c) with
  | Some h => ret h
  | None =>
      if inherited_property key then throw TypeError
      else throw (ClientAtomNotFound key)
  end.

Definition updateAtom (key : string) (v : AtomValue) : M Client unit :=
  h <- client_atom key ;;
  on_sync (atom_set h v) ;;
  on_sync (sendToParent key v).

Definition getAtomValue (key : string) : M Client AtomValue :=
  h <- client_atom key ;;
  on_sync (atom_get h).

(** [subscribeToAtom(key, callback)]; the function it returns is the one
    [atom.subscribe] returned, [atom_unsubscribe] at the same atom. *)
Definition subscribeToAtom (key : string) (cb : Callback) : M Client unit :=
  h <- client_atom key ;;
  on_sync (atom_subscribe h (SubUser cb)).

(** The operations of a client: those of its [sync] instance and its own
    three methods. *)
Inductive ClientOp : Type :=
| OnSync (op : Op)
| UpdateAtom (key : string) (v : AtomValue)
| GetAtomValue (key : string)
| SubscribeToAtom (key : string) (cb : Callback).

Definition client_step (op : ClientOp) : M Client unit :=
  match op with
  | OnSync o => on_sync (step o)
  | UpdateAtom key v => updateAtom key v
  | GetAtomValue key => _ <- getAtomValue key ;; ret tt
  | SubscribeToAtom key cb => subscribeToAtom key cb
  end.

Definition client_run (ops : list ClientOp) (c : Client) : Client :=
  fold_left (fun c op => final (client_step op c)) ops c.

(** The operations that put a new atom under [key] in the [sync]
    instance. *)
Definition registers (key : string) (op : ClientOp) : bool :=
  match op with
  | OnSync (RegisterAtom k _) => String.eqb key k
  | _ => false
  end.

(** The atom the client holds for [key], if any, is an atom of the heap
    and the one that its [sync] instance has under the key. *)
Definition aligned (key : string) (c : Client) : Prop :=
  forall h, map_get String.eqb key (record c) = Some h ->
            map_get String.eqb key (atoms (sync c)) = Some h /\
            h < List.length (heap (sync c)).

(** [config.initialValue !== undefined ? config.initialValue : null] *)
Definition initial (config : ChildAtomConfig) : AtomValue :=
  if is_defined (cfg_initialValue config) then cfg_initialValue config
  else VNull.

End JS.

(** ** The svelte demo copy: the parent-side coordinator *)
Module Svelte.
Import Vendored.

(** The functions subscribed to a store: the broadcasting closure of
    [registerAtom], and the wrappers [(snapshot) => callback(...)] made by
    [subscribe]; every wrapper is a new function object, told apart by
    [id]. *)
Inductive Subscriber : Type :=
| SubBroadcast (key : string)
| SubWrapper (id : nat) (cb : Callback).

Definition subscriber_eqb (a b : Subscriber) : bool :=
  match a, b with
  | SubBroadcast k, SubBroadcast k' => String.eqb k k'
  | SubWrapper i c, SubWrapper i' c' => Nat.eqb i i' && Nat.eqb c c'
  | _, _ => false
  end.

Definition Store : Type := Cell Subscriber.

Record IframeSyncOptions : Type := {
  opt_targetOrigin : option string;
  opt_debug : option bool
}.

(** The fields of the class; [stores] maps a key to its store, whose
    context is the one field [value].  [nextWrapper] numbers the wrapper
    closures made by [subscribe].  The rest is the browser, as in the
    other copies. *)
Record State : Type := mkState {
  stores : list (string * Store);
  iframes : list Iframe;
  targetOrigin : string;
  debug : bool;
  nextWrapper : nat;
  contentWindow : Iframe -> option Window;
  loadListeners : list Iframe;
  now : nat -> Z;
  ticks : nat
}.

Definition with_stores (m : list (string * Store)) (s : State) : State :=
  mkState m (iframes s) (targetOrigin s) (debug s) (nextWrapper s)
          (contentWindow s) (loadListeners s) (now s) (ticks s).

Definition with_iframes (l : list Iframe) (s : State) : State :=
  mkState (stores s) l (targetOrigin s) (debug s) (nextWrapper s)
          (contentWindow s) (loadListeners s) (now s) (ticks s).

Definition with_nextWrapper (n : nat) (s : State) : State :=
  mkState (stores s) (iframes s) (targetOrigin s) (debug s) n
          (contentWindow s) (loadListeners s) (now s) (ticks s).

Definition with_loadListeners (l : list Iframe) (s : State) : State :=
  mkState (stores s) (iframes s) (targetOrigin s) (debug s) (nextWrapper s)
          (contentWindow s) l (now s) (ticks s).

Definition with_contentWindow (d : Iframe -> option Window) (s : State)
  : State :=
  mkState (stores s) (iframes s) (targetOrigin s) (debug s) (nextWrapper s)
          d (loadListeners s) (now s) (ticks s).

Definition with_ticks (n : nat) (s : State) : State :=
  mkState (stores s) (iframes s) (targetOrigin s) (debug s) (nextWrapper s)
          (contentWindow s) (loadListeners s) (now s) n.

Definition Date_now : M State Z :=
  fun s => mkRun (Normal (now s (ticks s))) (with_ticks (S (ticks s)) s) [].

(** [log(...args)] *)
Definition log (line : LogLine) : M State unit :=
  s <- get ;; when (debug s) (emit (ConsoleLog line)).

(** [constructor(options = {})]:
    [options.targetOrigin || '*'], [options.debug || false]. *)
Definition constructor (opts : IframeSyncOptions)
    (dom : Iframe -> option Window) (clock : nat -> Z) : Run State unit :=
  let origin :=
    match opt_targetOrigin opts with
    | Some t => if String.eqb t EmptyString then "*" else t
    | None => "*"
    end in
  let dbg := match opt_debug opts with Some d => d | None => false end in
  ret tt (mkState [] [] origin dbg 0 dom [] clock 0).

Definition no_options : IframeSyncOptions :=
  {| opt_targetOrigin := None; opt_debug := None |}.

(** [broadcastToIframes(message)] *)
Definition broadcastToIframes (message : Message) : M State unit :=
  s <- get ;;
  forEach (iframes s) (fun iframe =>
    match contentWindow s iframe with
    | Some w => emit (PostMessage (ToIframe iframe w) message (targetOrigin s))
    | None => ret tt
    end).

(** Calling a subscriber of a store with the value of its snapshot.  The
    library's own subscriber is the closure of [registerAtom]. *)
Definition call_subscriber (sub : Subscriber) (v : AtomValue)
  : M State unit :=
  match sub with
  | SubBroadcast key =>
      ts <- Date_now ;;
      broadcastToIframes (AtomSync key v ts)
  | SubWrapper _ cb => emit (Invoke cb v)
  end.

(** [store.subscribe(fn)] on the store registered under [key]. *)
Definition store_subscribe (key : string) (sub : Subscriber)
  : M State unit :=
  s <- get ;;
  match map_get String.eqb key (stores s) with
  | Some c =>
      modify (with_stores
                (map_set String.eqb key (cell_subscribe subscriber_eqb sub c) (stores s))) ;;
      call_subscriber sub (value c)
  | None => ret tt
  end.

(** [store.send({ type: 'setValue', value })] *)
Definition store_send (key : string) (v : AtomValue) : M State unit :=
  s <- get ;;
  match map_get String.eqb key (stores s) with
  | Some c =>
      modify (with_stores (map_set String.eqb key (cell_set v c) (stores s))) ;;
      forEach (subscribers c) (fun sub => call_subscriber sub v)
  | None => ret tt
  end.

(** [registerAtom(config)] *)
Definition registerAtom (key : string) (initialValue : AtomValue)
  : M State unit :=
  s <- get ;;
  if map_has String.eqb key (stores s) then log (LogAlreadyRegistered key)
  else
    modify (with_stores
              (map_set String.eqb key (create Subscriber initialValue) (stores s))) ;;
    log (LogRegisteredAtom key initialValue) ;;
    store_subscribe key (SubBroadcast key).

(** [syncAllToIframe(iframe)] *)
Definition syncAllToIframe (iframe : Iframe) : M State unit :=
  s <- get ;;
  match contentWindow s iframe with
  | None => ret tt
  | Some w =>
      forEach (stores s) (fun entry =>
        ts <- Date_now ;;
        emit (PostMessage (ToIframe iframe w)
                (AtomSync (fst entry) (value (snd entry)) ts)
                (targetOrigin s)) ;;
        log (LogSynced (fst entry) (value (snd entry))))
  end.

(** [registerIframe(iframe)] *)
Definition registerIframe (iframe : Iframe) : M State unit :=
  modify (fun s => with_iframes (set_add Nat.eqb iframe (iframes s)) s) ;;
  log (LogRegisteredIframe iframe) ;;
  modify (fun s => with_loadListeners (loadListeners s ++ [iframe]) s).

(** [unregisterIframe(iframe)] *)
Definition unregisterIframe (iframe : Iframe) : M State unit :=
  modify (fun s => with_iframes (set_delete Nat.eqb iframe (iframes s)) s) ;;
  log (LogUnregisteredIframe iframe).

(** [setValue(key, value)] *)
Definition setValue (key : string) (v : AtomValue) : M State unit :=
  s <- get ;;
  if map_has String.eqb key (stores s) then store_send key v
  else log (LogNotFound key).

(** [getValue(key)] *)
Definition getValue (key : string) : M State AtomValue :=
  s <- get ;;
  match map_get String.eqb key (stores s) with
  | Some c => ret (value c)
  | None => ret VUndefined
  end.

(** [subscribe(key, callback)]: for a registered key it returns what the
    [subscribe] of the store returned for the wrapper, which stands here
    as the wrapper itself; [None] is the empty function of the other
    branch.  Releasing that subscription is [unsubscribe]. *)
Definition subscribe (key : string) (cb : Callback)
  : M State (option Subscriber) :=
  s <- get ;;
  if map_has String.eqb key (stores s) then
    let wrapper := SubWrapper (nextWrapper s) cb in
    modify (with_nextWrapper (S (nextWrapper s))) ;;
    store_subscribe key wrapper ;;
    ret (Some wrapper)
  else
    log (LogNotFoundForSubscription key) ;;
    ret None.

Definition unsubscribe (key : string) (wrapper : option Subscriber)
  : M State unit :=
  match wrapper with
  | None => ret tt
  | Some sub =>
      s <- get ;;
      match map_get String.eqb key (stores s) with
      | Some c =>
          modify (with_stores
                    (map_set String.eqb key (cell_unsubscribe subscriber_eqb sub c)
                             (stores s)))
      | None => ret tt
      end
  end.

(** [Array.from(this.iframes).find(iframe =>
      iframe.contentWindow === event.source)] *)
Definition same_window (a b : option Window) : bool :=
  match a, b with
  | Some x, Some y => Nat.eqb x y
  | None, None => true
  | _, _ => false
  end.

Definition find_iframe (s : State) (src : option Window) : option Iframe :=
  find (fun iframe => same_window (contentWindow s iframe) src) (iframes s).

(** The listener of [setupMessageListener()]. *)
Definition handleMessage (event : MessageEvent) : M State unit :=
  match data event with
  | DataNullish => throw TypeError
  | DataOther => ret tt
  | DataMessage (AtomSyncRequest _) =>
      log LogStateRequest ;;
      s <- get ;;
      match find_iframe s (source event) with
      | Some iframe => syncAllToIframe iframe
      | None => ret tt
      end
  | DataMessage (AtomSync key v _) =>
      log (LogReceived key v) ;;
      setValue key v
  end.

(** [destroy()] *)
Definition destroy : M State unit :=
  modify (with_stores []) ;;
  modify (with_iframes []).

(** A [load] event: each listener attached to the element is
    [() => { this.log(...); this.syncAllToIframe(iframe); }]. *)
Definition fire_load (iframe : Iframe) : M State unit :=
  s <- get ;;
  forEach (filter (Nat.eqb iframe) (loadListeners s))
          (fun _ => log LogIframeLoaded ;; syncAllToIframe iframe).

(** The calls of the interface, a call of the function returned by a
    [subscribe] that made wrapper [id] for [cb], the two browser events
    and a change of a content window. *)
Inductive Op : Type :=
| RegisterAtom (key : string) (initialValue : AtomValue)
| RegisterIframe (f : Iframe)
| UnregisterIframe (f : Iframe)
| SetValue (key : string) (v : AtomValue)
| GetValue (key : string)
| Subscribe (key : string) (cb : Callback)
| Unsubscribe (key : string) (id : nat) (cb : Callback)
| Destroy
| MessageArrives (event : MessageEvent)
| LoadFires (f : Iframe)
| ContentWindowBecomes (f : Iframe) (w : option Window).

Definition step (op : Op) : M State unit :=
  match op with
  | RegisterAtom key v => registerAtom key v
  | RegisterIframe f => registerIframe f
  | UnregisterIframe f => unregisterIframe f
  | SetValue key v => setValue key v
  | GetValue key => _ <- getValue key ;; ret tt
  | Subscribe key cb => _ <- subscribe key cb ;; ret tt
  | Unsubscribe key id cb => unsubscribe key (Some (SubWrapper id cb))
  | Destroy => destroy
  | MessageArrives event => handleMessage event
  | LoadFires f => fire_load f
  | ContentWindowBecomes f w =>
      modify (fun s =>
        with_contentWindow
          (fun g => if Nat.eqb g f then w else contentWindow s g) s)
  end.

Definition run (ops : list Op) (s : State) : State :=
  fold_left (fun s op => final (step op s)) ops s.

Definition reachable (s : State) : Prop :=
  exists opts dom clock ops,
    s = run ops (final (constructor opts dom clock)).

(** Every store of the map carries the broadcasting subscriber of its
    key. *)
Definition broadcast_wired (s : State) : Prop :=
  forall k c, map_get String.eqb k (stores s) = Some c ->
              In (SubBroadcast k) (subscribers c).

(** The key and current value of every store, in the order of the map. *)
Definition cells (s : State) : list (option (string * AtomValue)) :=
  map (fun e => Some (fst e, value (snd e))) (stores s).

(** The effects of a sequence of operations, in order. *)
Fixpoint trace (ops : list Op) (s : State) : list Effect :=
  match ops with
  | [] => []
  | op :: ops' => effects (step op s) ++ trace ops' (final (step op s))
  end.

Definition is_register (op : Op) : bool :=
  match op with RegisterAtom _ _ => true | _ => false end.

(** The operations that can change the value of the store of [key]:
    [setValue] on the key, an update for the key in a message, and
    [destroy]. *)
Definition writes (key : string) (op : Op) : bool :=
  match op with
  | SetValue k _ => String.eqb key k
  | MessageArrives ev =>
      match data ev with
      | DataMessage (AtomSync k _ _) => String.eqb key k
      | _ => false
      end
  | Destroy => true
  | _ => false
  end.

End Svelte.

(** ** The svelte demo copy: the child client *)
Module SvelteChild.

Record IframeSyncOptions : Type := {
  opt_targetOrigin : option string;
  opt_debug : option bool
}.

(** The variables closed over by the client: the [state] map, the
    [subscribers] map from a key to its set of callbacks, the two options;
    whether [handleMessage] is still attached to the window; the clock. *)
Record State : Type := mkState {
  state : list (string * AtomValue);
  subscribers : list (string * list Callback);
  targetOrigin : string;
  debug : bool;
  listening : bool;
  now : nat -> Z;
  ticks : nat
}.

Definition with_state (m : list (string * AtomValue)) (s : State) : State :=
  mkState m (subscribers s) (targetOrigin s) (debug s) (listening s)
          (now s) (ticks s).

Definition with_subscribers (m : list (string * list Callback)) (s : State)
  : State :=
  mkState (state s) m (targetOrigin s) (debug s) (listening s)
          (now s) (ticks s).

Definition with_listening (b : bool) (s : State) : State :=
  mkState (state s) (subscribers s) (targetOrigin s) (debug s) b
          (now s) (ticks s).

Definition with_ticks (n : nat) (s : State) : State :=
  mkState (state s) (subscribers s) (targetOrigin s) (debug s) (listening s)
          (now s) n.

Definition Date_now : M State Z :=
  fun s => mkRun (Normal (now s (ticks s))) (with_ticks (S (ticks s)) s) [].

Definition log (line : LogLine) : M State unit :=
  s <- get ;; when (debug s) (emit (ConsoleLog line)).

(** [handleMessage(event)], while it is attached. *)
Definition handleMessage (event : MessageEvent) : M State unit :=
  s <- get ;;
  if listening s then
    match data event with
    | DataNullish => throw TypeError
    | DataOther => ret tt
    | DataMessage (AtomSyncRequest _) => ret tt
    | DataMessage (AtomSync key v _) =>
        log (LogReceived key v) ;;
        modify (fun s => with_state (map_set String.eqb key v (state s)) s) ;;
        s <- get ;;
        match map_get String.eqb key (subscribers s) with
        | Some subs => forEach subs (fun callback => emit (Invoke callback v))
        | None => ret tt
        end
    end
  else ret tt.

(** [requestSync()] *)
Definition requestSync : M State unit :=
  ts <- Date_now ;;
  s <- get ;;
  emit (PostMessage ToParent (AtomSyncRequest ts) (targetOrigin s)) ;;
  log LogRequested.

(** [createChildClient(options = {})] *)
Definition createChildClient (opts : IframeSyncOptions) (clock : nat -> Z)
  : Run State unit :=
  let origin :=
    match opt_targetOrigin opts with
    | Some t => if String.eqb t EmptyString then "*" else t
    | None => "*"
    end in
  let dbg := match opt_debug opts with Some d => d | None => false end in
  requestSync (mkState [] [] origin dbg true clock 0).

Definition no_options : IframeSyncOptions :=
  {| opt_targetOrigin := None; opt_debug := None |}.

(** [getValue(key)]: [state.get(key)] *)
Definition getValue (key : string) : M State AtomValue :=
  s <- get ;;
  match map_get String.eqb key (state s) with
  | Some v => ret v
  | None => ret VUndefined
  end.

(** [setValue(key, value)] *)
Definition setValue (key : string) (v : AtomValue) : M State unit :=
  modify (fun s => with_state (map_set String.eqb key v (state s)) s) ;;
  ts <- Date_now ;;
  s <- get ;;
  emit (PostMessage ToParent (AtomSync key v ts) (targetOrigin s)) ;;
  log (LogSent key v).

(** [subscribe(key, callback)]; the function it returns is
    [unsubscribe key callback]. *)
Definition subscribe (key : string) (callback : Callback) : M State unit :=
  s <- get ;;
  when (negb (map_has String.eqb key (subscribers s)))
    (modify (with_subscribers (map_set String.eqb key [] (subscribers s)))) ;;
  modify (fun s =>
    match map_get String.eqb key (subscribers s) with
    | Some subs =>
        with_subscribers
          (map_set String.eqb key (set_add Nat.eqb callback subs)
                   (subscribers s)) s
    | None => s
    end) ;;
  log (LogSubscribed key) ;;
  currentValue <- getValue key ;;
  when (is_defined currentValue) (emit (Invoke callback currentValue)).

Definition unsubscribe (key : string) (callback : Callback)
  : M State unit :=
  s <- get ;;
  match map_get String.eqb key (subscribers s) with
  | Some subs =>
      let subs' := set_delete Nat.eqb callback subs in
      if Nat.eqb (List.length subs') 0 then
        modify (with_subscribers (map_delete String.eqb key (subscribers s)))
      else
        modify (with_subscribers
                  (map_set String.eqb key subs' (subscribers s)))
  | None => ret tt
  end ;;
  log (LogUnsubscribed key).

(** [destroy()] *)
Definition destroy : M State unit :=
  modify (with_listening false) ;;
  modify (with_state []) ;;
  modify (with_subscribers []) ;;
  log LogDestroyed.

Inductive Op : Type :=
| GetValue (key : string)
| SetValue (key : string) (v : AtomValue)
| Subscribe (key : string) (cb : Callback)
| Unsubscribe (key : string) (cb : Callback)
| RequestSync
| Destroy
| MessageArrives (event : MessageEvent).

Definition step (op : Op) : M State unit :=
  match op with
  | GetValue key => _ <- getValue key ;; ret tt
  | SetValue key v => setValue key v
  | Subscribe key cb => subscribe key cb
  | Unsubscribe key cb => unsubscribe key cb
  | RequestSync => requestSync
  | Destroy => destroy
  | MessageArrives event => handleMessage event
  end.

Definition run (ops : list Op) (s : State) : State :=
  fold_left (fun s op => final (step op s)) ops s.

(** [state.get(key)] *)
Definition current (key : string) (s : State) : AtomValue :=
  match map_get String.eqb key (state s) with
  | Some v => v
  | None => VUndefined
  end.

(** Callback [cb] is not in the subscriber set of [key]. *)
Definition not_subscribed (key : string) (cb : Callback) (s : State)
  : Prop :=
  forall subs, map_get String.eqb key (subscribers s) = Some subs ->
               ~ In cb subs.

(** The effects of a sequence of operations, in order. *)
Fixpoint trace (ops : list Op) (s : State) : list Effect :=
  match ops with
  | [] => []
  | op :: ops' => effects (step op s) ++ trace ops' (final (step op s))
  end.

(** The states of a client made by [createChildClient]. *)
Definition reachable (s : State) : Prop :=
  exists opts clock ops, s = run ops (final (createChildClient opts clock)).

(** [subscribers.get(key)?.has(cb)] *)
Definition subscribed (key : string) (cb : Callback) (s : State) : bool :=
  match map_get String.eqb key (subscribers s) with
  | Some subs => set_has Nat.eqb cb subs
  | None => false
  end.

(** No callback occurs twice in a subscriber set. *)
Definition sets_ok (s : State) : Prop :=
  forall k subs, map_get String.eqb k (subscribers s) = Some subs ->
                 NoDup subs.

(** The operations that can write the cache entry of [key]: [setValue] on
    the key, a message for the key, and [destroy]. *)
Definition writes (key : string) (op : Op) : bool :=
  match op with
  | SetValue k _ => String.eqb key k
  | MessageArrives ev =>
      match data ev with
      | DataMessage (AtomSync k _ _) => String.eqb key k
      | _ => false
      end
  | Destroy => true
  | _ => false
  end.

(** The message events that posted messages produce in the window of the
    client, handled one after the other; [src] is the window that posted
    them. *)
Definition deliver (msgs : list Message) (src : option Window)
  : M State unit :=
  forEach msgs (fun m =>
    handleMessage {| data := DataMessage m; source := src |}).

End SvelteChild.

(** ** A concrete page: one root with two iframes, and its children *)
Module Scenario.

(** Iframe element [f] holds window [100 + f]; the clock counts its own
    readings. *)
Definition dom (f : Iframe) : option Window := Some (100 + f).
Definition clock (n : nat) : Z := Z.of_nat n.

Definition theme_dark (w : Window) : MessageEvent :=
  {| data := DataMessage (AtomSync "theme" (VString "dark") 0);
     source := Some w |}.

Definition request (w : Window) : MessageEvent :=
  {| data := DataMessage (AtomSyncRequest 0); source := Some w |}.

(** The TypeScript coordinator in the top window, with one cell, two
    registered iframes and one user callback. *)
Definition ts_root : TS.State :=
  TS.run [TS.RegisterAtom "theme" (VString "light");
          TS.RegisterIframe 1; TS.RegisterIframe 2;
          TS.AtomSubscribe "theme" 7]
         (final (TS.constructor TS.no_options true dom clock)).

Definition ts_theme : TS.Atom :=
  Vendored.mkCell (VString "light") [SubBroadcast "theme"; SubUser 7].

Definition ts_child : TS.Client :=
  final (TS.createChildClient
           [{| TS.cfg_key := "theme"; TS.cfg_initialValue := VUndefined |}]
           TS.no_options false dom clock).

Definition svelte_root : Svelte.State :=
  Svelte.run [Svelte.RegisterAtom "theme" (VString "light");
              Svelte.RegisterIframe 1; Svelte.RegisterIframe 2;
              Svelte.Subscribe "theme" 7]
             (final (Svelte.constructor Svelte.no_options dom clock)).

Definition svelte_theme : Svelte.Store :=
  Vendored.mkCell (VString "light")
    [Svelte.SubBroadcast "theme"; Svelte.SubWrapper 0 7].

(** The svelte coordinator with a cell and no registered iframe. *)
Definition svelte_alone : Svelte.State :=
  Svelte.run [Svelte.RegisterAtom "theme" (VString "light")]
             (final (Svelte.constructor Svelte.no_options dom clock)).

Definition js_root : JS.State :=
  JS.run [JS.RegisterAtom "theme" (VString "light"); JS.RegisterIframe 1]
         (final (JS.constructor JS.no_options true dom clock)).

Definition js_theme : JS.Atom :=
  JS.mkAtom (VString "light") [SubBroadcast "theme"].

(** Coordinators in an iframe that have registered an iframe of their
    own. *)
Definition ts_middle : TS.State :=
  TS.run [TS.RegisterAtom "theme" (VString "light"); TS.RegisterIframe 5;
          TS.AtomSubscribe "theme" 7]
         (final (TS.constructor TS.no_options false dom clock)).

Definition js_middle : JS.State :=
  JS.run [JS.RegisterAtom "theme" (VString "light"); JS.RegisterIframe 5;
          JS.AtomSubscribe 0 7]
         (final (JS.constructor JS.no_options false dom clock)).

(** A child client of the JavaScript copy, in an iframe. *)
Definition js_child : JS.Client :=
  final (JS.createChildClient
           [{| JS.cfg_key := "theme"; JS.cfg_initialValue := VUndefined |}]
           JS.no_options false dom clock).

Definition svelte_child : SvelteChild.State :=
  final (SvelteChild.createChildClient SvelteChild.no_options clock).

(** The same client with callback 7 subscribed to the theme. *)
Definition svelte_child_subscribed : SvelteChild.State :=
  SvelteChild.run [SvelteChild.Subscribe "theme" 7] svelte_child.

End Scenario.

(** * Properties *)

(** ** Sets and maps *)
Section CollectionFacts.
Variable A : Type.
Variable eqb : A -> A -> bool.
Hypothesis eqb_spec : forall x y, reflect (x = y) (eqb x y).

Lemma set_has_true x l : set_has eqb x l = true <-> In x l.
Proof.
  unfold set_has. rewrite existsb_exists. split.
  - intros [y [Hy E]]. destruct (eqb_spec x y); [subst; assumption | discriminate].
  - intros H. exists x. split; [assumption |].
    destruct (eqb_spec x x); [reflexivity | contradiction].
Qed.

Lemma set_has_false x l : set_has eqb x l = false <-> ~ In x l.
Proof.
  rewrite <- set_has_true. destruct (set_has eqb x l); split; intros H;
    try discriminate; try reflexivity.
  exfalso. apply H. reflexivity.
Qed.

Lemma In_set_add x y l : In y (set_add eqb x l) <-> In y l \/ y = x.
Proof.
  unfold set_add. destruct (set_has eqb x l) eqn:E.
  - apply set_has_true in E. split; [auto | intros [H | ->]; assumption].
  - rewrite in_app_iff. simpl. intuition (subst; auto).
Qed.

Lemma In_set_delete x y l : In y (set_delete eqb x l) <-> In y l /\ y <> x.
Proof.
  unfold set_delete. rewrite filter_In. split; intros [H1 H2]; split; auto.
  - intros ->. destruct (eqb_spec x x); [discriminate | contradiction].
  - destruct (eqb_spec x y); [subst; contradiction | reflexivity].
Qed.

Lemma set_delete_absent x l : ~ In x l -> set_delete eqb x l = l.
Proof.
  intros H. unfold set_delete. induction l as [| y l IH]; simpl; [reflexivity |].
  destruct (eqb_spec x y) as [-> | N]; simpl.
  - exfalso. apply H. left. reflexivity.
  - f_equal. apply IH. intros H'. apply H. right. assumption.
Qed.

Lemma set_add_present x l : In x l -> set_add eqb x l = l.
Proof.
  intros H. unfold set_add. apply set_has_true in H. rewrite H. reflexivity.
Qed.

Lemma NoDup_set_add x l : NoDup l -> NoDup (set_add eqb x l).
Proof.
  intros H. unfold set_add. destruct (set_has eqb x l) eqn:E; [assumption |].
  apply set_has_false in E. apply NoDup_app; [assumption | | ].
  - constructor; [intros [] | constructor].
  - intros y Hy [<- | []]. contradiction.
Qed.

Lemma NoDup_set_delete x l : NoDup l -> NoDup (set_delete eqb x l).
Proof. intros H. unfold set_delete. apply NoDup_filter. assumption. Qed.

Lemma set_delete_add x l :
  ~ In x l -> set_delete eqb x (set_add eqb x l) = l.
Proof.
  intros H. unfold set_add. pose proof H as E. apply set_has_false in E.
  rewrite E. unfold set_delete. rewrite filter_app. cbn.
  destruct (eqb_spec x x); [| contradiction]. cbn. rewrite app_nil_r.
  apply set_delete_absent. assumption.
Qed.

Variable V : Type.

Lemma map_get_set_same k (v : V) m :
  map_get eqb k (map_set eqb k v m) = Some v.
Proof.
  induction m as [| [k' v'] m IH]; simpl.
  - destruct (eqb_spec k k); [reflexivity | contradiction].
  - destruct (eqb_spec k k') as [E | N]; simpl.
    + destruct (eqb_spec k k); [reflexivity | contradiction].
    + destruct (eqb_spec k k'); [contradiction | assumption].
Qed.

Lemma map_get_set_other k k' (v : V) m :
  k <> k' -> map_get eqb k' (map_set eqb k v m) = map_get eqb k' m.
Proof.
  intros N. induction m as [| [k0 v0] m IH]; simpl.
  - destruct (eqb_spec k' k); [subst; contradiction | reflexivity].
  - destruct (eqb_spec k k0) as [E | N0]; simpl.
    + subst k0. destruct (eqb_spec k' k); [subst; contradiction | reflexivity].
    + destruct (eqb_spec k' k0); [reflexivity | assumption].
Qed.

Lemma map_get_delete_same k (m : list (A * V)) :
  map_get eqb k (map_delete eqb k m) = None.
Proof.
  unfold map_delete. induction m as [| [k0 v0] m IH]; simpl; [reflexivity |].
  destruct (eqb_spec k k0) as [E | N]; simpl; [assumption |].
  destruct (eqb_spec k k0); [contradiction | assumption].
Qed.

Lemma map_get_delete_other k k' (m : list (A * V)) :
  k <> k' -> map_get eqb k' (map_delete eqb k m) = map_get eqb k' m.
Proof.
  intros N. unfold map_delete. induction m as [| [k0 v0] m IH]; simpl; [reflexivity |].
  destruct (eqb_spec k k0) as [E | N0]; simpl.
  - subst k0. destruct (eqb_spec k' k); [subst; contradiction | assumption].
  - destruct (eqb_spec k' k0); [reflexivity | assumption].
Qed.

(** Replacing the value of a present key keeps the keys and their order. *)
Lemma map_set_present k (v v0 : V) m (g : V -> AtomValue) :
  map_get eqb k m = Some v0 -> g v = g v0 ->
  map (fun e => (fst e, g (snd e))) (map_set eqb k v m) =
  map (fun e => (fst e, g (snd e))) m.
Proof.
  intros H G. induction m as [| [k' v'] m IH]; simpl in *; [discriminate |].
  destruct (eqb_spec k k') as [E | N]; simpl.
  - subst k'. injection H as ->. rewrite G. reflexivity.
  - f_equal. apply IH. assumption.
Qed.
End CollectionFacts.

Lemma subscriber_eqb_spec (a b : Subscriber) : reflect (a = b) (subscriber_eqb a b).
Proof.
  destruct a as [k | c], b as [k' | c']; simpl; try (constructor; discriminate).
  - destruct (String.eqb_spec k k'); constructor; congruence.
  - destruct (Nat.eqb_spec c c'); constructor; congruence.
Qed.

(** The instances used below: keys are strings, iframe elements and
    callbacks are numbers. *)
Lemma get_set_same (V : Type) k (v : V) m :
  map_get String.eqb k (map_set String.eqb k v m) = Some v.
Proof. apply map_get_set_same, String.eqb_spec. Qed.

Lemma get_set_other (V : Type) k k' (v : V) m :
  k <> k' -> map_get String.eqb k' (map_set String.eqb k v m) =
             map_get String.eqb k' m.
Proof. apply map_get_set_other, String.eqb_spec. Qed.

Lemma In_sub_add x y l :
  In y (set_add subscriber_eqb x l) <-> In y l \/ y = x.
Proof. apply In_set_add, subscriber_eqb_spec. Qed.

Lemma In_sub_delete x y l :
  In y (set_delete subscriber_eqb x l) <-> In y l /\ y <> x.
Proof. apply In_set_delete, subscriber_eqb_spec. Qed.

Lemma In_nat_add x y l : In y (set_add Nat.eqb x l) <-> In y l \/ y = x.
Proof. apply In_set_add, Nat.eqb_spec. Qed.

Lemma In_nat_delete x y l :
  In y (set_delete Nat.eqb x l) <-> In y l /\ y <> x.
Proof. apply In_set_delete, Nat.eqb_spec. Qed.

Lemma target_eqb_spec (a b : Target) : reflect (a = b) (target_eqb a b).
Proof.
  destruct a as [f w | w |], b as [f' w' | w' |]; simpl;
    try (constructor; congruence).
  - destruct (Nat.eqb_spec f f'), (Nat.eqb_spec w w'); simpl;
      constructor; congruence.
  - destruct (Nat.eqb_spec w w'); constructor; congruence.
Qed.

Lemma posted_to_app t l1 l2 :
  posted_to t (l1 ++ l2) = posted_to t l1 ++ posted_to t l2.
Proof.
  induction l1 as [| e l1 IH]; simpl; [reflexivity |].
  destruct e as [t' m o | | |]; try assumption.
  destruct (target_eqb t t'); simpl; rewrite IH; reflexivity.
Qed.

Lemma invocations_app cb l1 l2 :
  invocations cb (l1 ++ l2) = invocations cb l1 ++ invocations cb l2.
Proof.
  induction l1 as [| e l1 IH]; simpl; [reflexivity |].
  destruct e as [| cb' v | |]; try assumption.
  destruct (Nat.eqb cb cb'); simpl; rewrite IH; reflexivity.
Qed.

(** A list of effects without a post to [t] contributes nothing to
    [posted_to t]; likewise for invocations. *)
Lemma posted_to_nil t l :
  (forall m o, ~ In (PostMessage t m o) l) -> posted_to t l = [].
Proof.
  induction l as [| e l IH]; simpl; intros H; [reflexivity |].
  destruct e as [t' m o | | |]; try (apply IH; intros m' o' H'; apply (H m' o'); right; assumption).
  destruct (target_eqb_spec t t') as [-> | N].
  - exfalso. apply (H m o). left. reflexivity.
  - apply IH. intros m' o' H'. apply (H m' o'). right. assumption.
Qed.

Lemma invocations_nil cb l :
  (forall v, ~ In (Invoke cb v) l) -> invocations cb l = [].
Proof.
  induction l as [| e l IH]; simpl; intros H; [reflexivity |].
  destruct e as [| cb' v | |]; try (apply IH; intros v' H'; apply (H v'); right; assumption).
  destruct (Nat.eqb_spec cb cb') as [-> | N].
  - exfalso. apply (H v). left. reflexivity.
  - apply IH. intros v' H'. apply (H v'). right. assumption.
Qed.

Lemma invocations_In cb v l : In v (invocations cb l) <-> In (Invoke cb v) l.
Proof.
  induction l as [| e l IH]; simpl; [tauto |].
  destruct e as [t m o | cb' v' | line | line];
    try (rewrite IH; split; [auto | intros [H | H]; [discriminate | assumption]]).
  destruct (Nat.eqb_spec cb cb') as [-> | N]; simpl; rewrite IH; split.
  - intros [-> | H]; auto.
  - intros [H | H]; [injection H as ->; auto | auto].
  - auto.
  - intros [H | H]; [injection H as -> _; contradiction | assumption].
Qed.

(** The invocations made by a loop that calls every callback of a list. *)
Lemma invocations_map_once cb v (subs : list Callback) :
  NoDup subs ->
  invocations cb (map (fun c => Invoke c v) subs) =
  if set_has Nat.eqb cb subs then [v] else [].
Proof.
  induction subs as [| c subs IH]; intros N; [reflexivity |].
  inversion N as [| ? ? Hc N']; subst. cbn [map invocations set_has existsb].
  fold (set_has Nat.eqb cb subs).
  destruct (Nat.eqb_spec cb c) as [-> | Ne]; cbn [orb].
  - rewrite IH by assumption.
    apply (set_has_false Nat.eqb Nat.eqb_spec) in Hc. rewrite Hc. reflexivity.
  - apply IH. assumption.
Qed.

Lemma invocations_map_other cb v (subs : list Callback) :
  ~ In cb subs -> invocations cb (map (fun c => Invoke c v) subs) = [].
Proof.
  intros H. apply invocations_nil. intros v' Hin. apply in_map_iff in Hin.
  destruct Hin as [c [E Hc]]. injection E as -> _. contradiction.
Qed.

Lemma invocations_console cb (b : bool) line :
  invocations cb (if b then [ConsoleLog line] else []) = [].
Proof. destruct b; reflexivity. Qed.

Lemma posted_to_console t (b : bool) line :
  posted_to t (if b then [ConsoleLog line] else []) = [].
Proof. destruct b; reflexivity. Qed.

(** User callbacks come and go without touching the broadcasting
    closures of a cell. *)
Lemma broadcast_keys_add cb subs :
  broadcast_keys (set_add subscriber_eqb (SubUser cb) subs) =
  broadcast_keys subs.
Proof.
  unfold set_add. destruct (set_has subscriber_eqb (SubUser cb) subs);
    [reflexivity |].
  unfold broadcast_keys. rewrite flat_map_app. cbn. apply app_nil_r.
Qed.

Lemma broadcast_keys_delete cb subs :
  broadcast_keys (set_delete subscriber_eqb (SubUser cb) subs) =
  broadcast_keys subs.
Proof.
  unfold set_delete, broadcast_keys.
  induction subs as [| [k | c] subs IH]; [reflexivity | |].
  - cbn [filter subscriber_eqb negb flat_map app]. f_equal. exact IH.
  - cbn [filter subscriber_eqb]. destruct (Nat.eqb cb c);
      cbn [negb flat_map app]; exact IH.
Qed.

Lemma In_broadcast_keys k subs :
  In (SubBroadcast k) subs -> In k (broadcast_keys subs).
Proof.
  intros H. unfold broadcast_keys. apply in_flat_map.
  exists (SubBroadcast k). split; [assumption | left; reflexivity].
Qed.

Lemma filter_post_none (l : list Effect) :
  (forall e, In e l -> is_post e = false) -> filter is_post l = [].
Proof.
  induction l as [| e l IH]; intros H; [reflexivity |].
  cbn. rewrite (H e (or_introl eq_refl)). apply IH.
  intros e' H'. apply H. right. assumption.
Qed.


(** ** The keys of a map, and the messages that carry its cells *)
Lemma keys_set_present (V : Type) k (v v0 : V) m :
  map_get String.eqb k m = Some v0 ->
  map fst (map_set String.eqb k v m) = map fst m.
Proof.
  intros G. induction m as [| [k' v'] m IH]; [discriminate |].
  cbn in *. destruct (String.eqb_spec k k') as [-> | N]; cbn.
  - reflexivity.
  - f_equal. apply IH, G.
Qed.

Lemma keys_set_absent (V : Type) k (v : V) m :
  map_get String.eqb k m = None ->
  map fst (map_set String.eqb k v m) = map fst m ++ [k] /\
  ~ In k (map fst m).
Proof.
  intros G. induction m as [| [k' v'] m IH]; [split; [reflexivity | intros []] |].
  cbn in *. destruct (String.eqb_spec k k') as [-> | N]; [discriminate |].
  destruct (IH G) as [E Hn]. cbn. rewrite E. split; [reflexivity |].
  intros [H | H]; [apply N; symmetry; exact H | contradiction].
Qed.

Lemma map_get_In (V : Type) k (v : V) m :
  map_get String.eqb k m = Some v -> In (k, v) m.
Proof.
  induction m as [| [k' v'] m IH]; [discriminate |]. cbn.
  destruct (String.eqb_spec k k') as [-> | N].
  - intros E. injection E as ->. left. reflexivity.
  - intros G. right. apply IH, G.
Qed.

Lemma map_get_None_keys (V : Type) k (m : list (string * V)) :
  map_get String.eqb k m = None -> ~ In k (map fst m).
Proof.
  induction m as [| [k' v'] m IH]; [intros _ [] |]. cbn.
  destruct (String.eqb_spec k k') as [-> | N]; [discriminate |].
  intros G [H | H]; [apply N; symmetry; exact H | apply (IH G H)].
Qed.

(** Messages that carry the cells of a map with different keys: the one for
    a key of the map is followed by no other for that key, and there is
    none for a key that is not in the map. *)
Lemma payloads_split (V : Type) (val : V -> AtomValue)
      (l : list (string * V)) (reply : list Message) key a :
  map payload reply = map (fun e => Some (fst e, val (snd e))) l ->
  NoDup (map fst l) -> map_get String.eqb key l = Some a ->
  exists r1 m r2,
    reply = r1 ++ m :: r2 /\ payload m = Some (key, val a) /\
    forall m' v', In m' r2 -> payload m' <> Some (key, v').
Proof.
  intros Hp Nd G. apply map_get_In in G. apply in_split in G.
  destruct G as [l1 [l2 El]]. rewrite El in Hp, Nd.
  rewrite map_app in Hp. cbn [map] in Hp.
  apply map_eq_app in Hp. destruct Hp as [r1 [r2' [Er' [_ Hp2]]]].
  apply map_eq_cons in Hp2. destruct Hp2 as [m [r2 [Er2 [Pm Hp2]]]].
  cbn [fst snd] in Pm.
  rewrite map_app in Nd. cbn [map fst] in Nd. apply NoDup_remove_2 in Nd.
  exists r1, m, r2. split; [rewrite Er', Er2; reflexivity |].
  split; [exact Pm |].
  intros m' v' Hin E. apply Nd. apply in_or_app. right.
  apply (in_map payload) in Hin. rewrite Hp2, E in Hin.
  apply in_map_iff in Hin. destruct Hin as [[k' a'] [E' Hin]].
  cbn in E'. injection E' as -> _. apply (in_map fst) in Hin. exact Hin.
Qed.

Lemma payloads_miss (V : Type) (val : V -> AtomValue)
      (l : list (string * V)) (reply : list Message) key :
  map payload reply = map (fun e => Some (fst e, val (snd e))) l ->
  map_get String.eqb key l = None ->
  forall m v, In m reply -> payload m <> Some (key, v).
Proof.
  intros Hp G m v Hin E. apply (map_get_None_keys _ _ G).
  apply (in_map payload) in Hin. rewrite Hp, E in Hin.
  apply in_map_iff in Hin. destruct Hin as [[k' a'] [E' Hin]].
  cbn in E'. injection E' as -> _. apply (in_map fst) in Hin. exact Hin.
Qed.

(** ** The monad *)
Section MonadFacts.
Variables S A B : Type.

Lemma bind_normal (m : M S A) (f : A -> M S B) s a :
  outcome (m s) = Normal a ->
  bind m f s =
  mkRun (outcome (f a (final (m s)))) (final (f a (final (m s))))
        (effects (m s) ++ effects (f a (final (m s)))).
Proof. intros H. unfold bind. rewrite H. reflexivity. Qed.

Lemma bind_thrown (m : M S A) (f : A -> M S B) s e :
  outcome (m s) = Thrown e ->
  bind m f s = mkRun (Thrown e) (final (m s)) (effects (m s)).
Proof. intros H. unfold bind. rewrite H. reflexivity. Qed.

Lemma prepend_nil (r : Run S A) : prepend [] r = r.
Proof. destruct r; reflexivity. Qed.

Lemma bind_run (m : M S A) (f : A -> M S B) s a s1 e1 :
  m s = mkRun (Normal a) s1 e1 -> bind m f s = prepend e1 (f a s1).
Proof. intros H. unfold bind. rewrite H. reflexivity. Qed.

Lemma bind_get (f : S -> M S B) s : bind get f s = f s s.
Proof. unfold bind, get. cbn. destruct (f s s); reflexivity. Qed.

Lemma bind_modify (g : S -> S) (f : unit -> M S B) s :
  bind (modify g) f s = f tt (g s).
Proof. unfold bind, modify. cbn. destruct (f tt (g s)); reflexivity. Qed.

Lemma bind_ret (a : A) (f : A -> M S B) s : bind (ret a) f s = f a s.
Proof. unfold bind, ret. cbn. destruct (f a s); reflexivity. Qed.

Lemma bind_emit (e : Effect) (f : unit -> M S B) s :
  bind (emit e) f s = prepend [e] (f tt s).
Proof. reflexivity. Qed.

Lemma emit_run (e : Effect) (s : S) : emit e s = mkRun (Normal tt) s [e].
Proof. reflexivity. Qed.

Lemma bind_throw (e : JsError) (f : A -> M S B) s :
  bind (throw e) f s = throw e s.
Proof. reflexivity. Qed.

(** A loop whose body keeps an invariant of the state, returns normally and
    emits only effects in [E] does the same as a whole. *)
Lemma forEach_inv (I : S -> Prop) (E : Effect -> Prop)
      (f : A -> M S unit) (l : list A) :
  (forall x s, In x l -> I s ->
     outcome (f x s) = Normal tt /\ I (final (f x s)) /\
     forall e, In e (effects (f x s)) -> E e) ->
  forall s, I s ->
    outcome (forEach l f s) = Normal tt /\ I (final (forEach l f s)) /\
    forall e, In e (effects (forEach l f s)) -> E e.
Proof.
  induction l as [| x l IH]; intros Hf s Hs.
  - simpl. repeat split; [assumption | intros e []].
  - destruct (Hf x s (or_introl eq_refl) Hs) as [Ho [Hi He]].
    assert (Hf' : forall y s0, In y l -> I s0 ->
              outcome (f y s0) = Normal tt /\ I (final (f y s0)) /\
              forall e, In e (effects (f y s0)) -> E e)
      by (intros y s0 Hy; apply Hf; right; assumption).
    destruct (IH Hf' _ Hi) as [Ho' [Hi' He']].
    cbn [forEach]. unfold bind at 1 2 3. rewrite Ho. cbn [outcome final effects].
    split; [assumption | split; [assumption |]].
    intros e He0. apply in_app_or in He0. destruct He0; auto.
Qed.

(** If moreover the body at one element always emits an effect in [Q],
    the loop emits one. *)
Lemma forEach_exists (I : S -> Prop) (Q : Effect -> Prop)
      (f : A -> M S unit) (l : list A) (x : A) :
  In x l ->
  (forall y s, In y l -> I s ->
     outcome (f y s) = Normal tt /\ I (final (f y s))) ->
  (forall s, I s -> exists e, In e (effects (f x s)) /\ Q e) ->
  forall s, I s -> exists e, In e (effects (forEach l f s)) /\ Q e.
Proof.
  induction l as [| y l IH]; intros Hx Hf HQ s Hs; [destruct Hx |].
  destruct (Hf y s (or_introl eq_refl) Hs) as [Ho Hi].
  cbn [forEach]. unfold bind at 1. rewrite Ho. cbn [outcome final effects].
  destruct Hx as [-> | Hx].
  - destruct (HQ s Hs) as [e [He Hq]]. exists e. split; [| assumption].
    apply in_or_app. left. assumption.
  - assert (Hf' : forall z s0, In z l -> I s0 ->
              outcome (f z s0) = Normal tt /\ I (final (f z s0)))
      by (intros z s0 Hz; apply Hf; right; assumption).
    destruct (IH Hx Hf' HQ _ Hi) as [e [He Hq]]. exists e.
    split; [| assumption]. apply in_or_app. right. assumption.
Qed.

Lemma forEach_app (f : A -> M S unit) l1 l2 s :
  forEach (l1 ++ l2) f s =
  match outcome (forEach l1 f s) with
  | Normal _ =>
      prepend (effects (forEach l1 f s))
              (forEach l2 f (final (forEach l1 f s)))
  | Thrown e =>
      mkRun (Thrown e) (final (forEach l1 f s)) (effects (forEach l1 f s))
  end.
Proof.
  revert s. induction l1 as [| x l1 IH]; intros s.
  - cbn. destruct (forEach l2 f s); reflexivity.
  - cbn [forEach app]. unfold bind.
    destruct (outcome (f x s)) as [[] | e] eqn:Ex; cbn [outcome final effects];
      [| reflexivity].
    rewrite IH.
    destruct (outcome (forEach l1 f (final (f x s)))) as [[] | e];
      unfold prepend; cbn [outcome final effects].
    + rewrite app_assoc. reflexivity.
    + reflexivity.
Qed.

(** *** Runs within an invariant and a set of effects *)
Section Within.
Variable I : S -> Prop.
Variable E : Effect -> Prop.

Lemma within_ret (a : A) s : I s -> within I E (ret a s).
Proof. intros H. split; [exact H | intros e []]. Qed.

Lemma within_throw (x : JsError) s : I s -> within I E (@throw S A x s).
Proof. intros H. split; [exact H | intros e []]. Qed.

Lemma within_modify (g : S -> S) s : I (g s) -> within I E (modify g s).
Proof. intros H. split; [exact H | intros e []]. Qed.

Lemma within_emit (e : Effect) s : I s -> E e -> within I E (emit e s).
Proof. intros H He. split; [exact H | intros e' [<- | []]; exact He]. Qed.

Lemma within_bind (m : M S A) (f : A -> M S B) s :
  within I E (m s) ->
  (forall a, I (final (m s)) -> within I E (f a (final (m s)))) ->
  within I E (bind m f s).
Proof.
  intros [Hi He] Hf. unfold bind.
  destruct (outcome (m s)) as [a | x]; cbn [final effects].
  - destruct (Hf a Hi) as [Hi' He']. split; [exact Hi' |].
    intros e H. apply in_app_or in H. destruct H; auto.
  - split; assumption.
Qed.

Lemma within_bind_get (f : S -> M S B) s :
  within I E (f s s) -> within I E (bind get f s).
Proof. rewrite bind_get. auto. Qed.

Lemma within_bind_modify (g : S -> S) (f : unit -> M S B) s :
  within I E (f tt (g s)) -> within I E (bind (modify g) f s).
Proof. rewrite bind_modify. auto. Qed.

Lemma within_when (b : bool) (m : M S unit) s :
  I s -> (b = true -> within I E (m s)) -> within I E (when b m s).
Proof.
  intros Hi H. destruct b; [apply H; reflexivity |].
  split; [exact Hi | intros e []].
Qed.

Lemma within_forEach (f : A -> M S unit) (l : list A) s :
  (forall x s', In x l -> I s' -> within I E (f x s')) ->
  I s -> within I E (forEach l f s).
Proof.
  revert s. induction l as [| x l IH]; intros s Hf Hi.
  - split; [exact Hi | intros e []].
  - cbn [forEach]. unfold bind.
    destruct (Hf x s (or_introl eq_refl) Hi) as [Hi1 He1].
    destruct (outcome (f x s)) as [[] | err]; cbn [final effects].
    + destruct (IH (final (f x s))) as [Hi2 He2]; [| exact Hi1 |].
      * intros y s' Hy. apply Hf. right. exact Hy.
      * split; [exact Hi2 |]. intros e H. apply in_app_or in H.
        destruct H; auto.
    + split; assumption.
Qed.
End Within.

Lemma returns_not_raises (r : Run S A) : returns r -> ~ raises r.
Proof. intros [a Ha] [e He]. rewrite Ha in He. discriminate. Qed.

Lemma raises_not_returns (r : Run S A) : raises r -> ~ returns r.
Proof. intros [e He] [a Ha]. rewrite Ha in He. discriminate. Qed.
End MonadFacts.

(** ** The TypeScript copy *)
Module TSFacts.
Import Vendored TS.

Ltac exec :=
  unfold bind, get, modify, emit, ret, throw, when;
  cbn [outcome final effects app].

Lemma ts_debug_log_run line s :
  debug_log line s =
  mkRun (Normal tt) s
        (if debug (options s) then [ConsoleLog line] else []).
Proof. unfold debug_log. exec. destruct (debug (options s)); reflexivity. Qed.

Lemma ts_debug_warn_run line s :
  debug_warn line s =
  mkRun (Normal tt) s
        (if debug (options s) then [ConsoleWarn line] else []).
Proof. unfold debug_warn. exec. destruct (debug (options s)); reflexivity. Qed.

(** The posts of one message to a list of iframe elements. *)
Lemma ts_post_to_iframe_run f m s :
  post_to_iframe f m s =
  mkRun (Normal tt) s
        (match contentWindow s f with
         | Some w => [PostMessage (ToIframe f w) m (targetOrigin (options s))]
         | None => []
         end).
Proof.
  unfold post_to_iframe. exec. destruct (contentWindow s f); reflexivity.
Qed.

Lemma ts_post_loop_run l m s :
  forEach l (fun f => post_to_iframe f m) s =
  mkRun (Normal tt) s
    (flat_map (fun f =>
       match contentWindow s f with
       | Some w => [PostMessage (ToIframe f w) m (targetOrigin (options s))]
       | None => []
       end) l).
Proof.
  induction l as [| f l IH]; [reflexivity |].
  cbn [forEach flat_map]. unfold bind. rewrite ts_post_to_iframe_run.
  cbn [outcome final effects]. rewrite IH. reflexivity.
Qed.

Lemma ts_broadcastToIframes_run key v s :
  broadcastToIframes key v s =
  mkRun (Normal tt) (with_ticks (S (ticks s)) s)
    (flat_map (fun f =>
       match contentWindow s f with
       | Some w => [PostMessage (ToIframe f w)
                      (AtomSync key v (now s (ticks s)))
                      (targetOrigin (options s))]
       | None => []
       end) (iframes s)
     ++ (if debug (options s) then [ConsoleLog (LogBroadcasted key v)]
         else [])).
Proof.
  unfold broadcastToIframes, Date_now. exec.
  rewrite ts_post_loop_run. cbn [outcome final effects].
  rewrite ts_debug_log_run. cbn [outcome final effects app].
  reflexivity.
Qed.

Lemma ts_with_ticks_same s : with_ticks (ticks s) s = s.
Proof. destruct s; reflexivity. Qed.

(** What the subscribers of a cell may do when they are notified of [v] in
    state [s]: post [v] under a broadcast key to a registered iframe, call
    a subscribed user callback with [v], or write the broadcast line when
    debugging is on. *)
Lemma ts_call_subscriber_run sub v s0 s :
  (exists n, s = with_ticks n s0) ->
  outcome (call_subscriber sub v s) = Normal tt /\
  (exists n, final (call_subscriber sub v s) = with_ticks n s0) /\
  forall e, In e (effects (call_subscriber sub v s)) ->
    match e with
    | PostMessage (ToIframe f w) (AtomSync k v' _) o =>
        sub = SubBroadcast k /\ In f (iframes s0) /\
        contentWindow s0 f = Some w /\ v' = v /\
        o = targetOrigin (options s0)
    | PostMessage _ _ _ => False
    | Invoke cb v' => sub = SubUser cb /\ v' = v
    | ConsoleLog (LogBroadcasted k v') => debug (options s0) = true
    | ConsoleLog _ => False
    | ConsoleWarn _ => False
    end.
Proof.
  intros [n ->]. destruct sub as [k | cb]; cbn [call_subscriber].
  - rewrite ts_broadcastToIframes_run. cbn [outcome final effects].
    split; [reflexivity | split; [eexists; reflexivity |]].
    intros e He. apply in_app_or in He. destruct He as [He | He].
    + apply in_flat_map in He. destruct He as [f [Hf He]].
      cbn in He, Hf. destruct (contentWindow s0 f) as [w |] eqn:Hw;
        [| destruct He].
      destruct He as [<- | []]. auto.
    + cbn in He. destruct (debug (options s0)) eqn:Hd; [| destruct He].
      destruct He as [<- | []]. reflexivity.
  - exec. split; [reflexivity | split; [eexists; reflexivity |]].
    intros e [<- | []]. auto.
Qed.

Lemma ts_notify_run subs v s :
  let r := forEach subs (fun sub => call_subscriber sub v) s in
  outcome r = Normal tt /\
  (exists n, final r = with_ticks n s) /\
  forall e, In e (effects r) ->
    match e with
    | PostMessage (ToIframe f w) (AtomSync k v' _) o =>
        In (SubBroadcast k) subs /\ In f (iframes s) /\
        contentWindow s f = Some w /\ v' = v /\
        o = targetOrigin (options s)
    | PostMessage _ _ _ => False
    | Invoke cb v' => In (SubUser cb) subs /\ v' = v
    | ConsoleLog (LogBroadcasted k v') => debug (options s) = true
    | ConsoleLog _ => False
    | ConsoleWarn _ => False
    end.
Proof.
  apply (@forEach_inv State Subscriber
           (fun s' => exists n, s' = with_ticks n s)
           (fun e => match e with
    | PostMessage (ToIframe f w) (AtomSync k v' _) o =>
        In (SubBroadcast k) subs /\ In f (iframes s) /\
        contentWindow s f = Some w /\ v' = v /\
        o = targetOrigin (options s)
    | PostMessage _ _ _ => False
    | Invoke cb v' => In (SubUser cb) subs /\ v' = v
    | ConsoleLog (LogBroadcasted k v') => debug (options s) = true
    | ConsoleLog _ => False
    | ConsoleWarn _ => False
    end)).
  - intros sub s' Hsub Hs'.
    destruct (ts_call_subscriber_run sub v Hs') as [Ho [Hf He]].
    split; [assumption | split; [assumption |]].
    intros e Hin. specialize (He e Hin).
    destruct e as [[f w | w |] [k v' ts | ts] o | cb v' | [] | line];
      try assumption; try contradiction.
    + destruct He as [-> He]. split; assumption.
    + destruct He as [-> He]. split; assumption.
  - exists (ticks s). symmetry. apply ts_with_ticks_same.
Qed.

Lemma ts_notify_invokes subs v s cb :
  In (SubUser cb) subs ->
  In (Invoke cb v)
     (effects (forEach subs (fun sub => call_subscriber sub v) s)).
Proof.
  intros Hin.
  destruct (@forEach_exists State Subscriber
              (fun s' => exists n, s' = with_ticks n s)
              (fun e => e = Invoke cb v)
              (fun sub => call_subscriber sub v) subs (SubUser cb) Hin)
    with (s := s) as [e [He ->]].
  - intros y s' _ Hs'. destruct (ts_call_subscriber_run y v Hs') as [Ho [Hf _]].
    split; assumption.
  - intros s' _. exists (Invoke cb v). split; [left |]; reflexivity.
  - exists (ticks s). symmetry. apply ts_with_ticks_same.
  - assumption.
Qed.

Lemma ts_notify_posts subs v s k f w :
  In (SubBroadcast k) subs -> In f (iframes s) ->
  contentWindow s f = Some w ->
  exists ts,
    In (PostMessage (ToIframe f w) (AtomSync k v ts)
                    (targetOrigin (options s)))
       (effects (forEach subs (fun sub => call_subscriber sub v) s)).
Proof.
  intros Hin Hf Hw.
  destruct (@forEach_exists State Subscriber
              (fun s' => exists n, s' = with_ticks n s)
              (fun e => exists ts,
                 e = PostMessage (ToIframe f w) (AtomSync k v ts)
                                 (targetOrigin (options s)))
              (fun sub => call_subscriber sub v) subs (SubBroadcast k) Hin)
    with (s := s) as [e [He [ts ->]]].
  - intros y s' _ Hs'. destruct (ts_call_subscriber_run y v Hs') as [Ho [Hfin _]].
    split; assumption.
  - intros s' [n ->]. cbn [call_subscriber].
    rewrite ts_broadcastToIframes_run. cbn [effects].
    eexists. split.
    + apply in_or_app. left. apply in_flat_map. exists f.
      split; [exact Hf |]. cbn. rewrite Hw. left. reflexivity.
    + eexists. reflexivity.
  - exists (ticks s). symmetry. apply ts_with_ticks_same.
  - exists ts. assumption.
Qed.

(** *** The methods of an atom *)

Lemma ts_atom_set_run key v s a :
  map_get String.eqb key (atoms s) = Some a ->
  let s' := with_atoms
              (map_set String.eqb key (cell_set v a) (atoms s)) s in
  let r := atom_set key v s in
  outcome r = Normal tt /\
  (exists n, final r = with_ticks n s') /\
  effects r =
  effects (forEach (subscribers a) (fun sub => call_subscriber sub v) s').
Proof.
  intros H s' r. subst r. unfold atom_set. exec. rewrite H. exec.
  destruct (ts_notify_run (subscribers a) v s') as [Ho [Hf _]].
  fold s'. rewrite Ho. cbn [outcome final effects app].
  split; [reflexivity | split; [assumption | reflexivity]].
Qed.

Lemma ts_atom_set_absent key v s :
  map_get String.eqb key (atoms s) = None ->
  atom_set key v s = mkRun (Normal tt) s [].
Proof. intros H. unfold atom_set. exec. rewrite H. reflexivity. Qed.

Lemma ts_atom_subscribe_run key sub s a :
  map_get String.eqb key (atoms s) = Some a ->
  let s' := with_atoms
              (map_set String.eqb key
                 (cell_subscribe subscriber_eqb sub a) (atoms s)) s in
  let r := atom_subscribe key sub s in
  outcome r = Normal tt /\
  (exists n, final r = with_ticks n s') /\
  effects r = effects (call_subscriber sub (value a) s').
Proof.
  intros H s' r. subst r. unfold atom_subscribe. exec. rewrite H. exec.
  fold s'.
  assert (Hs : exists n, s' = with_ticks n s')
    by (exists (ticks s'); symmetry; apply ts_with_ticks_same).
  destruct (ts_call_subscriber_run sub (value a) Hs) as [Ho [Hf _]].
  rewrite Ho. cbn [outcome final effects app].
  split; [reflexivity | split; [assumption | reflexivity]].
Qed.

Lemma ts_atom_unsubscribe_run key sub s :
  atom_unsubscribe key sub s =
  mkRun (Normal tt)
    (match map_get String.eqb key (atoms s) with
     | Some a =>
         with_atoms
           (map_set String.eqb key
              (cell_unsubscribe subscriber_eqb sub a) (atoms s)) s
     | None => s
     end) [].
Proof.
  unfold atom_unsubscribe. exec.
  destruct (map_get String.eqb key (atoms s)); reflexivity.
Qed.

Lemma ts_atom_get_run key s :
  atom_get key s =
  mkRun (Normal (match map_get String.eqb key (atoms s) with
                 | Some a => value a
                 | None => VUndefined
                 end)) s [].
Proof.
  unfold atom_get. rewrite bind_get.
  destruct (map_get String.eqb key (atoms s)); reflexivity.
Qed.

Lemma ts_getAtom_run key s :
  getAtom key s =
  match map_get String.eqb key (atoms s) with
  | Some a => mkRun (Normal a) s []
  | None => mkRun (Thrown (AtomNotFound key)) s []
  end.
Proof.
  unfold getAtom. exec.
  destruct (map_get String.eqb key (atoms s)); reflexivity.
Qed.

(** *** Pushing the cells to one window *)

(** The push of [syncToIframe]: one message per cell, in the order of the
    map, stamped with successive clock readings. *)
Lemma ts_sync_loop_run f (l : list (string * Atom)) s :
  forEach l (fun entry =>
    ts <- Date_now ;;
    post_to_iframe f (AtomSync (fst entry) (value (snd entry)) ts)) s =
  mkRun (Normal tt) (with_ticks (ticks s + List.length l) s)
    (match contentWindow s f with
     | Some w =>
         map (fun p =>
                PostMessage (ToIframe f w)
                  (AtomSync (fst (snd p)) (value (snd (snd p)))
                            (now s (fst p)))
                  (targetOrigin (options s)))
             (combine (seq (ticks s) (List.length l)) l)
     | None => []
     end).
Proof.
  revert s. induction l as [| e l IH]; intros s.
  - cbn. rewrite Nat.add_0_r, ts_with_ticks_same.
    destruct (contentWindow s f); reflexivity.
  - cbn [forEach]. unfold Date_now. exec. rewrite ts_post_to_iframe_run.
    cbn [outcome final effects app]. rewrite IH.
    cbn [outcome final effects List.length seq combine map].
    f_equal.
    + unfold with_ticks. cbn. f_equal. lia.
    + cbn. destruct (contentWindow s f); reflexivity.
Qed.

Lemma ts_posted_to_map_same t (A : Type) (g : A -> Message) o (l : list A) :
  posted_to t (map (fun p => PostMessage t (g p) o) l) = map g l.
Proof.
  induction l as [| p l IH]; cbn; [reflexivity |].
  destruct (target_eqb_spec t t); [| contradiction].
  rewrite IH. reflexivity.
Qed.

Lemma ts_map_combine_seq (A B : Type) (g : A -> B) (l : list A) n :
  map (fun p => g (snd p)) (combine (seq n (List.length l)) l) = map g l.
Proof.
  revert n. induction l as [| x l IH]; intros n; cbn; [reflexivity |].
  rewrite IH. reflexivity.
Qed.

(** The key and value of every cell, in the order of the map. *)
Lemma ts_syncToIframe_run f s :
  let r := syncToIframe f s in
  outcome r = Normal tt /\
  final r = with_ticks (ticks s + List.length (atoms s)) s /\
  (forall w, contentWindow s f = Some w ->
     map payload (posted_to (ToIframe f w) (effects r)) =
     map (fun e => Some (fst e, value (snd e))) (atoms s)) /\
  (forall e, In e (effects r) ->
     match e with
     | PostMessage t _ _ =>
         exists w, contentWindow s f = Some w /\ t = ToIframe f w
     | Invoke _ _ => False
     | ConsoleLog _ => debug (options s) = true
     | ConsoleWarn _ => False
     end).
Proof.
  unfold syncToIframe. rewrite bind_get.
  erewrite bind_run by apply ts_sync_loop_run. rewrite ts_debug_log_run.
  cbn [prepend outcome final effects].
  split; [reflexivity | split; [reflexivity | split]].
  - intros w Hw. cbn. rewrite Hw, posted_to_app.
    rewrite ts_posted_to_map_same with
      (g := fun p => AtomSync (fst (snd p)) (value (snd (snd p)))
                              (now s (fst p))).
    assert (E : posted_to (ToIframe f w)
                  (if debug (options s)
                   then [ConsoleLog (LogSyncedAll f)] else []) = [])
      by (destruct (debug (options s)); reflexivity).
    rewrite E, app_nil_r, map_map. cbn [payload].
    apply ts_map_combine_seq with
      (g := fun e : string * Atom => Some (fst e, value (snd e))).
  - intros e He. cbn in He. apply in_app_or in He. destruct He as [He | He].
    + destruct (contentWindow s f) as [w |]; [| destruct He].
      apply in_map_iff in He. destruct He as [p [<- _]].
      exists w. split; reflexivity.
    + destruct (debug (options s)); [| destruct He].
      destruct He as [<- | []]. reflexivity.
Qed.

(** A [load] event runs every listener attached to the element; each
    pushes all the cells. *)
Lemma ts_load_loop_run f (l : list Iframe) s n :
  let r := forEach l (fun _ => syncToIframe f) (with_ticks n s) in
  outcome r = Normal tt /\
  (exists n', final r = with_ticks n' s) /\
  (forall w, contentWindow s f = Some w ->
     map payload (posted_to (ToIframe f w) (effects r)) =
     List.concat (repeat (map (fun e => Some (fst e, value (snd e))) (atoms s))
                    (List.length l))) /\
  (forall e, In e (effects r) ->
     match e with
     | PostMessage t _ _ =>
         exists w, contentWindow s f = Some w /\ t = ToIframe f w
     | Invoke _ _ => False
     | ConsoleLog _ => debug (options s) = true
     | ConsoleWarn _ => False
     end).
Proof.
  revert n. induction l as [| x l IH]; intros n.
  - cbn. repeat split; try (intros e []). eexists; reflexivity.
  - cbn [forEach].
    destruct (ts_syncToIframe_run f (with_ticks n s)) as [Ho [Hf [Hp He]]].
    unfold bind. rewrite Ho, Hf. cbn [outcome final effects].
    destruct (IH (ticks (with_ticks n s) + List.length (atoms (with_ticks n s))))
      as [Ho' [Hf' [Hp' He']]].
    change (with_ticks
              (ticks (with_ticks n s) + List.length (atoms (with_ticks n s)))
              (with_ticks n s))
      with (with_ticks
              (ticks (with_ticks n s) + List.length (atoms (with_ticks n s)))
              s).
    split; [assumption | split; [assumption | split]].
    + intros w Hw. rewrite posted_to_app, map_app.
      rewrite (Hp w Hw), (Hp' w Hw). reflexivity.
    + intros e Hin. apply in_app_or in Hin. destruct Hin as [Hin | Hin].
      * apply (He e Hin).
      * apply (He' e Hin).
Qed.

Lemma ts_fire_load_run f s :
  let r := fire_load f s in
  outcome r = Normal tt /\
  (exists n, final r = with_ticks n s) /\
  (forall w, contentWindow s f = Some w ->
     map payload (posted_to (ToIframe f w) (effects r)) =
     List.concat (repeat (map (fun e => Some (fst e, value (snd e))) (atoms s))
                    (count_occ Nat.eq_dec (loadListeners s) f))) /\
  (forall e, In e (effects r) ->
     match e with
     | PostMessage t _ _ =>
         exists w, contentWindow s f = Some w /\ t = ToIframe f w
     | Invoke _ _ => False
     | ConsoleLog _ => debug (options s) = true
     | ConsoleWarn _ => False
     end).
Proof.
  unfold fire_load. rewrite bind_get.
  assert (L : List.length (filter (Nat.eqb f) (loadListeners s)) =
              count_occ Nat.eq_dec (loadListeners s) f).
  { induction (loadListeners s) as [| g l IH]; cbn; [reflexivity |].
    destruct (Nat.eqb_spec f g) as [-> | N]; cbn.
    - destruct (Nat.eq_dec g g); [| contradiction]. rewrite IH. reflexivity.
    - destruct (Nat.eq_dec g f); [subst; contradiction | assumption]. }
  rewrite <- L.
  pose proof (ts_load_loop_run f (filter (Nat.eqb f) (loadListeners s)) s
                (ticks s)) as H.
  rewrite ts_with_ticks_same in H. exact H.
Qed.

(** *** Registration, messages and the child-only calls *)

Lemma ts_registerAtom_present key v s a :
  map_get String.eqb key (atoms s) = Some a ->
  registerAtom key v s = mkRun (Thrown (AlreadyRegistered key)) s [].
Proof.
  intros H. unfold registerAtom, map_has. rewrite bind_get, H. reflexivity.
Qed.

Lemma ts_map_set_set (V : Type) k (v1 v2 : V) m :
  map_set String.eqb k v2 (map_set String.eqb k v1 m) =
  map_set String.eqb k v2 m.
Proof.
  induction m as [| [k' v'] m IH]; cbn.
  - rewrite String.eqb_refl. reflexivity.
  - destruct (String.eqb_spec k k') as [E | N]; cbn.
    + rewrite String.eqb_refl. reflexivity.
    + destruct (String.eqb_spec k k'); [contradiction |]. rewrite IH.
      reflexivity.
Qed.

Lemma ts_registerAtom_fresh key v s :
  map_get String.eqb key (atoms s) = None ->
  let r := registerAtom key v s in
  outcome r = Normal tt /\
  (exists n, final r =
     with_ticks n
       (with_atoms (map_set String.eqb key (fresh_cell (isRoot s) key v)
                      (atoms s)) s)) /\
  (forall e, In e (effects r) ->
     match e with
     | PostMessage (ToIframe f w) (AtomSync k v' _) o =>
         In f (iframes s) /\ contentWindow s f = Some w
     | PostMessage _ _ _ => False
     | Invoke _ _ => False
     | ConsoleLog _ => debug (options s) = true
     | ConsoleWarn _ => False
     end).
Proof.
  intros H r. subst r. unfold registerAtom, map_has.
  rewrite bind_get, H. rewrite bind_modify.
  set (s1 := with_atoms (map_set String.eqb key (create Subscriber v) (atoms s)) s).
  destruct (isRoot s) eqn:R; cbn [when fresh_cell].
  - assert (G : map_get String.eqb key (atoms s1) = Some (create Subscriber v))
      by apply get_set_same.
    destruct (ts_atom_subscribe_run key (SubBroadcast key) s1 G) as [Ho [[n Hf] He]].
    unfold bind. rewrite Ho, Hf, He. cbn [outcome final effects].
    rewrite ts_debug_log_run. cbn [outcome final effects].
    split; [reflexivity | split].
    + exists n. subst s1. unfold with_atoms, with_ticks. cbn.
      rewrite ts_map_set_set. reflexivity.
    + intros e Hin. apply in_app_or in Hin. destruct Hin as [Hin | Hin].
      * cbn [call_subscriber] in Hin. rewrite ts_broadcastToIframes_run in Hin.
        cbn [effects] in Hin. apply in_app_or in Hin.
        destruct Hin as [Hin | Hin].
        -- apply in_flat_map in Hin. destruct Hin as [f [Hf' Hin]].
           cbn in Hin, Hf'.
           destruct (contentWindow s f) as [w |] eqn:Hw; [| destruct Hin].
           destruct Hin as [<- | []]. auto.
        -- cbn in Hin. destruct (debug (options s)); [| destruct Hin].
           destruct Hin as [<- | []]. reflexivity.
      * cbn in Hin. destruct (debug (options s)); [| destruct Hin].
        destruct Hin as [<- | []]. reflexivity.
  - rewrite bind_ret, ts_debug_log_run. cbn [outcome final effects].
    split; [reflexivity | split].
    + exists (ticks s1). rewrite ts_with_ticks_same. reflexivity.
    + intros e Hin. cbn in Hin. destruct (debug (options s)); [| destruct Hin].
      destruct Hin as [<- | []]. reflexivity.
Qed.

Lemma ts_registerIframe_run f s :
  registerIframe f s =
  mkRun (Normal tt)
    (with_loadListeners (loadListeners s ++ [f])
       (with_iframes (set_add Nat.eqb f (iframes s)) s))
    (if debug (options s) then [ConsoleLog (LogRegisteredIframe f)] else []).
Proof.
  unfold registerIframe. rewrite !bind_modify, ts_debug_log_run. reflexivity.
Qed.

Lemma ts_unregisterIframe_run f s :
  unregisterIframe f s =
  mkRun (Normal tt) (with_iframes (set_delete Nat.eqb f (iframes s)) s)
    (if debug (options s) then [ConsoleLog (LogUnregisteredIframe f)]
     else []).
Proof.
  unfold unregisterIframe. rewrite bind_modify, ts_debug_log_run. reflexivity.
Qed.

Lemma ts_sendToParent_root key v s :
  isRoot s = true ->
  sendToParent key v s =
  mkRun (Normal tt) s
    (if debug (options s) then [ConsoleWarn LogCannotSend] else []).
Proof.
  intros R. unfold sendToParent. rewrite bind_get, R. apply ts_debug_warn_run.
Qed.

Lemma ts_sendToParent_child key v s :
  isRoot s = false ->
  sendToParent key v s =
  mkRun (Normal tt) (with_ticks (S (ticks s)) s)
    (PostMessage ToParent (AtomSync key v (now s (ticks s)))
                 (targetOrigin (options s))
     :: (if debug (options s) then [ConsoleLog (LogSent key v)] else [])).
Proof.
  intros R. unfold sendToParent. rewrite bind_get, R.
  unfold Date_now. erewrite bind_run by reflexivity.
  rewrite bind_emit, ts_debug_log_run. reflexivity.
Qed.

Lemma ts_requestStateFromParent_root s :
  isRoot s = true ->
  requestStateFromParent s =
  mkRun (Normal tt) s
    (if debug (options s) then [ConsoleWarn LogCannotRequest] else []).
Proof.
  intros R. unfold requestStateFromParent. rewrite bind_get, R.
  apply ts_debug_warn_run.
Qed.

Lemma ts_requestStateFromParent_child s :
  isRoot s = false ->
  requestStateFromParent s =
  mkRun (Normal tt) (with_ticks (S (ticks s)) s)
    (PostMessage ToParent (AtomSyncRequest (now s (ticks s)))
                 (targetOrigin (options s))
     :: (if debug (options s) then [ConsoleLog LogRequested] else [])).
Proof.
  intros R. unfold requestStateFromParent. rewrite bind_get, R.
  unfold Date_now. erewrite bind_run by reflexivity.
  rewrite bind_emit, ts_debug_log_run. reflexivity.
Qed.

(** The reply to a request: one message per cell to [event.source]. *)
Lemma ts_reply_loop_run (src : option Window) o (l : list (string * Atom)) s :
  forEach l (fun entry =>
    match src with
    | Some w =>
        ts <- Date_now ;;
        emit (PostMessage (ToSource w)
                (AtomSync (fst entry) (value (snd entry)) ts) o)
    | None => ret tt
    end) s =
  match src with
  | Some w =>
      mkRun (Normal tt) (with_ticks (ticks s + List.length l) s)
        (map (fun p =>
                PostMessage (ToSource w)
                  (AtomSync (fst (snd p)) (value (snd (snd p)))
                            (now s (fst p))) o)
             (combine (seq (ticks s) (List.length l)) l))
  | None => mkRun (Normal tt) s []
  end.
Proof.
  destruct src as [w |].
  - revert s. induction l as [| e l IH]; intros s.
    + cbn. rewrite Nat.add_0_r, ts_with_ticks_same. reflexivity.
    + cbn [forEach]. unfold Date_now.
      erewrite bind_run; [| erewrite bind_run by reflexivity; reflexivity].
      rewrite IH. unfold prepend.
      cbn [outcome final effects List.length seq combine map app].
      f_equal. unfold with_ticks. cbn. f_equal. lia.
  - induction l as [| e l IH]; [reflexivity |].
    cbn [forEach]. rewrite bind_ret. assumption.
Qed.

Lemma ts_handleMessage_request ts src s :
  isRoot s = true ->
  handleMessage {| data := DataMessage (AtomSyncRequest ts); source := src |} s =
  match src with
  | Some w =>
      mkRun (Normal tt) (with_ticks (ticks s + List.length (atoms s)) s)
        ((if debug (options s) then [ConsoleLog LogStateRequest] else []) ++
         map (fun p =>
                PostMessage (ToSource w)
                  (AtomSync (fst (snd p)) (value (snd (snd p)))
                            (now s (fst p)))
                  (targetOrigin (options s)))
             (combine (seq (ticks s) (List.length (atoms s))) (atoms s)))
  | None =>
      mkRun (Normal tt) s
        ((if debug (options s) then [ConsoleLog LogStateRequest] else [])
         ++ [])
  end.
Proof.
  intros R. unfold handleMessage. cbn [data source].
  rewrite bind_get, R.
  erewrite bind_run by apply ts_debug_log_run.
  rewrite ts_reply_loop_run. destruct src; reflexivity.
Qed.

Lemma ts_handleMessage_sync_present key v ts src s a :
  map_get String.eqb key (atoms s) = Some a ->
  let s' := with_atoms
              (map_set String.eqb key (cell_set v a) (atoms s)) s in
  let r := handleMessage
             {| data := DataMessage (AtomSync key v ts); source := src |} s in
  outcome r = Normal tt /\
  (exists n, final r = with_ticks n s') /\
  effects r =
  effects (forEach (subscribers a) (fun sub => call_subscriber sub v) s') ++
  (if debug (options s) then [ConsoleLog (LogReceived key v)] else []).
Proof.
  intros H s' r. subst r. unfold handleMessage. cbn [data source].
  rewrite bind_get, H.
  destruct (ts_atom_set_run key v s H) as [Ho [[n Hf] He]].
  unfold bind. rewrite Ho, Hf, He, ts_debug_log_run.
  cbn [outcome final effects].
  split; [reflexivity | split; [exists n; reflexivity | reflexivity]].
Qed.

Lemma ts_handleMessage_sync_absent key v ts src s :
  map_get String.eqb key (atoms s) = None ->
  handleMessage
    {| data := DataMessage (AtomSync key v ts); source := src |} s =
  mkRun (Normal tt) s
    (if debug (options s) then [ConsoleWarn (LogUnknownAtom key)] else []).
Proof.
  intros H. unfold handleMessage. cbn [data source].
  rewrite bind_get, H. apply ts_debug_warn_run.
Qed.

(** *** What one operation can change *)

Lemma ts_step_shape op s :
  let s' := final (step op s) in
  isRoot s' = isRoot s /\ options s' = options s /\ now s' = now s /\
  (loadListeners s' = loadListeners s \/
   exists f, op = RegisterIframe f /\
             loadListeners s' = loadListeners s ++ [f]) /\
  (iframes s' = iframes s \/
   (exists f, op = RegisterIframe f /\
              iframes s' = set_add Nat.eqb f (iframes s)) \/
   (exists f, op = UnregisterIframe f /\
              iframes s' = set_delete Nat.eqb f (iframes s))) /\
  (atoms s' = atoms s \/
   (exists k a v, map_get String.eqb k (atoms s) = Some a /\
      atoms s' = map_set String.eqb k (cell_set v a) (atoms s)) \/
   (exists k a cb, op = AtomSubscribe k cb /\
      map_get String.eqb k (atoms s) = Some a /\
      atoms s' = map_set String.eqb k
                   (cell_subscribe subscriber_eqb (SubUser cb) a) (atoms s)) \/
   (exists k a cb, op = AtomUnsubscribe k cb /\
      map_get String.eqb k (atoms s) = Some a /\
      atoms s' = map_set String.eqb k
                   (cell_unsubscribe subscriber_eqb (SubUser cb) a)
                   (atoms s)) \/
   (exists k v, op = RegisterAtom k v /\
      map_get String.eqb k (atoms s) = None /\
      atoms s' = map_set String.eqb k (fresh_cell (isRoot s) k v) (atoms s))).
Proof.
  destruct op as [k v | k | k | k v | k cb | k cb | f | f | | k v | ev | f | f w];
    cbn [step].
  - (* registerAtom *)
    destruct (map_get String.eqb k (atoms s)) as [a |] eqn:G.
    + rewrite (ts_registerAtom_present k v s G). cbn. repeat split; auto.
    + destruct (ts_registerAtom_fresh k v s G) as [_ [[n Hf] _]]. rewrite Hf. cbn.
      repeat split; auto. right. right. right. right.
      exists k, v. auto.
  - unfold bind. rewrite ts_getAtom_run.
    destruct (map_get String.eqb k (atoms s)); cbn; repeat split; auto.
  - unfold bind. rewrite ts_getAtom_run.
    destruct (map_get String.eqb k (atoms s)) eqn:G;
      cbn [outcome final effects]; [| repeat split; auto].
    rewrite ts_atom_get_run. cbn. repeat split; auto.
  - unfold bind. rewrite ts_getAtom_run.
    destruct (map_get String.eqb k (atoms s)) as [a |] eqn:G;
      cbn [outcome final effects]; [| cbn; repeat split; auto].
    destruct (ts_atom_set_run k v s G) as [_ [[n Hf] _]]. rewrite Hf. cbn.
    repeat split; auto. right. left. exists k, a, v. auto.
  - unfold bind. rewrite ts_getAtom_run.
    destruct (map_get String.eqb k (atoms s)) as [a |] eqn:G;
      cbn [outcome final effects]; [| cbn; repeat split; auto].
    destruct (ts_atom_subscribe_run k (SubUser cb) s G) as [_ [[n Hf] _]].
    rewrite Hf. cbn.
    repeat split; auto. right. right. left. exists k, a, cb. auto.
  - unfold bind. rewrite ts_getAtom_run.
    destruct (map_get String.eqb k (atoms s)) as [a |] eqn:G;
      cbn [outcome final effects]; [| cbn; repeat split; auto].
    rewrite ts_atom_unsubscribe_run, G. cbn.
    repeat split; auto. right. right. right. left. exists k, a, cb. auto.
  - rewrite ts_registerIframe_run. cbn.
    repeat split; auto.
    + right. exists f. auto.
    + right. left. exists f. auto.
  - rewrite ts_unregisterIframe_run. cbn.
    repeat split; auto. right. right. exists f. auto.
  - destruct (isRoot s) eqn:R.
    + rewrite (ts_requestStateFromParent_root s R). cbn. repeat split; auto.
    + rewrite (ts_requestStateFromParent_child s R). cbn. repeat split; auto.
  - destruct (isRoot s) eqn:R.
    + rewrite (ts_sendToParent_root k v s R). cbn. repeat split; auto.
    + rewrite (ts_sendToParent_child k v s R). cbn. repeat split; auto.
  - (* a message *)
    destruct ev as [[[k v ts | ts] | |] src].
    + destruct (map_get String.eqb k (atoms s)) as [a |] eqn:G.
      * destruct (ts_handleMessage_sync_present k v ts src s G)
          as [_ [[n Hf] _]].
        rewrite Hf. cbn. repeat split; auto.
        right. left. exists k, a, v. auto.
      * rewrite (ts_handleMessage_sync_absent k v ts src s G). cbn. repeat split; auto.
    + destruct (isRoot s) eqn:R.
      * rewrite (ts_handleMessage_request ts src s R).
        destruct src; cbn; repeat split; auto.
      * unfold handleMessage. cbn [data]. rewrite bind_get, R. cbn. repeat split; auto.
    + cbn. repeat split; auto.
    + cbn. repeat split; auto.
  - destruct (ts_fire_load_run f s) as [_ [[n Hf] _]]. rewrite Hf. cbn. repeat split; auto.
  - cbn. repeat split; auto.
Qed.

(** *** Invariants of a coordinator *)

Lemma ts_run_app ops1 ops2 s : run (ops1 ++ ops2) s = run ops2 (run ops1 s).
Proof. unfold run. apply fold_left_app. Qed.

Lemma ts_run_cons op ops s : run (op :: ops) s = run ops (final (step op s)).
Proof. reflexivity. Qed.

Lemma ts_isRoot_run ops s : isRoot (run ops s) = isRoot s.
Proof.
  revert s. induction ops as [| op ops IH]; intros s; [reflexivity |].
  rewrite ts_run_cons, IH. apply ts_step_shape.
Qed.

Lemma ts_wired_step op s :
  isRoot s = true -> broadcast_wired s -> broadcast_wired (final (step op s)).
Proof.
  intros R W. destruct (ts_step_shape op s) as [_ [_ [_ [_ [_ Ha]]]]].
  intros k' a' G.
  destruct Ha as [E | [[k [a [v [Gk E]]]] | [[k [a [cb [_ [Gk E]]]]] |
                 [[k [a [cb [_ [Gk E]]]]] | [k [v [_ [Gk E]]]]]]]];
    rewrite E in G.
  - apply (W k' a' G).
  - destruct (String.eqb_spec k k') as [-> | N].
    + rewrite get_set_same in G.
      injection G as <-. cbn. apply (W k' a Gk).
    + rewrite get_set_other in G by assumption.
      apply (W k' a' G).
  - destruct (String.eqb_spec k k') as [-> | N].
    + rewrite get_set_same in G.
      injection G as <-. cbn.
      apply In_sub_add. left. apply (W k' a Gk).
    + rewrite get_set_other in G by assumption.
      apply (W k' a' G).
  - destruct (String.eqb_spec k k') as [-> | N].
    + rewrite get_set_same in G.
      injection G as <-. cbn.
      apply In_sub_delete. split.
      * apply (W k' a Gk).
      * discriminate.
    + rewrite get_set_other in G by assumption.
      apply (W k' a' G).
  - destruct (String.eqb_spec k k') as [-> | N].
    + rewrite get_set_same in G.
      injection G as <-. rewrite R. cbn. left. reflexivity.
    + rewrite get_set_other in G by assumption.
      apply (W k' a' G).
Qed.

Lemma ts_wired_run ops s :
  isRoot s = true -> broadcast_wired s -> broadcast_wired (run ops s).
Proof.
  revert s. induction ops as [| op ops IH]; intros s R W; [assumption |].
  rewrite ts_run_cons. apply IH.
  - destruct (ts_step_shape op s) as [E _]. rewrite E. assumption.
  - apply ts_wired_step; assumption.
Qed.

Lemma ts_reachable_root_wired s :
  reachable_root s -> isRoot s = true /\ broadcast_wired s.
Proof.
  intros [opts [dom [clock [ops ->]]]]. unfold constructor.
  rewrite ts_debug_log_run. cbn [final]. split.
  - rewrite ts_isRoot_run. reflexivity.
  - apply ts_wired_run; [reflexivity |]. intros k a G. discriminate.
Qed.

(** Load listeners are never detached. *)
Lemma ts_listeners_step op s f :
  count_occ Nat.eq_dec (loadListeners s) f <=
  count_occ Nat.eq_dec (loadListeners (final (step op s))) f.
Proof.
  destruct (ts_step_shape op s) as [_ [_ [_ [[E | [g [_ E]]] _]]]]; rewrite E.
  - apply Nat.le_refl.
  - rewrite count_occ_app. apply Nat.le_add_r.
Qed.

Lemma ts_listeners_run ops s f :
  count_occ Nat.eq_dec (loadListeners s) f <=
  count_occ Nat.eq_dec (loadListeners (run ops s)) f.
Proof.
  revert s. induction ops as [| op ops IH]; intros s; [apply Nat.le_refl |].
  rewrite ts_run_cons. eapply Nat.le_trans; [apply ts_listeners_step | apply IH].
Qed.

(** An iframe element stays out of the broadcast set until it is
    registered again. *)
Lemma ts_unregistered_step op s f :
  op <> RegisterIframe f -> ~ In f (iframes s) ->
  ~ In f (iframes (final (step op s))).
Proof.
  intros N H.
  destruct (ts_step_shape op s)
    as [_ [_ [_ [_ [[E | [[g [Eo E]] | [g [Eo E]]]] _]]]]]; rewrite E.
  - assumption.
  - intros H'. apply In_nat_add in H'.
    destruct H' as [H' | ->]; [contradiction | apply N; assumption].
  - intros H'. apply In_nat_delete in H'.
    destruct H'; contradiction.
Qed.

Lemma ts_unregistered_run ops s f :
  Forall (fun op => op <> RegisterIframe f) ops -> ~ In f (iframes s) ->
  ~ In f (iframes (run ops s)).
Proof.
  revert s. induction ops as [| op ops IH]; intros s F H; [assumption |].
  inversion F as [| ? ? N F']; subst. rewrite ts_run_cons.
  apply IH; [assumption |]. apply ts_unregistered_step; assumption.
Qed.


(** *** A value message from a child *)

Lemma ts_child_update s key a v ts src :
  reachable_root s ->
  map_get String.eqb key (atoms s) = Some a ->
  let r := handleMessage
             {| data := DataMessage (AtomSync key v ts); source := src |} s in
  returns r /\
  (exists a', map_get String.eqb key (atoms (final r)) = Some a' /\
              value a' = v) /\
  (forall cb, In (SubUser cb) (subscribers a) -> In (Invoke cb v) (effects r)) /\
  (forall f w, In f (iframes s) -> contentWindow s f = Some w ->
     exists ts',
       In (PostMessage (ToIframe f w) (AtomSync key v ts')
                       (targetOrigin (options s)))
          (effects r)).
Proof.
  intros Hr G r. destruct (ts_reachable_root_wired Hr) as [R W].
  destruct (ts_handleMessage_sync_present key v ts src s G) as [Ho [[n Hf] He]].
  fold r in Ho, Hf, He. split; [exists tt; assumption | split; [| split]].
  - rewrite Hf. cbn. rewrite get_set_same. eexists. split; reflexivity.
  - intros cb Hcb. rewrite He. apply in_or_app. left.
    apply ts_notify_invokes. assumption.
  - intros f w Hf' Hw. rewrite He.
    destruct (@ts_notify_posts (subscribers a) v
                (with_atoms (map_set String.eqb key
                               (cell_set v a) (atoms s)) s)
                key f w (W key a G) Hf' Hw) as [ts' Hin].
    exists ts'. apply in_or_app. left. exact Hin.
Qed.

(** *** Changing a cell notifies its subscribers and the registered
    iframes only *)

Lemma ts_atom_set_effects key v s e :
  In e (effects (atom_set key v s)) ->
  match e with
  | PostMessage (ToIframe f w) (AtomSync _ v' _) _ =>
      In f (iframes s) /\ contentWindow s f = Some w /\ v' = v
  | PostMessage _ _ _ => False
  | Invoke cb v' =>
      v' = v /\
      exists a, map_get String.eqb key (atoms s) = Some a /\
                In (SubUser cb) (subscribers a)
  | ConsoleLog _ => debug (options s) = true
  | ConsoleWarn _ => False
  end.
Proof.
  destruct (map_get String.eqb key (atoms s)) as [a |] eqn:G.
  - destruct (ts_atom_set_run key v s G) as [_ [_ He]]. rewrite He.
    intros Hin.
    destruct (ts_notify_run (subscribers a) v
                (with_atoms (map_set String.eqb key
                               (cell_set v a) (atoms s)) s))
      as [_ [_ HE]].
    specialize (HE e Hin).
    destruct e as [[f w | w |] [k' v' ts' | ts'] o | cb v' | [] | line];
      try assumption; try contradiction.
    + cbn in HE. tauto.
    + destruct HE as [H1 H2]. split; [assumption |]. exists a. auto.
  - rewrite (ts_atom_set_absent key v s G). intros [].
Qed.

Lemma ts_handleMessage_sync_effects key v ts src s e :
  In e (effects (handleMessage
                   {| data := DataMessage (AtomSync key v ts);
                      source := src |} s)) ->
  match e with
  | PostMessage (ToIframe f w) (AtomSync _ v' _) _ =>
      In f (iframes s) /\ contentWindow s f = Some w /\ v' = v
  | PostMessage _ _ _ => False
  | Invoke cb v' =>
      v' = v /\
      exists a, map_get String.eqb key (atoms s) = Some a /\
                In (SubUser cb) (subscribers a)
  | ConsoleLog _ | ConsoleWarn _ => debug (options s) = true
  end.
Proof.
  destruct (map_get String.eqb key (atoms s)) as [a |] eqn:G.
  - destruct (ts_handleMessage_sync_present key v ts src s G) as [_ [_ He]].
    rewrite He. intros Hin. apply in_app_or in Hin.
    destruct Hin as [Hin | Hin].
    + destruct (ts_atom_set_run key v s G) as [_ [_ He']].
      rewrite <- He' in Hin. apply ts_atom_set_effects in Hin.
      destruct e as [[f w | w |] [k' v' ts' | ts'] o | cb v' | line | line];
        try assumption; try contradiction.
      rewrite <- G. assumption.
    + destruct (debug (options s)); [| destruct Hin].
      destruct Hin as [<- | []]. reflexivity.
  - rewrite (ts_handleMessage_sync_absent key v ts src s G). cbn.
    destruct (debug (options s)); intros Hin; [| destruct Hin].
    destruct Hin as [<- | []]. reflexivity.
Qed.

(** *** [registerIframe] and the load event *)

Lemma ts_registerIframe_load s f ops :
  let s1 := final (registerIframe f s) in
  let s2 := run ops s1 in
  In f (iframes s1) /\
  count_occ Nat.eq_dec (loadListeners s1) f =
    S (count_occ Nat.eq_dec (loadListeners s) f) /\
  1 <= count_occ Nat.eq_dec (loadListeners s2) f /\
  forall w, contentWindow s2 f = Some w ->
    returns (fire_load f s2) /\
    map payload (posted_to (ToIframe f w) (effects (fire_load f s2))) =
    List.concat (repeat (cells s2)
                   (count_occ Nat.eq_dec (loadListeners s2) f)).
Proof.
  intros s1 s2.
  assert (C : count_occ Nat.eq_dec (loadListeners s1) f =
              S (count_occ Nat.eq_dec (loadListeners s) f)).
  { subst s1. rewrite ts_registerIframe_run. cbn.
    rewrite count_occ_app. cbn.
    destruct (Nat.eq_dec f f); [| contradiction].
    rewrite Nat.add_1_r. reflexivity. }
  split; [| split; [exact C | split]].
  - subst s1. rewrite ts_registerIframe_run. cbn.
    apply In_nat_add. right. reflexivity.
  - pose proof (ts_listeners_run ops s1 f) as L. fold s2 in L. lia.
  - intros w Hw. destruct (ts_fire_load_run f s2) as [Ho [_ [Hp _]]].
    split; [exists tt; assumption | apply Hp; assumption].
Qed.

(** *** [unregisterIframe] *)

Lemma ts_unregisterIframe_then s0 f ops1 ops2 :
  Forall (fun op => op <> RegisterIframe f) ops2 ->
  let s1 := run ops1 (final (registerIframe f s0)) in
  let s2 := run ops2 (final (unregisterIframe f s1)) in
  ~ In f (iframes s2) /\
  (forall key v e, In e (effects (atom_set key v s2)) ->
                   posts_to_iframe f e = false) /\
  (forall key v ts src e,
     In e (effects (handleMessage
                      {| data := DataMessage (AtomSync key v ts);
                         source := src |} s2)) ->
     posts_to_iframe f e = false) /\
  1 <= count_occ Nat.eq_dec (loadListeners s2) f /\
  forall w, contentWindow s2 f = Some w ->
    returns (fire_load f s2) /\
    map payload (posted_to (ToIframe f w) (effects (fire_load f s2))) =
    List.concat (repeat (cells s2)
                   (count_occ Nat.eq_dec (loadListeners s2) f)).
Proof.
  intros F s1 s2.
  assert (N : ~ In f (iframes s2)).
  { subst s2. apply ts_unregistered_run; [assumption |].
    rewrite ts_unregisterIframe_run. cbn. intros H.
    apply In_nat_delete in H. destruct H as [_ H]. apply H. reflexivity. }
  split; [exact N | split; [| split; [| split]]].
  - intros key v e Hin. apply ts_atom_set_effects in Hin.
    destruct e as [[g w | w |] [k' v' ts' | ts'] o | cb v' | line | line];
      try reflexivity; try contradiction. cbn.
    destruct (Nat.eqb_spec f g) as [-> | Ne]; [| reflexivity].
    destruct Hin as [Hin _]. contradiction.
  - intros key v ts src e Hin. apply ts_handleMessage_sync_effects in Hin.
    destruct e as [[g w | w |] [k' v' ts' | ts'] o | cb v' | line | line];
      try reflexivity; try contradiction. cbn.
    destruct (Nat.eqb_spec f g) as [-> | Ne]; [| reflexivity].
    destruct Hin as [Hin _]. contradiction.
  - destruct (ts_registerIframe_load s0 f ops1) as [_ [_ [L _]]].
    fold s1 in L.
    assert (L1 : count_occ Nat.eq_dec (loadListeners s1) f <=
                 count_occ Nat.eq_dec
                   (loadListeners (final (unregisterIframe f s1))) f)
      by (rewrite ts_unregisterIframe_run; apply Nat.le_refl).
    pose proof (ts_listeners_run ops2 (final (unregisterIframe f s1)) f) as L2.
    fold s2 in L2. lia.
  - intros w Hw. destruct (ts_fire_load_run f s2) as [Ho [_ [Hp _]]].
    split; [exists tt; assumption | apply Hp; assumption].
Qed.

(** *** The reply to a sync request *)

Lemma ts_request_reply s ts w :
  isRoot s = true ->
  let ev := {| data := DataMessage (AtomSyncRequest ts);
               source := Some w |} in
  let r := handleMessage ev s in
  returns r /\
  map payload (posted_to (ToSource w) (effects r)) = cells s /\
  (forall l, effects (handleMessage ev (with_iframes l s)) = effects r) /\
  (forall t m o, In (PostMessage t m o) (effects r) -> t = ToSource w).
Proof.
  intros R ev r. subst r ev.
  rewrite (ts_handleMessage_request ts (Some w) s R). cbn [outcome effects].
  split; [exists tt; reflexivity | split; [| split]].
  - rewrite posted_to_app.
    assert (E : posted_to (ToSource w)
                  (if debug (options s)
                   then [ConsoleLog LogStateRequest] else []) = [])
      by (destruct (debug (options s)); reflexivity).
    rewrite E. cbn [app].
    rewrite ts_posted_to_map_same with
      (g := fun p => AtomSync (fst (snd p)) (value (snd (snd p)))
                              (now s (fst p))).
    rewrite map_map. cbn [payload]. unfold cells.
    apply ts_map_combine_seq with
      (g := fun e : string * Atom => Some (fst e, value (snd e))).
  - intros l.
    rewrite (ts_handleMessage_request ts (Some w) (with_iframes l s) R).
    reflexivity.
  - intros t m o Hin. apply in_app_or in Hin. destruct Hin as [Hin | Hin].
    + destruct (debug (options s)); [| destruct Hin].
      destruct Hin as [Hin | []]. discriminate.
    + apply in_map_iff in Hin. destruct Hin as [p [Hp _]].
      injection Hp as <- _ _. reflexivity.
Qed.

(** *** No console line without the debug option *)

Lemma ts_step_console op s e :
  debug (options s) = false -> In e (effects (step op s)) ->
  is_console e = false.
Proof.
  intros D.
  destruct op as [k v | k | k | k v | k cb | k cb | f | f | | k v | ev | f | f w];
    cbn [step].
  - destruct (map_get String.eqb k (atoms s)) as [a |] eqn:G.
    + rewrite (ts_registerAtom_present k v s G). intros [].
    + destruct (ts_registerAtom_fresh k v s G) as [_ [_ He]]. intros Hin.
      specialize (He e Hin).
      destruct e as [t m o | cb v' | line | line]; try reflexivity;
        try contradiction. congruence.
  - unfold bind. rewrite ts_getAtom_run.
    destruct (map_get String.eqb k (atoms s)); intros [].
  - unfold bind. rewrite ts_getAtom_run.
    destruct (map_get String.eqb k (atoms s));
      cbn [outcome final effects]; [| intros []].
    rewrite ts_atom_get_run. intros [].
  - unfold bind. rewrite ts_getAtom_run.
    destruct (map_get String.eqb k (atoms s)) as [a |] eqn:G;
      cbn [outcome final effects app]; [| intros []].
    intros Hin. apply ts_atom_set_effects in Hin.
    destruct e as [t m o | cb v' | line | line]; try reflexivity;
      try contradiction. congruence.
  - unfold bind. rewrite ts_getAtom_run.
    destruct (map_get String.eqb k (atoms s)) as [a |] eqn:G;
      cbn [outcome final effects app]; [| intros []].
    destruct (ts_atom_subscribe_run k (SubUser cb) s G) as [_ [_ He]].
    rewrite He. intros [<- | []]. reflexivity.
  - unfold bind. rewrite ts_getAtom_run.
    destruct (map_get String.eqb k (atoms s));
      cbn [outcome final effects app]; [| intros []].
    rewrite ts_atom_unsubscribe_run. intros [].
  - rewrite ts_registerIframe_run. cbn. rewrite D. intros [].
  - rewrite ts_unregisterIframe_run. cbn. rewrite D. intros [].
  - destruct (isRoot s) eqn:R.
    + rewrite (ts_requestStateFromParent_root s R). cbn. rewrite D. intros [].
    + rewrite (ts_requestStateFromParent_child s R). cbn. rewrite D.
      intros [<- | []]. reflexivity.
  - destruct (isRoot s) eqn:R.
    + rewrite (ts_sendToParent_root k v s R). cbn. rewrite D. intros [].
    + rewrite (ts_sendToParent_child k v s R). cbn. rewrite D.
      intros [<- | []]. reflexivity.
  - destruct ev as [[[k v ts | ts] | |] src].
    + intros Hin. apply ts_handleMessage_sync_effects in Hin.
      destruct e as [t m o | cb v' | line | line]; try reflexivity;
        congruence.
    + destruct (isRoot s) eqn:R.
      * rewrite (ts_handleMessage_request ts src s R).
        destruct src as [w |]; cbn [effects]; rewrite D; cbn [app].
        -- intros Hin. apply in_map_iff in Hin. destruct Hin as [p [<- _]].
           reflexivity.
        -- intros [].
      * unfold handleMessage. cbn [data]. rewrite bind_get, R. intros [].
    + intros [].
    + intros [].
  - destruct (ts_fire_load_run f s) as [_ [_ [_ He]]]. intros Hin.
    specialize (He e Hin).
    destruct e as [t m o | cb v' | line | line]; try reflexivity;
      try contradiction. congruence.
  - intros [].
Qed.

Lemma ts_options_run ops s : options (run ops s) = options s.
Proof.
  revert s. induction ops as [| op ops IH]; intros s; [reflexivity |].
  rewrite ts_run_cons, IH. apply ts_step_shape.
Qed.

Lemma ts_trace_console ops s e :
  debug (options s) = false -> In e (trace ops s) -> is_console e = false.
Proof.
  revert s. induction ops as [| op ops IH]; intros s D Hin; [destruct Hin |].
  cbn [trace] in Hin. apply in_app_or in Hin. destruct Hin as [Hin | Hin].
  - apply (ts_step_console op s e D Hin).
  - apply (IH (final (step op s))); [| assumption].
    destruct (ts_step_shape op s) as [_ [E _]]. rewrite E. assumption.
Qed.

(** *** The child client *)

Lemma ts_client_atom_run key c :
  client_atom key c =
  if set_has String.eqb key (record c) then mkRun (Normal tt) c []
  else mkRun (Thrown (if inherited_property key then TypeError
                 else ClientAtomNotFound key)) c [].
Proof.
  unfold client_atom. rewrite bind_get.
  destruct (set_has String.eqb key (record c)); [reflexivity |].
  destruct (inherited_property key); reflexivity.
Qed.

Lemma ts_getAtomValue_absent key c :
  ~ In key (record c) ->
  getAtomValue key c = mkRun (Thrown (if inherited_property key then TypeError
                 else ClientAtomNotFound key)) c [].
Proof.
  intros H. apply (set_has_false String.eqb String.eqb_spec) in H.
  unfold getAtomValue, bind. rewrite ts_client_atom_run, H. reflexivity.
Qed.

Lemma ts_unsubscribeFromAtom_run key cb c :
  unsubscribeFromAtom key cb c =
  mkRun (Normal tt)
    (mkClient
       (match map_get String.eqb key (atoms (sync c)) with
        | Some a =>
            with_atoms
              (map_set String.eqb key
                 (cell_unsubscribe subscriber_eqb (SubUser cb) a)
                 (atoms (sync c))) (sync c)
        | None => sync c
        end) (record c)) [].
Proof.
  unfold unsubscribeFromAtom, on_sync. rewrite ts_atom_unsubscribe_run.
  reflexivity.
Qed.

Lemma ts_atom_set_returns key v s : outcome (atom_set key v s) = Normal tt.
Proof.
  destruct (map_get String.eqb key (atoms s)) as [a |] eqn:G.
  - apply (ts_atom_set_run key v s G).
  - rewrite (ts_atom_set_absent key v s G). reflexivity.
Qed.

Lemma ts_sendToParent_frame key v s :
  outcome (sendToParent key v s) = Normal tt /\
  atoms (final (sendToParent key v s)) = atoms s /\
  forall cb, invocations cb (effects (sendToParent key v s)) = [].
Proof.
  destruct (isRoot s) eqn:R.
  - rewrite (ts_sendToParent_root key v s R). cbn.
    destruct (debug (options s)); auto.
  - rewrite (ts_sendToParent_child key v s R). cbn.
    destruct (debug (options s)); auto.
Qed.

Lemma ts_updateAtom_run key v c :
  In key (record c) ->
  let s1 := final (atom_set key v (sync c)) in
  updateAtom key v c =
  mkRun (Normal tt) (mkClient (final (sendToParent key v s1)) (record c))
        (effects (atom_set key v (sync c)) ++
         effects (sendToParent key v s1)).
Proof.
  intros H s1. apply (set_has_true String.eqb String.eqb_spec) in H.
  unfold updateAtom. unfold bind at 1. rewrite ts_client_atom_run, H.
  cbn [outcome final effects app]. unfold bind, on_sync.
  cbn [outcome final effects sync record].
  rewrite ts_atom_set_returns. cbn [outcome final effects sync record].
  fold s1. destruct (ts_sendToParent_frame key v s1) as [Ho _]. rewrite Ho.
  reflexivity.
Qed.

Lemma ts_updateAtom_absent key v c :
  ~ In key (record c) ->
  updateAtom key v c = mkRun (Thrown (if inherited_property key then TypeError
                 else ClientAtomNotFound key)) c [].
Proof.
  intros H. apply (set_has_false String.eqb String.eqb_spec) in H.
  unfold updateAtom. unfold bind at 1. rewrite ts_client_atom_run, H.
  reflexivity.
Qed.

Lemma ts_subscribeToAtom_absent key cb c :
  ~ In key (record c) ->
  subscribeToAtom key cb c = mkRun (Thrown (if inherited_property key then TypeError
                 else ClientAtomNotFound key)) c [].
Proof.
  intros H. apply (set_has_false String.eqb String.eqb_spec) in H.
  unfold subscribeToAtom. unfold bind at 1. rewrite ts_client_atom_run, H.
  reflexivity.
Qed.

(** What a client operation can do to the cells. *)
Lemma ts_client_step_atoms op c :
  let m := atoms (sync c) in
  let m' := atoms (sync (final (client_step op c))) in
  m' = m \/
  (exists k a v, map_get String.eqb k m = Some a /\
     m' = map_set String.eqb k (cell_set v a) m) \/
  (exists k a cb, subscribes k cb op /\
     map_get String.eqb k m = Some a /\
     m' = map_set String.eqb k
            (cell_subscribe subscriber_eqb (SubUser cb) a) m) \/
  (exists k a cb, map_get String.eqb k m = Some a /\
     m' = map_set String.eqb k
            (cell_unsubscribe subscriber_eqb (SubUser cb) a) m) \/
  (exists k v root, map_get String.eqb k m = None /\
     m' = map_set String.eqb k (fresh_cell root k v) m).
Proof.
  destruct op as [op | k v | k | k cb | k cb]; cbn [client_step].
  - unfold on_sync. cbn [final sync].
    destruct (ts_step_shape op (sync c))
      as [_ [_ [_ [_ [_ [E | [[k [a [v [G E]]]] | [[k [a [cb [Eo [G E]]]]] |
                 [[k [a [cb [Eo [G E]]]]] | [k [v [Eo [G E]]]]]]]]]]]]].
    + left. assumption.
    + right. left. exists k, a, v. auto.
    + right. right. left. exists k, a, cb. subst op.
      split; [right; reflexivity | auto].
    + right. right. right. left. exists k, a, cb. auto.
    + right. right. right. right. exists k, v, (isRoot (sync c)). auto.
  - destruct (in_dec string_dec k (record c)) as [H | H].
    + rewrite (ts_updateAtom_run k v c H). cbn [final sync].
      destruct (ts_sendToParent_frame k v (final (atom_set k v (sync c))))
        as [_ [E _]].
      rewrite E.
      destruct (map_get String.eqb k (atoms (sync c))) as [a |] eqn:G.
      * destruct (ts_atom_set_run k v (sync c) G) as [_ [[n Hf] _]].
        rewrite Hf. cbn. right. left. exists k, a, v. auto.
      * rewrite (ts_atom_set_absent k v (sync c) G). left. reflexivity.
    + rewrite (ts_updateAtom_absent k v c H). left. reflexivity.
  - unfold bind.
    destruct (in_dec string_dec k (record c)) as [H | H].
    + apply (set_has_true String.eqb String.eqb_spec) in H.
      unfold getAtomValue, bind. rewrite ts_client_atom_run, H.
      cbn [outcome final effects]. unfold on_sync. rewrite ts_atom_get_run.
      left. reflexivity.
    + rewrite (ts_getAtomValue_absent k c H). left. reflexivity.
  - destruct (in_dec string_dec k (record c)) as [H | H].
    + apply (set_has_true String.eqb String.eqb_spec) in H.
      unfold subscribeToAtom, bind. rewrite ts_client_atom_run, H.
      cbn [outcome final effects]. unfold on_sync. cbn [final sync].
      destruct (map_get String.eqb k (atoms (sync c))) as [a |] eqn:G.
      * destruct (ts_atom_subscribe_run k (SubUser cb) (sync c) G)
          as [_ [[n Hf] _]].
        rewrite Hf. cbn. right. right. left. exists k, a, cb.
        split; [left; reflexivity | auto].
      * unfold atom_subscribe. rewrite bind_get, G. left. reflexivity.
    + rewrite (ts_subscribeToAtom_absent k cb c H). left. reflexivity.
  - rewrite ts_unsubscribeFromAtom_run. cbn [final sync].
    destruct (map_get String.eqb k (atoms (sync c))) as [a |] eqn:G.
    + cbn. right. right. right. left. exists k, a, cb. auto.
    + left. reflexivity.
Qed.

Lemma ts_not_subscribed_step key cb op c :
  ~ subscribes key cb op ->
  not_subscribed key cb (sync c) ->
  not_subscribed key cb (sync (final (client_step op c))).
Proof.
  intros N W a' G.
  destruct (ts_client_step_atoms op c)
    as [E | [[k [a [v [Gk E]]]] | [[k [a [cb' [Eo [Gk E]]]]] |
        [[k [a [cb' [Gk E]]]] | [k [v [root [Gk E]]]]]]]];
    rewrite E in G.
  - apply (W a' G).
  - destruct (String.eqb_spec k key) as [-> | Nk].
    + rewrite get_set_same in G. injection G as <-. cbn. apply (W a Gk).
    + rewrite get_set_other in G by assumption. apply (W a' G).
  - destruct (String.eqb_spec k key) as [-> | Nk].
    + rewrite get_set_same in G. injection G as <-. cbn. intros H.
      apply In_sub_add in H. destruct H as [H | H].
      * apply (W a Gk H).
      * injection H as ->. apply N. exact Eo.
    + rewrite get_set_other in G by assumption. apply (W a' G).
  - destruct (String.eqb_spec k key) as [-> | Nk].
    + rewrite get_set_same in G. injection G as <-. cbn. intros H.
      apply In_sub_delete in H. destruct H as [H _]. apply (W a Gk H).
    + rewrite get_set_other in G by assumption. apply (W a' G).
  - destruct (String.eqb_spec k key) as [-> | Nk].
    + rewrite get_set_same in G. injection G as <-.
      destruct root; cbn; intros H.
      * destruct H as [H | []]. discriminate.
      * destruct H.
    + rewrite get_set_other in G by assumption. apply (W a' G).
Qed.

Lemma ts_not_subscribed_run key cb ops c :
  Forall (fun op => ~ subscribes key cb op) ops ->
  not_subscribed key cb (sync c) ->
  not_subscribed key cb (sync (client_run ops c)).
Proof.
  revert c. induction ops as [| op ops IH]; intros c F W; [assumption |].
  inversion F as [| ? ? N F']; subst. cbn [client_run fold_left].
  apply IH; [assumption |]. apply ts_not_subscribed_step; assumption.
Qed.

(** The function returned by [subscribeToAtom]: calling it never throws,
    and from its first call on a value change of the cell does not reach
    the callback. *)
Lemma ts_client_unsubscribe key cb c ops :
  Forall (fun op => ~ subscribes key cb op) ops ->
  let c1 := final (unsubscribeFromAtom key cb c) in
  let c2 := client_run ops c1 in
  returns (unsubscribeFromAtom key cb c) /\
  returns (unsubscribeFromAtom key cb c2) /\
  effects (unsubscribeFromAtom key cb c2) = [] /\
  (forall v, invocations cb (effects (updateAtom key v c2)) = []) /\
  (forall v, invocations cb (effects (on_sync (atom_set key v) c2)) = []) /\
  (forall v ts src,
     invocations cb
       (effects (on_sync (handleMessage
                            {| data := DataMessage (AtomSync key v ts);
                               source := src |}) c2)) = []).
Proof.
  intros F c1 c2.
  assert (W : not_subscribed key cb (sync c2)).
  { subst c2. apply ts_not_subscribed_run; [assumption |]. subst c1.
    rewrite ts_unsubscribeFromAtom_run. cbn [final sync]. intros a G.
    destruct (map_get String.eqb key (atoms (sync c))) as [a0 |] eqn:G0.
    - cbn in G. rewrite get_set_same in G. injection G as <-. cbn.
      intros H. apply In_sub_delete in H. destruct H as [_ H].
      apply H. reflexivity.
    - rewrite G0 in G. discriminate. }
  assert (Q : forall v, invocations cb (effects (atom_set key v (sync c2))) = []).
  { intros v. apply invocations_nil. intros v' Hin.
    apply ts_atom_set_effects in Hin. destruct Hin as [_ [a [G H]]].
    apply (W a G H). }
  split; [| split; [| split; [| split; [| split]]]].
  - rewrite ts_unsubscribeFromAtom_run. exists tt. reflexivity.
  - rewrite ts_unsubscribeFromAtom_run. exists tt. reflexivity.
  - rewrite ts_unsubscribeFromAtom_run. reflexivity.
  - intros v. destruct (in_dec string_dec key (record c2)) as [H | H].
    + rewrite (ts_updateAtom_run key v c2 H). cbn [effects].
      rewrite invocations_app, Q.
      destruct (ts_sendToParent_frame key v (final (atom_set key v (sync c2))))
        as [_ [_ E]].
      rewrite E. reflexivity.
    + rewrite (ts_updateAtom_absent key v c2 H). reflexivity.
  - intros v. unfold on_sync. cbn [effects]. apply Q.
  - intros v ts src. unfold on_sync. cbn [effects].
    apply invocations_nil. intros v' Hin.
    apply ts_handleMessage_sync_effects in Hin. destruct Hin as [_ [a [G H]]].
    apply (W a G H).
Qed.

(** *** The target origin of every message *)

Ltac within_side :=
  cbn [options with_atoms with_iframes with_loadListeners with_contentWindow
       with_ticks carries] in *;
  try assumption; try reflexivity; try congruence.

Ltac within_go :=
  repeat first
    [ apply within_bind_get
    | apply within_bind_modify
    | apply within_ret
    | apply within_throw
    | apply within_modify
    | apply within_emit
    | match goal with
      | |- within _ _ (when _ _ _) => apply within_when; [| intros _]
      | |- within _ _ (forEach _ _ _) =>
          apply within_forEach; [intros ? ? _ ? |]
      | |- within _ _ (bind _ _ _) => apply within_bind; [| intros ? ?]
      | |- within _ _ (match ?x with _ => _ end _) => destruct x
      end
    | progress within_side ].

Section Origin.
Variable o : Options.
Let I := fun s : State => options s = o.
Let E := carries (targetOrigin o).

Lemma ts_Date_now_origin s : I s -> within I E (Date_now s).
Proof. intros H. split; [exact H | intros e []]. Qed.

Lemma ts_debug_log_origin line s : I s -> within I E (debug_log line s).
Proof. intros H. unfold debug_log. within_go. Qed.

Lemma ts_debug_warn_origin line s : I s -> within I E (debug_warn line s).
Proof. intros H. unfold debug_warn. within_go. Qed.

Lemma ts_post_to_iframe_origin f m s :
  I s -> within I E (post_to_iframe f m s).
Proof. intros H. unfold post_to_iframe. within_go. Qed.

Lemma ts_broadcastToIframes_origin key v s :
  I s -> within I E (broadcastToIframes key v s).
Proof.
  intros H. unfold broadcastToIframes.
  apply within_bind; [apply ts_Date_now_origin, H | intros ts H1].
  apply within_bind_get.
  apply within_bind; [| intros _ H2; apply ts_debug_log_origin, H2].
  apply within_forEach; [| exact H1].
  intros f s' _ H'. apply ts_post_to_iframe_origin, H'.
Qed.

Lemma ts_call_subscriber_origin sub v s :
  I s -> within I E (call_subscriber sub v s).
Proof.
  intros H. destruct sub as [k | cb]; cbn [call_subscriber].
  - apply ts_broadcastToIframes_origin, H.
  - within_go.
Qed.

Lemma ts_atom_set_origin key v s : I s -> within I E (atom_set key v s).
Proof.
  intros H. unfold atom_set. apply within_bind_get.
  destruct (map_get String.eqb key (atoms s)) as [a |]; [| within_go].
  apply within_bind_modify. apply within_forEach; [| exact H].
  intros sub s' _ H'. apply ts_call_subscriber_origin, H'.
Qed.

Lemma ts_atom_subscribe_origin key sub s :
  I s -> within I E (atom_subscribe key sub s).
Proof.
  intros H. unfold atom_subscribe. apply within_bind_get.
  destruct (map_get String.eqb key (atoms s)) as [a |]; [| within_go].
  apply within_bind_modify. apply ts_call_subscriber_origin. exact H.
Qed.

Lemma ts_registerAtom_origin key v s :
  I s -> within I E (registerAtom key v s).
Proof.
  intros H. unfold registerAtom. apply within_bind_get.
  destruct (map_has String.eqb key (atoms s)); [within_go |].
  apply within_bind_modify.
  apply within_bind; [| intros _ H1; apply ts_debug_log_origin, H1].
  apply within_when; [exact H | intros _].
  apply ts_atom_subscribe_origin. exact H.
Qed.

Lemma ts_syncToIframe_origin f s : I s -> within I E (syncToIframe f s).
Proof.
  intros H. unfold syncToIframe. apply within_bind_get.
  apply within_bind; [| intros _ H1; apply ts_debug_log_origin, H1].
  apply within_forEach; [| exact H].
  intros entry s' _ H'.
  apply within_bind; [apply ts_Date_now_origin, H' | intros ts H1].
  apply ts_post_to_iframe_origin, H1.
Qed.

Lemma ts_handleMessage_origin ev s : I s -> within I E (handleMessage ev s).
Proof.
  intros H. unfold handleMessage.
  destruct (data ev) as [[key v ts | ts] | |]; [| | within_go | within_go].
  - apply within_bind_get.
    destruct (map_get String.eqb key (atoms s));
      [| apply ts_debug_warn_origin, H].
    apply within_bind; [apply ts_atom_set_origin, H |].
    intros _ H1. apply ts_debug_log_origin, H1.
  - apply within_bind_get. destruct (isRoot s); [| within_go].
    apply within_bind; [apply ts_debug_log_origin, H | intros _ H1].
    apply within_forEach; [| exact H1].
    intros entry s' _ H'. destruct (source ev) as [w |]; [| within_go].
    apply within_bind; [apply ts_Date_now_origin, H' | intros t H2].
    apply within_emit; [exact H2 |]. unfold E. cbn. rewrite H.
    reflexivity.
Qed.

Lemma ts_requestStateFromParent_origin s :
  I s -> within I E (requestStateFromParent s).
Proof.
  intros H. unfold requestStateFromParent. apply within_bind_get.
  destruct (isRoot s); [apply ts_debug_warn_origin, H |].
  apply within_bind; [apply ts_Date_now_origin, H | intros ts H1].
  apply within_bind; [| intros _ H2; apply ts_debug_log_origin, H2].
  apply within_emit; [exact H1 |]. unfold E. cbn. rewrite H. reflexivity.
Qed.

Lemma ts_sendToParent_origin key v s :
  I s -> within I E (sendToParent key v s).
Proof.
  intros H. unfold sendToParent. apply within_bind_get.
  destruct (isRoot s); [apply ts_debug_warn_origin, H |].
  apply within_bind; [apply ts_Date_now_origin, H | intros ts H1].
  apply within_bind; [| intros _ H2; apply ts_debug_log_origin, H2].
  apply within_emit; [exact H1 |]. unfold E. cbn. rewrite H. reflexivity.
Qed.

Lemma ts_fire_load_origin f s : I s -> within I E (fire_load f s).
Proof.
  intros H. unfold fire_load. apply within_bind_get.
  apply within_forEach; [| exact H].
  intros x s' _ H'. apply ts_syncToIframe_origin, H'.
Qed.

Lemma ts_step_origin op s : I s -> within I E (step op s).
Proof.
  intros H.
  destruct op as [k v | k | k | k v | k cb | k cb | f | f | | k v | ev | f
                  | f w]; cbn [step].
  - apply ts_registerAtom_origin, H.
  - apply within_bind; [| intros; apply within_ret; assumption].
    unfold getAtom. within_go.
  - apply within_bind; [unfold getAtom; within_go | intros a H1].
    apply within_bind; [| intros; apply within_ret; assumption].
    unfold atom_get. within_go.
  - apply within_bind; [unfold getAtom; within_go | intros a H1].
    apply ts_atom_set_origin, H1.
  - apply within_bind; [unfold getAtom; within_go | intros a H1].
    apply ts_atom_subscribe_origin, H1.
  - apply within_bind; [unfold getAtom; within_go | intros a H1].
    unfold atom_unsubscribe. within_go.
  - unfold registerIframe. apply within_bind_modify, within_bind_modify.
    apply ts_debug_log_origin. exact H.
  - unfold unregisterIframe. apply within_bind_modify.
    apply ts_debug_log_origin. exact H.
  - apply ts_requestStateFromParent_origin, H.
  - apply ts_sendToParent_origin, H.
  - apply ts_handleMessage_origin, H.
  - apply ts_fire_load_origin, H.
  - apply within_modify. exact H.
Qed.

Lemma ts_trace_origin ops s e :
  I s -> In e (trace ops s) -> E e.
Proof.
  revert s. induction ops as [| op ops IH]; intros s H Hin;
    [destruct Hin |].
  destruct (ts_step_origin op H) as [H1 He].
  cbn [trace] in Hin. apply in_app_or in Hin. destruct Hin as [Hin | Hin].
  - apply He, Hin.
  - apply (IH _ H1 Hin).
Qed.
End Origin.

(** *** A coordinator that is not the root *)

Lemma ts_unwired_step op s :
  isRoot s = false -> unwired s -> unwired (final (step op s)).
Proof.
  intros R W k' a' G'.
  destruct (ts_step_shape op s)
    as [_ [_ [_ [_ [_ [E | [[k [a [v [G E]]]] | [[k [a [cb [_ [G E]]]]] |
               [[k [a [cb [_ [G E]]]]] | [k [v [_ [G E]]]]]]]]]]]]];
    rewrite E in G'.
  - apply (W k' a' G').
  - destruct (String.eqb_spec k k') as [-> | N].
    + rewrite get_set_same in G'. injection G' as <-. apply (W k' a G).
    + rewrite get_set_other in G' by assumption. apply (W k' a' G').
  - destruct (String.eqb_spec k k') as [-> | N].
    + rewrite get_set_same in G'. injection G' as <-.
      cbn [subscribers cell_subscribe]. rewrite broadcast_keys_add.
      apply (W k' a G).
    + rewrite get_set_other in G' by assumption. apply (W k' a' G').
  - destruct (String.eqb_spec k k') as [-> | N].
    + rewrite get_set_same in G'. injection G' as <-.
      cbn [subscribers cell_unsubscribe]. rewrite broadcast_keys_delete.
      apply (W k' a G).
    + rewrite get_set_other in G' by assumption. apply (W k' a' G').
  - destruct (String.eqb_spec k k') as [-> | N].
    + rewrite get_set_same in G'. injection G' as <-. rewrite R.
      reflexivity.
    + rewrite get_set_other in G' by assumption. apply (W k' a' G').
Qed.

Lemma ts_unwired_run ops s :
  isRoot s = false -> unwired s -> unwired (run ops s).
Proof.
  revert s. induction ops as [| op ops IH]; intros s R W; [assumption |].
  rewrite ts_run_cons. apply IH; [| apply ts_unwired_step; assumption].
  rewrite <- R. apply (ts_step_shape op s).
Qed.

Lemma ts_reachable_child_unwired s :
  reachable_child s -> isRoot s = false /\ unwired s.
Proof.
  intros [opts [dom [clock [ops ->]]]].
  unfold constructor. rewrite ts_debug_log_run. cbn [final]. split.
  - rewrite ts_isRoot_run. reflexivity.
  - apply ts_unwired_run; [reflexivity |]. intros k a G. discriminate.
Qed.

Lemma ts_atom_set_silent key v s e :
  unwired s -> In e (effects (atom_set key v s)) -> is_post e = false.
Proof.
  intros W H. destruct (map_get String.eqb key (atoms s)) as [a |] eqn:G.
  - destruct (ts_atom_set_run key v s G) as [_ [_ He]]. rewrite He in H.
    destruct (ts_notify_run (subscribers a) v
                (with_atoms (map_set String.eqb key (cell_set v a) (atoms s))
                   s)) as [_ [_ Hn]].
    specialize (Hn e H).
    destruct e as [[f w | w |] [k v' ts | ts] o | cb v' | line | line];
      try reflexivity; try contradiction.
    destruct Hn as [Hn _]. apply In_broadcast_keys in Hn.
    rewrite (W key a G) in Hn. destruct Hn.
  - rewrite (ts_atom_set_absent key v s G) in H. destruct H.
Qed.

Lemma ts_handleMessage_silent ev s e :
  isRoot s = false -> unwired s ->
  In e (effects (handleMessage ev s)) -> is_post e = false.
Proof.
  intros R W H. destruct ev as [[[k v ts | ts] | |] src].
  - destruct (map_get String.eqb k (atoms s)) as [a |] eqn:G.
    + destruct (ts_handleMessage_sync_present k v ts src s G) as [_ [_ He]].
      rewrite He in H. apply in_app_or in H. destruct H as [H | H].
      * destruct (ts_atom_set_run k v s G) as [_ [_ He']].
        rewrite <- He' in H. apply (@ts_atom_set_silent k v s e W H).
      * destruct (debug (options s)); [| destruct H].
        destruct H as [<- | []]. reflexivity.
    + rewrite (ts_handleMessage_sync_absent k v ts src s G) in H.
      cbn [effects] in H. destruct (debug (options s)); [| destruct H].
      destruct H as [<- | []]. reflexivity.
  - unfold handleMessage in H. cbn [data] in H. rewrite bind_get, R in H.
    destruct H.
  - destruct H.
  - destruct H.
Qed.

(** *** Making the child client *)

Lemma ts_registerAtom_child key v s :
  isRoot s = false -> map_get String.eqb key (atoms s) = None ->
  registerAtom key v s =
  mkRun (Normal tt)
    (with_atoms (map_set String.eqb key (create Subscriber v) (atoms s)) s)
    (if debug (options s) then [ConsoleLog (LogRegisteredAtom key v)]
     else []).
Proof.
  intros R G. unfold registerAtom, map_has. rewrite bind_get, G, bind_modify, R.
  cbn [when]. rewrite bind_ret, ts_debug_log_run. reflexivity.
Qed.

(** One round of the loop of [createChildClient]. *)
Lemma ts_config_run config c :
  (on_sync (registerAtom (cfg_key config) (initial config)) ;;
   modify (fun c0 =>
     mkClient (sync c0) (set_add String.eqb (cfg_key config) (record c0)))) c
  =
  match map_get String.eqb (cfg_key config) (atoms (sync c)) with
  | Some _ => mkRun (Thrown (AlreadyRegistered (cfg_key config))) c []
  | None =>
      mkRun (Normal tt)
        (mkClient (final (registerAtom (cfg_key config) (initial config)
                            (sync c)))
                  (set_add String.eqb (cfg_key config) (record c)))
        (effects (registerAtom (cfg_key config) (initial config) (sync c)))
  end.
Proof.
  destruct (map_get String.eqb (cfg_key config) (atoms (sync c)))
    as [a |] eqn:G.
  - unfold bind, on_sync. rewrite (ts_registerAtom_present _ (initial config) _ G).
    cbn. destruct c; reflexivity.
  - destruct (ts_registerAtom_fresh (cfg_key config) (initial config) (sync c) G)
      as [Ho _].
    unfold bind, on_sync. cbn [outcome]. rewrite Ho.
    cbn [outcome final effects modify sync record]. rewrite app_nil_r.
    reflexivity.
Qed.

Lemma ts_In_key_add (x y : string) l :
  In y (set_add String.eqb x l) <-> In y l \/ y = x.
Proof. apply In_set_add, String.eqb_spec. Qed.

(** The loop.  It keeps what the coordinator is and the cells it finds; it
    posts only what the registrations broadcast; it runs to its end
    exactly when the keys are new and all different, and then every
    configured key has a cell with its initial value. *)
Lemma ts_configs_run (l : list ChildAtomConfig) c :
  let r := forEach l (fun config =>
             on_sync (registerAtom (cfg_key config) (initial config)) ;;
             modify (fun c0 =>
               mkClient (sync c0)
                        (set_add String.eqb (cfg_key config) (record c0))))
             c in
  (isRoot (sync (final r)) = isRoot (sync c) /\
   options (sync (final r)) = options (sync c) /\
   iframes (sync (final r)) = iframes (sync c) /\
   now (sync (final r)) = now (sync c) /\
   (isRoot (sync c) = false -> ticks (sync (final r)) = ticks (sync c))) /\
  (forall e, In e (effects r) -> is_post e = true ->
             iframes (sync c) <> []) /\
  (forall k a, map_get String.eqb k (atoms (sync c)) = Some a ->
               map_get String.eqb k (atoms (sync (final r))) = Some a) /\
  (forall k, In k (record c) -> In k (record (final r))) /\
  (outcome r = Normal tt ->
   NoDup (map cfg_key l) /\
   forall config, In config l ->
     map_get String.eqb (cfg_key config) (atoms (sync c)) = None /\
     In (cfg_key config) (record (final r)) /\
     exists a,
       map_get String.eqb (cfg_key config) (atoms (sync (final r))) = Some a
       /\ value a = initial config) /\
  (NoDup (map cfg_key l) ->
   (forall config, In config l ->
      map_get String.eqb (cfg_key config) (atoms (sync c)) = None) ->
   outcome r = Normal tt).
Proof.
  revert c. induction l as [| config l IH]; intros c r.
  - subst r. cbn. repeat split; auto; try (intros; contradiction).
    constructor.
  - destruct (map_get String.eqb (cfg_key config) (atoms (sync c)))
      as [a0 |] eqn:G.
    + assert (Er : r = mkRun (Thrown (AlreadyRegistered (cfg_key config)))
                         c []).
      { subst r. cbn [forEach].
        erewrite bind_thrown by (rewrite ts_config_run, G; reflexivity).
        rewrite ts_config_run, G. reflexivity. }
      clearbody r. subst r. cbn [outcome final effects].
      repeat split; auto; try (intros; contradiction);
        try (intros; discriminate).
      intros _ F. specialize (F config (or_introl eq_refl)).
      rewrite G in F. discriminate.
    + set (c1 := mkClient (final (registerAtom (cfg_key config)
                                    (initial config) (sync c)))
                          (set_add String.eqb (cfg_key config) (record c))).
      assert (Er : r = prepend (effects (registerAtom (cfg_key config)
                                           (initial config) (sync c)))
                         (forEach l (fun config =>
                            on_sync (registerAtom (cfg_key config)
                                       (initial config)) ;;
                            modify (fun c0 =>
                              mkClient (sync c0)
                                (set_add String.eqb (cfg_key config)
                                         (record c0)))) c1)).
      { subst r. cbn [forEach].
        erewrite bind_run by (rewrite ts_config_run, G; reflexivity).
        reflexivity. }
      clearbody r. subst r. unfold prepend. cbn [outcome final effects].
      destruct (ts_registerAtom_fresh (cfg_key config) (initial config)
                  (sync c) G) as [_ [[n Hf] He0]].
      destruct (IH c1) as [[Hr [Hop [Hi [Hn Ht]]]] [He [Hk [Hrec [Hok Hno]]]]].
      assert (E1 : sync c1 =
                   with_ticks n
                     (with_atoms
                        (map_set String.eqb (cfg_key config)
                           (fresh_cell (isRoot (sync c)) (cfg_key config)
                              (initial config)) (atoms (sync c)))
                        (sync c))) by exact Hf.
      assert (Er : isRoot (sync c1) = isRoot (sync c))
        by (rewrite E1; reflexivity).
      assert (Eo : options (sync c1) = options (sync c))
        by (rewrite E1; reflexivity).
      assert (Ei : iframes (sync c1) = iframes (sync c))
        by (rewrite E1; reflexivity).
      assert (En : now (sync c1) = now (sync c))
        by (rewrite E1; reflexivity).
      assert (Ea : atoms (sync c1) =
                   map_set String.eqb (cfg_key config)
                     (fresh_cell (isRoot (sync c)) (cfg_key config)
                        (initial config)) (atoms (sync c)))
        by (rewrite E1; reflexivity).
      assert (Ev : value (fresh_cell (isRoot (sync c)) (cfg_key config)
                            (initial config)) = initial config)
        by (destruct (isRoot (sync c)); reflexivity).
      split; [| split; [| split; [| split; [| split]]]].
      * split; [congruence |]. split; [congruence |]. split; [congruence |].
        split; [congruence |]. intros R. rewrite Ht by congruence.
        subst c1. cbn [sync]. rewrite (@ts_registerAtom_child (cfg_key config) (initial config)
                                     (sync c) R G).
        reflexivity.
      * intros e H P. apply in_app_or in H. destruct H as [H | H].
        -- specialize (He0 e H). intros Z.
           destruct e as [[f w | w |] [k v' ts | ts] o | cb v' | line | line];
             try discriminate; try contradiction.
           destruct He0 as [He0 _]. rewrite Z in He0. destruct He0.
        -- rewrite <- Ei. apply (He e H P).
      * intros k a Gk. apply Hk. rewrite Ea.
        rewrite get_set_other; [assumption |].
        intros <-. rewrite G in Gk. discriminate.
      * intros k Hin. apply Hrec. subst c1. cbn [record].
        apply ts_In_key_add. left. assumption.
      * intros Ho. destruct (Hok Ho) as [Nd Hall]. split.
        -- cbn [map]. constructor; [| assumption].
           intros Hin. apply in_map_iff in Hin.
           destruct Hin as [config' [Ek Hin]].
           destruct (Hall config' Hin) as [Gn _].
           rewrite Ek, Ea, get_set_same in Gn. discriminate.
        -- intros config' [<- | Hin].
           ++ split; [assumption | split].
              ** apply Hrec. subst c1. cbn [record]. apply ts_In_key_add.
                 right. reflexivity.
              ** eexists. split; [| exact Ev]. apply Hk. rewrite Ea.
                 apply get_set_same.
           ++ destruct (Hall config' Hin) as [Gn [Hr' Ha']].
              split; [| split; assumption].
              rewrite Ea in Gn.
              destruct (String.eqb_spec (cfg_key config) (cfg_key config'))
                as [Ek | Nk].
              ** rewrite Ek, get_set_same in Gn. discriminate.
              ** rewrite get_set_other in Gn by assumption. assumption.
      * intros Nd F. cbn [map] in Nd. inversion Nd as [| ? ? Hnin Nd']; subst.
        apply Hno; [assumption |].
        intros config' Hin. rewrite Ea.
        rewrite get_set_other; [apply F; right; assumption |].
        intros Ek. apply Hnin. rewrite Ek. apply in_map. assumption.
Qed.

Lemma ts_requestStateFromParent_frame s :
  outcome (requestStateFromParent s) = Normal tt /\
  atoms (final (requestStateFromParent s)) = atoms s.
Proof.
  destruct (isRoot s) eqn:R.
  - rewrite (ts_requestStateFromParent_root s R). auto.
  - rewrite (ts_requestStateFromParent_child s R). auto.
Qed.

Lemma ts_constructor_run opts isTop dom clock :
  constructor opts isTop dom clock =
  mkRun (Normal tt)
    (mkState [] []
       {| targetOrigin :=
            match opt_targetOrigin opts with Some t => t | None => "*" end;
          debug :=
            match opt_debug opts with Some d => d | None => false end |}
       isTop dom [] clock 0)
    (if match opt_debug opts with Some d => d | None => false end
     then [ConsoleLog (LogInitialized isTop)] else []).
Proof. unfold constructor. rewrite ts_debug_log_run. reflexivity. Qed.

Lemma ts_createChildClient_run cfgs opts isTop dom clock :
  let r0 := constructor opts isTop dom clock in
  let loop :=
    forEach cfgs (fun config =>
      on_sync (registerAtom (cfg_key config) (initial config)) ;;
      modify (fun c0 =>
        mkClient (sync c0) (set_add String.eqb (cfg_key config) (record c0))))
      (mkClient (final r0) []) in
  let req := requestStateFromParent (sync (final loop)) in
  createChildClient cfgs opts isTop dom clock =
  match outcome loop with
  | Normal _ =>
      mkRun (Normal tt) (mkClient (final req) (record (final loop)))
            (effects r0 ++ effects loop ++ effects req)
  | Thrown e =>
      mkRun (Thrown e) (final loop) (effects r0 ++ effects loop)
  end.
Proof.
  intros r0 loop req. unfold createChildClient. fold r0.
  change (forEach cfgs _ (mkClient (final r0) [])) with loop.
  unfold bind.
  change (forEach cfgs _ (mkClient (final r0) [])) with loop.
  destruct (outcome loop) as [[] | e]; cbn [outcome final effects];
    [| reflexivity].
  unfold on_sync. fold req.
  destruct (ts_requestStateFromParent_frame (sync (final loop))) as [Hq _].
  fold req in Hq. rewrite Hq. reflexivity.
Qed.

Lemma ts_getAtomValue_run key c :
  getAtomValue key c =
  if set_has String.eqb key (record c)
  then mkRun (Normal (match map_get String.eqb key (atoms (sync c)) with
                      | Some a => value a
                      | None => VUndefined
                      end)) c []
  else mkRun (Thrown (if inherited_property key then TypeError
                 else ClientAtomNotFound key)) c [].
Proof.
  unfold getAtomValue, bind. rewrite ts_client_atom_run.
  destruct (set_has String.eqb key (record c)); [| reflexivity].
  cbn [outcome final effects]. unfold on_sync. rewrite ts_atom_get_run.
  destruct c; reflexivity.
Qed.

(** *** Messages delivered to a child client *)

Lemma ts_handled_run m src c :
  outcome (on_sync (handleMessage {| data := DataMessage m; source := src |})
             c) = Normal tt /\
  record (final (on_sync (handleMessage
                            {| data := DataMessage m; source := src |}) c))
  = record c.
Proof.
  unfold on_sync. cbn [outcome final record]. split; [| reflexivity].
  destruct m as [k v ts | ts].
  - destruct (map_get String.eqb k (atoms (sync c))) as [a |] eqn:G.
    + apply (ts_handleMessage_sync_present k v ts src (sync c) G).
    + rewrite (ts_handleMessage_sync_absent k v ts src (sync c) G). reflexivity.
  - destruct (isRoot (sync c)) eqn:R.
    + rewrite (ts_handleMessage_request ts src (sync c) R).
      destruct src; reflexivity.
    + unfold handleMessage. cbn [data]. rewrite bind_get, R. reflexivity.
Qed.

Lemma ts_handled_other m src c key :
  (forall v, payload m <> Some (key, v)) ->
  map_get String.eqb key
    (atoms (sync (final (on_sync (handleMessage
                                    {| data := DataMessage m;
                                       source := src |}) c)))) =
  map_get String.eqb key (atoms (sync c)).
Proof.
  intros N. unfold on_sync. cbn [final sync].
  destruct m as [k v ts | ts].
  - destruct (map_get String.eqb k (atoms (sync c))) as [a |] eqn:G.
    + destruct (ts_handleMessage_sync_present k v ts src (sync c) G)
        as [_ [[n Hf] _]].
      rewrite Hf. cbn [atoms with_ticks with_atoms].
      apply get_set_other. intros ->. apply (N v). reflexivity.
    + rewrite (ts_handleMessage_sync_absent k v ts src (sync c) G). reflexivity.
  - destruct (isRoot (sync c)) eqn:R.
    + rewrite (ts_handleMessage_request ts src (sync c) R).
      destruct src; reflexivity.
    + unfold handleMessage. cbn [data]. rewrite bind_get, R. reflexivity.
Qed.

Lemma ts_handled_hit m src c key v a :
  payload m = Some (key, v) ->
  map_get String.eqb key (atoms (sync c)) = Some a ->
  map_get String.eqb key
    (atoms (sync (final (on_sync (handleMessage
                                    {| data := DataMessage m;
                                       source := src |}) c)))) =
  Some (cell_set v a).
Proof.
  intros P G. destruct m as [k v' ts | ts]; [| discriminate].
  injection P as -> ->. unfold on_sync. cbn [final sync].
  destruct (ts_handleMessage_sync_present key v ts src (sync c) G)
    as [_ [[n Hf] _]].
  rewrite Hf. cbn [atoms with_ticks with_atoms]. apply get_set_same.
Qed.

Lemma ts_handled_registered m src c key a :
  map_get String.eqb key (atoms (sync c)) = Some a ->
  exists a',
    map_get String.eqb key
      (atoms (sync (final (on_sync (handleMessage
                                      {| data := DataMessage m;
                                         source := src |}) c)))) = Some a'.
Proof.
  intros G. destruct (payload m) as [[k v] |] eqn:P.
  - destruct (String.eqb_spec k key) as [-> | N].
    + eexists. eapply ts_handled_hit; eassumption.
    + exists a. rewrite ts_handled_other; [assumption |].
      intros v' E. rewrite P in E. injection E as -> _. contradiction.
  - exists a. rewrite ts_handled_other; [assumption |].
    intros v' E. rewrite P in E. discriminate.
Qed.

Lemma ts_deliver_cons m msgs src c :
  deliver (m :: msgs) src c =
  prepend
    (effects (on_sync (handleMessage
                         {| data := DataMessage m; source := src |}) c))
    (deliver msgs src
       (final (on_sync (handleMessage
                          {| data := DataMessage m; source := src |}) c))).
Proof.
  unfold deliver. cbn [forEach]. unfold bind.
  destruct (ts_handled_run m src c) as [Ho _]. rewrite Ho. reflexivity.
Qed.

Lemma ts_deliver_run msgs src c :
  outcome (deliver msgs src c) = Normal tt /\
  record (final (deliver msgs src c)) = record c.
Proof.
  revert c. induction msgs as [| m msgs IH]; intros c; [split; reflexivity |].
  rewrite ts_deliver_cons. unfold prepend. cbn [outcome final].
  destruct (IH (final (on_sync (handleMessage
                                  {| data := DataMessage m;
                                     source := src |}) c))) as [Ho Hr].
  split; [exact Ho |]. rewrite Hr. apply ts_handled_run.
Qed.

Lemma ts_deliver_other msgs src c key :
  (forall m v, In m msgs -> payload m <> Some (key, v)) ->
  map_get String.eqb key (atoms (sync (final (deliver msgs src c)))) =
  map_get String.eqb key (atoms (sync c)).
Proof.
  revert c. induction msgs as [| m msgs IH]; intros c N; [reflexivity |].
  rewrite ts_deliver_cons. unfold prepend. cbn [final]. rewrite IH.
  - apply ts_handled_other. intros v. apply N. left. reflexivity.
  - intros m' v H. apply N. right. exact H.
Qed.

Lemma ts_deliver_registered msgs src c key a :
  map_get String.eqb key (atoms (sync c)) = Some a ->
  exists a',
    map_get String.eqb key (atoms (sync (final (deliver msgs src c)))) =
    Some a'.
Proof.
  revert c a. induction msgs as [| m msgs IH]; intros c a G;
    [exists a; exact G |].
  rewrite ts_deliver_cons. unfold prepend. cbn [final].
  destruct (@ts_handled_registered m src c key a G) as [a1 G1].
  apply (IH _ a1 G1).
Qed.

Lemma ts_deliver_app msgs1 msgs2 src c :
  final (deliver (msgs1 ++ msgs2) src c) =
  final (deliver msgs2 src (final (deliver msgs1 src c))).
Proof.
  unfold deliver. rewrite forEach_app.
  destruct (ts_deliver_run msgs1 src c) as [Ho _]. unfold deliver in Ho.
  rewrite Ho. reflexivity.
Qed.

(** The last message for a key decides the value of its cell. *)
Lemma ts_deliver_hit msgs1 m msgs2 src c key v a :
  payload m = Some (key, v) ->
  (forall m' v', In m' msgs2 -> payload m' <> Some (key, v')) ->
  map_get String.eqb key (atoms (sync c)) = Some a ->
  exists a',
    map_get String.eqb key
      (atoms (sync (final (deliver (msgs1 ++ m :: msgs2) src c)))) = Some a'
    /\ value a' = v.
Proof.
  intros P N G. rewrite ts_deliver_app, ts_deliver_cons. unfold prepend.
  cbn [final]. rewrite ts_deliver_other by exact N.
  destruct (@ts_deliver_registered msgs1 src c key a G) as [a1 G1].
  eexists. split; [eapply ts_handled_hit; eassumption | reflexivity].
Qed.

(** *** The keys of a root coordinator *)



Lemma ts_keys_step op s :
  NoDup (map fst (atoms s)) -> NoDup (map fst (atoms (final (step op s)))).
Proof.
  intros Nd.
  destruct (ts_step_shape op s)
    as [_ [_ [_ [_ [_ [E | [[k [a [v [G E]]]] | [[k [a [cb [_ [G E]]]]] |
               [[k [a [cb [_ [G E]]]]] | [k [v [_ [G E]]]]]]]]]]]]];
    rewrite E; try assumption;
    try (erewrite keys_set_present by eassumption; assumption).
  destruct (@keys_set_absent _ k (fresh_cell (isRoot s) k v) (atoms s) G)
    as [Ek Hn].
  rewrite Ek. apply NoDup_app; [assumption | |].
  - constructor; [intros [] | constructor].
  - intros x Hx [<- | []]. contradiction.
Qed.

Lemma ts_keys_run ops s :
  NoDup (map fst (atoms s)) -> NoDup (map fst (atoms (run ops s))).
Proof.
  revert s. induction ops as [| op ops IH]; intros s Nd; [assumption |].
  rewrite ts_run_cons. apply IH, ts_keys_step, Nd.
Qed.

Lemma ts_reachable_root_keys s :
  reachable_root s -> NoDup (map fst (atoms s)).
Proof.
  intros [opts [dom [clock [ops ->]]]]. apply ts_keys_run.
  rewrite ts_constructor_run. constructor.
Qed.


End TSFacts.

(** ** The svelte coordinator *)
Module SvelteFacts.
Import Vendored Svelte.

Lemma sv_subscriber_eqb_spec (a b : Subscriber) :
  reflect (a = b) (subscriber_eqb a b).
Proof.
  destruct a as [k | i c], b as [k' | i' c']; cbn;
    try (constructor; discriminate).
  - destruct (String.eqb_spec k k'); constructor; congruence.
  - destruct (Nat.eqb_spec i i'), (Nat.eqb_spec c c'); cbn;
      constructor; congruence.
Qed.

Lemma sv_In_sub_add x y l :
  In y (set_add subscriber_eqb x l) <-> In y l \/ y = x.
Proof. apply In_set_add, sv_subscriber_eqb_spec. Qed.

Lemma sv_In_sub_delete x y l :
  In y (set_delete subscriber_eqb x l) <-> In y l /\ y <> x.
Proof. apply In_set_delete, sv_subscriber_eqb_spec. Qed.

Lemma sv_with_ticks_same s : with_ticks (ticks s) s = s.
Proof. destruct s; reflexivity. Qed.

Lemma sv_log_run line s :
  log line s =
  mkRun (Normal tt) s (if debug s then [ConsoleLog line] else []).
Proof.
  unfold log. rewrite bind_get. destruct (debug s); reflexivity.
Qed.

Lemma sv_broadcastToIframes_run m s :
  broadcastToIframes m s =
  mkRun (Normal tt) s
    (flat_map (fun f =>
       match contentWindow s f with
       | Some w => [PostMessage (ToIframe f w) m (targetOrigin s)]
       | None => []
       end) (iframes s)).
Proof.
  unfold broadcastToIframes. rewrite bind_get.
  induction (iframes s) as [| f l IH]; [reflexivity |].
  cbn [forEach flat_map]. unfold bind.
  destruct (contentWindow s f) as [w |]; cbn [emit ret outcome final effects];
    rewrite IH; reflexivity.
Qed.

Lemma sv_call_subscriber_run sub v s0 s :
  (exists n, s = with_ticks n s0) ->
  outcome (call_subscriber sub v s) = Normal tt /\
  (exists n, final (call_subscriber sub v s) = with_ticks n s0) /\
  forall e, In e (effects (call_subscriber sub v s)) ->
    match e with
    | PostMessage (ToIframe f w) (AtomSync k v' _) o =>
        sub = SubBroadcast k /\ In f (iframes s0) /\
        contentWindow s0 f = Some w /\ v' = v /\ o = targetOrigin s0
    | PostMessage _ _ _ => False
    | Invoke cb v' => (exists i, sub = SubWrapper i cb) /\ v' = v
    | ConsoleLog _ | ConsoleWarn _ => False
    end.
Proof.
  intros [n ->]. destruct sub as [k | i cb]; cbn [call_subscriber].
  - unfold Date_now. erewrite bind_run by reflexivity.
    rewrite sv_broadcastToIframes_run. cbn [prepend outcome final effects app].
    split; [reflexivity | split; [eexists; reflexivity |]].
    intros e He. apply in_flat_map in He. destruct He as [f [Hf He]].
    cbn in He, Hf. destruct (contentWindow s0 f) as [w |] eqn:Hw;
      [| destruct He].
    destruct He as [<- | []]. auto.
  - cbn. split; [reflexivity | split; [eexists; reflexivity |]].
    intros e [<- | []]. split; [exists i |]; reflexivity.
Qed.

Lemma sv_notify_run subs v s :
  let r := forEach subs (fun sub => call_subscriber sub v) s in
  outcome r = Normal tt /\
  (exists n, final r = with_ticks n s) /\
  forall e, In e (effects r) ->
    match e with
    | PostMessage (ToIframe f w) (AtomSync k v' _) o =>
        In (SubBroadcast k) subs /\ In f (iframes s) /\
        contentWindow s f = Some w /\ v' = v /\ o = targetOrigin s
    | PostMessage _ _ _ => False
    | Invoke cb v' => (exists i, In (SubWrapper i cb) subs) /\ v' = v
    | ConsoleLog _ | ConsoleWarn _ => False
    end.
Proof.
  apply (@forEach_inv State Subscriber
           (fun s' => exists n, s' = with_ticks n s)
           (fun e => match e with
    | PostMessage (ToIframe f w) (AtomSync k v' _) o =>
        In (SubBroadcast k) subs /\ In f (iframes s) /\
        contentWindow s f = Some w /\ v' = v /\ o = targetOrigin s
    | PostMessage _ _ _ => False
    | Invoke cb v' => (exists i, In (SubWrapper i cb) subs) /\ v' = v
    | ConsoleLog _ | ConsoleWarn _ => False
    end)).
  - intros sub s' Hsub Hs'.
    destruct (sv_call_subscriber_run sub v Hs') as [Ho [Hf He]].
    split; [assumption | split; [assumption |]].
    intros e Hin. specialize (He e Hin).
    destruct e as [[f w | w |] [k v' ts | ts] o | cb v' | line | line];
      try assumption; try contradiction.
    + destruct He as [-> He]. split; assumption.
    + destruct He as [[i ->] He]. split; [exists i |]; assumption.
  - exists (ticks s). symmetry. apply sv_with_ticks_same.
Qed.

Lemma sv_notify_invokes subs v s i cb :
  In (SubWrapper i cb) subs ->
  In (Invoke cb v)
     (effects (forEach subs (fun sub => call_subscriber sub v) s)).
Proof.
  intros Hin.
  destruct (@forEach_exists State Subscriber
              (fun s' => exists n, s' = with_ticks n s)
              (fun e => e = Invoke cb v)
              (fun sub => call_subscriber sub v) subs (SubWrapper i cb) Hin)
    with (s := s) as [e [He ->]].
  - intros y s' _ Hs'. destruct (sv_call_subscriber_run y v Hs') as [Ho [Hf _]].
    split; assumption.
  - intros s' _. exists (Invoke cb v). split; [left |]; reflexivity.
  - exists (ticks s). symmetry. apply sv_with_ticks_same.
  - assumption.
Qed.

Lemma sv_notify_posts subs v s k f w :
  In (SubBroadcast k) subs -> In f (iframes s) ->
  contentWindow s f = Some w ->
  exists ts,
    In (PostMessage (ToIframe f w) (AtomSync k v ts) (targetOrigin s))
       (effects (forEach subs (fun sub => call_subscriber sub v) s)).
Proof.
  intros Hin Hf Hw.
  destruct (@forEach_exists State Subscriber
              (fun s' => exists n, s' = with_ticks n s)
              (fun e => exists ts,
                 e = PostMessage (ToIframe f w) (AtomSync k v ts)
                                 (targetOrigin s))
              (fun sub => call_subscriber sub v) subs (SubBroadcast k) Hin)
    with (s := s) as [e [He [ts ->]]].
  - intros y s' _ Hs'. destruct (sv_call_subscriber_run y v Hs') as [Ho [Hfin _]].
    split; assumption.
  - intros s' [n ->]. cbn [call_subscriber].
    unfold Date_now. erewrite bind_run by reflexivity.
    rewrite sv_broadcastToIframes_run. cbn [prepend effects app].
    eexists. split.
    + apply in_flat_map. exists f.
      split; [exact Hf |]. cbn. rewrite Hw. left. reflexivity.
    + eexists. reflexivity.
  - exists (ticks s). symmetry. apply sv_with_ticks_same.
  - exists ts. assumption.
Qed.

(** *** The store of a key *)

Lemma sv_store_send_run key v s c :
  map_get String.eqb key (stores s) = Some c ->
  let s' := with_stores (map_set String.eqb key (cell_set v c) (stores s)) s in
  let r := store_send key v s in
  outcome r = Normal tt /\
  (exists n, final r = with_ticks n s') /\
  effects r =
  effects (forEach (subscribers c) (fun sub => call_subscriber sub v) s').
Proof.
  intros H s' r. subst r. unfold store_send. rewrite bind_get, H.
  rewrite bind_modify. fold s'.
  destruct (sv_notify_run (subscribers c) v s') as [Ho [Hf _]].
  split; [assumption | split; [assumption | reflexivity]].
Qed.

Lemma sv_store_subscribe_run key sub s c :
  map_get String.eqb key (stores s) = Some c ->
  let s' := with_stores
              (map_set String.eqb key
                 (cell_subscribe subscriber_eqb sub c) (stores s)) s in
  let r := store_subscribe key sub s in
  outcome r = Normal tt /\
  (exists n, final r = with_ticks n s') /\
  effects r = effects (call_subscriber sub (value c) s').
Proof.
  intros H s' r. subst r. unfold store_subscribe. rewrite bind_get, H.
  rewrite bind_modify. fold s'.
  assert (Hs : exists n, s' = with_ticks n s')
    by (exists (ticks s'); symmetry; apply sv_with_ticks_same).
  destruct (sv_call_subscriber_run sub (value c) Hs) as [Ho [Hf _]].
  split; [assumption | split; [assumption | reflexivity]].
Qed.

Lemma sv_setValue_present key v s c :
  map_get String.eqb key (stores s) = Some c ->
  setValue key v s = store_send key v s.
Proof.
  intros H. unfold setValue, map_has. rewrite bind_get, H. reflexivity.
Qed.

Lemma sv_setValue_absent key v s :
  map_get String.eqb key (stores s) = None ->
  setValue key v s =
  mkRun (Normal tt) s (if debug s then [ConsoleLog (LogNotFound key)] else []).
Proof.
  intros H. unfold setValue, map_has. rewrite bind_get, H. apply sv_log_run.
Qed.

Lemma sv_registerAtom_present key v s c :
  map_get String.eqb key (stores s) = Some c ->
  registerAtom key v s =
  mkRun (Normal tt) s
    (if debug s then [ConsoleLog (LogAlreadyRegistered key)] else []).
Proof.
  intros H. unfold registerAtom, map_has. rewrite bind_get, H.
  apply sv_log_run.
Qed.

Lemma sv_map_set_set (V : Type) k (v1 v2 : V) m :
  map_set String.eqb k v2 (map_set String.eqb k v1 m) =
  map_set String.eqb k v2 m.
Proof.
  induction m as [| [k' v'] m IH]; cbn.
  - rewrite String.eqb_refl. reflexivity.
  - destruct (String.eqb_spec k k') as [E | N]; cbn.
    + rewrite String.eqb_refl. reflexivity.
    + destruct (String.eqb_spec k k'); [contradiction |]. rewrite IH.
      reflexivity.
Qed.

Lemma sv_registerAtom_fresh key v s :
  map_get String.eqb key (stores s) = None ->
  let r := registerAtom key v s in
  outcome r = Normal tt /\
  (exists n, final r =
     with_ticks n
       (with_stores
          (map_set String.eqb key
             (cell_subscribe subscriber_eqb (SubBroadcast key)
                (create Subscriber v)) (stores s)) s)) /\
  (forall e, In e (effects r) ->
     match e with
     | PostMessage (ToIframe f w) (AtomSync k v' _) o =>
         In f (iframes s) /\ contentWindow s f = Some w
     | PostMessage _ _ _ => False
     | Invoke _ _ => False
     | ConsoleLog _ => debug s = true
     | ConsoleWarn _ => False
     end).
Proof.
  intros H r. subst r. unfold registerAtom, map_has.
  rewrite bind_get, H, bind_modify.
  set (s1 := with_stores
               (map_set String.eqb key (create Subscriber v) (stores s)) s).
  erewrite bind_run by apply sv_log_run.
  assert (G : map_get String.eqb key (stores s1) = Some (create Subscriber v))
    by apply get_set_same.
  destruct (sv_store_subscribe_run key (SubBroadcast key) s1 G)
    as [Ho [[n Hf] He]].
  unfold prepend. rewrite Ho, Hf, He. cbn [outcome final effects].
  split; [reflexivity | split].
  - exists n. subst s1. unfold with_stores, with_ticks. cbn.
    rewrite sv_map_set_set. reflexivity.
  - intros e Hin. apply in_app_or in Hin. destruct Hin as [Hin | Hin].
    + cbn in Hin. destruct (debug s); [| destruct Hin].
      destruct Hin as [<- | []]. reflexivity.
    + set (s2 := with_stores
               (map_set String.eqb key
                  (cell_subscribe subscriber_eqb (SubBroadcast key)
                     (create Subscriber v)) (stores s1)) s1) in *.
      assert (Hs : exists n, s2 = with_ticks n s2)
        by (exists (ticks s2); symmetry; apply sv_with_ticks_same).
      destruct (sv_call_subscriber_run (SubBroadcast key) v Hs) as [_ [_ HE]].
      specialize (HE e Hin).
      destruct e as [[f w | w |] [k' v' ts' | ts'] o | cb v' | line | line];
        cbn in HE; try contradiction; try tauto.
      destruct HE as [[i Hi] _]. discriminate.
Qed.

(** *** Pushing the stores to one iframe *)

Lemma sv_sync_loop_run f w (l : list (string * Store)) s :
  let r := forEach l (fun entry =>
             ts <- Date_now ;;
             emit (PostMessage (ToIframe f w)
                     (AtomSync (fst entry) (value (snd entry)) ts)
                     (targetOrigin s)) ;;
             log (LogSynced (fst entry) (value (snd entry)))) s in
  outcome r = Normal tt /\
  final r = with_ticks (ticks s + List.length l) s /\
  map payload (posted_to (ToIframe f w) (effects r)) =
    map (fun e => Some (fst e, value (snd e))) l /\
  (forall e, In e (effects r) ->
     match e with
     | PostMessage t _ _ => t = ToIframe f w
     | Invoke _ _ => False
     | ConsoleLog _ => debug s = true
     | ConsoleWarn _ => False
     end).
Proof.
  assert (G : forall n,
    let r := forEach l (fun entry =>
             ts <- Date_now ;;
             emit (PostMessage (ToIframe f w)
                     (AtomSync (fst entry) (value (snd entry)) ts)
                     (targetOrigin s)) ;;
             log (LogSynced (fst entry) (value (snd entry))))
             (with_ticks n s) in
    outcome r = Normal tt /\
    final r = with_ticks (n + List.length l) s /\
    map payload (posted_to (ToIframe f w) (effects r)) =
      map (fun e => Some (fst e, value (snd e))) l /\
    (forall e, In e (effects r) ->
       match e with
       | PostMessage t _ _ => t = ToIframe f w
       | Invoke _ _ => False
       | ConsoleLog _ => debug s = true
       | ConsoleWarn _ => False
       end)).
  { induction l as [| x l IH]; intros n.
    - cbn. rewrite Nat.add_0_r.
      repeat split; try reflexivity. intros e [].
    - cbn [forEach].
      erewrite bind_run;
        [| erewrite bind_run by reflexivity; rewrite bind_emit, sv_log_run;
           reflexivity].
      unfold prepend. cbn [outcome final effects app].
      change (with_ticks (S (ticks (with_ticks n s))) (with_ticks n s))
        with (with_ticks (S n) s).
      destruct (IH (S n)) as [Ho [Hf [Hp He]]].
      split; [assumption | split; [| split]].
      + rewrite Hf. cbn [List.length]. f_equal. lia.
      + cbn [posted_to]. destruct (target_eqb_spec (ToIframe f w) (ToIframe f w));
          [| contradiction].
        rewrite posted_to_app.
        assert (E : posted_to (ToIframe f w)
                      (if debug (with_ticks (S n) s)
                       then [ConsoleLog (LogSynced (fst x) (value (snd x)))]
                       else []) = [])
          by (destruct (debug (with_ticks (S n) s)); reflexivity).
        rewrite E. cbn [app map payload]. rewrite Hp. reflexivity.
      + intros e [<- | Hin]; [reflexivity |].
        apply in_app_or in Hin. destruct Hin as [Hin | Hin].
        * cbn in Hin. destruct (debug s); [| destruct Hin].
          destruct Hin as [<- | []]. reflexivity.
        * apply (He e Hin). }
  pose proof (G (ticks s)) as G'. rewrite sv_with_ticks_same in G'. exact G'.
Qed.

Lemma sv_syncAllToIframe_window f w s :
  contentWindow s f = Some w ->
  let r := syncAllToIframe f s in
  outcome r = Normal tt /\
  (exists n, final r = with_ticks n s) /\
  map payload (posted_to (ToIframe f w) (effects r)) = cells s /\
  (forall e, In e (effects r) ->
     match e with
     | PostMessage t _ _ => t = ToIframe f w
     | Invoke _ _ => False
     | ConsoleLog _ => debug s = true
     | ConsoleWarn _ => False
     end).
Proof.
  intros Hw. unfold syncAllToIframe. rewrite bind_get, Hw.
  destruct (sv_sync_loop_run f w (stores s) s) as [Ho [Hf [Hp He]]].
  split; [assumption | split; [| split; assumption]].
  eexists. exact Hf.
Qed.

Lemma sv_syncAllToIframe_none f s :
  contentWindow s f = None ->
  syncAllToIframe f s = mkRun (Normal tt) s [].
Proof.
  intros Hw. unfold syncAllToIframe. rewrite bind_get, Hw. reflexivity.
Qed.

Lemma sv_load_loop_run f w (l : list Iframe) s n :
  contentWindow s f = Some w ->
  let r := forEach l (fun _ => log LogIframeLoaded ;; syncAllToIframe f)
                   (with_ticks n s) in
  outcome r = Normal tt /\
  (exists n', final r = with_ticks n' s) /\
  map payload (posted_to (ToIframe f w) (effects r)) =
    List.concat (repeat (cells s) (List.length l)) /\
  (forall e, In e (effects r) ->
     match e with
     | PostMessage t _ _ => t = ToIframe f w
     | Invoke _ _ => False
     | ConsoleLog _ => debug s = true
     | ConsoleWarn _ => False
     end).
Proof.
  intros Hw. revert n. induction l as [| x l IH]; intros n.
  - cbn. repeat split; try (intros e []). eexists; reflexivity.
  - cbn [forEach].
    assert (Hw' : contentWindow (with_ticks n s) f = Some w) by exact Hw.
    destruct (sv_syncAllToIframe_window f (with_ticks n s) Hw')
      as [Ho [[n1 Hf] [Hp He]]].
    erewrite bind_run with (s1 := with_ticks n1 (with_ticks n s))
      by (erewrite bind_run by apply sv_log_run; unfold prepend;
          rewrite Ho, Hf; reflexivity).
    destruct (IH n1) as [Ho' [Hf' [Hp' He']]].
    unfold prepend. cbn [outcome final effects].
    change (with_ticks n1 (with_ticks n s)) with (with_ticks n1 s).
    split; [assumption | split; [assumption | split]].
    + rewrite !posted_to_app, !map_app, Hp, Hp'.
      assert (E : posted_to (ToIframe f w)
                    (if debug (with_ticks n s)
                     then [ConsoleLog LogIframeLoaded] else []) = [])
        by (destruct (debug (with_ticks n s)); reflexivity).
      rewrite E. reflexivity.
    + intros e Hin. apply in_app_or in Hin. destruct Hin as [Hin | Hin].
      * apply in_app_or in Hin. destruct Hin as [Hin | Hin].
        -- cbn in Hin. destruct (debug s); [| destruct Hin].
           destruct Hin as [<- | []]. reflexivity.
        -- apply (He e Hin).
      * apply (He' e Hin).
Qed.

Lemma sv_filter_length_count f (l : list Iframe) :
  List.length (filter (Nat.eqb f) l) = count_occ Nat.eq_dec l f.
Proof.
  induction l as [| g l IH]; cbn; [reflexivity |].
  destruct (Nat.eqb_spec f g) as [-> | N]; cbn.
  - destruct (Nat.eq_dec g g); [| contradiction]. rewrite IH. reflexivity.
  - destruct (Nat.eq_dec g f); [subst; contradiction | assumption].
Qed.

Lemma sv_fire_load_window f w s :
  contentWindow s f = Some w ->
  let r := fire_load f s in
  outcome r = Normal tt /\
  (exists n, final r = with_ticks n s) /\
  map payload (posted_to (ToIframe f w) (effects r)) =
    List.concat (repeat (cells s)
                   (count_occ Nat.eq_dec (loadListeners s) f)) /\
  (forall e, In e (effects r) ->
     match e with
     | PostMessage t _ _ => t = ToIframe f w
     | Invoke _ _ => False
     | ConsoleLog _ => debug s = true
     | ConsoleWarn _ => False
     end).
Proof.
  intros Hw. unfold fire_load. rewrite bind_get.
  rewrite <- sv_filter_length_count.
  pose proof (sv_load_loop_run f (filter (Nat.eqb f) (loadListeners s)) s
                (ticks s) Hw) as H.
  rewrite sv_with_ticks_same in H. exact H.
Qed.

Lemma sv_fire_load_none f s :
  contentWindow s f = None ->
  outcome (fire_load f s) = Normal tt /\
  final (fire_load f s) = s /\
  forall e, In e (effects (fire_load f s)) ->
            e = ConsoleLog LogIframeLoaded /\ debug s = true.
Proof.
  intros Hw. unfold fire_load. rewrite bind_get.
  induction (filter (Nat.eqb f) (loadListeners s)) as [| x l IH].
  - cbn. split; [reflexivity | split; [reflexivity | intros e []]].
  - cbn [forEach].
    erewrite bind_run
      by (erewrite bind_run by apply sv_log_run;
          rewrite (sv_syncAllToIframe_none f s Hw); reflexivity).
    destruct IH as [Ho [Hf He]]. unfold prepend.
    cbn [outcome final effects].
    split; [assumption | split; [assumption |]].
    intros eff Hin. apply in_app_or in Hin. destruct Hin as [Hin | Hin].
    + rewrite app_nil_r in Hin. destruct (debug s); [| destruct Hin].
      destruct Hin as [<- | []]. split; reflexivity.
    + apply (He eff Hin).
Qed.

(** *** The interface *)

Lemma sv_registerIframe_run f s :
  registerIframe f s =
  mkRun (Normal tt)
    (with_loadListeners (loadListeners s ++ [f])
       (with_iframes (set_add Nat.eqb f (iframes s)) s))
    (if debug s then [ConsoleLog (LogRegisteredIframe f)] else []).
Proof.
  unfold registerIframe. rewrite bind_modify.
  erewrite bind_run by apply sv_log_run. unfold modify, prepend. cbn.
  rewrite app_nil_r. reflexivity.
Qed.

Lemma sv_unregisterIframe_run f s :
  unregisterIframe f s =
  mkRun (Normal tt) (with_iframes (set_delete Nat.eqb f (iframes s)) s)
    (if debug s then [ConsoleLog (LogUnregisteredIframe f)] else []).
Proof.
  unfold unregisterIframe. rewrite bind_modify, sv_log_run. reflexivity.
Qed.

Lemma sv_getValue_run key s :
  getValue key s =
  mkRun (Normal (match map_get String.eqb key (stores s) with
                 | Some c => value c
                 | None => VUndefined
                 end)) s [].
Proof.
  unfold getValue. rewrite bind_get.
  destruct (map_get String.eqb key (stores s)); reflexivity.
Qed.

Lemma sv_subscribe_present key cb s c :
  map_get String.eqb key (stores s) = Some c ->
  let wrapper := SubWrapper (nextWrapper s) cb in
  let r := subscribe key cb s in
  outcome r = Normal (Some wrapper) /\
  (exists n, final r =
     with_ticks n
       (with_stores
          (map_set String.eqb key
             (cell_subscribe subscriber_eqb wrapper c) (stores s))
          (with_nextWrapper (S (nextWrapper s)) s))) /\
  effects r = [Invoke cb (value c)].
Proof.
  intros H wrapper r. subst r. unfold subscribe, map_has.
  rewrite bind_get, H, bind_modify. fold wrapper.
  assert (G : map_get String.eqb key
                (stores (with_nextWrapper (S (nextWrapper s)) s)) = Some c)
    by exact H.
  destruct (sv_store_subscribe_run key wrapper
              (with_nextWrapper (S (nextWrapper s)) s) G)
    as [Ho [[n Hf] He]].
  unfold bind. rewrite Ho, Hf, He. cbn.
  split; [reflexivity | split; [exists n; reflexivity | reflexivity]].
Qed.

Lemma sv_subscribe_absent key cb s :
  map_get String.eqb key (stores s) = None ->
  subscribe key cb s =
  mkRun (Normal None) s
    (if debug s then [ConsoleLog (LogNotFoundForSubscription key)] else []).
Proof.
  intros H. unfold subscribe, map_has. rewrite bind_get, H.
  erewrite bind_run by apply sv_log_run. unfold prepend, ret. cbn.
  rewrite app_nil_r. reflexivity.
Qed.

Lemma sv_unsubscribe_run key wrapper s :
  unsubscribe key wrapper s =
  mkRun (Normal tt)
    (match wrapper, map_get String.eqb key (stores s) with
     | Some sub, Some c =>
         with_stores
           (map_set String.eqb key
              (cell_unsubscribe subscriber_eqb sub c) (stores s)) s
     | _, _ => s
     end) [].
Proof.
  unfold unsubscribe. destruct wrapper as [sub |]; [| reflexivity].
  rewrite bind_get. destruct (map_get String.eqb key (stores s)); reflexivity.
Qed.

Lemma sv_destroy_run s :
  destroy s = mkRun (Normal tt) (with_iframes [] (with_stores [] s)) [].
Proof. reflexivity. Qed.

Lemma sv_handleMessage_sync key v ts src s :
  handleMessage
    {| data := DataMessage (AtomSync key v ts); source := src |} s =
  prepend (if debug s then [ConsoleLog (LogReceived key v)] else [])
          (setValue key v s).
Proof.
  unfold handleMessage. cbn [data]. erewrite bind_run by apply sv_log_run.
  reflexivity.
Qed.

Lemma sv_handleMessage_request ts src s :
  handleMessage
    {| data := DataMessage (AtomSyncRequest ts); source := src |} s =
  prepend (if debug s then [ConsoleLog LogStateRequest] else [])
          (match find_iframe s src with
           | Some f => syncAllToIframe f s
           | None => mkRun (Normal tt) s []
           end).
Proof.
  unfold handleMessage. cbn [data source]. erewrite bind_run by apply sv_log_run.
  rewrite bind_get. destruct (find_iframe s src); reflexivity.
Qed.

(** *** What one operation can change *)

Lemma sv_step_shape op s :
  let s' := final (step op s) in
  targetOrigin s' = targetOrigin s /\ debug s' = debug s /\
  (loadListeners s' = loadListeners s \/
   exists f, op = RegisterIframe f /\
             loadListeners s' = loadListeners s ++ [f]) /\
  (iframes s' = iframes s \/
   (exists f, op = RegisterIframe f /\
              iframes s' = set_add Nat.eqb f (iframes s)) \/
   (exists f, iframes s' = set_delete Nat.eqb f (iframes s)) \/
   iframes s' = []) /\
  (stores s' = stores s \/
   (exists k c v, map_get String.eqb k (stores s) = Some c /\
      stores s' = map_set String.eqb k (cell_set v c) (stores s)) \/
   (exists k c sub, map_get String.eqb k (stores s) = Some c /\
      stores s' = map_set String.eqb k
                    (cell_subscribe subscriber_eqb sub c) (stores s)) \/
   (exists k c i cb, map_get String.eqb k (stores s) = Some c /\
      stores s' = map_set String.eqb k
                    (cell_unsubscribe subscriber_eqb (SubWrapper i cb) c)
                    (stores s)) \/
   (exists k v, map_get String.eqb k (stores s) = None /\
      stores s' = map_set String.eqb k
                    (cell_subscribe subscriber_eqb (SubBroadcast k)
                       (create Subscriber v)) (stores s)) \/
   stores s' = []).
Proof.
  destruct op as [k v | f | f | k v | k | k cb | k i cb | | ev | f | f w];
    cbn [step].
  - destruct (map_get String.eqb k (stores s)) as [c |] eqn:G.
    + rewrite (sv_registerAtom_present k v s G). cbn. repeat split; auto.
    + destruct (sv_registerAtom_fresh k v s G) as [_ [[n Hf] _]]. rewrite Hf.
      cbn. repeat split; auto. right. right. right. right. left.
      exists k, v. auto.
  - rewrite sv_registerIframe_run. cbn. repeat split; auto.
    + right. exists f. auto.
    + right. left. exists f. auto.
  - rewrite sv_unregisterIframe_run. cbn. repeat split; auto.
    right. right. left. exists f. auto.
  - destruct (map_get String.eqb k (stores s)) as [c |] eqn:G.
    + rewrite (sv_setValue_present k v s G).
      destruct (sv_store_send_run k v s G) as [_ [[n Hf] _]]. rewrite Hf. cbn.
      repeat split; auto. right. left. exists k, c, v. auto.
    + rewrite (sv_setValue_absent k v s G). cbn. repeat split; auto.
  - unfold bind. rewrite sv_getValue_run. cbn. repeat split; auto.
  - destruct (map_get String.eqb k (stores s)) as [c |] eqn:G.
    + destruct (sv_subscribe_present k cb s G) as [Ho [[n Hf] _]].
      unfold bind. rewrite Ho, Hf. cbn. repeat split; auto.
      right. right. left. exists k, c, (SubWrapper (nextWrapper s) cb). auto.
    + unfold bind. rewrite (sv_subscribe_absent k cb s G). cbn.
      repeat split; auto.
  - rewrite sv_unsubscribe_run.
    destruct (map_get String.eqb k (stores s)) as [c |] eqn:G; cbn;
      repeat split; auto.
    right. right. right. left. exists k, c, i, cb. auto.
  - rewrite sv_destroy_run. cbn. repeat split; auto 10.
  - destruct ev as [[[k v ts | ts] | |] src].
    + rewrite sv_handleMessage_sync. unfold prepend. cbn [final].
      destruct (map_get String.eqb k (stores s)) as [c |] eqn:G.
      * rewrite (sv_setValue_present k v s G).
        destruct (sv_store_send_run k v s G) as [_ [[n Hf] _]]. rewrite Hf. cbn.
        repeat split; auto. right. left. exists k, c, v. auto.
      * rewrite (sv_setValue_absent k v s G). cbn. repeat split; auto.
    + rewrite sv_handleMessage_request. unfold prepend. cbn [final].
      destruct (find_iframe s src) as [f |]; [| cbn; repeat split; auto].
      destruct (contentWindow s f) as [w |] eqn:Hw.
      * destruct (sv_syncAllToIframe_window f s Hw) as [_ [[n Hf] _]].
        rewrite Hf. cbn. repeat split; auto.
      * rewrite (sv_syncAllToIframe_none f s Hw). cbn. repeat split; auto.
    + cbn. repeat split; auto.
    + cbn. repeat split; auto.
  - destruct (contentWindow s f) as [w |] eqn:Hw.
    + destruct (sv_fire_load_window f s Hw) as [_ [[n Hf] _]]. rewrite Hf. cbn.
      repeat split; auto.
    + destruct (sv_fire_load_none f s Hw) as [_ [Hf _]]. rewrite Hf.
      repeat split; auto.
  - cbn. repeat split; auto.
Qed.

Lemma sv_run_cons op ops s : run (op :: ops) s = run ops (final (step op s)).
Proof. reflexivity. Qed.

Lemma sv_wired_step op s :
  broadcast_wired s -> broadcast_wired (final (step op s)).
Proof.
  intros W. destruct (sv_step_shape op s) as [_ [_ [_ [_ Ha]]]].
  intros k' c' G.
  destruct Ha as [E | [[k [c [v [Gk E]]]] | [[k [c [sub [Gk E]]]] |
                 [[k [c [i [cb [Gk E]]]]] | [[k [v [Gk E]]] | E]]]]];
    rewrite E in G.
  - apply (W k' c' G).
  - destruct (String.eqb_spec k k') as [-> | N].
    + rewrite get_set_same in G. injection G as <-. cbn. apply (W k' c Gk).
    + rewrite get_set_other in G by assumption. apply (W k' c' G).
  - destruct (String.eqb_spec k k') as [-> | N].
    + rewrite get_set_same in G. injection G as <-. cbn.
      apply sv_In_sub_add. left. apply (W k' c Gk).
    + rewrite get_set_other in G by assumption. apply (W k' c' G).
  - destruct (String.eqb_spec k k') as [-> | N].
    + rewrite get_set_same in G. injection G as <-. cbn.
      apply sv_In_sub_delete. split; [apply (W k' c Gk) | discriminate].
    + rewrite get_set_other in G by assumption. apply (W k' c' G).
  - destruct (String.eqb_spec k k') as [-> | N].
    + rewrite get_set_same in G. injection G as <-. cbn. left. reflexivity.
    + rewrite get_set_other in G by assumption. apply (W k' c' G).
  - discriminate.
Qed.

Lemma sv_reachable_wired s : reachable s -> broadcast_wired s.
Proof.
  intros [opts [dom [clock [ops ->]]]]. cbn [constructor ret final].
  match goal with |- broadcast_wired (run ops ?s0) =>
    assert (W0 : broadcast_wired s0) by (intros k c G; discriminate);
    generalize dependent s0 end.
  induction ops as [| op ops IH]; intros s0 W0; [assumption |].
  rewrite sv_run_cons. apply IH. apply sv_wired_step. assumption.
Qed.

Lemma sv_listeners_step op s f :
  count_occ Nat.eq_dec (loadListeners s) f <=
  count_occ Nat.eq_dec (loadListeners (final (step op s))) f.
Proof.
  destruct (sv_step_shape op s) as [_ [_ [[E | [g [_ E]]] _]]]; rewrite E.
  - apply Nat.le_refl.
  - rewrite count_occ_app. apply Nat.le_add_r.
Qed.

Lemma sv_listeners_run ops s f :
  count_occ Nat.eq_dec (loadListeners s) f <=
  count_occ Nat.eq_dec (loadListeners (run ops s)) f.
Proof.
  revert s. induction ops as [| op ops IH]; intros s; [apply Nat.le_refl |].
  rewrite sv_run_cons. eapply Nat.le_trans; [apply sv_listeners_step | apply IH].
Qed.

Lemma sv_unregistered_step op s f :
  op <> RegisterIframe f -> ~ In f (iframes s) ->
  ~ In f (iframes (final (step op s))).
Proof.
  intros N H.
  destruct (sv_step_shape op s)
    as [_ [_ [_ [[E | [[g [Eo E]] | [[g E] | E]]] _]]]]; rewrite E.
  - assumption.
  - intros H'. apply In_nat_add in H'.
    destruct H' as [H' | ->]; [contradiction | apply N; assumption].
  - intros H'. apply In_nat_delete in H'. destruct H'; contradiction.
  - intros [].
Qed.

Lemma sv_unregistered_run ops s f :
  Forall (fun op => op <> RegisterIframe f) ops -> ~ In f (iframes s) ->
  ~ In f (iframes (run ops s)).
Proof.
  revert s. induction ops as [| op ops IH]; intros s F H; [assumption |].
  inversion F as [| ? ? N F']; subst. rewrite sv_run_cons.
  apply IH; [assumption |]. apply sv_unregistered_step; assumption.
Qed.

(** *** A value message from a child *)

Lemma sv_setValue_effects key v s e :
  In e (effects (setValue key v s)) ->
  match e with
  | PostMessage (ToIframe f w) (AtomSync _ v' _) _ =>
      In f (iframes s) /\ contentWindow s f = Some w /\ v' = v
  | PostMessage _ _ _ => False
  | Invoke cb v' =>
      v' = v /\
      exists c i, map_get String.eqb key (stores s) = Some c /\
                  In (SubWrapper i cb) (subscribers c)
  | ConsoleLog _ => debug s = true
  | ConsoleWarn _ => False
  end.
Proof.
  destruct (map_get String.eqb key (stores s)) as [c |] eqn:G.
  - rewrite (sv_setValue_present key v s G).
    destruct (sv_store_send_run key v s G) as [_ [_ He]]. rewrite He.
    intros Hin.
    destruct (sv_notify_run (subscribers c) v
                (with_stores (map_set String.eqb key (cell_set v c)
                                (stores s)) s)) as [_ [_ HE]].
    specialize (HE e Hin).
    destruct e as [[f w | w |] [k' v' ts' | ts'] o | cb v' | line | line];
      cbn in HE; try contradiction.
    + tauto.
    + destruct HE as [[i Hi] Hv]. split; [assumption |]. exists c, i. auto.
  - rewrite (sv_setValue_absent key v s G). cbn.
    destruct (debug s); intros Hin; [| destruct Hin].
    destruct Hin as [<- | []]. reflexivity.
Qed.

Lemma sv_handleMessage_sync_effects key v ts src s e :
  In e (effects (handleMessage
                   {| data := DataMessage (AtomSync key v ts);
                      source := src |} s)) ->
  match e with
  | PostMessage (ToIframe f w) (AtomSync _ v' _) _ =>
      In f (iframes s) /\ contentWindow s f = Some w /\ v' = v
  | PostMessage _ _ _ => False
  | Invoke cb v' =>
      v' = v /\
      exists c i, map_get String.eqb key (stores s) = Some c /\
                  In (SubWrapper i cb) (subscribers c)
  | ConsoleLog _ => debug s = true
  | ConsoleWarn _ => False
  end.
Proof.
  rewrite sv_handleMessage_sync. unfold prepend. cbn [effects]. intros Hin.
  apply in_app_or in Hin. destruct Hin as [Hin | Hin].
  - destruct (debug s); [| destruct Hin]. destruct Hin as [<- | []].
    reflexivity.
  - apply sv_setValue_effects. assumption.
Qed.

Lemma sv_child_update s key c v ts src :
  reachable s ->
  map_get String.eqb key (stores s) = Some c ->
  let r := handleMessage
             {| data := DataMessage (AtomSync key v ts); source := src |} s in
  returns r /\
  (exists c', map_get String.eqb key (stores (final r)) = Some c' /\
              value c' = v) /\
  (forall i cb, In (SubWrapper i cb) (subscribers c) ->
                In (Invoke cb v) (effects r)) /\
  (forall f w, In f (iframes s) -> contentWindow s f = Some w ->
     exists ts',
       In (PostMessage (ToIframe f w) (AtomSync key v ts') (targetOrigin s))
          (effects r)).
Proof.
  intros Hr G r. pose proof (sv_reachable_wired Hr) as W.
  subst r. rewrite sv_handleMessage_sync, (sv_setValue_present key v s G).
  destruct (sv_store_send_run key v s G) as [Ho [[n Hf] He]].
  unfold prepend. cbn [outcome final effects]. rewrite Hf, He.
  split; [exists tt; assumption | split; [| split]].
  - cbn. rewrite get_set_same. eexists. split; reflexivity.
  - intros i cb Hcb. apply in_or_app. right.
    apply (sv_notify_invokes _ _ _ i). assumption.
  - intros f w Hf' Hw.
    destruct (@sv_notify_posts (subscribers c) v
                (with_stores (map_set String.eqb key (cell_set v c)
                                (stores s)) s)
                key f w (W key c G) Hf' Hw) as [ts' Hin].
    exists ts'. apply in_or_app. right. exact Hin.
Qed.

(** *** [registerIframe], [unregisterIframe] and the load event *)

Lemma sv_registerIframe_load s f ops :
  let s1 := final (registerIframe f s) in
  let s2 := run ops s1 in
  In f (iframes s1) /\
  count_occ Nat.eq_dec (loadListeners s1) f =
    S (count_occ Nat.eq_dec (loadListeners s) f) /\
  1 <= count_occ Nat.eq_dec (loadListeners s2) f /\
  forall w, contentWindow s2 f = Some w ->
    returns (fire_load f s2) /\
    map payload (posted_to (ToIframe f w) (effects (fire_load f s2))) =
    List.concat (repeat (cells s2)
                   (count_occ Nat.eq_dec (loadListeners s2) f)).
Proof.
  intros s1 s2.
  assert (C : count_occ Nat.eq_dec (loadListeners s1) f =
              S (count_occ Nat.eq_dec (loadListeners s) f)).
  { subst s1. rewrite sv_registerIframe_run. cbn.
    rewrite count_occ_app. cbn.
    destruct (Nat.eq_dec f f); [| contradiction].
    rewrite Nat.add_1_r. reflexivity. }
  split; [| split; [exact C | split]].
  - subst s1. rewrite sv_registerIframe_run. cbn.
    apply In_nat_add. right. reflexivity.
  - pose proof (sv_listeners_run ops s1 f) as L. fold s2 in L. lia.
  - intros w Hw. destruct (sv_fire_load_window f s2 Hw) as [Ho [_ [Hp _]]].
    split; [exists tt; assumption | assumption].
Qed.

Lemma sv_unregisterIframe_then s0 f ops1 ops2 :
  Forall (fun op => op <> RegisterIframe f) ops2 ->
  let s1 := run ops1 (final (registerIframe f s0)) in
  let s2 := run ops2 (final (unregisterIframe f s1)) in
  ~ In f (iframes s2) /\
  (forall key v e, In e (effects (setValue key v s2)) ->
                   posts_to_iframe f e = false) /\
  (forall key v ts src e,
     In e (effects (handleMessage
                      {| data := DataMessage (AtomSync key v ts);
                         source := src |} s2)) ->
     posts_to_iframe f e = false) /\
  1 <= count_occ Nat.eq_dec (loadListeners s2) f /\
  forall w, contentWindow s2 f = Some w ->
    returns (fire_load f s2) /\
    map payload (posted_to (ToIframe f w) (effects (fire_load f s2))) =
    List.concat (repeat (cells s2)
                   (count_occ Nat.eq_dec (loadListeners s2) f)).
Proof.
  intros F s1 s2.
  assert (N : ~ In f (iframes s2)).
  { subst s2. apply sv_unregistered_run; [assumption |].
    rewrite sv_unregisterIframe_run. cbn. intros H.
    apply In_nat_delete in H. destruct H as [_ H]. apply H. reflexivity. }
  split; [exact N | split; [| split; [| split]]].
  - intros key v e Hin. apply sv_setValue_effects in Hin.
    destruct e as [[g w | w |] [k' v' ts' | ts'] o | cb v' | line | line];
      try reflexivity; try contradiction. cbn.
    destruct (Nat.eqb_spec f g) as [-> | Ne]; [| reflexivity].
    destruct Hin as [Hin _]. contradiction.
  - intros key v ts src e Hin. apply sv_handleMessage_sync_effects in Hin.
    destruct e as [[g w | w |] [k' v' ts' | ts'] o | cb v' | line | line];
      try reflexivity; try contradiction. cbn.
    destruct (Nat.eqb_spec f g) as [-> | Ne]; [| reflexivity].
    destruct Hin as [Hin _]. contradiction.
  - destruct (sv_registerIframe_load s0 f ops1) as [_ [_ [L _]]].
    fold s1 in L.
    assert (L1 : count_occ Nat.eq_dec (loadListeners s1) f <=
                 count_occ Nat.eq_dec
                   (loadListeners (final (unregisterIframe f s1))) f)
      by (rewrite sv_unregisterIframe_run; apply Nat.le_refl).
    pose proof (sv_listeners_run ops2 (final (unregisterIframe f s1)) f) as L2.
    fold s2 in L2. lia.
  - intros w Hw. destruct (sv_fire_load_window f s2 Hw) as [Ho [_ [Hp _]]].
    split; [exists tt; assumption | assumption].
Qed.

(** *** The reply to a sync request *)

Lemma sv_find_iframe_unregistered s w :
  (forall f, In f (iframes s) -> contentWindow s f <> Some w) ->
  find_iframe s (Some w) = None.
Proof.
  intros H. unfold find_iframe.
  induction (iframes s) as [| f l IH]; [reflexivity |]. cbn [find].
  destruct (contentWindow s f) as [w' |] eqn:Hw; cbn [same_window].
  - destruct (Nat.eqb_spec w' w) as [-> | N].
    + exfalso. apply (H f); [left; reflexivity | assumption].
    + apply IH. intros g Hg. apply H. right. assumption.
  - apply IH. intros g Hg. apply H. right. assumption.
Qed.

Lemma sv_find_iframe_some s w f :
  find_iframe s (Some w) = Some f ->
  In f (iframes s) /\ contentWindow s f = Some w.
Proof.
  unfold find_iframe. intros H. apply find_some in H. destruct H as [Hin H].
  split; [assumption |].
  destruct (contentWindow s f) as [w' |]; cbn in H; [| discriminate].
  apply Nat.eqb_eq in H. subst. reflexivity.
Qed.

Lemma sv_request_reply s ts w :
  let r := handleMessage
             {| data := DataMessage (AtomSyncRequest ts);
                source := Some w |} s in
  returns r /\
  (forall f, find_iframe s (Some w) = Some f ->
     In f (iframes s) /\ contentWindow s f = Some w /\
     map payload (posted_to (ToIframe f w) (effects r)) = cells s) /\
  (find_iframe s (Some w) = None ->
     forall e, In e (effects r) -> is_post e = false).
Proof.
  intros r. subst r. rewrite sv_handleMessage_request. unfold prepend.
  cbn [outcome effects].
  assert (E : forall t, posted_to t
                (if debug s then [ConsoleLog LogStateRequest] else []) = [])
    by (intros t; destruct (debug s); reflexivity).
  split; [| split].
  - destruct (find_iframe s (Some w)) as [f |] eqn:Hfind.
    + destruct (sv_find_iframe_some s w Hfind) as [_ Hw].
      destruct (sv_syncAllToIframe_window f s Hw) as [Ho _].
      exists tt. assumption.
    + exists tt. reflexivity.
  - intros f Hfind. rewrite Hfind.
    destruct (sv_find_iframe_some s w Hfind) as [Hin Hw].
    split; [assumption | split; [assumption |]].
    destruct (sv_syncAllToIframe_window f s Hw) as [_ [_ [Hp _]]].
    rewrite posted_to_app, E. exact Hp.
  - intros Hfind. rewrite Hfind. cbn [effects]. rewrite app_nil_r.
    intros e Hin. destruct (debug s); [| destruct Hin].
    destruct Hin as [<- | []]. reflexivity.
Qed.

(** *** No console line without the debug option *)

Lemma sv_step_console op s e :
  debug s = false -> In e (effects (step op s)) -> is_console e = false.
Proof.
  intros D.
  destruct op as [k v | f | f | k v | k | k cb | k i cb | | ev | f | f w];
    cbn [step].
  - destruct (map_get String.eqb k (stores s)) as [c |] eqn:G.
    + rewrite (sv_registerAtom_present k v s G). cbn. rewrite D. intros [].
    + destruct (sv_registerAtom_fresh k v s G) as [_ [_ He]]. intros Hin.
      specialize (He e Hin).
      destruct e as [t m o | cb v' | line | line]; try reflexivity;
        try contradiction. congruence.
  - rewrite sv_registerIframe_run. cbn. rewrite D. intros [].
  - rewrite sv_unregisterIframe_run. cbn. rewrite D. intros [].
  - intros Hin. apply sv_setValue_effects in Hin.
    destruct e as [t m o | cb v' | line | line]; try reflexivity;
      try contradiction. congruence.
  - unfold bind. rewrite sv_getValue_run. intros [].
  - destruct (map_get String.eqb k (stores s)) as [c |] eqn:G.
    + destruct (sv_subscribe_present k cb s G) as [Ho [_ He]].
      unfold bind. rewrite Ho, He. cbn. intros [<- | []]. reflexivity.
    + unfold bind. rewrite (sv_subscribe_absent k cb s G). cbn. rewrite D.
      intros [].
  - rewrite sv_unsubscribe_run. intros [].
  - intros [].
  - destruct ev as [[[k v ts | ts] | |] src].
    + intros Hin. apply sv_handleMessage_sync_effects in Hin.
      destruct e as [t m o | cb v' | line | line]; try reflexivity;
        try contradiction. congruence.
    + rewrite sv_handleMessage_request. unfold prepend. cbn [effects].
      rewrite D. cbn [app].
      destruct (find_iframe s src) as [f |]; [| intros []].
      destruct (contentWindow s f) as [w |] eqn:Hw.
      * destruct (sv_syncAllToIframe_window f s Hw) as [_ [_ [_ He]]].
        intros Hin. specialize (He e Hin).
        destruct e as [t m o | cb v' | line | line]; try reflexivity;
          try contradiction. congruence.
      * rewrite (sv_syncAllToIframe_none f s Hw). intros [].
    + intros [].
    + intros [].
  - destruct (contentWindow s f) as [w |] eqn:Hw.
    + destruct (sv_fire_load_window f s Hw) as [_ [_ [_ He]]]. intros Hin.
      specialize (He e Hin).
      destruct e as [t m o | cb v' | line | line]; try reflexivity;
        try contradiction. congruence.
    + destruct (sv_fire_load_none f s Hw) as [_ [_ He]]. intros Hin.
      destruct (He e Hin) as [_ H]. congruence.
  - intros [].
Qed.

(** *** The target origin of every message *)

Ltac within_side :=
  cbn [targetOrigin with_stores with_iframes with_nextWrapper
       with_loadListeners with_contentWindow with_ticks carries] in *;
  try assumption; try reflexivity; try congruence.

Ltac within_go :=
  repeat first
    [ apply within_bind_get
    | apply within_bind_modify
    | apply within_ret
    | apply within_throw
    | apply within_modify
    | apply within_emit
    | match goal with
      | |- within _ _ (when _ _ _) => apply within_when; [| intros _]
      | |- within _ _ (forEach _ _ _) =>
          apply within_forEach; [intros ? ? _ ? |]
      | |- within _ _ (bind _ _ _) => apply within_bind; [| intros ? ?]
      | |- within _ _ (match ?x with _ => _ end _) => destruct x
      end
    | progress within_side ].

Section Origin.
Variable o : string.
Let I := fun s : State => targetOrigin s = o.
Let E := carries o.

Lemma sv_Date_now_origin s : I s -> within I E (Date_now s).
Proof. intros H. split; [exact H | intros e []]. Qed.

Lemma sv_log_origin line s : I s -> within I E (log line s).
Proof. intros H. unfold log. within_go. Qed.

Lemma sv_broadcastToIframes_origin m s :
  I s -> within I E (broadcastToIframes m s).
Proof.
  intros H. unfold broadcastToIframes. apply within_bind_get.
  apply within_forEach; [| exact H].
  intros f s' _ H'. destruct (contentWindow s f); [| within_go].
  apply within_emit; [exact H' | exact H].
Qed.

Lemma sv_call_subscriber_origin sub v s :
  I s -> within I E (call_subscriber sub v s).
Proof.
  intros H. destruct sub as [k | i cb]; cbn [call_subscriber].
  - apply within_bind; [apply sv_Date_now_origin, H | intros ts H1].
    apply sv_broadcastToIframes_origin, H1.
  - within_go.
Qed.

Lemma sv_store_subscribe_origin key sub s :
  I s -> within I E (store_subscribe key sub s).
Proof.
  intros H. unfold store_subscribe. apply within_bind_get.
  destruct (map_get String.eqb key (stores s)) as [c |]; [| within_go].
  apply within_bind_modify. apply sv_call_subscriber_origin. exact H.
Qed.

Lemma sv_store_send_origin key v s :
  I s -> within I E (store_send key v s).
Proof.
  intros H. unfold store_send. apply within_bind_get.
  destruct (map_get String.eqb key (stores s)) as [c |]; [| within_go].
  apply within_bind_modify. apply within_forEach; [| exact H].
  intros sub s' _ H'. apply sv_call_subscriber_origin, H'.
Qed.

Lemma sv_registerAtom_origin key v s :
  I s -> within I E (registerAtom key v s).
Proof.
  intros H. unfold registerAtom. apply within_bind_get.
  destruct (map_has String.eqb key (stores s)); [apply sv_log_origin, H |].
  apply within_bind_modify.
  apply within_bind; [apply sv_log_origin, H | intros _ H1].
  apply sv_store_subscribe_origin, H1.
Qed.

Lemma sv_syncAllToIframe_origin f s :
  I s -> within I E (syncAllToIframe f s).
Proof.
  intros H. unfold syncAllToIframe. apply within_bind_get.
  destruct (contentWindow s f) as [w |]; [| within_go].
  apply within_forEach; [| exact H].
  intros entry s' _ H'.
  apply within_bind; [apply sv_Date_now_origin, H' | intros ts H1].
  apply within_bind; [| intros _ H2; apply sv_log_origin, H2].
  apply within_emit; [exact H1 | exact H].
Qed.

Lemma sv_setValue_origin key v s : I s -> within I E (setValue key v s).
Proof.
  intros H. unfold setValue. apply within_bind_get.
  destruct (map_has String.eqb key (stores s));
    [apply sv_store_send_origin, H | apply sv_log_origin, H].
Qed.

Lemma sv_subscribe_origin key cb s : I s -> within I E (subscribe key cb s).
Proof.
  intros H. unfold subscribe. apply within_bind_get.
  destruct (map_has String.eqb key (stores s)).
  - apply within_bind_modify.
    apply within_bind; [apply sv_store_subscribe_origin, H | intros _ H1].
    apply within_ret, H1.
  - apply within_bind; [apply sv_log_origin, H | intros _ H1].
    apply within_ret, H1.
Qed.

Lemma sv_handleMessage_origin ev s : I s -> within I E (handleMessage ev s).
Proof.
  intros H. unfold handleMessage.
  destruct (data ev) as [[key v ts | ts] | |]; [| | within_go | within_go].
  - apply within_bind; [apply sv_log_origin, H | intros _ H1].
    apply sv_setValue_origin, H1.
  - apply within_bind; [apply sv_log_origin, H | intros _ H1].
    apply within_bind_get.
    destruct (find_iframe _ _); [apply sv_syncAllToIframe_origin, H1 |].
    apply within_ret, H1.
Qed.

Lemma sv_fire_load_origin f s : I s -> within I E (fire_load f s).
Proof.
  intros H. unfold fire_load. apply within_bind_get.
  apply within_forEach; [| exact H].
  intros x s' _ H'.
  apply within_bind; [apply sv_log_origin, H' | intros _ H1].
  apply sv_syncAllToIframe_origin, H1.
Qed.

Lemma sv_step_origin op s : I s -> within I E (step op s).
Proof.
  intros H.
  destruct op as [k v | f | f | k v | k | k cb | k i cb | | ev | f | f w];
    cbn [step].
  - apply sv_registerAtom_origin, H.
  - unfold registerIframe. apply within_bind_modify.
    apply within_bind; [apply sv_log_origin, H | intros _ H1].
    apply within_modify. exact H1.
  - unfold unregisterIframe. apply within_bind_modify.
    apply sv_log_origin. exact H.
  - apply sv_setValue_origin, H.
  - apply within_bind; [| intros; apply within_ret; assumption].
    unfold getValue. within_go.
  - apply within_bind; [apply sv_subscribe_origin, H |].
    intros; apply within_ret; assumption.
  - unfold unsubscribe. within_go.
  - unfold destroy. within_go.
  - apply sv_handleMessage_origin, H.
  - apply sv_fire_load_origin, H.
  - apply within_modify. exact H.
Qed.

Lemma sv_trace_origin ops s e :
  I s -> In e (trace ops s) -> E e.
Proof.
  revert s. induction ops as [| op ops IH]; intros s H Hin;
    [destruct Hin |].
  destruct (sv_step_origin op H) as [H1 He].
  cbn [trace] in Hin. apply in_app_or in Hin. destruct Hin as [Hin | Hin].
  - apply He, Hin.
  - apply (IH _ H1 Hin).
Qed.
End Origin.

(** *** What stays as it is *)

Lemma sv_syncAllToIframe_frame f s :
  outcome (syncAllToIframe f s) = Normal tt /\
  exists n, final (syncAllToIframe f s) = with_ticks n s.
Proof.
  destruct (contentWindow s f) as [w |] eqn:Hw.
  - destruct (sv_syncAllToIframe_window f s Hw) as [Ho [Hf _]]. auto.
  - rewrite (sv_syncAllToIframe_none f s Hw). split; [reflexivity |].
    exists (ticks s). symmetry. apply sv_with_ticks_same.
Qed.

Lemma sv_fire_load_frame f s :
  exists n, final (fire_load f s) = with_ticks n s.
Proof.
  destruct (contentWindow s f) as [w |] eqn:Hw.
  - apply (sv_fire_load_window f s Hw).
  - destruct (sv_fire_load_none f s Hw) as [_ [Hf _]]. rewrite Hf.
    exists (ticks s). symmetry. apply sv_with_ticks_same.
Qed.

(** The store of a key keeps its value through every operation that does
    not write the key; registering the key once more is none. *)
Lemma sv_step_value key op s :
  writes key op = false ->
  option_map (@value Subscriber)
    (map_get String.eqb key (stores (final (step op s)))) =
  option_map (@value Subscriber) (map_get String.eqb key (stores s)) \/
  (map_get String.eqb key (stores s) = None /\
   exists v, op = RegisterAtom key v).
Proof.
  intros W.
  destruct op as [k v | f | f | k v | k | k cb | k i cb | | ev | f | f w];
    cbn [step writes] in *.
  - destruct (map_get String.eqb k (stores s)) as [c |] eqn:G.
    + rewrite (sv_registerAtom_present k v s G). left. reflexivity.
    + destruct (sv_registerAtom_fresh k v s G) as [_ [[n Hf] _]]. rewrite Hf.
      cbn [stores with_ticks with_stores].
      destruct (String.eqb_spec k key) as [-> | N].
      * right. split; [assumption | exists v; reflexivity].
      * left. rewrite get_set_other by assumption. reflexivity.
  - rewrite sv_registerIframe_run. left. reflexivity.
  - rewrite sv_unregisterIframe_run. left. reflexivity.
  - left. destruct (map_get String.eqb k (stores s)) as [c |] eqn:G.
    + rewrite (sv_setValue_present k v s G).
      destruct (sv_store_send_run k v s G) as [_ [[n Hf] _]]. rewrite Hf.
      cbn [stores with_ticks with_stores].
      rewrite get_set_other; [reflexivity |].
      intros <-. rewrite String.eqb_refl in W. discriminate.
    + rewrite (sv_setValue_absent k v s G). reflexivity.
  - left. unfold bind. rewrite sv_getValue_run. reflexivity.
  - left. destruct (map_get String.eqb k (stores s)) as [c |] eqn:G.
    + destruct (sv_subscribe_present k cb s G) as [Ho [[n Hf] _]].
      unfold bind. rewrite Ho, Hf. cbn.
      destruct (String.eqb_spec k key) as [-> | N].
      * rewrite get_set_same, G. reflexivity.
      * rewrite get_set_other by assumption. reflexivity.
    + unfold bind. rewrite (sv_subscribe_absent k cb s G). reflexivity.
  - left. rewrite sv_unsubscribe_run. cbn [final].
    destruct (map_get String.eqb k (stores s)) as [c |] eqn:G;
      [| reflexivity].
    cbn [stores with_stores].
    destruct (String.eqb_spec k key) as [-> | N].
    + rewrite get_set_same, G. reflexivity.
    + rewrite get_set_other by assumption. reflexivity.
  - discriminate.
  - left. destruct ev as [[[k v ts | ts] | |] src]; cbn [data] in W.
    + rewrite sv_handleMessage_sync. unfold prepend. cbn [final].
      destruct (map_get String.eqb k (stores s)) as [c |] eqn:G.
      * rewrite (sv_setValue_present k v s G).
        destruct (sv_store_send_run k v s G) as [_ [[n Hf] _]]. rewrite Hf.
        cbn [stores with_ticks with_stores].
        rewrite get_set_other; [reflexivity |].
        intros <-. rewrite String.eqb_refl in W. discriminate.
      * rewrite (sv_setValue_absent k v s G). reflexivity.
    + rewrite sv_handleMessage_request. unfold prepend. cbn [final].
      destruct (find_iframe s src) as [f |]; [| reflexivity].
      destruct (sv_syncAllToIframe_frame f s) as [_ [n Hf]]. rewrite Hf.
      reflexivity.
    + reflexivity.
    + reflexivity.
  - left. destruct (sv_fire_load_frame f s) as [n Hf]. rewrite Hf. reflexivity.
  - left. reflexivity.
Qed.

Lemma sv_run_value key ops s c :
  map_get String.eqb key (stores s) = Some c ->
  Forall (fun op => writes key op = false) ops ->
  exists c', map_get String.eqb key (stores (run ops s)) = Some c' /\
             value c' = value c.
Proof.
  revert s c. induction ops as [| op ops IH]; intros s c G F.
  - exists c. auto.
  - inversion F as [| ? ? W F']; subst. rewrite sv_run_cons.
    destruct (@sv_step_value key op s W) as [E | [E _]];
      [| rewrite G in E; discriminate].
    rewrite G in E. cbn in E.
    destruct (map_get String.eqb key (stores (final (step op s))))
      as [c1 |] eqn:G1; [| discriminate].
    cbn in E. injection E as E.
    destruct (IH _ c1 G1 F') as [c' [G' V']]. exists c'.
    split; [assumption | congruence].
Qed.

(** *** After [destroy] *)

Lemma sv_log_destroyed line s :
  stores s = [] ->
  within (fun s' => stores s' = []) (fun e => is_console e = true)
         (mkRun (Normal tt) s (if debug s then [ConsoleLog line] else [])).
Proof.
  intros H. split; [exact H |]. cbn [effects]. intros e Hin.
  destruct (debug s); [destruct Hin as [<- | []]; reflexivity | destruct Hin].
Qed.

Lemma sv_syncAllToIframe_destroyed f s :
  stores s = [] -> syncAllToIframe f s = mkRun (Normal tt) s [].
Proof.
  intros H. unfold syncAllToIframe. rewrite bind_get.
  destruct (contentWindow s f); [| reflexivity]. rewrite H. reflexivity.
Qed.

Lemma sv_load_destroyed f (l : list Iframe) s :
  stores s = [] ->
  within (fun s' => stores s' = []) (fun e => is_console e = true)
         (forEach l (fun _ => log LogIframeLoaded ;; syncAllToIframe f) s).
Proof.
  intros H. induction l as [| x l IH]; [split; [exact H | intros e []] |].
  cbn [forEach].
  assert (Eb : (log LogIframeLoaded ;; syncAllToIframe f) s =
               mkRun (Normal tt) s
                 (if debug s then [ConsoleLog LogIframeLoaded] else [])).
  { erewrite bind_run by apply sv_log_run.
    rewrite (sv_syncAllToIframe_destroyed f s H). unfold prepend. cbn.
    rewrite app_nil_r. reflexivity. }
  erewrite bind_run by exact Eb. unfold prepend.
  destruct IH as [I1 I2]. split; [exact I1 |]. cbn [effects].
  intros e Hin. apply in_app_or in Hin. destruct Hin as [Hin | Hin].
  - destruct (debug s); [destruct Hin as [<- | []]; reflexivity |
                         destruct Hin].
  - apply I2. assumption.
Qed.

Lemma sv_step_destroyed op s :
  is_register op = false -> stores s = [] ->
  within (fun s' => stores s' = []) (fun e => is_console e = true)
         (step op s).
Proof.
  intros Hr H.
  assert (G : forall k, map_get String.eqb k (stores s) = None)
    by (intros k; rewrite H; reflexivity).
  destruct op as [k v | f | f | k v | k | k cb | k i cb | | ev | f | f w];
    try discriminate; cbn [step].
  - rewrite sv_registerIframe_run. apply (sv_log_destroyed _ s H).
  - rewrite sv_unregisterIframe_run. apply (sv_log_destroyed _ s H).
  - rewrite (sv_setValue_absent k v s (G k)). apply (sv_log_destroyed _ s H).
  - unfold bind. rewrite sv_getValue_run. split; [exact H | intros e []].
  - unfold bind. rewrite (sv_subscribe_absent k cb s (G k)).
    unfold prepend, ret. cbn [outcome final effects]. rewrite app_nil_r.
    apply (sv_log_destroyed _ s H).
  - rewrite sv_unsubscribe_run, (G k). split; [exact H | intros e []].
  - rewrite sv_destroy_run. split; [reflexivity | intros e []].
  - destruct ev as [[[k1 v1 ts | ts] | |] src].
    + rewrite sv_handleMessage_sync. unfold prepend.
      rewrite (sv_setValue_absent k1 v1 s (G k1)). split; [exact H |].
      cbn [effects]. intros e Hin. apply in_app_or in Hin.
      destruct Hin as [Hin | Hin];
        (destruct (debug s);
         [destruct Hin as [<- | []]; reflexivity | destruct Hin]).
    + rewrite sv_handleMessage_request. unfold prepend.
      assert (Es : match find_iframe s src with
                   | Some f => syncAllToIframe f s
                   | None => mkRun (Normal tt) s []
                   end = mkRun (Normal tt) s []).
      { destruct (find_iframe s src) as [f |]; [| reflexivity].
        apply (sv_syncAllToIframe_destroyed f s H). }
      rewrite Es. cbn [outcome final effects]. rewrite app_nil_r.
      apply (sv_log_destroyed _ s H).
    + split; [exact H | intros e []].
    + split; [exact H | intros e []].
  - unfold fire_load. rewrite bind_get. apply sv_load_destroyed. exact H.
  - split; [exact H | intros e []].
Qed.

Lemma sv_trace_destroyed ops s :
  Forall (fun op => is_register op = false) ops -> stores s = [] ->
  Forall (fun e => is_console e = true) (trace ops s).
Proof.
  revert s. induction ops as [| op ops IH]; intros s F H; [constructor |].
  inversion F as [| ? ? Hr F']; subst.
  destruct (@sv_step_destroyed op s Hr H) as [H1 He].
  cbn [trace]. apply Forall_app. split.
  - apply Forall_forall. exact He.
  - apply IH; assumption.
Qed.

Lemma sv_run_destroyed ops s :
  Forall (fun op => is_register op = false) ops -> stores s = [] ->
  stores (run ops s) = [].
Proof.
  revert s. induction ops as [| op ops IH]; intros s F H; [exact H |].
  inversion F as [| ? ? Hr F']; subst. rewrite sv_run_cons.
  apply IH; [assumption |]. apply (@sv_step_destroyed op s Hr H).
Qed.

(** *** The keys of the map *)

Lemma sv_keys_step op s :
  NoDup (map fst (stores s)) -> NoDup (map fst (stores (final (step op s)))).
Proof.
  intros Nd.
  destruct (sv_step_shape op s)
    as [_ [_ [_ [_ [E | [[k [c [v [G E]]]] | [[k [c [sub [G E]]]] |
       [[k [c [i [cb [G E]]]]] | [[k [v [G E]]] | E]]]]]]]]];
    rewrite E; try assumption;
    try (erewrite keys_set_present by eassumption; assumption);
    [| constructor].
  destruct (@keys_set_absent _ k
              (cell_subscribe subscriber_eqb (SubBroadcast k)
                 (create Subscriber v)) (stores s) G) as [Ek Hn].
  refine (eq_ind_r (fun l => NoDup l) _ Ek).
  apply NoDup_app; [assumption | |].
  - constructor; [intros [] | constructor].
  - intros x Hx [<- | []]. contradiction.
Qed.

Lemma sv_keys_run ops s :
  NoDup (map fst (stores s)) -> NoDup (map fst (stores (run ops s))).
Proof.
  revert s. induction ops as [| op ops IH]; intros s Nd; [assumption |].
  rewrite sv_run_cons. apply IH, sv_keys_step, Nd.
Qed.

Lemma sv_reachable_keys s : reachable s -> NoDup (map fst (stores s)).
Proof.
  intros [opts [dom [clock [ops ->]]]]. apply sv_keys_run. constructor.
Qed.
End SvelteFacts.

(** ** The JavaScript copy *)
Module JSFacts.
Import JS.

Lemma js_with_ticks_same s : with_ticks (ticks s) s = s.
Proof. destruct s; reflexivity. Qed.

Lemma js_debug_log_run line s :
  debug_log line s =
  mkRun (Normal tt) s
        (if debug (options s) then [ConsoleLog line] else []).
Proof.
  unfold debug_log. rewrite bind_get. destruct (debug (options s));
    reflexivity.
Qed.

Lemma js_debug_warn_run line s :
  debug_warn line s =
  mkRun (Normal tt) s
        (if debug (options s) then [ConsoleWarn line] else []).
Proof.
  unfold debug_warn. rewrite bind_get. destruct (debug (options s));
    reflexivity.
Qed.

Lemma js_post_to_iframe_run f m s :
  post_to_iframe f m s =
  mkRun (Normal tt) s
        (match contentWindow s f with
         | Some w => [PostMessage (ToIframe f w) m (targetOrigin (options s))]
         | None => []
         end).
Proof.
  unfold post_to_iframe. rewrite bind_get.
  destruct (contentWindow s f); reflexivity.
Qed.

Lemma js_broadcastToIframes_run key v s :
  broadcastToIframes key v s =
  mkRun (Normal tt) (with_ticks (S (ticks s)) s)
    (flat_map (fun f =>
       match contentWindow s f with
       | Some w => [PostMessage (ToIframe f w)
                      (AtomSync key v (now s (ticks s)))
                      (targetOrigin (options s))]
       | None => []
       end) (iframes s)
     ++ (if debug (options s) then [ConsoleLog (LogBroadcasted key v)]
         else [])).
Proof.
  unfold broadcastToIframes. erewrite bind_run by reflexivity.
  rewrite bind_get.
  assert (L : forall l s',
    forEach l (fun iframe =>
      post_to_iframe iframe (AtomSync key v (now s (ticks s)))) s' =
    mkRun (Normal tt) s'
      (flat_map (fun f =>
         match contentWindow s' f with
         | Some w => [PostMessage (ToIframe f w)
                        (AtomSync key v (now s (ticks s)))
                        (targetOrigin (options s'))]
         | None => []
         end) l)).
  { induction l as [| f l IH]; intros s'; [reflexivity |].
    cbn [forEach flat_map].
    erewrite bind_run by apply js_post_to_iframe_run. rewrite IH. reflexivity. }
  erewrite bind_run by apply L. rewrite js_debug_log_run. reflexivity.
Qed.

Lemma js_call_subscriber_run sub v s0 s :
  (exists n, s = with_ticks n s0) ->
  outcome (call_subscriber sub v s) = Normal tt /\
  (exists n, final (call_subscriber sub v s) = with_ticks n s0) /\
  forall e, In e (effects (call_subscriber sub v s)) ->
    match e with
    | PostMessage (ToIframe f w) (AtomSync k v' _) o =>
        sub = SubBroadcast k /\ In f (iframes s0) /\
        contentWindow s0 f = Some w /\ v' = v
    | PostMessage _ _ _ => False
    | Invoke cb v' => sub = SubUser cb /\ v' = v
    | ConsoleLog _ => debug (options s0) = true
    | ConsoleWarn _ => False
    end.
Proof.
  intros [n ->]. destruct sub as [k | cb]; cbn [call_subscriber].
  - rewrite js_broadcastToIframes_run. cbn [outcome final effects].
    split; [reflexivity | split; [eexists; reflexivity |]].
    intros e He. apply in_app_or in He. destruct He as [He | He].
    + apply in_flat_map in He. destruct He as [f [Hf He]].
      cbn in He, Hf. destruct (contentWindow s0 f) as [w |] eqn:Hw;
        [| destruct He].
      destruct He as [<- | []]. auto.
    + cbn in He. destruct (debug (options s0)) eqn:Hd; [| destruct He].
      destruct He as [<- | []]. reflexivity.
  - cbn. split; [reflexivity | split; [eexists; reflexivity |]].
    intros e [<- | []]. auto.
Qed.

Lemma js_notify_run subs v s :
  let r := forEach subs (fun fn => call_subscriber fn v) s in
  outcome r = Normal tt /\
  (exists n, final r = with_ticks n s) /\
  forall e, In e (effects r) ->
    match e with
    | PostMessage (ToIframe f w) (AtomSync k v' _) o =>
        In (SubBroadcast k) subs /\ In f (iframes s) /\
        contentWindow s f = Some w /\ v' = v
    | PostMessage _ _ _ => False
    | Invoke cb v' => In (SubUser cb) subs /\ v' = v
    | ConsoleLog _ => debug (options s) = true
    | ConsoleWarn _ => False
    end.
Proof.
  apply (@forEach_inv State Subscriber
           (fun s' => exists n, s' = with_ticks n s)
           (fun e => match e with
    | PostMessage (ToIframe f w) (AtomSync k v' _) o =>
        In (SubBroadcast k) subs /\ In f (iframes s) /\
        contentWindow s f = Some w /\ v' = v
    | PostMessage _ _ _ => False
    | Invoke cb v' => In (SubUser cb) subs /\ v' = v
    | ConsoleLog _ => debug (options s) = true
    | ConsoleWarn _ => False
    end)).
  - intros sub s' Hsub Hs'.
    destruct (js_call_subscriber_run sub v Hs') as [Ho [Hf He]].
    split; [assumption | split; [assumption |]].
    intros e Hin. specialize (He e Hin).
    destruct e as [[f w | w |] [k v' ts | ts] o | cb v' | line | line];
      try assumption; try contradiction.
    + destruct He as [-> He]. split; assumption.
    + destruct He as [-> He]. split; assumption.
  - exists (ticks s). symmetry. apply js_with_ticks_same.
Qed.

(** *** The heap of atom objects *)

Lemma js_heap_update_same h a l x :
  nth_error l h = Some x -> nth_error (heap_update h a l) h = Some a.
Proof.
  revert h. induction l as [| y l IH]; intros [| h] H; cbn in *;
    try discriminate; [reflexivity | apply IH; assumption].
Qed.

Lemma js_heap_update_other h h' a l :
  h <> h' -> nth_error (heap_update h a l) h' = nth_error l h'.
Proof.
  revert h h'. induction l as [| y l IH]; intros [| h] [| h'] N; cbn;
    try reflexivity; try contradiction.
  apply IH. intros E. apply N. f_equal. assumption.
Qed.

Lemma js_heap_update_last a b l :
  heap_update (List.length l) a (l ++ [b]) = l ++ [a].
Proof. induction l as [| y l IH]; cbn; [reflexivity | rewrite IH; reflexivity]. Qed.

Lemma js_nth_error_last (a : Atom) l : nth_error (l ++ [a]) (List.length l) = Some a.
Proof. induction l as [| y l IH]; cbn; [reflexivity | assumption]. Qed.

(** *** The methods of an atom object *)

Lemma js_atom_get_run h s :
  atom_get h s =
  mkRun (Normal (match nth_error (heap s) h with
                 | Some a => value a
                 | None => VUndefined
                 end)) s [].
Proof.
  unfold atom_get. rewrite bind_get.
  destruct (nth_error (heap s) h); reflexivity.
Qed.

Lemma js_atom_set_run h v s a :
  nth_error (heap s) h = Some a ->
  let s' := with_heap (heap_update h (mkAtom v (subscribers a)) (heap s)) s in
  let r := atom_set h v s in
  outcome r = Normal tt /\
  (exists n, final r = with_ticks n s') /\
  effects r =
  effects (forEach (subscribers a) (fun fn => call_subscriber fn v) s').
Proof.
  intros H s' r. subst r. unfold atom_set. rewrite bind_get, H, bind_modify.
  fold s'. destruct (js_notify_run (subscribers a) v s') as [Ho [Hf _]].
  split; [assumption | split; [assumption | reflexivity]].
Qed.

Lemma js_atom_set_absent h v s :
  nth_error (heap s) h = None -> atom_set h v s = mkRun (Normal tt) s [].
Proof. intros H. unfold atom_set. rewrite bind_get, H. reflexivity. Qed.

Lemma js_atom_subscribe_run h fn s a :
  nth_error (heap s) h = Some a ->
  let s' := with_heap
              (heap_update h
                 (mkAtom (value a)
                         (set_add subscriber_eqb fn (subscribers a)))
                 (heap s)) s in
  let r := atom_subscribe h fn s in
  outcome r = Normal tt /\
  (exists n, final r = with_ticks n s') /\
  effects r = effects (call_subscriber fn (value a) s').
Proof.
  intros H s' r. subst r. unfold atom_subscribe.
  rewrite bind_get, H, bind_modify. fold s'.
  assert (Hs : exists n, s' = with_ticks n s')
    by (exists (ticks s'); symmetry; apply js_with_ticks_same).
  destruct (js_call_subscriber_run fn (value a) Hs) as [Ho [Hf _]].
  split; [assumption | split; [assumption | reflexivity]].
Qed.

Lemma js_atom_subscribe_absent h fn s :
  nth_error (heap s) h = None ->
  atom_subscribe h fn s = mkRun (Normal tt) s [].
Proof. intros H. unfold atom_subscribe. rewrite bind_get, H. reflexivity. Qed.

Lemma js_atom_unsubscribe_run h fn s :
  atom_unsubscribe h fn s =
  mkRun (Normal tt)
    (match nth_error (heap s) h with
     | Some a =>
         with_heap
           (heap_update h
              (mkAtom (value a)
                      (set_delete subscriber_eqb fn (subscribers a)))
              (heap s)) s
     | None => s
     end) [].
Proof.
  unfold atom_unsubscribe. rewrite bind_get.
  destruct (nth_error (heap s) h); reflexivity.
Qed.

Lemma js_atom_set_effects h v s e :
  In e (effects (atom_set h v s)) ->
  match e with
  | PostMessage (ToIframe f w) (AtomSync _ v' _) _ =>
      In f (iframes s) /\ contentWindow s f = Some w /\ v' = v
  | PostMessage _ _ _ => False
  | Invoke cb v' =>
      v' = v /\
      exists a, nth_error (heap s) h = Some a /\
                In (SubUser cb) (subscribers a)
  | ConsoleLog _ => debug (options s) = true
  | ConsoleWarn _ => False
  end.
Proof.
  destruct (nth_error (heap s) h) as [a |] eqn:G.
  - destruct (js_atom_set_run h v s G) as [_ [_ He]]. rewrite He.
    intros Hin.
    destruct (js_notify_run (subscribers a) v
                (with_heap (heap_update h (mkAtom v (subscribers a))
                              (heap s)) s)) as [_ [_ HE]].
    specialize (HE e Hin).
    destruct e as [[f w | w |] [k' v' ts' | ts'] o | cb v' | line | line];
      cbn in HE; try contradiction; try assumption.
    + tauto.
    + destruct HE as [H1 H2]. split; [assumption |]. exists a. auto.
  - rewrite (js_atom_set_absent h v s G). intros [].
Qed.

(** *** Registration *)

Lemma js_registerAtom_run key v s :
  let a := mkAtom v (if isRoot s then [SubBroadcast key] else []) in
  let r := registerAtom key v s in
  outcome r = Normal (List.length (heap s)) /\
  exists n,
    final r =
    with_ticks n
      (with_heap (heap s ++ [a])
         (with_atoms (map_set String.eqb key (List.length (heap s))
                        (atoms s)) s)).
Proof.
  intros a r. subst r a. unfold registerAtom.
  rewrite bind_get, !bind_modify.
  destruct (isRoot s) eqn:R; cbn [when].
  - set (s1 := with_atoms _ _).
    assert (G : nth_error (heap s1) (List.length (heap s)) =
                Some (mkAtom v [])) by apply js_nth_error_last.
    destruct (js_atom_subscribe_run (List.length (heap s))
                (SubBroadcast key) s1 G) as [Ho [[n Hf] _]].
    unfold bind. rewrite Ho, Hf. cbn [outcome final effects].
    rewrite js_debug_log_run. cbn [outcome final effects ret].
    split; [reflexivity |]. exists n. subst s1.
    unfold with_ticks, with_heap, with_atoms. cbn.
    rewrite js_heap_update_last. reflexivity.
  - rewrite bind_ret. erewrite bind_run by apply js_debug_log_run.
    cbn. split; [reflexivity |].
    eexists (ticks s). reflexivity.
Qed.

(** A second registration under a present key does not throw: it puts a
    new atom under the key, with the second initial value. *)
Lemma js_registerAtom_again key v1 v2 s :
  let s1 := final (registerAtom key v1 s) in
  let r := registerAtom key v2 s1 in
  returns r /\
  exists h a, map_get String.eqb key (atoms (final r)) = Some h /\
              nth_error (heap (final r)) h = Some a /\ value a = v2.
Proof.
  intros s1 r. destruct (js_registerAtom_run key v2 s1) as [Ho [n Hf]].
  fold r in Ho, Hf. split; [eexists; exact Ho |].
  exists (List.length (heap s1)). eexists. rewrite Hf. cbn.
  rewrite get_set_same. split; [reflexivity |].
  split; [apply js_nth_error_last | reflexivity].
Qed.

(** *** The child-only calls *)

Lemma js_sendToParent_root key v s :
  isRoot s = true ->
  sendToParent key v s =
  mkRun (Normal tt) s
    (if debug (options s) then [ConsoleWarn LogCannotSend] else []).
Proof.
  intros R. unfold sendToParent. rewrite bind_get, R. apply js_debug_warn_run.
Qed.

Lemma js_sendToParent_child key v s :
  isRoot s = false ->
  sendToParent key v s =
  mkRun (Normal tt) (with_ticks (S (ticks s)) s)
    (PostMessage ToParent (AtomSync key v (now s (ticks s)))
                 (targetOrigin (options s))
     :: (if debug (options s) then [ConsoleLog (LogSent key v)] else [])).
Proof.
  intros R. unfold sendToParent. rewrite bind_get, R.
  erewrite bind_run by reflexivity.
  rewrite bind_emit, js_debug_log_run. reflexivity.
Qed.

Lemma js_requestStateFromParent_root s :
  isRoot s = true ->
  requestStateFromParent s =
  mkRun (Normal tt) s
    (if debug (options s) then [ConsoleWarn LogCannotRequest] else []).
Proof.
  intros R. unfold requestStateFromParent. rewrite bind_get, R.
  apply js_debug_warn_run.
Qed.

Lemma js_requestStateFromParent_child s :
  isRoot s = false ->
  requestStateFromParent s =
  mkRun (Normal tt) (with_ticks (S (ticks s)) s)
    (PostMessage ToParent (AtomSyncRequest (now s (ticks s)))
                 (targetOrigin (options s))
     :: (if debug (options s) then [ConsoleLog LogRequested] else [])).
Proof.
  intros R. unfold requestStateFromParent. rewrite bind_get, R.
  erewrite bind_run by reflexivity.
  rewrite bind_emit, js_debug_log_run. reflexivity.
Qed.

(** *** The reply to a sync request *)

Lemma js_reply_loop_run w o (l : list (string * nat)) s n :
  let r := forEach l (fun entry =>
             v <- atom_get (snd entry) ;;
             ts <- Date_now ;;
             emit (PostMessage (ToSource w) (AtomSync (fst entry) v ts) o))
             (with_ticks n s) in
  outcome r = Normal tt /\
  (exists n', final r = with_ticks n' s) /\
  map payload (posted_to (ToSource w) (effects r)) =
    map (fun e =>
           Some (fst e,
                 match nth_error (heap s) (snd e) with
                 | Some a => value a
                 | None => VUndefined
                 end)) l /\
  (forall e, In e (effects r) ->
             exists m, e = PostMessage (ToSource w) m o).
Proof.
  revert n. induction l as [| x l IH]; intros n.
  - cbn. split; [reflexivity | split; [eexists; reflexivity |]].
    split; [reflexivity | intros e []].
  - cbn [forEach].
    erewrite bind_run;
      [| erewrite bind_run by apply js_atom_get_run;
         erewrite bind_run by reflexivity; reflexivity].
    unfold prepend. rewrite !emit_run. cbn [outcome final effects app].
    change (with_ticks (S (ticks (with_ticks n s))) (with_ticks n s))
      with (with_ticks (S n) s).
    destruct (IH (S n)) as [Ho [Hf [Hp He]]].
    split; [assumption | split; [assumption | split]].
    + cbn [posted_to].
      destruct (target_eqb_spec (ToSource w) (ToSource w)); [| contradiction].
      cbn [map payload]. rewrite Hp. reflexivity.
    + intros e [<- | Hin]; [eexists; reflexivity | apply (He e Hin)].
Qed.

Lemma js_request_reply s ts w :
  isRoot s = true ->
  let ev := {| data := DataMessage (AtomSyncRequest ts);
               source := Some w |} in
  let r := handleMessage ev s in
  returns r /\
  map payload (posted_to (ToSource w) (effects r)) = cells s /\
  (forall l, map payload
               (posted_to (ToSource w)
                  (effects (handleMessage ev (with_iframes l s)))) =
             cells s) /\
  (forall t m o, In (PostMessage t m o) (effects r) -> t = ToSource w).
Proof.
  intros R ev.
  assert (G : forall s', isRoot s' = true ->
    let r := handleMessage ev s' in
    returns r /\
    map payload (posted_to (ToSource w) (effects r)) = cells s' /\
    (forall t m o, In (PostMessage t m o) (effects r) -> t = ToSource w)).
  { intros s' R' r. subst r ev. unfold handleMessage. cbn [data source].
    rewrite bind_get, R'. erewrite bind_run by apply js_debug_log_run.
    pose proof (js_reply_loop_run w (targetOrigin (options s')) (atoms s') s'
                  (ticks s')) as L.
    rewrite js_with_ticks_same in L. destruct L as [Ho [_ [Hp He]]].
    unfold prepend. cbn [outcome effects].
    split; [exists tt; assumption | split].
    - rewrite posted_to_app.
      assert (E : posted_to (ToSource w)
                    (if debug (options s')
                     then [ConsoleLog LogStateRequest] else []) = [])
        by (destruct (debug (options s')); reflexivity).
      rewrite E. exact Hp.
    - intros t m o Hin. apply in_app_or in Hin. destruct Hin as [Hin | Hin].
      + destruct (debug (options s')); [| destruct Hin].
        destruct Hin as [Hin | []]. discriminate.
      + destruct (He _ Hin) as [m' E]. injection E as -> _ _. reflexivity. }
  intros r. destruct (G s R) as [H1 [H2 H3]].
  split; [assumption | split; [assumption | split; [| assumption]]].
  intros l. destruct (G (with_iframes l s) R) as [_ [H _]]. exact H.
Qed.

(** *** Without options the constructor logs *)

Lemma js_constructor_default isTop dom clock :
  effects (constructor no_options isTop dom clock) =
  [ConsoleLog (LogInitialized isTop)] /\
  debug (options (final (constructor no_options isTop dom clock))) = true.
Proof. split; reflexivity. Qed.

(** *** What one operation can do to the heap *)

Lemma js_syncToIframe_frame f s0 s :
  (exists n, s = with_ticks n s0) ->
  outcome (syncToIframe f s) = Normal tt /\
  (exists n, final (syncToIframe f s) = with_ticks n s0).
Proof.
  intros Hs. unfold syncToIframe. rewrite bind_get.
  destruct (@forEach_inv State (string * nat)
              (fun s' => exists n, s' = with_ticks n s0) (fun _ => True)
              (fun entry =>
                 s' <- get ;;
                 match contentWindow s' f with
                 | Some w =>
                     v <- atom_get (snd entry) ;;
                     ts <- Date_now ;;
                     emit (PostMessage (ToIframe f w)
                             (AtomSync (fst entry) v ts)
                             (targetOrigin (options s')))
                 | None => ret tt
                 end)
              (atoms s)) with (s := s) as [Ho [[n Hf] _]].
  - intros x s' _ [n ->]. rewrite bind_get.
    destruct (contentWindow (with_ticks n s0) f) as [w |].
    + erewrite bind_run by apply js_atom_get_run.
      erewrite bind_run by reflexivity. rewrite emit_run.
      unfold prepend. cbn [outcome final effects].
      split; [reflexivity | split; [eexists; reflexivity | auto]].
    + cbn. split; [reflexivity | split; [eexists; reflexivity | auto]].
  - assumption.
  - rewrite (bind_normal _ _ _ Ho), Hf, js_debug_log_run. cbn [outcome final].
    split; [reflexivity | eexists; reflexivity].
Qed.

Lemma js_fire_load_frame f s :
  outcome (fire_load f s) = Normal tt /\
  (exists n, final (fire_load f s) = with_ticks n s).
Proof.
  unfold fire_load. rewrite bind_get.
  destruct (@forEach_inv State Iframe
              (fun s' => exists n, s' = with_ticks n s) (fun _ => True)
              (fun _ => syncToIframe f)
              (filter (Nat.eqb f) (loadListeners s))) with (s := s)
    as [Ho [Hf _]].
  - intros x s' _ Hs'. destruct (js_syncToIframe_frame f Hs') as [Ho Hf].
    split; [assumption | split; [assumption | auto]].
  - exists (ticks s). symmetry. apply js_with_ticks_same.
  - split; assumption.
Qed.

Lemma js_handleMessage_request_frame ts src s :
  outcome (handleMessage
             {| data := DataMessage (AtomSyncRequest ts); source := src |} s)
  = Normal tt /\
  (exists n, final (handleMessage
                      {| data := DataMessage (AtomSyncRequest ts);
                         source := src |} s) = with_ticks n s) /\
  forall cb v,
    ~ In (Invoke cb v)
         (effects (handleMessage
                     {| data := DataMessage (AtomSyncRequest ts);
                        source := src |} s)).
Proof.
  unfold handleMessage. cbn [data source]. rewrite bind_get.
  destruct (isRoot s).
  - erewrite bind_run by apply js_debug_log_run.
    destruct (@forEach_inv State (string * nat)
                (fun s' => exists n, s' = with_ticks n s)
                (fun e => forall cb v, e <> Invoke cb v)
                (fun entry =>
                   match src with
                   | Some w =>
                       v <- atom_get (snd entry) ;;
                       ts <- Date_now ;;
                       emit (PostMessage (ToSource w)
                               (AtomSync (fst entry) v ts)
                               (targetOrigin (options s)))
                   | None => ret tt
                   end)
                (atoms s)) with (s := s) as [Ho [Hf He]].
    + intros x s' _ [n ->]. destruct src as [w |].
      * erewrite bind_run by apply js_atom_get_run.
        erewrite bind_run by reflexivity. rewrite emit_run.
        unfold prepend. cbn [outcome final effects app].
        split; [reflexivity | split; [eexists; reflexivity |]].
        intros e [<- | []] cb v. discriminate.
      * cbn. split; [reflexivity | split; [eexists; reflexivity |]].
        intros e [].
    + exists (ticks s). symmetry. apply js_with_ticks_same.
    + unfold prepend. cbn [outcome final effects].
      split; [assumption | split; [assumption |]].
      intros cb v Hin. apply in_app_or in Hin. destruct Hin as [Hin | Hin].
      * destruct (debug (options s)); [| destruct Hin].
        destruct Hin as [Hin | []]. discriminate.
      * apply (He _ Hin cb v). reflexivity.
  - cbn. split; [reflexivity | split].
    + exists (ticks s). symmetry. apply js_with_ticks_same.
    + intros cb v [].
Qed.

Lemma js_handleMessage_sync_present key v ts src s h :
  map_get String.eqb key (atoms s) = Some h ->
  handleMessage
    {| data := DataMessage (AtomSync key v ts); source := src |} s =
  bind (atom_set h v) (fun _ => debug_log (LogReceived key v)) s.
Proof.
  intros G. unfold handleMessage. cbn [data]. rewrite bind_get, G.
  reflexivity.
Qed.

Lemma js_handleMessage_sync_absent key v ts src s :
  map_get String.eqb key (atoms s) = None ->
  handleMessage
    {| data := DataMessage (AtomSync key v ts); source := src |} s =
  mkRun (Normal tt) s [].
Proof.
  intros G. unfold handleMessage. cbn [data]. rewrite bind_get, G.
  reflexivity.
Qed.

Lemma js_atom_set_returns h v s : outcome (atom_set h v s) = Normal tt.
Proof.
  destruct (nth_error (heap s) h) as [a |] eqn:G.
  - apply (js_atom_set_run h v s G).
  - rewrite (js_atom_set_absent h v s G). reflexivity.
Qed.

Lemma js_step_heap op s :
  let hp := heap s in
  let hp' := heap (final (step op s)) in
  hp' = hp \/
  (exists h a v, nth_error hp h = Some a /\
     hp' = heap_update h (mkAtom v (subscribers a)) hp) \/
  (exists h a cb, op = AtomSubscribe h cb /\ nth_error hp h = Some a /\
     hp' = heap_update h
             (mkAtom (value a)
                     (set_add subscriber_eqb (SubUser cb) (subscribers a)))
             hp) \/
  (exists h a cb, nth_error hp h = Some a /\
     hp' = heap_update h
             (mkAtom (value a)
                     (set_delete subscriber_eqb (SubUser cb) (subscribers a)))
             hp) \/
  (exists a, (forall cb, ~ In (SubUser cb) (subscribers a)) /\
             hp' = hp ++ [a]).
Proof.
  destruct op as [k v | k | h | h v | h cb | h cb | f | | k v | ev | f | f w];
    cbn [step].
  - destruct (js_registerAtom_run k v s) as [Ho [n Hf]].
    unfold bind. rewrite Ho, Hf. cbn. right. right. right. right.
    eexists. split; [| reflexivity].
    intros cb. destruct (isRoot s); cbn; [| tauto].
    intros [H | []]. discriminate.
  - unfold bind, getAtom, get. cbn.
    destruct (map_get String.eqb k (atoms s)); cbn; auto.
  - unfold bind. rewrite js_atom_get_run. cbn. auto.
  - destruct (nth_error (heap s) h) as [a |] eqn:G.
    + destruct (js_atom_set_run h v s G) as [_ [[n Hf] _]]. rewrite Hf. cbn.
      right. left. exists h, a, v. auto.
    + rewrite (js_atom_set_absent h v s G). auto.
  - destruct (nth_error (heap s) h) as [a |] eqn:G.
    + destruct (js_atom_subscribe_run h (SubUser cb) s G) as [_ [[n Hf] _]].
      rewrite Hf. cbn. right. right. left. exists h, a, cb. auto.
    + rewrite (js_atom_subscribe_absent h (SubUser cb) s G). auto.
  - rewrite js_atom_unsubscribe_run.
    destruct (nth_error (heap s) h) as [a |] eqn:G; cbn; auto.
    right. right. right. left. exists h, a, cb. auto.
  - unfold registerIframe. rewrite !bind_modify, js_debug_log_run. cbn. auto.
  - destruct (isRoot s) eqn:R.
    + rewrite (js_requestStateFromParent_root s R). auto.
    + rewrite (js_requestStateFromParent_child s R). auto.
  - destruct (isRoot s) eqn:R.
    + rewrite (js_sendToParent_root k v s R). auto.
    + rewrite (js_sendToParent_child k v s R). auto.
  - destruct ev as [[[k v ts | ts] | |] src].
    + destruct (map_get String.eqb k (atoms s)) as [h |] eqn:G.
      * rewrite (js_handleMessage_sync_present k v ts src s G).
        unfold bind. rewrite js_atom_set_returns, js_debug_log_run.
        cbn [outcome final effects].
        destruct (nth_error (heap s) h) as [a |] eqn:Gh.
        -- destruct (js_atom_set_run h v s Gh) as [_ [[n Hf] _]]. rewrite Hf.
           cbn. right. left. exists h, a, v. auto.
        -- rewrite (js_atom_set_absent h v s Gh). auto.
      * rewrite (js_handleMessage_sync_absent k v ts src s G). auto.
    + destruct (js_handleMessage_request_frame ts src s) as [_ [[n Hf] _]].
      rewrite Hf. auto.
    + cbn. auto.
    + cbn. auto.
  - destruct (js_fire_load_frame f s) as [_ [n Hf]]. rewrite Hf. auto.
  - cbn. auto.
Qed.

Lemma js_not_subscribed_step h cb op s :
  op <> AtomSubscribe h cb ->
  not_subscribed h cb s -> not_subscribed h cb (final (step op s)).
Proof.
  intros N W a' G.
  destruct (js_step_heap op s)
    as [E | [[h' [a [v [Gh E]]]] | [[h' [a [cb' [Eo [Gh E]]]]] |
        [[h' [a [cb' [Gh E]]]] | [a [Ha E]]]]]]; rewrite E in G.
  - apply (W a' G).
  - destruct (Nat.eq_dec h' h) as [-> | Nh].
    + rewrite (js_heap_update_same _ _ _ Gh) in G. injection G as <-. cbn.
      apply (W a Gh).
    + rewrite js_heap_update_other in G by assumption. apply (W a' G).
  - destruct (Nat.eq_dec h' h) as [-> | Nh].
    + rewrite (js_heap_update_same _ _ _ Gh) in G. injection G as <-. cbn.
      intros H. apply In_sub_add in H. destruct H as [H | H].
      * apply (W a Gh H).
      * injection H as ->. apply N. exact Eo.
    + rewrite js_heap_update_other in G by assumption. apply (W a' G).
  - destruct (Nat.eq_dec h' h) as [-> | Nh].
    + rewrite (js_heap_update_same _ _ _ Gh) in G. injection G as <-. cbn.
      intros H. apply In_sub_delete in H. destruct H as [H _].
      apply (W a Gh H).
    + rewrite js_heap_update_other in G by assumption. apply (W a' G).
  - destruct (Nat.lt_ge_cases h (List.length (heap s))) as [L | L].
    + rewrite nth_error_app1 in G by assumption. apply (W a' G).
    + rewrite nth_error_app2 in G by assumption.
      destruct (h - List.length (heap s)) as [| d]; cbn in G.
      * injection G as <-. apply Ha.
      * destruct d; discriminate.
Qed.

Lemma js_not_subscribed_run h cb ops s :
  Forall (fun op => op <> AtomSubscribe h cb) ops ->
  not_subscribed h cb s -> not_subscribed h cb (run ops s).
Proof.
  revert s. induction ops as [| op ops IH]; intros s F W; [assumption |].
  inversion F as [| ? ? N F']; subst. cbn [run fold_left].
  apply IH; [assumption |]. apply js_not_subscribed_step; assumption.
Qed.

(** *** [atom.subscribe] and the function it returns *)


Lemma js_atom_unsubscribe_twice h cb s ops :
  Forall (fun op => op <> AtomSubscribe h cb) ops ->
  let s1 := final (atom_unsubscribe h (SubUser cb) s) in
  let s2 := run ops s1 in
  returns (atom_unsubscribe h (SubUser cb) s) /\
  returns (atom_unsubscribe h (SubUser cb) s2) /\
  effects (atom_unsubscribe h (SubUser cb) s2) = [] /\
  (forall v, invocations cb (effects (atom_set h v s2)) = []) /\
  (forall key, map_get String.eqb key (atoms s2) = Some h ->
     forall v ts src,
       invocations cb
         (effects (handleMessage
                     {| data := DataMessage (AtomSync key v ts);
                        source := src |} s2)) = []).
Proof.
  intros F s1 s2.
  assert (W : not_subscribed h cb s2).
  { subst s2. apply js_not_subscribed_run; [assumption |]. subst s1.
    rewrite js_atom_unsubscribe_run. cbn [final]. intros a G.
    destruct (nth_error (heap s) h) as [a0 |] eqn:G0.
    - cbn in G. rewrite (js_heap_update_same _ _ _ G0) in G.
      injection G as <-. cbn.
      intros H. apply In_sub_delete in H. destruct H as [_ H].
      apply H. reflexivity.
    - rewrite G0 in G. discriminate. }
  assert (Q : forall v, invocations cb (effects (atom_set h v s2)) = []).
  { intros v. apply invocations_nil. intros v' Hin.
    apply js_atom_set_effects in Hin. destruct Hin as [_ [a [G H]]].
    apply (W a G H). }
  split; [| split; [| split; [| split]]].
  - rewrite js_atom_unsubscribe_run. exists tt. reflexivity.
  - rewrite js_atom_unsubscribe_run. exists tt. reflexivity.
  - rewrite js_atom_unsubscribe_run. reflexivity.
  - exact Q.
  - intros key G v ts src.
    rewrite (js_handleMessage_sync_present key v ts src s2 G).
    unfold bind. rewrite js_atom_set_returns, js_debug_log_run.
    cbn [outcome final effects]. rewrite invocations_app, Q.
    destruct (debug (options (final (atom_set h v s2)))); reflexivity.
Qed.

(** *** Broadcasts of a root coordinator *)

Lemma js_run_app ops1 ops2 s : run (ops1 ++ ops2) s = run ops2 (run ops1 s).
Proof. unfold run. apply fold_left_app. Qed.

(** The messages of one broadcast that go to one iframe. *)
Lemma js_posted_to_broadcast (l : list Iframe) (d : Iframe -> option Window)
      f w m o :
  NoDup l ->
  posted_to (ToIframe f w)
    (flat_map (fun g => match d g with
                        | Some x => [PostMessage (ToIframe g x) m o]
                        | None => []
                        end) l) =
  if set_has Nat.eqb f l
  then match d f with
       | Some x => if Nat.eqb w x then [m] else []
       | None => []
       end
  else [].
Proof.
  induction l as [| g l IH]; intros N; [reflexivity |].
  inversion N as [| ? ? Hg N']; subst.
  cbn [flat_map set_has existsb]. fold (set_has Nat.eqb f l).
  rewrite posted_to_app, (IH N').
  destruct (Nat.eqb_spec f g) as [-> | Ne]; cbn [orb].
  - apply (set_has_false Nat.eqb Nat.eqb_spec) in Hg. rewrite Hg.
    rewrite app_nil_r. destruct (d g) as [x |]; [| reflexivity].
    cbn [posted_to target_eqb]. rewrite Nat.eqb_refl. cbn [andb].
    destruct (Nat.eqb w x); reflexivity.
  - assert (E : posted_to (ToIframe f w)
                  match d g with
                  | Some x => [PostMessage (ToIframe g x) m o]
                  | None => []
                  end = []).
    { destruct (d g) as [x |]; [| reflexivity].
      cbn [posted_to target_eqb].
      destruct (Nat.eqb_spec f g); [contradiction | reflexivity]. }
    rewrite E. reflexivity.
Qed.

(** Subscribers that are all user callbacks: the loop of [set] only
    invokes them. *)
Lemma js_notify_users subs v s :
  broadcast_keys subs = [] ->
  let r := forEach subs (fun fn => call_subscriber fn v) s in
  outcome r = Normal tt /\ final r = s /\
  (forall t, posted_to t (effects r) = []) /\
  (forall e, In e (effects r) -> is_post e = false).
Proof.
  revert s. induction subs as [| [k | cb] subs IH]; intros s B.
  - cbn. repeat split; auto. intros e [].
  - discriminate.
  - cbn [forEach call_subscriber]. rewrite bind_emit.
    destruct (IH s B) as [Ho [Hf [Hp He]]].
    unfold prepend. cbn [outcome final effects].
    split; [assumption | split; [assumption | split]].
    + intros t. cbn [app posted_to]. apply Hp.
    + intros e [<- | H]; [reflexivity | apply He, H].
Qed.

(** Subscribers with one broadcasting closure: the loop of [set] makes
    one broadcast, stamped with the clock reading at the start. *)
Lemma js_notify_one subs v s key t :
  broadcast_keys subs = [key] ->
  let r := forEach subs (fun fn => call_subscriber fn v) s in
  outcome r = Normal tt /\ final r = with_ticks (S (ticks s)) s /\
  posted_to t (effects r) =
  posted_to t
    (flat_map (fun f =>
       match contentWindow s f with
       | Some w => [PostMessage (ToIframe f w)
                      (AtomSync key v (now s (ticks s)))
                      (targetOrigin (options s))]
       | None => []
       end) (iframes s)).
Proof.
  revert s. induction subs as [| [k | cb] subs IH]; intros s B.
  - discriminate.
  - cbn in B. injection B as -> B.
    cbn [forEach call_subscriber].
    erewrite bind_run by apply js_broadcastToIframes_run.
    destruct (js_notify_users subs v (with_ticks (S (ticks s)) s) B)
      as [Ho [Hf [Hp _]]].
    unfold prepend. cbn [outcome final effects].
    split; [assumption | split; [assumption |]].
    rewrite !posted_to_app, Hp, app_nil_r, posted_to_console, app_nil_r.
    reflexivity.
  - cbn [forEach call_subscriber]. rewrite bind_emit.
    destruct (IH s B) as [Ho [Hf Hp]].
    unfold prepend. cbn [outcome final effects].
    split; [assumption | split; [assumption |]].
    cbn [app posted_to]. apply Hp.
Qed.

(** *** What one operation can do to the coordinator *)

Lemma js_step_parts op s :
  let s' := final (step op s) in
  isRoot s' = isRoot s /\ options s' = options s /\ now s' = now s /\
  (iframes s' = iframes s \/
   exists f, op = RegisterIframe f /\
             iframes s' = set_add Nat.eqb f (iframes s)) /\
  ((atoms s' = atoms s /\
    (heap s' = heap s \/
     exists h a a', nth_error (heap s) h = Some a /\
       heap s' = heap_update h a' (heap s) /\
       broadcast_keys (subscribers a') = broadcast_keys (subscribers a))) \/
   (exists k v, op = RegisterAtom k v /\
      atoms s' = map_set String.eqb k (List.length (heap s)) (atoms s) /\
      heap s' = heap s ++
                [mkAtom v (if isRoot s then [SubBroadcast k] else [])])).
Proof.
  destruct op as [k v | k | h | h v | h cb | h cb | f | | k v | ev | f | f w];
    cbn [step].
  - destruct (js_registerAtom_run k v s) as [Ho [n Hf]].
    unfold bind. rewrite Ho, Hf. cbn.
    repeat split; auto. right. exists k, v. auto.
  - unfold bind, getAtom, get. cbn.
    destruct (map_get String.eqb k (atoms s)); cbn; repeat split; auto.
  - unfold bind. rewrite js_atom_get_run. cbn. repeat split; auto.
  - destruct (nth_error (heap s) h) as [a |] eqn:G.
    + destruct (js_atom_set_run h v s G) as [_ [[n Hf] _]]. rewrite Hf. cbn.
      repeat split; auto. left. split; [reflexivity |]. right.
      exists h, a, (mkAtom v (subscribers a)). auto.
    + rewrite (js_atom_set_absent h v s G). cbn. repeat split; auto.
  - destruct (nth_error (heap s) h) as [a |] eqn:G.
    + destruct (js_atom_subscribe_run h (SubUser cb) s G) as [_ [[n Hf] _]].
      rewrite Hf. cbn. repeat split; auto. left. split; [reflexivity |].
      right. eexists h, a, _. split; [assumption | split; [reflexivity |]].
      cbn. apply broadcast_keys_add.
    + rewrite (js_atom_subscribe_absent h (SubUser cb) s G). cbn.
      repeat split; auto.
  - rewrite js_atom_unsubscribe_run. cbn [final].
    destruct (nth_error (heap s) h) as [a |] eqn:G; cbn;
      repeat split; auto.
    left. split; [reflexivity |]. right.
    eexists h, a, _. split; [assumption | split; [reflexivity |]].
    cbn. apply broadcast_keys_delete.
  - unfold registerIframe. rewrite !bind_modify, js_debug_log_run. cbn.
    repeat split; auto. right. exists f. auto.
  - destruct (isRoot s) eqn:R.
    + rewrite (js_requestStateFromParent_root s R). cbn. repeat split; auto.
    + rewrite (js_requestStateFromParent_child s R). cbn. repeat split; auto.
  - destruct (isRoot s) eqn:R.
    + rewrite (js_sendToParent_root k v s R). cbn. repeat split; auto.
    + rewrite (js_sendToParent_child k v s R). cbn. repeat split; auto.
  - destruct ev as [[[k v ts | ts] | |] src].
    + destruct (map_get String.eqb k (atoms s)) as [h |] eqn:G.
      * rewrite (js_handleMessage_sync_present k v ts src s G).
        unfold bind. rewrite js_atom_set_returns, js_debug_log_run.
        cbn [outcome final effects].
        destruct (nth_error (heap s) h) as [a |] eqn:Gh.
        -- destruct (js_atom_set_run h v s Gh) as [_ [[n Hf] _]]. rewrite Hf.
           cbn. repeat split; auto. left. split; [reflexivity |]. right.
           exists h, a, (mkAtom v (subscribers a)). auto.
        -- rewrite (js_atom_set_absent h v s Gh). cbn. repeat split; auto.
      * rewrite (js_handleMessage_sync_absent k v ts src s G). cbn.
        repeat split; auto.
    + destruct (js_handleMessage_request_frame ts src s) as [_ [[n Hf] _]].
      rewrite Hf. cbn. repeat split; auto.
    + cbn. repeat split; auto.
    + cbn. repeat split; auto.
  - destruct (js_fire_load_frame f s) as [_ [n Hf]]. rewrite Hf. cbn.
    repeat split; auto.
  - cbn. repeat split; auto.
Qed.

Lemma js_isRoot_run ops s : isRoot (run ops s) = isRoot s.
Proof.
  revert s. induction ops as [| op ops IH]; intros s; [reflexivity |].
  cbn [run fold_left]. fold (run ops (final (step op s))). rewrite IH.
  apply (js_step_parts op s).
Qed.

Lemma js_options_run ops s : options (run ops s) = options s.
Proof.
  revert s. induction ops as [| op ops IH]; intros s; [reflexivity |].
  cbn [run fold_left]. fold (run ops (final (step op s))). rewrite IH.
  apply (js_step_parts op s).
Qed.

(** The JavaScript copy has no way to take an iframe out of the set. *)
Lemma js_iframes_step op s f :
  In f (iframes s) -> In f (iframes (final (step op s))).
Proof.
  intros H. destruct (js_step_parts op s) as [_ [_ [_ [[E | [g [_ E]]] _]]]];
    rewrite E; [assumption |].
  apply In_nat_add. left. assumption.
Qed.

Lemma js_iframes_run ops s f : In f (iframes s) -> In f (iframes (run ops s)).
Proof.
  revert s. induction ops as [| op ops IH]; intros s H; [assumption |].
  cbn [run fold_left]. fold (run ops (final (step op s))).
  apply IH, js_iframes_step, H.
Qed.

Lemma js_wired_step op s :
  isRoot s = true -> wired s -> wired (final (step op s)).
Proof.
  intros R [N W].
  destruct (js_step_parts op s) as [_ [_ [_ [Hi Ha]]]]. split.
  - destruct Hi as [E | [f [_ E]]]; rewrite E; [assumption |].
    apply NoDup_set_add; [apply Nat.eqb_spec | assumption].
  - intros key h G.
    destruct Ha as [[Ea [Eh | [h' [a [a' [Gh [Eh B]]]]]]] |
                    [k [v [_ [Ea Eh]]]]]; rewrite Eh.
    + rewrite Ea in G. apply (W key h G).
    + rewrite Ea in G. destruct (W key h G) as [a0 [G0 B0]].
      destruct (Nat.eq_dec h' h) as [-> | Nh].
      * exists a'. split; [apply (js_heap_update_same _ _ _ Gh) |].
        rewrite Gh in G0. injection G0 as <-. rewrite B. assumption.
      * exists a0. rewrite js_heap_update_other by assumption. auto.
    + rewrite Ea in G. destruct (String.eqb_spec k key) as [-> | Nk].
      * rewrite get_set_same in G. injection G as <-.
        eexists. split; [apply js_nth_error_last |]. rewrite R. reflexivity.
      * rewrite get_set_other in G by assumption.
        destruct (W key h G) as [a0 [G0 B0]]. exists a0.
        split; [| assumption].
        rewrite nth_error_app1; [assumption |].
        apply nth_error_Some. rewrite G0. discriminate.
Qed.

Lemma js_wired_run ops s : isRoot s = true -> wired s -> wired (run ops s).
Proof.
  revert s. induction ops as [| op ops IH]; intros s R W; [assumption |].
  cbn [run fold_left]. fold (run ops (final (step op s))).
  apply IH; [| apply js_wired_step; assumption].
  rewrite <- R. apply (js_step_parts op s).
Qed.

Lemma js_reachable_root_wired s : reachable_root s -> isRoot s = true /\ wired s.
Proof.
  intros [opts [dom [clock [ops ->]]]].
  assert (E : final (constructor opts true dom clock) =
              mkState [] [] []
                {| targetOrigin :=
                     match opt_targetOrigin opts with
                     | Some t => t | None => "*" end;
                   debug :=
                     match opt_debug opts with
                     | Some d => d | None => true end |}
                true dom [] clock 0).
  { unfold constructor. rewrite js_debug_log_run. reflexivity. }
  rewrite E. split.
  - rewrite js_isRoot_run. reflexivity.
  - apply js_wired_run; [reflexivity |]. split; [constructor |].
    intros key h G. discriminate.
Qed.

Lemma js_unwired_step op s :
  isRoot s = false -> unwired s -> unwired (final (step op s)).
Proof.
  intros R W h a0 G0.
  destruct (js_step_parts op s) as [_ [_ [_ [_ Ha]]]].
  destruct Ha as [[Ea [Eh | [h' [a [a' [Gh [Eh B]]]]]]] |
                  [k [v [_ [Ea Eh]]]]]; rewrite Eh in G0.
  - apply (W h a0 G0).
  - destruct (Nat.eq_dec h' h) as [-> | Nh].
    + rewrite (js_heap_update_same _ _ _ Gh) in G0. injection G0 as <-.
      rewrite B. apply (W h a Gh).
    + rewrite js_heap_update_other in G0 by assumption. apply (W h a0 G0).
  - destruct (Nat.lt_ge_cases h (List.length (heap s))) as [L | L].
    + rewrite nth_error_app1 in G0 by assumption. apply (W h a0 G0).
    + rewrite nth_error_app2 in G0 by assumption.
      destruct (h - List.length (heap s)) as [| d]; cbn in G0.
      * injection G0 as <-. rewrite R. reflexivity.
      * destruct d; discriminate.
Qed.

Lemma js_unwired_run ops s :
  isRoot s = false -> unwired s -> unwired (run ops s).
Proof.
  revert s. induction ops as [| op ops IH]; intros s R W; [assumption |].
  cbn [run fold_left]. fold (run ops (final (step op s))).
  apply IH; [| apply js_unwired_step; assumption].
  rewrite <- R. apply (js_step_parts op s).
Qed.

Lemma js_reachable_child_unwired s :
  reachable_child s -> isRoot s = false /\ unwired s.
Proof.
  intros [opts [dom [clock [ops ->]]]].
  assert (E : final (constructor opts false dom clock) =
              mkState [] [] []
                {| targetOrigin :=
                     match opt_targetOrigin opts with
                     | Some t => t | None => "*" end;
                   debug :=
                     match opt_debug opts with
                     | Some d => d | None => true end |}
                false dom [] clock 0).
  { unfold constructor. rewrite js_debug_log_run. reflexivity. }
  rewrite E. split.
  - rewrite js_isRoot_run. reflexivity.
  - apply js_unwired_run; [reflexivity |].
    intros h a G. destruct h; discriminate.
Qed.

(** *** [set] on an atom of a root coordinator *)

Lemma js_atom_set_posted key h v s f w :
  wired s -> map_get String.eqb key (atoms s) = Some h ->
  In f (iframes s) -> contentWindow s f = Some w ->
  posted_to (ToIframe f w) (effects (atom_set h v s)) =
    [AtomSync key v (now s (ticks s))] /\
  final (atom_set h v s) =
    with_ticks (S (ticks s))
      (with_heap (heap_update h
                    (mkAtom v (match nth_error (heap s) h with
                               | Some a => subscribers a
                               | None => []
                               end)) (heap s)) s).
Proof.
  intros [N W] G Hf Hw. destruct (W key h G) as [a [Gh B]].
  destruct (js_atom_set_run h v s Gh) as [_ [_ He]]. rewrite He, Gh.
  set (s' := with_heap _ s).
  destruct (js_notify_one (subscribers a) v s' (ToIframe f w) B)
    as [_ [Hfin Hp]].
  split.
  - rewrite Hp. subst s'. cbn [iframes contentWindow with_heap now ticks
                               options].
    rewrite (@js_posted_to_broadcast _ _ f w _ _ N).
    apply (set_has_true Nat.eqb Nat.eqb_spec) in Hf. rewrite Hf, Hw.
    rewrite Nat.eqb_refl. reflexivity.
  - unfold atom_set. rewrite bind_get, Gh, bind_modify. fold s'.
    exact Hfin.
Qed.

Lemma js_atom_set_silent h v s t :
  unwired s -> posted_to t (effects (atom_set h v s)) = [].
Proof.
  intros W. destruct (nth_error (heap s) h) as [a |] eqn:Gh.
  - destruct (js_atom_set_run h v s Gh) as [_ [_ He]]. rewrite He.
    apply js_notify_users. apply (W h a Gh).
  - rewrite (js_atom_set_absent h v s Gh). reflexivity.
Qed.

(** *** Registration, once more *)

Lemma js_registerAtom_effects key v s :
  effects (registerAtom key v s) =
  (if isRoot s
   then flat_map (fun f =>
          match contentWindow s f with
          | Some w => [PostMessage (ToIframe f w)
                         (AtomSync key v (now s (ticks s)))
                         (targetOrigin (options s))]
          | None => []
          end) (iframes s)
        ++ (if debug (options s) then [ConsoleLog (LogBroadcasted key v)]
            else [])
   else []) ++
  (if debug (options s) then [ConsoleLog (LogRegisteredAtom key v)] else []).
Proof.
  unfold registerAtom. rewrite bind_get, !bind_modify.
  destruct (isRoot s) eqn:R; cbn [when].
  - set (s1 := with_atoms _ _).
    assert (G : nth_error (heap s1) (List.length (heap s)) =
                Some (mkAtom v [])) by apply js_nth_error_last.
    destruct (js_atom_subscribe_run (List.length (heap s))
                (SubBroadcast key) s1 G) as [Ho [[n Hf] He]].
    unfold bind. rewrite Ho, Hf, He. cbn [outcome final effects].
    rewrite js_debug_log_run. cbn [outcome final effects ret call_subscriber].
    rewrite js_broadcastToIframes_run. cbn [effects]. rewrite app_nil_r.
    reflexivity.
  - rewrite bind_ret. erewrite bind_run by apply js_debug_log_run.
    cbn. rewrite app_nil_r. reflexivity.
Qed.

Lemma js_registerAtom_final key v s :
  let r := registerAtom key v s in
  outcome r = Normal (List.length (heap s)) /\
  atoms (final r) = map_set String.eqb key (List.length (heap s)) (atoms s) /\
  heap (final r) =
    heap s ++ [mkAtom v (if isRoot s then [SubBroadcast key] else [])] /\
  isRoot (final r) = isRoot s /\ options (final r) = options s.
Proof.
  intros r. destruct (js_registerAtom_run key v s) as [Ho [n Hf]].
  fold r in Ho, Hf. rewrite Hf. cbn. auto.
Qed.

(** A message for a key is handled by the atom the map holds for it. *)
Lemma js_handleMessage_sync_run key v ts src s h a :
  map_get String.eqb key (atoms s) = Some h ->
  nth_error (heap s) h = Some a ->
  let r := handleMessage
             {| data := DataMessage (AtomSync key v ts); source := src |} s in
  outcome r = Normal tt /\
  heap (final r) = heap_update h (mkAtom v (subscribers a)) (heap s) /\
  effects r =
    effects (forEach (subscribers a) (fun fn => call_subscriber fn v)
               (with_heap
                  (heap_update h (mkAtom v (subscribers a)) (heap s)) s)) ++
    (if debug (options s) then [ConsoleLog (LogReceived key v)] else []).
Proof.
  intros G Gh r. subst r. rewrite (js_handleMessage_sync_present key v ts src s G).
  destruct (js_atom_set_run h v s Gh) as [Ho [[n Hf] He]].
  unfold bind. rewrite Ho, Hf, He, js_debug_log_run.
  cbn [outcome final effects]. auto.
Qed.

Lemma js_getAtom_run key s :
  getAtom key s =
  match map_get String.eqb key (atoms s) with
  | Some h => mkRun (Normal h) s []
  | None => mkRun (Thrown (AtomNotFound key)) s []
  end.
Proof.
  unfold getAtom. rewrite bind_get.
  destruct (map_get String.eqb key (atoms s)); reflexivity.
Qed.

(** *** The child client *)

Lemma js_heap_update_length h a l :
  List.length (heap_update h a l) = List.length l.
Proof.
  revert h. induction l as [| x l IH]; intros h;
    [destruct h; reflexivity |].
  destruct h; cbn; [reflexivity | rewrite IH; reflexivity].
Qed.

Lemma js_heap_update_twice h a b l :
  heap_update h a (heap_update h b l) = heap_update h a l.
Proof.
  revert h. induction l as [| x l IH]; intros h;
    [destruct h; reflexivity |].
  destruct h; cbn; [reflexivity | rewrite IH; reflexivity].
Qed.

(** No operation of the coordinator takes an atom off the heap. *)
Lemma js_heap_length_step op s :
  List.length (heap s) <= List.length (heap (final (step op s))).
Proof.
  destruct (js_step_parts op s)
    as [_ [_ [_ [_ [[_ [E | [h [a [a' [_ [E _]]]]]]] | [k [v [_ [_ E]]]]]]]]];
    rewrite E.
  - apply Nat.le_refl.
  - rewrite js_heap_update_length. apply Nat.le_refl.
  - rewrite length_app. apply Nat.le_add_r.
Qed.

Lemma js_registerAtom_child key v s :
  isRoot s = false ->
  registerAtom key v s =
  mkRun (Normal (List.length (heap s)))
    (with_atoms (map_set String.eqb key (List.length (heap s)) (atoms s))
       (with_heap (heap s ++ [mkAtom v []]) s))
    (if debug (options s) then [ConsoleLog (LogRegisteredAtom key v)]
     else []).
Proof.
  intros R. unfold registerAtom. rewrite bind_get, !bind_modify, R.
  cbn [when]. rewrite bind_ret. erewrite bind_run by apply js_debug_log_run.
  cbn. destruct (debug (options s)); reflexivity.
Qed.

Lemma js_client_atom_run key c :
  client_atom key c =
  match map_get String.eqb key (record c) with
  | Some h => mkRun (Normal h) c []
  | None => mkRun (Thrown (if inherited_property key then TypeError
                 else ClientAtomNotFound key)) c []
  end.
Proof.
  unfold client_atom. rewrite bind_get.
  destruct (map_get String.eqb key (record c)); [reflexivity |].
  destruct (inherited_property key); reflexivity.
Qed.

Lemma js_getAtomValue_run key c :
  getAtomValue key c =
  match map_get String.eqb key (record c) with
  | Some h =>
      mkRun (Normal (match nth_error (heap (sync c)) h with
                     | Some a => value a
                     | None => VUndefined
                     end)) c []
  | None => mkRun (Thrown (if inherited_property key then TypeError
                 else ClientAtomNotFound key)) c []
  end.
Proof.
  unfold getAtomValue, bind. rewrite js_client_atom_run.
  destruct (map_get String.eqb key (record c)) as [h |]; [| reflexivity].
  cbn [outcome final effects]. unfold on_sync. rewrite js_atom_get_run.
  destruct c; reflexivity.
Qed.

Lemma js_sendToParent_frame key v s :
  outcome (sendToParent key v s) = Normal tt /\
  heap (final (sendToParent key v s)) = heap s /\
  atoms (final (sendToParent key v s)) = atoms s.
Proof.
  destruct (isRoot s) eqn:R.
  - rewrite (js_sendToParent_root key v s R). auto.
  - rewrite (js_sendToParent_child key v s R). auto.
Qed.

Lemma js_updateAtom_run key v c h :
  map_get String.eqb key (record c) = Some h ->
  let s1 := final (atom_set h v (sync c)) in
  updateAtom key v c =
  mkRun (Normal tt) (mkClient (final (sendToParent key v s1)) (record c))
        (effects (atom_set h v (sync c)) ++
         effects (sendToParent key v s1)).
Proof.
  intros G s1. unfold updateAtom. unfold bind at 1.
  rewrite js_client_atom_run, G. cbn [outcome final effects app].
  unfold bind, on_sync. cbn [outcome final effects sync record].
  rewrite js_atom_set_returns. cbn [outcome final effects sync record].
  fold s1. destruct (js_sendToParent_frame key v s1) as [Ho _]. rewrite Ho.
  reflexivity.
Qed.

Lemma js_updateAtom_absent key v c :
  map_get String.eqb key (record c) = None ->
  updateAtom key v c = mkRun (Thrown (if inherited_property key then TypeError
                 else ClientAtomNotFound key)) c [].
Proof.
  intros G. unfold updateAtom. unfold bind at 1.
  rewrite js_client_atom_run, G. reflexivity.
Qed.

(** Every operation of the client is a sequence of operations of its
    [sync] instance, and leaves the [atoms] object as it is. *)
Lemma js_client_step_sync op c :
  record (final (client_step op c)) = record c /\
  exists ops, sync (final (client_step op c)) = run ops (sync c) /\
              forall k v, In (RegisterAtom k v) ops ->
                          op = OnSync (RegisterAtom k v).
Proof.
  destruct op as [o | k v | k | k cb]; cbn [client_step].
  - split; [reflexivity |]. exists [o]. split; [reflexivity |].
    intros k v [-> | []]. reflexivity.
  - destruct (map_get String.eqb k (record c)) as [h |] eqn:G.
    + rewrite (js_updateAtom_run k v c G). cbn [final record sync].
      split; [reflexivity |].
      exists [AtomSet h v; SendToParent k v]. split; [reflexivity |].
      intros k' v' [H | [H | []]]; discriminate.
    + rewrite (js_updateAtom_absent k v c G). split; [reflexivity |].
      exists []. split; [reflexivity | intros k' v' []].
  - unfold bind. rewrite js_getAtomValue_run.
    destruct (map_get String.eqb k (record c)); cbn;
      (split; [reflexivity |
               exists []; split; [reflexivity | intros k' v' []]]).
  - unfold subscribeToAtom, bind. rewrite js_client_atom_run.
    destruct (map_get String.eqb k (record c)) as [h |];
      cbn [outcome final effects].
    + unfold on_sync. cbn [final record sync]. split; [reflexivity |].
      exists [AtomSubscribe h cb]. split; [reflexivity |].
      intros k' v' [H | []]. discriminate.
    + split; [reflexivity |]. exists [].
      split; [reflexivity | intros k' v' []].
Qed.

Lemma js_aligned_sync_step key o c :
  (forall v, o <> RegisterAtom key v) ->
  aligned key c -> aligned key (mkClient (final (step o (sync c))) (record c)).
Proof.
  intros N A h G. cbn [record sync] in *. destruct (A h G) as [Ga L].
  split.
  - destruct (js_step_parts o (sync c))
      as [_ [_ [_ [_ [[E _] | [k [v [Eo [E _]]]]]]]]]; rewrite E.
    + assumption.
    + rewrite get_set_other; [assumption |].
      intros ->. apply (N v). exact Eo.
  - eapply Nat.lt_le_trans; [exact L | apply js_heap_length_step].
Qed.

Lemma js_aligned_sync_run key ops c :
  (forall v, ~ In (RegisterAtom key v) ops) ->
  aligned key c -> aligned key (mkClient (run ops (sync c)) (record c)).
Proof.
  revert c. induction ops as [| o ops IH]; intros c N A.
  - destruct c. exact A.
  - cbn [run fold_left]. fold (run ops (final (step o (sync c)))).
    apply (IH (mkClient (final (step o (sync c))) (record c))).
    + intros v H. apply (N v). right. assumption.
    + apply js_aligned_sync_step; [| assumption].
      intros v ->. apply (N v). left. reflexivity.
Qed.

Lemma js_aligned_step key op c :
  registers key op = false ->
  aligned key c -> aligned key (final (client_step op c)).
Proof.
  intros R A. destruct (js_client_step_sync op c) as [Er [ops [Es Hr]]].
  assert (A' : aligned key (mkClient (run ops (sync c)) (record c))).
  { apply js_aligned_sync_run; [| assumption].
    intros v H. specialize (Hr key v H). subst op. cbn in R.
    rewrite String.eqb_refl in R. discriminate. }
  intros h G. rewrite Er in G. rewrite Es. apply (A' h G).
Qed.

Lemma js_aligned_run key ops c :
  Forall (fun op => registers key op = false) ops ->
  aligned key c -> aligned key (client_run ops c).
Proof.
  revert c. induction ops as [| op ops IH]; intros c F A; [assumption |].
  inversion F as [| ? ? R F']; subst. cbn [client_run fold_left].
  fold (client_run ops (final (client_step op c))).
  apply IH; [assumption |]. apply js_aligned_step; assumption.
Qed.

Lemma js_record_run ops c : record (client_run ops c) = record c.
Proof.
  revert c. induction ops as [| op ops IH]; intros c; [reflexivity |].
  cbn [client_run fold_left].
  fold (client_run ops (final (client_step op c))). rewrite IH.
  apply js_client_step_sync.
Qed.

(** *** Making the client *)


(** One round of the loop of [createChildClient]. *)
Lemma js_config_run config c :
  (h <- on_sync (registerAtom (cfg_key config) (initial config)) ;;
   modify (fun c0 =>
     mkClient (sync c0)
              (map_set String.eqb (cfg_key config) h (record c0)))) c =
  mkRun (Normal tt)
    (mkClient (final (registerAtom (cfg_key config) (initial config)
                        (sync c)))
              (map_set String.eqb (cfg_key config)
                       (List.length (heap (sync c))) (record c)))
    (effects (registerAtom (cfg_key config) (initial config) (sync c))).
Proof.
  destruct (js_registerAtom_final (cfg_key config) (initial config) (sync c))
    as [Ho _].
  unfold bind, on_sync. cbn [outcome]. rewrite Ho.
  cbn [outcome final effects modify sync record]. rewrite app_nil_r.
  reflexivity.
Qed.

(** The loop: it returns, it keeps what the coordinator is, it posts only
    what the registrations broadcast, and the atom it has put under a key
    stays there while the later rounds are for other keys. *)
Lemma js_configs_run (l : list ChildAtomConfig) c :
  let r := forEach l (fun config =>
             h <- on_sync (registerAtom (cfg_key config) (initial config)) ;;
             modify (fun c0 =>
               mkClient (sync c0)
                        (map_set String.eqb (cfg_key config) h (record c0))))
             c in
  outcome r = Normal tt /\
  isRoot (sync (final r)) = isRoot (sync c) /\
  options (sync (final r)) = options (sync c) /\
  iframes (sync (final r)) = iframes (sync c) /\
  now (sync (final r)) = now (sync c) /\
  List.length (heap (sync c)) <= List.length (heap (sync (final r))) /\
  (isRoot (sync c) = false -> ticks (sync (final r)) = ticks (sync c)) /\
  (forall e, In e (effects r) ->
     is_post e = true -> iframes (sync c) <> []) /\
  (forall key h a,
     (forall config, In config l -> cfg_key config <> key) ->
     map_get String.eqb key (record c) = Some h ->
     nth_error (heap (sync c)) h = Some a ->
     map_get String.eqb key (atoms (sync c)) = Some h ->
     map_get String.eqb key (record (final r)) = Some h /\
     nth_error (heap (sync (final r))) h = Some a /\
     map_get String.eqb key (atoms (sync (final r))) = Some h).
Proof.
  revert c. induction l as [| config l IH]; intros c r.
  - subst r. cbn. repeat split; auto.
  - subst r. cbn [forEach]. erewrite bind_run by apply js_config_run.
    set (c1 := mkClient _ _).
    destruct (js_registerAtom_run (cfg_key config) (initial config) (sync c))
      as [_ [n Hf]].
    destruct (js_registerAtom_final (cfg_key config) (initial config) (sync c))
      as [_ [Ea [Eh [Er Eo]]]].
    destruct (IH c1) as [Ho [Hr [Hop [Hi [Hn [Hl [Ht [He Hk]]]]]]]].
    unfold prepend. cbn [outcome final effects].
    assert (Ei : iframes (sync c1) = iframes (sync c))
      by (subst c1; cbn [sync]; rewrite Hf; reflexivity).
    assert (En : now (sync c1) = now (sync c))
      by (subst c1; cbn [sync]; rewrite Hf; reflexivity).
    assert (Er1 : isRoot (sync c1) = isRoot (sync c)) by exact Er.
    assert (Eo1 : options (sync c1) = options (sync c)) by exact Eo.
    assert (El : List.length (heap (sync c)) < List.length (heap (sync c1))).
    { subst c1. cbn [sync]. rewrite Eh, length_app. cbn. lia. }
    split; [assumption |].
    split; [congruence |]. split; [congruence |]. split; [congruence |].
    split; [congruence |]. split; [lia |]. split; [| split].
    + intros R. rewrite Ht by congruence. subst c1. cbn [sync].
      rewrite (js_registerAtom_child _ _ _ R). reflexivity.
    + intros e H P. apply in_app_or in H. destruct H as [H | H].
      * rewrite js_registerAtom_effects in H. intros Z. rewrite Z in H.
        destruct (isRoot (sync c)); cbn in H;
          destruct (debug (options (sync c))); cbn in H;
          repeat (destruct H as [<- | H]; [discriminate |]); destruct H.
      * rewrite <- Ei. apply (He e H P).
    + intros key h a N G Gh Ga.
      assert (Nk : cfg_key config <> key)
        by (apply N; left; reflexivity).
      apply Hk.
      * intros config' H'. apply N. right. assumption.
      * subst c1. cbn [record]. rewrite get_set_other by assumption.
        assumption.
      * subst c1. cbn [sync]. rewrite Eh. rewrite nth_error_app1; [assumption |].
        apply nth_error_Some. rewrite Gh. discriminate.
      * subst c1. cbn [sync]. rewrite Ea.
        rewrite get_set_other by assumption. assumption.
Qed.

Lemma js_requestStateFromParent_frame s :
  outcome (requestStateFromParent s) = Normal tt /\
  heap (final (requestStateFromParent s)) = heap s /\
  atoms (final (requestStateFromParent s)) = atoms s.
Proof.
  destruct (isRoot s) eqn:R.
  - rewrite (js_requestStateFromParent_root s R). auto.
  - rewrite (js_requestStateFromParent_child s R). auto.
Qed.

Lemma js_createChildClient_run cfgs opts isTop dom clock :
  let r0 := constructor opts isTop dom clock in
  let loop :=
    forEach cfgs (fun config =>
      h <- on_sync (registerAtom (cfg_key config) (initial config)) ;;
      modify (fun c0 =>
        mkClient (sync c0)
                 (map_set String.eqb (cfg_key config) h (record c0))))
      (mkClient (final r0) []) in
  let req := requestStateFromParent (sync (final loop)) in
  createChildClient cfgs opts isTop dom clock =
  mkRun (Normal tt) (mkClient (final req) (record (final loop)))
        (effects r0 ++ effects loop ++ effects req).
Proof.
  intros r0 loop req. unfold createChildClient. fold r0.
  change (forEach cfgs _ (mkClient (final r0) [])) with loop.
  unfold bind.
  change (forEach cfgs _ (mkClient (final r0) [])) with loop.
  destruct (js_configs_run cfgs (mkClient (final r0) [])) as [Ho _].
  fold loop in Ho. rewrite Ho. cbn [outcome final effects].
  unfold on_sync. fold req.
  destruct (js_requestStateFromParent_frame (sync (final loop))) as [Hq _].
  fold req in Hq. rewrite Hq. reflexivity.
Qed.

Lemma js_constructor_run opts isTop dom clock :
  constructor opts isTop dom clock =
  mkRun (Normal tt)
    (mkState [] [] []
       {| targetOrigin :=
            match opt_targetOrigin opts with Some t => t | None => "*" end;
          debug :=
            match opt_debug opts with Some d => d | None => true end |}
       isTop dom [] clock 0)
    (if match opt_debug opts with Some d => d | None => true end
     then [ConsoleLog (LogInitialized isTop)] else []).
Proof. unfold constructor. rewrite js_debug_log_run. reflexivity. Qed.

(** The last configuration of a key decides which atom the client holds
    for it. *)
Lemma js_configs_last cfgs1 config cfgs2 c :
  (forall c', In c' cfgs2 -> cfg_key c' <> cfg_key config) ->
  let r := forEach (cfgs1 ++ config :: cfgs2) (fun config =>
             h <- on_sync (registerAtom (cfg_key config) (initial config)) ;;
             modify (fun c0 =>
               mkClient (sync c0)
                        (map_set String.eqb (cfg_key config) h (record c0))))
             c in
  exists h,
    map_get String.eqb (cfg_key config) (record (final r)) = Some h /\
    nth_error (heap (sync (final r))) h =
      Some (mkAtom (initial config)
              (if isRoot (sync c) then [SubBroadcast (cfg_key config)]
               else [])) /\
    map_get String.eqb (cfg_key config) (atoms (sync (final r))) = Some h.
Proof.
  intros N r. subst r.
  destruct (js_configs_run cfgs1 c) as [Ho1 [Hr1 _]].
  rewrite forEach_app, Ho1. unfold prepend. cbn [final].
  set (c1 := final (forEach cfgs1 _ c)) in *.
  cbn [forEach]. erewrite bind_run by apply js_config_run.
  unfold prepend. cbn [final].
  set (c2 := mkClient _ _).
  destruct (js_registerAtom_final (cfg_key config) (initial config) (sync c1))
    as [_ [Ea [Eh [Er _]]]].
  destruct (js_configs_run cfgs2 c2) as [_ [_ [_ [_ [_ [_ [_ [_ Hk]]]]]]]].
  exists (List.length (heap (sync c1))).
  rewrite <- Hr1. apply Hk.
  - assumption.
  - subst c2. cbn [record]. apply get_set_same.
  - subst c2. cbn [sync]. rewrite Eh. apply js_nth_error_last.
  - subst c2. cbn [sync]. rewrite Ea. apply get_set_same.
Qed.


Lemma js_notify_invokes subs v s cb :
  In (SubUser cb) subs ->
  In (Invoke cb v)
     (effects (forEach subs (fun fn => call_subscriber fn v) s)).
Proof.
  intros Hin.
  destruct (@forEach_exists State Subscriber
              (fun s' => exists n, s' = with_ticks n s)
              (fun e => e = Invoke cb v)
              (fun fn => call_subscriber fn v) subs (SubUser cb) Hin)
    with (s := s) as [e [He ->]].
  - intros y s' _ Hs'. destruct (js_call_subscriber_run y v Hs') as [Ho [Hf _]].
    split; assumption.
  - intros s' _. exists (Invoke cb v). split; [left |]; reflexivity.
  - exists (ticks s). symmetry. apply js_with_ticks_same.
  - assumption.
Qed.

(** A second [subscribe] of the same function leaves the atom as it is. *)
Lemma js_atom_subscribe_again h cb s :
  let s1 := final (atom_subscribe h (SubUser cb) s) in
  heap (final (atom_subscribe h (SubUser cb) s1)) = heap s1 /\
  forall a, nth_error (heap s) h = Some a ->
    effects (atom_subscribe h (SubUser cb) s1) = [Invoke cb (value a)].
Proof.
  intros s1. subst s1.
  destruct (nth_error (heap s) h) as [a |] eqn:G.
  - destruct (js_atom_subscribe_run h (SubUser cb) s G) as [_ [[n Hf] _]].
    rewrite Hf. set (a1 := mkAtom _ _) in *.
    assert (G1 : nth_error (heap (with_ticks n (with_heap
                   (heap_update h a1 (heap s)) s))) h = Some a1)
      by (cbn; apply (js_heap_update_same _ _ _ G)).
    destruct (js_atom_subscribe_run h (SubUser cb) _ G1) as [_ [[n' Hf'] He]].
    rewrite Hf', He. cbn [heap with_ticks with_heap].
    split.
    + rewrite js_heap_update_twice. f_equal. subst a1. cbn [value subscribers].
      f_equal. apply (set_add_present subscriber_eqb subscriber_eqb_spec).
      apply In_sub_add. right. reflexivity.
    + intros a' E. injection E as <-. reflexivity.
  - rewrite (js_atom_subscribe_absent h (SubUser cb) s G). cbn [final].
    rewrite (js_atom_subscribe_absent h (SubUser cb) s G). cbn [final].
    split; [reflexivity | intros a E; discriminate].
Qed.

Lemma js_atom_unsubscribe_not_subscribed h cb s :
  not_subscribed h cb (final (atom_unsubscribe h (SubUser cb) s)).
Proof.
  rewrite js_atom_unsubscribe_run. cbn [final]. intros a' G'.
  destruct (nth_error (heap s) h) as [a |] eqn:G.
  - cbn in G'. rewrite (js_heap_update_same _ _ _ G) in G'.
    injection G' as <-. cbn. intros H. apply In_sub_delete in H.
    destruct H as [_ H]. apply H. reflexivity.
  - rewrite G in G'. discriminate.
Qed.

(** *** The target origin of every message *)

Ltac within_side :=
  cbn [options with_heap with_atoms with_iframes with_loadListeners
       with_contentWindow with_ticks carries] in *;
  try assumption; try reflexivity; try congruence.

Ltac within_go :=
  repeat first
    [ apply within_bind_get
    | apply within_bind_modify
    | apply within_ret
    | apply within_throw
    | apply within_modify
    | apply within_emit
    | match goal with
      | |- within _ _ (when _ _ _) => apply within_when; [| intros _]
      | |- within _ _ (forEach _ _ _) =>
          apply within_forEach; [intros ? ? _ ? |]
      | |- within _ _ (bind _ _ _) => apply within_bind; [| intros ? ?]
      | |- within _ _ (match ?x with _ => _ end _) => destruct x
      end
    | progress within_side ].

Section Origin.
Variable o : Options.
Let I := fun s : State => options s = o.
Let E := carries (targetOrigin o).

Lemma js_Date_now_origin s : I s -> within I E (Date_now s).
Proof. intros H. split; [exact H | intros e []]. Qed.

Lemma js_debug_log_origin line s : I s -> within I E (debug_log line s).
Proof. intros H. unfold debug_log. within_go. Qed.

Lemma js_debug_warn_origin line s : I s -> within I E (debug_warn line s).
Proof. intros H. unfold debug_warn. within_go. Qed.

Lemma js_post_to_iframe_origin f m s :
  I s -> within I E (post_to_iframe f m s).
Proof. intros H. unfold post_to_iframe. within_go. Qed.

Lemma js_broadcastToIframes_origin key v s :
  I s -> within I E (broadcastToIframes key v s).
Proof.
  intros H. unfold broadcastToIframes.
  apply within_bind; [apply js_Date_now_origin, H | intros ts H1].
  apply within_bind_get.
  apply within_bind; [| intros _ H2; apply js_debug_log_origin, H2].
  apply within_forEach; [| exact H1].
  intros f s' _ H'. apply js_post_to_iframe_origin, H'.
Qed.

Lemma js_call_subscriber_origin sub v s :
  I s -> within I E (call_subscriber sub v s).
Proof.
  intros H. destruct sub as [k | cb]; cbn [call_subscriber].
  - apply js_broadcastToIframes_origin, H.
  - within_go.
Qed.

Lemma js_atom_get_origin h s : I s -> within I E (atom_get h s).
Proof. intros H. unfold atom_get. within_go. Qed.

Lemma js_atom_set_origin h v s : I s -> within I E (atom_set h v s).
Proof.
  intros H. unfold atom_set. apply within_bind_get.
  destruct (nth_error (heap s) h) as [a |]; [| within_go].
  apply within_bind_modify. apply within_forEach; [| exact H].
  intros sub s' _ H'. apply js_call_subscriber_origin, H'.
Qed.

Lemma js_atom_subscribe_origin h sub s :
  I s -> within I E (atom_subscribe h sub s).
Proof.
  intros H. unfold atom_subscribe. apply within_bind_get.
  destruct (nth_error (heap s) h) as [a |]; [| within_go].
  apply within_bind_modify. apply js_call_subscriber_origin. exact H.
Qed.

Lemma js_registerAtom_origin key v s :
  I s -> within I E (registerAtom key v s).
Proof.
  intros H. unfold registerAtom. apply within_bind_get.
  apply within_bind_modify, within_bind_modify.
  apply within_bind.
  - apply within_when; [exact H | intros _].
    apply js_atom_subscribe_origin. exact H.
  - intros _ H1.
    apply within_bind; [apply js_debug_log_origin, H1 | intros _ H2].
    apply within_ret. exact H2.
Qed.

Lemma js_syncToIframe_origin f s : I s -> within I E (syncToIframe f s).
Proof.
  intros H. unfold syncToIframe. apply within_bind_get.
  apply within_bind; [| intros _ H1; apply js_debug_log_origin, H1].
  apply within_forEach; [| exact H].
  intros entry s' _ H'. apply within_bind_get.
  destruct (contentWindow s' f) as [w |]; [| within_go].
  apply within_bind; [apply js_atom_get_origin, H' | intros v H1].
  apply within_bind; [apply js_Date_now_origin, H1 | intros ts H2].
  apply within_emit; [exact H2 |]. unfold E. cbn. rewrite H'.
  reflexivity.
Qed.

Lemma js_handleMessage_origin ev s : I s -> within I E (handleMessage ev s).
Proof.
  intros H. unfold handleMessage.
  destruct (data ev) as [[key v ts | ts] | |]; [| | within_go | within_go].
  - apply within_bind_get.
    destruct (map_get String.eqb key (atoms s)); [| within_go].
    apply within_bind; [apply js_atom_set_origin, H |].
    intros _ H1. apply js_debug_log_origin, H1.
  - apply within_bind_get. destruct (isRoot s); [| within_go].
    apply within_bind; [apply js_debug_log_origin, H | intros _ H1].
    apply within_forEach; [| exact H1].
    intros entry s' _ H'. destruct (source ev) as [w |]; [| within_go].
    apply within_bind; [apply js_atom_get_origin, H' | intros v H2].
    apply within_bind; [apply js_Date_now_origin, H2 | intros t H3].
    apply within_emit; [exact H3 |]. unfold E. cbn. rewrite H.
    reflexivity.
Qed.

Lemma js_requestStateFromParent_origin s :
  I s -> within I E (requestStateFromParent s).
Proof.
  intros H. unfold requestStateFromParent. apply within_bind_get.
  destruct (isRoot s); [apply js_debug_warn_origin, H |].
  apply within_bind; [apply js_Date_now_origin, H | intros ts H1].
  apply within_bind; [| intros _ H2; apply js_debug_log_origin, H2].
  apply within_emit; [exact H1 |]. unfold E. cbn. rewrite H. reflexivity.
Qed.

Lemma js_sendToParent_origin key v s :
  I s -> within I E (sendToParent key v s).
Proof.
  intros H. unfold sendToParent. apply within_bind_get.
  destruct (isRoot s); [apply js_debug_warn_origin, H |].
  apply within_bind; [apply js_Date_now_origin, H | intros ts H1].
  apply within_bind; [| intros _ H2; apply js_debug_log_origin, H2].
  apply within_emit; [exact H1 |]. unfold E. cbn. rewrite H. reflexivity.
Qed.

Lemma js_fire_load_origin f s : I s -> within I E (fire_load f s).
Proof.
  intros H. unfold fire_load. apply within_bind_get.
  apply within_forEach; [| exact H].
  intros x s' _ H'. apply js_syncToIframe_origin, H'.
Qed.

Lemma js_step_origin op s : I s -> within I E (step op s).
Proof.
  intros H.
  destruct op as [k v | k | h | h v | h cb | h cb | f | | k v | ev | f
                  | f w]; cbn [step].
  - apply within_bind; [apply js_registerAtom_origin, H |].
    intros; apply within_ret; assumption.
  - apply within_bind; [| intros; apply within_ret; assumption].
    unfold getAtom. within_go.
  - apply within_bind; [apply js_atom_get_origin, H |].
    intros; apply within_ret; assumption.
  - apply js_atom_set_origin, H.
  - apply js_atom_subscribe_origin, H.
  - unfold atom_unsubscribe. within_go.
  - unfold registerIframe. apply within_bind_modify, within_bind_modify.
    apply js_debug_log_origin. exact H.
  - apply js_requestStateFromParent_origin, H.
  - apply js_sendToParent_origin, H.
  - apply js_handleMessage_origin, H.
  - apply js_fire_load_origin, H.
  - apply within_modify. exact H.
Qed.

Lemma js_trace_origin ops s e :
  I s -> In e (trace ops s) -> E e.
Proof.
  revert s. induction ops as [| op ops IH]; intros s H Hin;
    [destruct Hin |].
  destruct (js_step_origin op H) as [H1 He].
  cbn [trace] in Hin. apply in_app_or in Hin. destruct Hin as [Hin | Hin].
  - apply He, Hin.
  - apply (IH _ H1 Hin).
Qed.
End Origin.

(** *** A coordinator that is not the root *)

Lemma js_atom_set_quiet h v s e :
  unwired s -> In e (effects (atom_set h v s)) -> is_post e = false.
Proof.
  intros W H. destruct (nth_error (heap s) h) as [a |] eqn:Gh.
  - destruct (js_atom_set_run h v s Gh) as [_ [_ He]]. rewrite He in H.
    eapply js_notify_users; [apply (W h a Gh) | exact H].
  - rewrite (js_atom_set_absent h v s Gh) in H. destruct H.
Qed.

Lemma js_handleMessage_silent ev s e :
  isRoot s = false -> unwired s ->
  In e (effects (handleMessage ev s)) -> is_post e = false.
Proof.
  intros R W H. destruct ev as [[[k v ts | ts] | |] src].
  - destruct (map_get String.eqb k (atoms s)) as [h |] eqn:G.
    + rewrite (js_handleMessage_sync_present k v ts src s G) in H.
      unfold bind in H. rewrite js_atom_set_returns, js_debug_log_run in H.
      cbn [effects] in H. apply in_app_or in H. destruct H as [H | H].
      * apply (@js_atom_set_quiet h v s e W H).
      * destruct (debug (options (final (atom_set h v s)))); [| destruct H].
        destruct H as [<- | []]. reflexivity.
    + rewrite (js_handleMessage_sync_absent k v ts src s G) in H. destruct H.
  - unfold handleMessage in H. cbn [data] in H. rewrite bind_get, R in H.
    destruct H.
  - destruct H.
  - destruct H.
Qed.
End JSFacts.

(** ** The svelte child client *)
Module SvelteChildFacts.
Import SvelteChild.

Lemma sc_log_run line s :
  log line s =
  mkRun (Normal tt) s (if debug s then [ConsoleLog line] else []).
Proof. unfold log. rewrite bind_get. destruct (debug s); reflexivity. Qed.

Lemma sc_getValue_run key s :
  getValue key s = mkRun (Normal (current key s)) s [].
Proof.
  unfold getValue, current. rewrite bind_get.
  destruct (map_get String.eqb key (state s)); reflexivity.
Qed.

Lemma sc_map_set_set (V : Type) k (v1 v2 : V) m :
  map_set String.eqb k v2 (map_set String.eqb k v1 m) =
  map_set String.eqb k v2 m.
Proof.
  induction m as [| [k' v'] m IH]; cbn.
  - rewrite String.eqb_refl. reflexivity.
  - destruct (String.eqb_spec k k') as [E | N]; cbn.
    + rewrite String.eqb_refl. reflexivity.
    + destruct (String.eqb_spec k k'); [contradiction |]. rewrite IH.
      reflexivity.
Qed.

Lemma sc_subscribe_run key cb s :
  subscribe key cb s =
  mkRun (Normal tt)
    (with_subscribers
       (map_set String.eqb key
          (set_add Nat.eqb cb
             (match map_get String.eqb key (subscribers s) with
              | Some subs => subs
              | None => []
              end))
          (subscribers s)) s)
    ((if debug s then [ConsoleLog (LogSubscribed key)] else []) ++
     (if is_defined (current key s) then [Invoke cb (current key s)]
      else [])).
Proof.
  unfold subscribe, map_has. rewrite bind_get.
  destruct (map_get String.eqb key (subscribers s)) as [subs |] eqn:G;
    cbn [negb when].
  - rewrite bind_ret, bind_modify, G.
    erewrite bind_run by apply sc_log_run.
    erewrite bind_run by apply sc_getValue_run.
    unfold prepend. cbn [outcome final effects app].
    change (current key (with_subscribers _ s)) with (current key s).
    destruct (is_defined (current key s)); reflexivity.
  - rewrite !bind_modify. cbn [subscribers with_subscribers].
    rewrite get_set_same.
    erewrite bind_run by apply sc_log_run.
    erewrite bind_run by apply sc_getValue_run.
    unfold prepend. cbn [outcome final effects app].
    unfold with_subscribers at 1. cbn. rewrite sc_map_set_set.
    change (current key _) with (current key s).
    destruct (is_defined (current key s)); reflexivity.
Qed.

Lemma sc_unsubscribe_run key cb s :
  unsubscribe key cb s =
  mkRun (Normal tt)
    (match map_get String.eqb key (subscribers s) with
     | Some subs =>
         if Nat.eqb (List.length (set_delete Nat.eqb cb subs)) 0 then
           with_subscribers (map_delete String.eqb key (subscribers s)) s
         else
           with_subscribers
             (map_set String.eqb key (set_delete Nat.eqb cb subs)
                      (subscribers s)) s
     | None => s
     end)
    (if debug s then [ConsoleLog (LogUnsubscribed key)] else []).
Proof.
  unfold unsubscribe. rewrite bind_get.
  destruct (map_get String.eqb key (subscribers s)) as [subs |].
  - destruct (Nat.eqb (List.length (set_delete Nat.eqb cb subs)) 0);
      rewrite bind_modify, sc_log_run; reflexivity.
  - rewrite bind_ret, sc_log_run. reflexivity.
Qed.

Lemma sc_invoke_loop_run (subs : list Callback) v (s : State) :
  forEach subs (fun callback => emit (Invoke callback v)) s =
  mkRun (Normal tt) s (map (fun cb => Invoke cb v) subs).
Proof.
  induction subs as [| cb subs IH]; [reflexivity |].
  cbn [forEach map]. rewrite bind_emit, IH. reflexivity.
Qed.

Lemma sc_handleMessage_sync key v ts src s :
  listening s = true ->
  handleMessage
    {| data := DataMessage (AtomSync key v ts); source := src |} s =
  mkRun (Normal tt)
    (with_state (map_set String.eqb key v (state s)) s)
    ((if debug s then [ConsoleLog (LogReceived key v)] else []) ++
     match map_get String.eqb key (subscribers s) with
     | Some subs => map (fun cb => Invoke cb v) subs
     | None => []
     end).
Proof.
  intros L. unfold handleMessage. rewrite bind_get, L. cbn [data].
  erewrite bind_run by apply sc_log_run. rewrite bind_modify, bind_get.
  cbn [subscribers with_state].
  destruct (map_get String.eqb key (subscribers s)) as [subs |].
  - rewrite sc_invoke_loop_run. reflexivity.
  - reflexivity.
Qed.

Lemma sc_handleMessage_detached ev s :
  listening s = false -> handleMessage ev s = mkRun (Normal tt) s [].
Proof. intros L. unfold handleMessage. rewrite bind_get, L. reflexivity. Qed.

Lemma sc_setValue_run key v s :
  setValue key v s =
  mkRun (Normal tt)
    (with_ticks (S (ticks s))
       (with_state (map_set String.eqb key v (state s)) s))
    (PostMessage ToParent (AtomSync key v (now s (ticks s))) (targetOrigin s)
     :: (if debug s then [ConsoleLog (LogSent key v)] else [])).
Proof.
  unfold setValue. rewrite bind_modify.
  erewrite bind_run by reflexivity. rewrite bind_get, bind_emit, sc_log_run.
  reflexivity.
Qed.

Lemma sc_destroy_run s :
  destroy s =
  mkRun (Normal tt)
    (with_subscribers [] (with_state [] (with_listening false s)))
    (if debug s then [ConsoleLog LogDestroyed] else []).
Proof. unfold destroy. rewrite !bind_modify, sc_log_run. reflexivity. Qed.

(** *** What one operation can do to the subscriber sets *)

Lemma sc_step_subscribers op s :
  let m := subscribers s in
  let m' := subscribers (final (step op s)) in
  m' = m \/ m' = [] \/
  (exists k cb subs, op = Subscribe k cb /\
     m' = map_set String.eqb k (set_add Nat.eqb cb subs) m /\
     (map_get String.eqb k m = Some subs \/
      map_get String.eqb k m = None /\ subs = [])) \/
  (exists k cb subs, map_get String.eqb k m = Some subs /\
     (m' = map_delete String.eqb k m \/
      m' = map_set String.eqb k (set_delete Nat.eqb cb subs) m)).
Proof.
  destruct op as [k | k v | k cb | k cb | | | ev]; cbn [step].
  - unfold bind. rewrite sc_getValue_run. cbn. auto.
  - rewrite sc_setValue_run. cbn. auto.
  - rewrite sc_subscribe_run. cbn [final subscribers with_subscribers].
    right. right. left.
    destruct (map_get String.eqb k (subscribers s)) as [subs |] eqn:G.
    + exists k, cb, subs. auto.
    + exists k, cb, []. auto.
  - rewrite sc_unsubscribe_run. cbn [final].
    destruct (map_get String.eqb k (subscribers s)) as [subs |] eqn:G;
      [| auto].
    right. right. right. exists k, cb, subs. split; [assumption |].
    destruct (Nat.eqb (List.length (set_delete Nat.eqb cb subs)) 0); cbn; auto.
  - unfold requestSync. erewrite bind_run by reflexivity.
    rewrite bind_get, bind_emit, sc_log_run. cbn. auto.
  - rewrite sc_destroy_run. cbn. auto.
  - destruct (listening s) eqn:L.
    + destruct ev as [[[k v ts | ts] | |] src].
      * rewrite (sc_handleMessage_sync k v ts src s L). cbn. auto.
      * unfold handleMessage. rewrite bind_get, L. cbn. auto.
      * unfold handleMessage. rewrite bind_get, L. cbn. auto.
      * unfold handleMessage. rewrite bind_get, L. cbn. auto.
    + rewrite (sc_handleMessage_detached ev s L). auto.
Qed.

Lemma sc_not_subscribed_step key cb op s :
  op <> Subscribe key cb ->
  not_subscribed key cb s -> not_subscribed key cb (final (step op s)).
Proof.
  intros N W subs' G.
  destruct (sc_step_subscribers op s)
    as [E | [E | [[k [cb' [subs [Eo [E Hs]]]]] |
        [k [cb' [subs [Gk [E | E]]]]]]]]; rewrite E in G.
  - apply (W subs' G).
  - discriminate.
  - destruct (String.eqb_spec k key) as [-> | Nk].
    + rewrite get_set_same in G. injection G as <-. intros H.
      apply In_nat_add in H. destruct H as [H | ->].
      * destruct Hs as [Gk | [_ ->]]; [apply (W subs Gk H) | destruct H].
      * apply N. exact Eo.
    + rewrite get_set_other in G by assumption. apply (W subs' G).
  - destruct (String.eqb_spec k key) as [-> | Nk].
    + rewrite (map_get_delete_same String.eqb String.eqb_spec) in G.
      discriminate.
    + rewrite (map_get_delete_other String.eqb String.eqb_spec) in G
        by assumption.
      apply (W subs' G).
  - destruct (String.eqb_spec k key) as [-> | Nk].
    + rewrite get_set_same in G. injection G as <-. intros H.
      apply In_nat_delete in H. destruct H as [H _]. apply (W subs Gk H).
    + rewrite get_set_other in G by assumption. apply (W subs' G).
Qed.

Lemma sc_not_subscribed_run key cb ops s :
  Forall (fun op => op <> Subscribe key cb) ops ->
  not_subscribed key cb s -> not_subscribed key cb (run ops s).
Proof.
  revert s. induction ops as [| op ops IH]; intros s F W; [assumption |].
  inversion F as [| ? ? N F']; subst. cbn [run fold_left].
  apply IH; [assumption |]. apply sc_not_subscribed_step; assumption.
Qed.

Lemma sc_unsubscribe_not_subscribed key cb s :
  not_subscribed key cb (final (unsubscribe key cb s)).
Proof.
  rewrite sc_unsubscribe_run. cbn [final]. intros subs' G.
  destruct (map_get String.eqb key (subscribers s)) as [subs |] eqn:G0.
  - destruct (Nat.eqb (List.length (set_delete Nat.eqb cb subs)) 0);
      cbn in G.
    + rewrite (map_get_delete_same String.eqb String.eqb_spec) in G.
      discriminate.
    + rewrite get_set_same in G. injection G as <-. intros H.
      apply In_nat_delete in H. destruct H as [_ H]. apply H. reflexivity.
  - rewrite G0 in G. discriminate.
Qed.

(** *** [subscribe] and the function it returns *)


Lemma sc_unsubscribe_twice key cb s ops :
  Forall (fun op => op <> Subscribe key cb) ops ->
  let s1 := final (unsubscribe key cb s) in
  let s2 := run ops s1 in
  returns (unsubscribe key cb s) /\
  returns (unsubscribe key cb s2) /\
  invocations cb (effects (unsubscribe key cb s2)) = [] /\
  (forall v ts src,
     invocations cb
       (effects (handleMessage
                   {| data := DataMessage (AtomSync key v ts);
                      source := src |} s2)) = []) /\
  (forall v, invocations cb (effects (setValue key v s2)) = []).
Proof.
  intros F s1 s2.
  assert (W : not_subscribed key cb s2).
  { subst s2 s1. apply sc_not_subscribed_run; [assumption |].
    apply sc_unsubscribe_not_subscribed. }
  split; [| split; [| split; [| split]]].
  - rewrite sc_unsubscribe_run. exists tt. reflexivity.
  - rewrite sc_unsubscribe_run. exists tt. reflexivity.
  - rewrite sc_unsubscribe_run. cbn [effects]. destruct (debug s2); reflexivity.
  - intros v ts src. destruct (listening s2) eqn:L.
    + rewrite (sc_handleMessage_sync key v ts src s2 L). cbn [effects].
      apply invocations_nil. intros v' Hin. apply in_app_or in Hin.
      destruct Hin as [Hin | Hin].
      * destruct (debug s2); [| destruct Hin].
        destruct Hin as [Hin | []]. discriminate.
      * destruct (map_get String.eqb key (subscribers s2)) as [subs |] eqn:G;
          [| destruct Hin].
        apply in_map_iff in Hin. destruct Hin as [cb' [E Hin]].
        injection E as -> _. apply (W subs G Hin).
    + rewrite (sc_handleMessage_detached _ s2 L). reflexivity.
  - intros v. rewrite sc_setValue_run. cbn [effects invocations].
    destruct (debug s2); reflexivity.
Qed.

(** *** One operation at a time *)

Lemma sc_requestSync_run s :
  requestSync s =
  mkRun (Normal tt) (with_ticks (S (ticks s)) s)
    (PostMessage ToParent (AtomSyncRequest (now s (ticks s))) (targetOrigin s)
     :: (if debug s then [ConsoleLog LogRequested] else [])).
Proof.
  unfold requestSync. erewrite bind_run by reflexivity.
  rewrite bind_get, bind_emit, sc_log_run. reflexivity.
Qed.

Lemma sc_handleMessage_other ev s :
  (forall k v ts, data ev <> DataMessage (AtomSync k v ts)) ->
  final (handleMessage ev s) = s /\ effects (handleMessage ev s) = [].
Proof.
  intros N. unfold handleMessage. rewrite bind_get.
  destruct (listening s); [| split; reflexivity].
  destruct ev as [[[k v ts | ts] | |] src]; cbn [data] in *;
    try (split; reflexivity).
  exfalso. apply (N k v ts). reflexivity.
Qed.

Lemma sc_handleMessage_other_final ev s :
  (forall k v ts, data ev <> DataMessage (AtomSync k v ts)) ->
  final (handleMessage ev s) = s.
Proof. intros N. apply sc_handleMessage_other, N. Qed.

Lemma sc_handleMessage_other_effects ev s :
  (forall k v ts, data ev <> DataMessage (AtomSync k v ts)) ->
  effects (handleMessage ev s) = [].
Proof. intros N. apply sc_handleMessage_other, N. Qed.

Lemma sc_run_app ops1 ops2 s : run (ops1 ++ ops2) s = run ops2 (run ops1 s).
Proof. unfold run. apply fold_left_app. Qed.

Lemma sc_trace_app ops1 ops2 s :
  trace (ops1 ++ ops2) s = trace ops1 s ++ trace ops2 (run ops1 s).
Proof.
  revert s. induction ops1 as [| op ops1 IH]; intros s; [reflexivity |].
  cbn [trace app]. rewrite IH, app_assoc. reflexivity.
Qed.

(** *** What stays as it is *)

Lemma sc_step_current key op s :
  writes key op = false ->
  current key (final (step op s)) = current key s.
Proof.
  destruct op as [k | k v | k cb | k cb | | | ev]; cbn [step writes]; intros W.
  - unfold bind. rewrite sc_getValue_run. reflexivity.
  - rewrite sc_setValue_run. cbn [final]. unfold current. cbn.
    rewrite get_set_other; [reflexivity |].
    intros ->. rewrite String.eqb_refl in W. discriminate.
  - rewrite sc_subscribe_run. reflexivity.
  - rewrite sc_unsubscribe_run. cbn [final].
    destruct (map_get String.eqb k (subscribers s)); [| reflexivity].
    destruct (Nat.eqb _ 0); reflexivity.
  - rewrite sc_requestSync_run. reflexivity.
  - discriminate.
  - destruct (listening s) eqn:L;
      [| rewrite (sc_handleMessage_detached ev s L); reflexivity].
    destruct ev as [[[k v ts | ts] | |] src]; cbn [data] in W.
    + rewrite (sc_handleMessage_sync k v ts src s L). cbn [final].
      unfold current. cbn. rewrite get_set_other; [reflexivity |].
      intros ->. rewrite String.eqb_refl in W. discriminate.
    + rewrite sc_handleMessage_other_final; [reflexivity |].
      intros; discriminate.
    + rewrite sc_handleMessage_other_final; [reflexivity |].
      intros; discriminate.
    + rewrite sc_handleMessage_other_final; [reflexivity |].
      intros; discriminate.
Qed.

Lemma sc_run_current key ops s :
  Forall (fun op => writes key op = false) ops ->
  current key (run ops s) = current key s.
Proof.
  revert s. induction ops as [| op ops IH]; intros s F; [reflexivity |].
  inversion F as [| ? ? W F']; subst. cbn [run fold_left].
  fold (run ops (final (step op s))). rewrite IH by assumption.
  apply sc_step_current. assumption.
Qed.

(** [destroy] detaches the listener, and nothing attaches it again. *)
Lemma sc_step_listening op s :
  listening s = false -> listening (final (step op s)) = false.
Proof.
  intros L.
  destruct op as [k | k v | k cb | k cb | | | ev]; cbn [step].
  - unfold bind. rewrite sc_getValue_run. assumption.
  - rewrite sc_setValue_run. assumption.
  - rewrite sc_subscribe_run. assumption.
  - rewrite sc_unsubscribe_run. cbn [final].
    destruct (map_get String.eqb k (subscribers s)); [| assumption].
    destruct (Nat.eqb _ 0); assumption.
  - rewrite sc_requestSync_run. assumption.
  - rewrite sc_destroy_run. reflexivity.
  - rewrite (sc_handleMessage_detached ev s L). assumption.
Qed.

Lemma sc_run_listening ops s :
  listening s = false -> listening (run ops s) = false.
Proof.
  revert s. induction ops as [| op ops IH]; intros s L; [assumption |].
  cbn [run fold_left]. fold (run ops (final (step op s))).
  apply IH, sc_step_listening, L.
Qed.

(** The two options are fixed when the client is made. *)
Lemma sc_step_options op s :
  targetOrigin (final (step op s)) = targetOrigin s /\
  debug (final (step op s)) = debug s.
Proof.
  destruct op as [k | k v | k cb | k cb | | | ev]; cbn [step].
  - unfold bind. rewrite sc_getValue_run. split; reflexivity.
  - rewrite sc_setValue_run. split; reflexivity.
  - rewrite sc_subscribe_run. split; reflexivity.
  - rewrite sc_unsubscribe_run. cbn [final].
    destruct (map_get String.eqb k (subscribers s)); [| split; reflexivity].
    destruct (Nat.eqb _ 0); split; reflexivity.
  - rewrite sc_requestSync_run. split; reflexivity.
  - rewrite sc_destroy_run. split; reflexivity.
  - destruct (listening s) eqn:L;
      [| rewrite (sc_handleMessage_detached ev s L); split; reflexivity].
    destruct ev as [[[k v ts | ts] | |] src].
    + rewrite (sc_handleMessage_sync k v ts src s L). split; reflexivity.
    + rewrite sc_handleMessage_other_final; [split; reflexivity |].
      intros; discriminate.
    + rewrite sc_handleMessage_other_final; [split; reflexivity |].
      intros; discriminate.
    + rewrite sc_handleMessage_other_final; [split; reflexivity |].
      intros; discriminate.
Qed.

Lemma sc_run_options ops s :
  targetOrigin (run ops s) = targetOrigin s /\ debug (run ops s) = debug s.
Proof.
  revert s. induction ops as [| op ops IH]; intros s; [split; reflexivity |].
  cbn [run fold_left]. fold (run ops (final (step op s))).
  destruct (IH (final (step op s))) as [E1 E2].
  destruct (sc_step_options op s) as [E3 E4].
  split; congruence.
Qed.

(** Every message goes to the parent window, with the client's origin. *)
Lemma sc_step_posts op s t m o :
  In (PostMessage t m o) (effects (step op s)) ->
  t = ToParent /\ o = targetOrigin s.
Proof.
  destruct op as [k | k v | k cb | k cb | | | ev]; cbn [step].
  - unfold bind. rewrite sc_getValue_run. intros [].
  - rewrite sc_setValue_run. cbn [effects]. intros [E | H].
    + injection E as <- _ <-. split; reflexivity.
    + destruct (debug s); [destruct H as [H | []] |]; [discriminate | destruct H].
  - rewrite sc_subscribe_run. cbn [effects]. intros H.
    apply in_app_or in H. destruct H as [H | H].
    + destruct (debug s); [destruct H as [H | []] |]; [discriminate | destruct H].
    + destruct (is_defined _); [destruct H as [H | []] |];
        [discriminate | destruct H].
  - rewrite sc_unsubscribe_run. cbn [effects]. intros H.
    destruct (debug s); [destruct H as [H | []] |]; [discriminate | destruct H].
  - rewrite sc_requestSync_run. cbn [effects]. intros [E | H].
    + injection E as <- _ <-. split; reflexivity.
    + destruct (debug s); [destruct H as [H | []] |]; [discriminate | destruct H].
  - rewrite sc_destroy_run. cbn [effects]. intros H.
    destruct (debug s); [destruct H as [H | []] |]; [discriminate | destruct H].
  - destruct (listening s) eqn:L;
      [| rewrite (sc_handleMessage_detached ev s L); intros []].
    destruct ev as [[[k v ts | ts] | |] src].
    + rewrite (sc_handleMessage_sync k v ts src s L). cbn [effects]. intros H.
      apply in_app_or in H. destruct H as [H | H].
      * destruct (debug s); [destruct H as [H | []] |];
          [discriminate | destruct H].
      * destruct (map_get String.eqb k (subscribers s)); [| destruct H].
        apply in_map_iff in H. destruct H as [cb [E _]]. discriminate.
    + rewrite sc_handleMessage_other_effects; [intros [] |].
      intros; discriminate.
    + rewrite sc_handleMessage_other_effects; [intros [] |].
      intros; discriminate.
    + rewrite sc_handleMessage_other_effects; [intros [] |].
      intros; discriminate.
Qed.

Lemma sc_trace_posts ops s t m o :
  In (PostMessage t m o) (trace ops s) ->
  t = ToParent /\ o = targetOrigin s.
Proof.
  revert s. induction ops as [| op ops IH]; intros s; [intros [] |].
  cbn [trace]. intros H. apply in_app_or in H. destruct H as [H | H].
  - eapply sc_step_posts; eassumption.
  - destruct (IH _ H) as [E1 E2]. split; [assumption |].
    rewrite E2. apply sc_step_options.
Qed.

(** *** The subscriber sets of a client *)

Lemma sc_sets_ok_step op s : sets_ok s -> sets_ok (final (step op s)).
Proof.
  intros W k' subs' G.
  destruct (sc_step_subscribers op s)
    as [E | [E | [[k [cb [subs [_ [E Hs]]]]] |
        [k [cb [subs [Gk [E | E]]]]]]]]; rewrite E in G.
  - apply (W k' subs' G).
  - discriminate.
  - destruct (String.eqb_spec k k') as [-> | Nk].
    + rewrite get_set_same in G. injection G as <-.
      apply NoDup_set_add; [apply Nat.eqb_spec |].
      destruct Hs as [Gk | [_ ->]]; [apply (W k' subs Gk) | constructor].
    + rewrite get_set_other in G by assumption. apply (W k' subs' G).
  - destruct (String.eqb_spec k k') as [-> | Nk].
    + rewrite (map_get_delete_same String.eqb String.eqb_spec) in G.
      discriminate.
    + rewrite (map_get_delete_other String.eqb String.eqb_spec) in G
        by assumption.
      apply (W k' subs' G).
  - destruct (String.eqb_spec k k') as [-> | Nk].
    + rewrite get_set_same in G. injection G as <-.
      apply NoDup_set_delete, (W k' subs Gk).
    + rewrite get_set_other in G by assumption. apply (W k' subs' G).
Qed.

Lemma sc_sets_ok_run ops s : sets_ok s -> sets_ok (run ops s).
Proof.
  revert s. induction ops as [| op ops IH]; intros s W; [assumption |].
  cbn [run fold_left]. fold (run ops (final (step op s))).
  apply IH, sc_sets_ok_step, W.
Qed.

Lemma sc_reachable_sets_ok s : reachable s -> sets_ok s.
Proof.
  intros [opts [clock [ops ->]]]. apply sc_sets_ok_run.
  unfold createChildClient. rewrite sc_requestSync_run. intros k subs G.
  discriminate.
Qed.

(** A message for [key] is handed to every callback subscribed to the key,
    once, and to no other. *)
Lemma sc_message_invocations key v ts src s cb :
  sets_ok s -> listening s = true ->
  invocations cb
    (effects (handleMessage
                {| data := DataMessage (AtomSync key v ts); source := src |}
                s)) =
  if subscribed key cb s then [v] else [].
Proof.
  intros W L. rewrite (sc_handleMessage_sync key v ts src s L). cbn [effects].
  rewrite invocations_app, invocations_console. cbn [app].
  unfold subscribed.
  destruct (map_get String.eqb key (subscribers s)) as [subs |] eqn:G;
    [| reflexivity].
  apply invocations_map_once, (W key subs G).
Qed.

Lemma sc_subscribed_unsubscribe key cb key' cb' s :
  key' <> key \/ cb' <> cb ->
  subscribed key' cb' (final (unsubscribe key cb s)) = subscribed key' cb' s.
Proof.
  intros N. rewrite sc_unsubscribe_run. cbn [final]. unfold subscribed.
  destruct (map_get String.eqb key (subscribers s)) as [subs |] eqn:G;
    [| reflexivity].
  destruct (String.eqb_spec key key') as [<- | Nk].
  - destruct N as [N | N]; [contradiction |].
    assert (E : set_has Nat.eqb cb' (set_delete Nat.eqb cb subs) =
                set_has Nat.eqb cb' subs).
    { destruct (set_has Nat.eqb cb' subs) eqn:H.
      - apply (set_has_true Nat.eqb Nat.eqb_spec).
        apply (set_has_true Nat.eqb Nat.eqb_spec) in H.
        apply In_nat_delete. split; assumption.
      - apply (set_has_false Nat.eqb Nat.eqb_spec).
        apply (set_has_false Nat.eqb Nat.eqb_spec) in H.
        intros H'. apply In_nat_delete in H'. apply H, H'. }
    destruct (Nat.eqb (List.length (set_delete Nat.eqb cb subs)) 0) eqn:Z;
      cbn [subscribers with_subscribers].
    + rewrite (map_get_delete_same String.eqb String.eqb_spec), G.
      rewrite <- E. apply Nat.eqb_eq in Z.
      destruct (set_delete Nat.eqb cb subs); [reflexivity | discriminate].
    + rewrite get_set_same, G. exact E.
  - destruct (Nat.eqb (List.length (set_delete Nat.eqb cb subs)) 0);
      cbn [subscribers with_subscribers].
    + rewrite (map_get_delete_other String.eqb String.eqb_spec)
        by assumption. reflexivity.
    + rewrite get_set_other by assumption. reflexivity.
Qed.

Lemma sc_invocations_unsubscribe key cb key' cb' v ts src s :
  key' <> key \/ cb' <> cb ->
  let ev := {| data := DataMessage (AtomSync key' v ts); source := src |} in
  invocations cb' (effects (handleMessage ev (final (unsubscribe key cb s))))
  = invocations cb' (effects (handleMessage ev s)).
Proof.
  intros N ev. subst ev. rewrite sc_unsubscribe_run. cbn [final].
  destruct (map_get String.eqb key (subscribers s)) as [subs |] eqn:G;
    [| reflexivity].
  assert (F : forall l, invocations cb'
                (map (fun c => Invoke c v) (set_delete Nat.eqb cb l)) =
              invocations cb' (map (fun c => Invoke c v) l) \/ cb' = cb).
  { intros l. destruct (Nat.eqb_spec cb' cb) as [-> | Nc]; [auto | left].
    induction l as [| c l IH]; [reflexivity |]. cbn [set_delete filter].
    destruct (Nat.eqb_spec cb c) as [<- | Nc']; cbn [negb map invocations].
    - fold (set_delete Nat.eqb cb l). rewrite IH.
      destruct (Nat.eqb_spec cb' cb); [contradiction | reflexivity].
    - fold (set_delete Nat.eqb cb l). rewrite IH. reflexivity. }
  destruct (listening s) eqn:L.
  - destruct (Nat.eqb (List.length (set_delete Nat.eqb cb subs)) 0) eqn:Z.
    + rewrite !sc_handleMessage_sync by assumption. cbn [effects].
      rewrite !invocations_app. f_equal. cbn [subscribers with_subscribers].
      destruct (String.eqb_spec key key') as [<- | Nk].
      * rewrite (map_get_delete_same String.eqb String.eqb_spec), G.
        destruct N as [N | N]; [contradiction |].
        destruct (F subs) as [<- | ->]; [| contradiction].
        apply Nat.eqb_eq in Z.
        destruct (set_delete Nat.eqb cb subs); [reflexivity | discriminate].
      * rewrite (map_get_delete_other String.eqb String.eqb_spec)
          by assumption. reflexivity.
    + rewrite !sc_handleMessage_sync by assumption. cbn [effects].
      rewrite !invocations_app. f_equal. cbn [subscribers with_subscribers].
      destruct (String.eqb_spec key key') as [<- | Nk].
      * rewrite get_set_same, G. destruct N as [N | N]; [contradiction |].
        destruct (F subs) as [E | ->]; [exact E | contradiction].
      * rewrite get_set_other by assumption. reflexivity.
  - destruct (Nat.eqb (List.length (set_delete Nat.eqb cb subs)) 0);
      rewrite !sc_handleMessage_detached by assumption; reflexivity.
Qed.

(** A second [subscribe] of the same callback changes nothing. *)
Lemma sc_subscribe_again key cb s :
  let s1 := final (subscribe key cb s) in
  subscribers (final (subscribe key cb s1)) = subscribers s1 /\
  state (final (subscribe key cb s1)) = state s1.
Proof.
  intros s1. subst s1. rewrite !sc_subscribe_run.
  cbn [final subscribers with_subscribers state].
  rewrite get_set_same, sc_map_set_set. split; [| reflexivity].
  f_equal. apply (set_add_present Nat.eqb Nat.eqb_spec).
  apply In_nat_add. right. reflexivity.
Qed.

(** *** Messages handled in order *)

Lemma sc_handled_run m src s :
  listening s = true ->
  let r := handleMessage {| data := DataMessage m; source := src |} s in
  outcome r = Normal tt /\ listening (final r) = true /\
  forall key,
    map_get String.eqb key (state (final r)) =
    match payload m with
    | Some (k, v) =>
        if String.eqb k key then Some v
        else map_get String.eqb key (state s)
    | None => map_get String.eqb key (state s)
    end.
Proof.
  intros L r. subst r. destruct m as [k v ts | ts].
  - rewrite (sc_handleMessage_sync k v ts src s L).
    cbn [outcome final listening with_state state payload].
    split; [reflexivity | split; [exact L |]]. intros key.
    destruct (String.eqb_spec k key) as [-> | N].
    + apply get_set_same.
    + apply get_set_other. assumption.
  - unfold handleMessage. rewrite bind_get, L. cbn.
    split; [reflexivity | split; [exact L | reflexivity]].
Qed.

Lemma sc_deliver_cons m msgs src s :
  listening s = true ->
  deliver (m :: msgs) src s =
  prepend
    (effects (handleMessage {| data := DataMessage m; source := src |} s))
    (deliver msgs src
       (final (handleMessage {| data := DataMessage m; source := src |} s))).
Proof.
  intros L. unfold deliver. cbn [forEach]. unfold bind.
  destruct (sc_handled_run m src s L) as [Ho _]. rewrite Ho. reflexivity.
Qed.

Lemma sc_deliver_run msgs src s :
  listening s = true ->
  outcome (deliver msgs src s) = Normal tt /\
  listening (final (deliver msgs src s)) = true.
Proof.
  revert s. induction msgs as [| m msgs IH]; intros s L;
    [split; [reflexivity | exact L] |].
  rewrite (sc_deliver_cons m msgs src s L). unfold prepend.
  cbn [outcome final].
  destruct (sc_handled_run m src s L) as [_ [L1 _]]. apply IH, L1.
Qed.

Lemma sc_deliver_other msgs src s key :
  listening s = true ->
  (forall m v, In m msgs -> payload m <> Some (key, v)) ->
  map_get String.eqb key (state (final (deliver msgs src s))) =
  map_get String.eqb key (state s).
Proof.
  revert s. induction msgs as [| m msgs IH]; intros s L N; [reflexivity |].
  rewrite (sc_deliver_cons m msgs src s L). unfold prepend. cbn [final].
  destruct (sc_handled_run m src s L) as [_ [L1 G1]].
  rewrite IH; [| exact L1 | intros m' v H; apply N; right; exact H].
  rewrite G1. destruct (payload m) as [[k v] |] eqn:P; [| reflexivity].
  destruct (String.eqb_spec k key) as [-> | Nk]; [| reflexivity].
  exfalso. apply (N m v); [left; reflexivity | exact P].
Qed.

Lemma sc_deliver_app msgs1 msgs2 src s :
  listening s = true ->
  final (deliver (msgs1 ++ msgs2) src s) =
  final (deliver msgs2 src (final (deliver msgs1 src s))).
Proof.
  intros L. unfold deliver. rewrite forEach_app.
  destruct (sc_deliver_run msgs1 src s L) as [Ho _]. unfold deliver in Ho.
  rewrite Ho. reflexivity.
Qed.

(** The last message for a key decides the cached value. *)
Lemma sc_deliver_hit msgs1 m msgs2 src s key v :
  listening s = true ->
  payload m = Some (key, v) ->
  (forall m' v', In m' msgs2 -> payload m' <> Some (key, v')) ->
  map_get String.eqb key
    (state (final (deliver (msgs1 ++ m :: msgs2) src s))) = Some v.
Proof.
  intros L P N. rewrite (sc_deliver_app msgs1 (m :: msgs2) src s L).
  destruct (sc_deliver_run msgs1 src s L) as [_ L1].
  rewrite (sc_deliver_cons m msgs2 src _ L1). unfold prepend. cbn [final].
  destruct (sc_handled_run m src _ L1) as [_ [L2 G2]].
  rewrite sc_deliver_other; [| exact L2 | exact N].
  rewrite G2, P, String.eqb_refl. reflexivity.
Qed.
End SvelteChildFacts.

(** * The claims *)

Import Scenario.

Lemma ts_root_reachable : TS.reachable_root ts_root.
Proof. exists TS.no_options, dom, clock. eexists. reflexivity. Qed.

Lemma svelte_root_reachable : Svelte.reachable svelte_root.
Proof. exists Svelte.no_options, dom, clock. eexists. reflexivity. Qed.


(** C1.  When a root coordinator receives an atom-sync message for a
    registered key, the handler returns, the cell of the key holds the new
    value, every user callback subscribed to the cell in the root is invoked
    with the new value, and an atom-sync message with the key and the new
    value is posted to the content window of every registered iframe (the
    sender's among them).  TypeScript and svelte copies. *)
Theorem child_update_reaches_root_and_siblings :
  (forall s key a v ts src,
     TS.reachable_root s ->
     map_get String.eqb key (TS.atoms s) = Some a ->
     let r := TS.handleMessage
                {| data := DataMessage (AtomSync key v ts); source := src |} s in
     returns r /\
     (exists a', map_get String.eqb key (TS.atoms (final r)) = Some a' /\
                 Vendored.value a' = v) /\
     (forall cb, In (SubUser cb) (Vendored.subscribers a) ->
                 In (Invoke cb v) (effects r)) /\
     (forall f w, In f (TS.iframes s) -> TS.contentWindow s f = Some w ->
        exists ts',
          In (PostMessage (ToIframe f w) (AtomSync key v ts')
                          (TS.targetOrigin (TS.options s)))
             (effects r))) /\
  (forall s key c v ts src,
     Svelte.reachable s ->
     map_get String.eqb key (Svelte.stores s) = Some c ->
     let r := Svelte.handleMessage
                {| data := DataMessage (AtomSync key v ts); source := src |} s in
     returns r /\
     (exists c', map_get String.eqb key (Svelte.stores (final r)) = Some c' /\
                 Vendored.value c' = v) /\
     (forall i cb, In (Svelte.SubWrapper i cb) (Vendored.subscribers c) ->
                   In (Invoke cb v) (effects r)) /\
     (forall f w, In f (Svelte.iframes s) -> Svelte.contentWindow s f = Some w ->
        exists ts',
          In (PostMessage (ToIframe f w) (AtomSync key v ts')
                          (Svelte.targetOrigin s))
             (effects r))).
Proof.
  split.
  - intros s key a v ts src Hr G. apply TSFacts.ts_child_update; assumption.
  - intros s key c v ts src Hr G. apply SvelteFacts.sv_child_update; assumption.
Qed.

Lemma child_update_reaches_root_and_siblings_witness :
  (TS.reachable_root ts_root /\
   map_get String.eqb "theme" (TS.atoms ts_root) = Some ts_theme /\
   In (Invoke 7 (VString "dark"))
      (effects (TS.handleMessage (theme_dark 101) ts_root)) /\
   exists ts',
     In (PostMessage (ToIframe 2 102) (AtomSync "theme" (VString "dark") ts') "*")
        (effects (TS.handleMessage (theme_dark 101) ts_root))) /\
  (Svelte.reachable svelte_root /\
   map_get String.eqb "theme" (Svelte.stores svelte_root) = Some svelte_theme /\
   In (Invoke 7 (VString "dark"))
      (effects (Svelte.handleMessage (theme_dark 101) svelte_root)) /\
   exists ts',
     In (PostMessage (ToIframe 2 102) (AtomSync "theme" (VString "dark") ts') "*")
        (effects (Svelte.handleMessage (theme_dark 101) svelte_root))).
Proof.
  split.
  - assert (G : map_get String.eqb "theme" (TS.atoms ts_root) = Some ts_theme)
      by reflexivity.
    destruct (proj1 child_update_reaches_root_and_siblings
                ts_root "theme" ts_theme (VString "dark") 0%Z (Some 101)
                ts_root_reachable G) as [_ [_ [Hcb Hfr]]].
    split; [exact ts_root_reachable | split; [exact G | split]].
    + apply Hcb. right. left. reflexivity.
    + apply (Hfr 2 102); [right; left; reflexivity | reflexivity].
  - assert (G : map_get String.eqb "theme" (Svelte.stores svelte_root) =
                Some svelte_theme) by reflexivity.
    destruct (proj2 child_update_reaches_root_and_siblings
                svelte_root "theme" svelte_theme (VString "dark") 0%Z
                (Some 101) svelte_root_reachable G) as [_ [_ [Hcb Hfr]]].
    split; [exact svelte_root_reachable | split; [exact G | split]].
    + apply (Hcb 0). right. left. reflexivity.
    + apply (Hfr 2 102); [right; left; reflexivity | reflexivity].
Defined.




(** C3, as the code has it.  Registering under a key that already exists
    leaves the coordinator as it was, so the cell keeps the value of the
    first registration.  The TypeScript coordinator throws the
    already-registered error; the svelte coordinator does not throw: it
    returns, after writing the already-registered line when debugging is
    on. *)
Theorem duplicate_registration_keeps_first_value :
  (forall s key a v,
     map_get String.eqb key (TS.atoms s) = Some a ->
     let r := TS.registerAtom key v s in
     outcome r = Thrown (AlreadyRegistered key) /\
     final r = s /\ effects r = [] /\
     map_get String.eqb key (TS.atoms (final r)) = Some a) /\
  (forall s key c v,
     map_get String.eqb key (Svelte.stores s) = Some c ->
     let r := Svelte.registerAtom key v s in
     outcome r = Normal tt /\
     final r = s /\
     effects r = (if Svelte.debug s
                  then [ConsoleLog (LogAlreadyRegistered key)] else []) /\
     map_get String.eqb key (Svelte.stores (final r)) = Some c).
Proof.
  split.
  - intros s key a v G r. subst r.
    rewrite (TSFacts.ts_registerAtom_present key v s G). cbn. auto.
  - intros s key c v G r. subst r.
    rewrite (SvelteFacts.sv_registerAtom_present key v s G). cbn. auto.
Qed.

Lemma duplicate_registration_keeps_first_value_witness :
  (map_get String.eqb "theme" (TS.atoms ts_root) = Some ts_theme /\
   outcome (TS.registerAtom "theme" (VString "dark") ts_root) =
     Thrown (AlreadyRegistered "theme") /\
   final (TS.registerAtom "theme" (VString "dark") ts_root) = ts_root) /\
  (map_get String.eqb "theme" (Svelte.stores svelte_root) = Some svelte_theme /\
   outcome (Svelte.registerAtom "theme" (VString "dark") svelte_root) =
     Normal tt /\
   final (Svelte.registerAtom "theme" (VString "dark") svelte_root) =
     svelte_root).
Proof.
  split.
  - destruct (proj1 duplicate_registration_keeps_first_value
                ts_root "theme" ts_theme (VString "dark") eq_refl)
      as [H1 [H2 _]].
    split; [reflexivity | split; assumption].
  - destruct (proj2 duplicate_registration_keeps_first_value
                svelte_root "theme" svelte_theme (VString "dark") eq_refl)
      as [H1 [H2 _]].
    split; [reflexivity | split; assumption].
Defined.

(** C3, counterexample.  In the svelte coordinator the second registration
    under key [x] returns normally: nothing is raised. *)
Lemma svelte_duplicate_registration_does_not_raise :
  let s0 := final (Svelte.constructor Svelte.no_options dom clock) in
  let s1 := final (Svelte.registerAtom "x" (VNumber 1) s0) in
  outcome (Svelte.registerAtom "x" (VNumber 2) s1) = Normal tt /\
  ~ raises (Svelte.registerAtom "x" (VNumber 2) s1).
Proof.
  cbv zeta. split; [reflexivity |].
  apply returns_not_raises. exists tt. reflexivity.
Qed.

(** C4, as the code has it.  A root coordinator of the JavaScript or the
    TypeScript copy answers an atom-sync-request by posting to
    [event.source] one atom-sync message per registered cell with its
    current value, whatever the set of registered iframes is; it posts to
    nothing else.  The svelte coordinator looks the requester up among the
    registered iframes, by content window: when it finds one it pushes the
    cells into that iframe, and when it finds none it posts nothing. *)
Theorem sync_request_is_answered :
  (forall s ts w,
     TS.isRoot s = true ->
     let ev := {| data := DataMessage (AtomSyncRequest ts);
                  source := Some w |} in
     let r := TS.handleMessage ev s in
     returns r /\
     map payload (posted_to (ToSource w) (effects r)) = TS.cells s /\
     (forall l, effects (TS.handleMessage ev (TS.with_iframes l s)) =
                effects r) /\
     (forall t m o, In (PostMessage t m o) (effects r) -> t = ToSource w)) /\
  (forall s ts w,
     JS.isRoot s = true ->
     let ev := {| data := DataMessage (AtomSyncRequest ts);
                  source := Some w |} in
     let r := JS.handleMessage ev s in
     returns r /\
     map payload (posted_to (ToSource w) (effects r)) = JS.cells s /\
     (forall l, map payload
                  (posted_to (ToSource w)
                     (effects (JS.handleMessage ev (JS.with_iframes l s)))) =
                JS.cells s) /\
     (forall t m o, In (PostMessage t m o) (effects r) -> t = ToSource w)) /\
  (forall s ts w,
     let r := Svelte.handleMessage
                {| data := DataMessage (AtomSyncRequest ts);
                   source := Some w |} s in
     returns r /\
     (forall f, Svelte.find_iframe s (Some w) = Some f ->
        In f (Svelte.iframes s) /\ Svelte.contentWindow s f = Some w /\
        map payload (posted_to (ToIframe f w) (effects r)) = Svelte.cells s) /\
     ((forall f, In f (Svelte.iframes s) ->
                 Svelte.contentWindow s f <> Some w) ->
      forall e, In e (effects r) -> is_post e = false)).
Proof.
  split; [| split].
  - intros s ts w R. apply TSFacts.ts_request_reply. assumption.
  - intros s ts w R. apply JSFacts.js_request_reply. assumption.
  - intros s ts w r.
    destruct (SvelteFacts.sv_request_reply s ts w) as [H1 [H2 H3]].
    fold r in H1, H2, H3. split; [assumption | split; [assumption |]].
    intros Hn. apply H3. apply SvelteFacts.sv_find_iframe_unregistered.
    assumption.
Qed.

Lemma sync_request_is_answered_witness :
  (TS.isRoot ts_root = true /\
   map payload (posted_to (ToSource 555)
                  (effects (TS.handleMessage (request 555) ts_root))) =
     [Some ("theme", VString "light")]) /\
  (JS.isRoot js_root = true /\
   map payload (posted_to (ToSource 555)
                  (effects (JS.handleMessage (request 555) js_root))) =
     [Some ("theme", VString "light")]) /\
  ((forall f, In f (Svelte.iframes svelte_root) ->
              Svelte.contentWindow svelte_root f <> Some 555) /\
   forall e, In e (effects (Svelte.handleMessage (request 555) svelte_root)) ->
             is_post e = false).
Proof.
  split; [| split].
  - destruct (proj1 sync_request_is_answered ts_root 0%Z 555 eq_refl)
      as [_ [H _]].
    split; [reflexivity |]. exact (eq_trans H eq_refl).
  - destruct (proj1 (proj2 sync_request_is_answered) js_root 0%Z 555 eq_refl)
      as [_ [H _]].
    split; [reflexivity |]. exact (eq_trans H eq_refl).
  - assert (N : forall f, In f (Svelte.iframes svelte_root) ->
                          Svelte.contentWindow svelte_root f <> Some 555).
    { intros f [<- | [<- | []]]; discriminate. }
    destruct (proj2 (proj2 sync_request_is_answered) svelte_root 0%Z 555)
      as [_ [_ H]].
    split; [exact N | exact (H N)].
Defined.

(** C4, counterexample.  The svelte coordinator holds a cell and no
    registered iframe; a request from window 555 is handled without any
    message being posted, so whether a reply is sent does depend on the
    registered-iframe set.  The same coordinator with an iframe of that
    window registered does reply. *)
Lemma svelte_request_from_unregistered_window_unanswered :
  Svelte.cells svelte_alone = [Some ("theme", VString "light")] /\
  effects (Svelte.handleMessage (request 555) svelte_alone) = [] /\
  map payload
      (posted_to (ToIframe 455 555)
         (effects (Svelte.handleMessage (request 555)
                     (final (Svelte.registerIframe 455 svelte_alone))))) =
    [Some ("theme", VString "light")].
Proof. repeat split. Qed.







(** C7, on the JavaScript copy.  Constructed without options, the
    coordinator of the JavaScript copy has debugging on and writes the
    initialisation line to the console. *)
Theorem js_constructor_without_options_logs :
  forall isTop dom clock,
    effects (JS.constructor JS.no_options isTop dom clock) =
      [ConsoleLog (LogInitialized isTop)] /\
    JS.debug (JS.options (final (JS.constructor JS.no_options isTop dom clock)))
      = true /\
    effects (JS.registerAtom "count" (VNumber 0)
               (final (JS.constructor JS.no_options isTop dom clock))) <> [].
Proof.
  intros isTop d c. split; [reflexivity | split; [reflexivity |]].
  destruct isTop; discriminate.
Qed.

(** The TypeScript and svelte coordinators constructed without options write
    nothing to the console, whatever is done with them. *)
Lemma ts_without_options_is_silent isTop d c ops e :
  effects (TS.constructor TS.no_options isTop d c) = [] /\
  (In e (TS.trace ops (final (TS.constructor TS.no_options isTop d c))) ->
   is_console e = false).
Proof.
  split; [reflexivity |]. apply TSFacts.ts_trace_console. reflexivity.
Qed.

Lemma svelte_without_options_is_silent d c ops op e :
  effects (Svelte.constructor Svelte.no_options d c) = [] /\
  (In e (effects (Svelte.step op
                    (Svelte.run ops
                       (final (Svelte.constructor Svelte.no_options d c))))) ->
   is_console e = false).
Proof.
  split; [reflexivity |]. apply SvelteFacts.sv_step_console.
  match goal with |- Svelte.debug (Svelte.run ops ?s0) = false =>
    assert (D : Svelte.debug s0 = false) by reflexivity;
    generalize dependent s0 end.
  induction ops as [| o ops IH]; intros s0 D; [assumption |].
  rewrite SvelteFacts.sv_run_cons. apply IH.
  destruct (SvelteFacts.sv_step_shape o s0) as [_ [E _]]. rewrite E. assumption.
Qed.

(** C8, as the code has it.  On a coordinator whose window is the root,
    [sendToParent] and [requestStateFromParent] return normally, post
    nothing and leave the state as it is; they write the warning to the
    console only when debugging is on.  TypeScript and JavaScript copies. *)
Theorem child_only_call_on_root_is_noop :
  (forall s key v,
     TS.isRoot s = true ->
     outcome (TS.sendToParent key v s) = Normal tt /\
     final (TS.sendToParent key v s) = s /\
     effects (TS.sendToParent key v s) =
       (if TS.debug (TS.options s) then [ConsoleWarn LogCannotSend] else [])) /\
  (forall s,
     TS.isRoot s = true ->
     outcome (TS.requestStateFromParent s) = Normal tt /\
     final (TS.requestStateFromParent s) = s /\
     effects (TS.requestStateFromParent s) =
       (if TS.debug (TS.options s) then [ConsoleWarn LogCannotRequest]
        else [])) /\
  (forall s key v,
     JS.isRoot s = true ->
     outcome (JS.sendToParent key v s) = Normal tt /\
     final (JS.sendToParent key v s) = s /\
     effects (JS.sendToParent key v s) =
       (if JS.debug (JS.options s) then [ConsoleWarn LogCannotSend] else [])).
Proof.
  split; [| split].
  - intros s key v R. rewrite (TSFacts.ts_sendToParent_root key v s R).
    repeat split.
  - intros s R. rewrite (TSFacts.ts_requestStateFromParent_root s R).
    repeat split.
  - intros s key v R. rewrite (JSFacts.js_sendToParent_root key v s R).
    repeat split.
Qed.

Lemma child_only_call_on_root_is_noop_witness :
  (TS.isRoot ts_root = true /\
   final (TS.sendToParent "theme" (VString "dark") ts_root) = ts_root) /\
  (TS.isRoot ts_root = true /\
   final (TS.requestStateFromParent ts_root) = ts_root) /\
  (JS.isRoot js_root = true /\
   effects (JS.sendToParent "theme" (VString "dark") js_root) =
     [ConsoleWarn LogCannotSend]).
Proof.
  split; [| split].
  - split; [reflexivity |].
    exact (proj1 (proj2 (proj1 child_only_call_on_root_is_noop
                           ts_root "theme" (VString "dark") eq_refl))).
  - split; [reflexivity |].
    exact (proj1 (proj2 (proj1 (proj2 child_only_call_on_root_is_noop)
                           ts_root eq_refl))).
  - split; [reflexivity |].
    exact (proj2 (proj2 (proj2 (proj2 child_only_call_on_root_is_noop)
                           js_root "theme" (VString "dark") eq_refl))).
Defined.

(** C8, counterexample.  The TypeScript coordinator of the root window,
    constructed without options: [sendToParent] and
    [requestStateFromParent] write no warning, and nothing at all. *)
Lemma ts_child_only_call_on_root_is_silent :
  TS.isRoot ts_root = true /\
  effects (TS.sendToParent "theme" (VString "dark") ts_root) = [] /\
  effects (TS.requestStateFromParent ts_root) = [].
Proof. repeat split. Qed.

(** C9.  The function returned by a subscription can be called any number of
    times: it never throws and it invokes nothing.  From its first call on,
    for as long as the same callback is not subscribed to the same cell
    anew, no change of the value of that cell invokes the callback.  Svelte
    child client, atom of the JavaScript copy, TypeScript child client. *)
Theorem unsubscribe_is_idempotent :
  (forall s key cb ops,
     Forall (fun op => op <> SvelteChild.Subscribe key cb) ops ->
     let s1 := final (SvelteChild.unsubscribe key cb s) in
     let s2 := SvelteChild.run ops s1 in
     returns (SvelteChild.unsubscribe key cb s) /\
     returns (SvelteChild.unsubscribe key cb s2) /\
     invocations cb (effects (SvelteChild.unsubscribe key cb s2)) = [] /\
     (forall v ts src,
        invocations cb
          (effects (SvelteChild.handleMessage
                      {| data := DataMessage (AtomSync key v ts);
                         source := src |} s2)) = []) /\
     (forall v, invocations cb (effects (SvelteChild.setValue key v s2)) = [])) /\
  (forall s h cb ops,
     Forall (fun op => op <> JS.AtomSubscribe h cb) ops ->
     let s1 := final (JS.atom_unsubscribe h (SubUser cb) s) in
     let s2 := JS.run ops s1 in
     returns (JS.atom_unsubscribe h (SubUser cb) s) /\
     returns (JS.atom_unsubscribe h (SubUser cb) s2) /\
     effects (JS.atom_unsubscribe h (SubUser cb) s2) = [] /\
     (forall v, invocations cb (effects (JS.atom_set h v s2)) = []) /\
     (forall key, map_get String.eqb key (JS.atoms s2) = Some h ->
        forall v ts src,
          invocations cb
            (effects (JS.handleMessage
                        {| data := DataMessage (AtomSync key v ts);
                           source := src |} s2)) = [])) /\
  (forall c key cb ops,
     Forall (fun op => ~ TS.subscribes key cb op) ops ->
     let c1 := final (TS.unsubscribeFromAtom key cb c) in
     let c2 := TS.client_run ops c1 in
     returns (TS.unsubscribeFromAtom key cb c) /\
     returns (TS.unsubscribeFromAtom key cb c2) /\
     effects (TS.unsubscribeFromAtom key cb c2) = [] /\
     (forall v, invocations cb (effects (TS.updateAtom key v c2)) = []) /\
     (forall v,
        invocations cb (effects (TS.on_sync (TS.atom_set key v) c2)) = []) /\
     (forall v ts src,
        invocations cb
          (effects (TS.on_sync
                      (TS.handleMessage
                         {| data := DataMessage (AtomSync key v ts);
                            source := src |}) c2)) = [])).
Proof.
  split; [| split].
  - intros s key cb ops F. apply SvelteChildFacts.sc_unsubscribe_twice.
    assumption.
  - intros s h cb ops F. apply JSFacts.js_atom_unsubscribe_twice. assumption.
  - intros c key cb ops F. apply TSFacts.ts_client_unsubscribe. assumption.
Qed.

Lemma unsubscribe_is_idempotent_witness :
  (let ops := [SvelteChild.MessageArrives (theme_dark 0);
               SvelteChild.SetValue "theme" (VString "light")] in
   let s := final (SvelteChild.subscribe "theme" 7 svelte_child) in
   let s2 := SvelteChild.run ops (final (SvelteChild.unsubscribe "theme" 7 s)) in
   Forall (fun op => op <> SvelteChild.Subscribe "theme" 7) ops /\
   returns (SvelteChild.unsubscribe "theme" 7 s2) /\
   invocations 7 (effects (SvelteChild.handleMessage (theme_dark 0) s2)) = []) /\
  (let ops := [JS.AtomSet 0 (VString "dark")] in
   let s := final (JS.atom_subscribe 0 (SubUser 7) js_root) in
   let s2 := JS.run ops (final (JS.atom_unsubscribe 0 (SubUser 7) s)) in
   Forall (fun op => op <> JS.AtomSubscribe 0 7) ops /\
   returns (JS.atom_unsubscribe 0 (SubUser 7) s2) /\
   invocations 7 (effects (JS.atom_set 0 (VString "light") s2)) = []) /\
  (let ops := [TS.UpdateAtom "theme" (VString "dark");
               TS.OnSync (TS.MessageArrives (theme_dark 0))] in
   let c := final (TS.subscribeToAtom "theme" 7 ts_child) in
   let c2 := TS.client_run ops (final (TS.unsubscribeFromAtom "theme" 7 c)) in
   Forall (fun op => ~ TS.subscribes "theme" 7 op) ops /\
   returns (TS.unsubscribeFromAtom "theme" 7 c2) /\
   invocations 7 (effects (TS.updateAtom "theme" (VString "light") c2)) = []).
Proof.
  split; [| split]; cbv zeta.
  - assert (F : Forall (fun op => op <> SvelteChild.Subscribe "theme" 7)
                  [SvelteChild.MessageArrives (theme_dark 0);
                   SvelteChild.SetValue "theme" (VString "light")])
      by (repeat constructor; discriminate).
    destruct (proj1 unsubscribe_is_idempotent
                (final (SvelteChild.subscribe "theme" 7 svelte_child))
                "theme" 7 _ F) as [_ [H2 [_ [H4 _]]]].
    split; [exact F | split; [exact H2 | exact (H4 (VString "dark") 0%Z (Some 0))]].
  - assert (F : Forall (fun op => op <> JS.AtomSubscribe 0 7)
                  [JS.AtomSet 0 (VString "dark")])
      by (repeat constructor; discriminate).
    destruct (proj1 (proj2 unsubscribe_is_idempotent)
                (final (JS.atom_subscribe 0 (SubUser 7) js_root)) 0 7 _ F)
      as [_ [H2 [_ [H4 _]]]].
    split; [exact F | split; [exact H2 | exact (H4 (VString "light"))]].
  - assert (F : Forall (fun op => ~ TS.subscribes "theme" 7 op)
                  [TS.UpdateAtom "theme" (VString "dark");
                   TS.OnSync (TS.MessageArrives (theme_dark 0))])
      by (repeat constructor; intros [H | H]; discriminate).
    destruct (proj2 (proj2 unsubscribe_is_idempotent)
                (final (TS.subscribeToAtom "theme" 7 ts_child)) "theme" 7 _ F)
      as [_ [H2 [_ [H4 _]]]].
    split; [exact F | split; [exact H2 | exact (H4 (VString "light"))]].
Defined.

(** C10.  After [registerIframe(f)] and then [unregisterIframe(f)], for as
    long as [f] is not registered again, [f] is not in the broadcast set
    and a change of a cell, made by the root or arriving from a child,
    posts nothing to [f]; the load listener is still attached, and a load
    event on [f] pushes every registered cell with its current value into
    the content window of [f], once per attached listener.  TypeScript and
    svelte copies. *)
Theorem unregistered_iframe_still_synced_on_load :
  (forall s0 f ops1 ops2,
     Forall (fun op => op <> TS.RegisterIframe f) ops2 ->
     let s1 := TS.run ops1 (final (TS.registerIframe f s0)) in
     let s2 := TS.run ops2 (final (TS.unregisterIframe f s1)) in
     ~ In f (TS.iframes s2) /\
     (forall key v e, In e (effects (TS.atom_set key v s2)) ->
                      posts_to_iframe f e = false) /\
     (forall key v ts src e,
        In e (effects (TS.handleMessage
                         {| data := DataMessage (AtomSync key v ts);
                            source := src |} s2)) ->
        posts_to_iframe f e = false) /\
     1 <= count_occ Nat.eq_dec (TS.loadListeners s2) f /\
     forall w, TS.contentWindow s2 f = Some w ->
       returns (TS.fire_load f s2) /\
       map payload (posted_to (ToIframe f w) (effects (TS.fire_load f s2))) =
         List.concat (repeat (TS.cells s2)
                        (count_occ Nat.eq_dec (TS.loadListeners s2) f))) /\
  (forall s0 f ops1 ops2,
     Forall (fun op => op <> Svelte.RegisterIframe f) ops2 ->
     let s1 := Svelte.run ops1 (final (Svelte.registerIframe f s0)) in
     let s2 := Svelte.run ops2 (final (Svelte.unregisterIframe f s1)) in
     ~ In f (Svelte.iframes s2) /\
     (forall key v e, In e (effects (Svelte.setValue key v s2)) ->
                      posts_to_iframe f e = false) /\
     (forall key v ts src e,
        In e (effects (Svelte.handleMessage
                         {| data := DataMessage (AtomSync key v ts);
                            source := src |} s2)) ->
        posts_to_iframe f e = false) /\
     1 <= count_occ Nat.eq_dec (Svelte.loadListeners s2) f /\
     forall w, Svelte.contentWindow s2 f = Some w ->
       returns (Svelte.fire_load f s2) /\
       map payload
           (posted_to (ToIframe f w) (effects (Svelte.fire_load f s2))) =
         List.concat (repeat (Svelte.cells s2)
                        (count_occ Nat.eq_dec (Svelte.loadListeners s2) f))).
Proof.
  split.
  - intros s0 f ops1 ops2 F. apply TSFacts.ts_unregisterIframe_then. assumption.
  - intros s0 f ops1 ops2 F. apply SvelteFacts.sv_unregisterIframe_then.
    assumption.
Qed.

Lemma unregistered_iframe_still_synced_on_load_witness :
  (let ops2 := [TS.AtomSet "theme" (VString "dark")] in
   let s2 := TS.run ops2
               (final (TS.unregisterIframe 3
                         (TS.run [] (final (TS.registerIframe 3 ts_root))))) in
   Forall (fun op => op <> TS.RegisterIframe 3) ops2 /\
   TS.contentWindow s2 3 = Some 103 /\
   ~ In 3 (TS.iframes s2) /\
   map payload (posted_to (ToIframe 3 103) (effects (TS.fire_load 3 s2))) =
     [Some ("theme", VString "dark")]) /\
  (let ops2 := [Svelte.SetValue "theme" (VString "dark")] in
   let s2 := Svelte.run ops2
               (final (Svelte.unregisterIframe 3
                         (Svelte.run []
                            (final (Svelte.registerIframe 3 svelte_root))))) in
   Forall (fun op => op <> Svelte.RegisterIframe 3) ops2 /\
   Svelte.contentWindow s2 3 = Some 103 /\
   ~ In 3 (Svelte.iframes s2) /\
   map payload (posted_to (ToIframe 3 103) (effects (Svelte.fire_load 3 s2))) =
     [Some ("theme", VString "dark")]).
Proof.
  split; cbv zeta.
  - assert (F : Forall (fun op => op <> TS.RegisterIframe 3)
                  [TS.AtomSet "theme" (VString "dark")])
      by (repeat constructor; discriminate).
    destruct (proj1 unregistered_iframe_still_synced_on_load
                ts_root 3 [] _ F) as [H1 [_ [_ [_ H5]]]].
    destruct (H5 103 eq_refl) as [_ H6].
    split; [exact F | split; [reflexivity | split; [exact H1 |]]].
    exact (eq_trans H6 eq_refl).
  - assert (F : Forall (fun op => op <> Svelte.RegisterIframe 3)
                  [Svelte.SetValue "theme" (VString "dark")])
      by (repeat constructor; discriminate).
    destruct (proj2 unregistered_iframe_still_synced_on_load
                svelte_root 3 [] _ F) as [H1 [_ [_ [_ H5]]]].
    destruct (H5 103 eq_refl) as [_ H6].
    split; [exact F | split; [reflexivity | split; [exact H1 |]]].
    exact (eq_trans H6 eq_refl).
Defined.


(** * Further properties of the library *)

(** ** The svelte child client *)

(** X1.  What [setValue(key, v)] of the svelte child client writes is what
    [getValue(key)] returns until the key is written again: subscribing,
    unsubscribing, requesting a sync and any traffic on other keys leave it
    alone.  The call posts exactly one atom-sync message, to the parent
    window, and invokes no subscriber of the client itself.  The same holds
    for a value received from the parent. *)
Theorem svelte_child_cache_keeps_last_write :
  forall s key v ops,
    Forall (fun op => SvelteChild.writes key op = false) ops ->
    (let r := SvelteChild.setValue key v s in
     posted_to ToParent (effects r) =
       [AtomSync key v (SvelteChild.now s (SvelteChild.ticks s))] /\
     (forall cb, invocations cb (effects r) = []) /\
     outcome (SvelteChild.getValue key (SvelteChild.run ops (final r))) =
       Normal v) /\
    (SvelteChild.listening s = true ->
     forall ts src,
       let r := SvelteChild.handleMessage
                  {| data := DataMessage (AtomSync key v ts); source := src |}
                  s in
       outcome (SvelteChild.getValue key (SvelteChild.run ops (final r))) =
         Normal v).
Proof.
  intros s key v ops F. split.
  - cbv zeta. rewrite SvelteChildFacts.sc_setValue_run. cbn [effects final].
    split; [| split].
    + cbn. destruct (SvelteChild.debug s); reflexivity.
    + intros cb. cbn. destruct (SvelteChild.debug s); reflexivity.
    + rewrite SvelteChildFacts.sc_getValue_run. cbn [outcome]. f_equal.
      rewrite SvelteChildFacts.sc_run_current by assumption.
      unfold SvelteChild.current. cbn. rewrite get_set_same. reflexivity.
  - intros L ts src. cbv zeta.
    rewrite (SvelteChildFacts.sc_handleMessage_sync key v ts src s L).
    cbn [final]. rewrite SvelteChildFacts.sc_getValue_run. cbn [outcome]. f_equal.
    rewrite SvelteChildFacts.sc_run_current by assumption.
    unfold SvelteChild.current. cbn. rewrite get_set_same. reflexivity.
Qed.

Lemma svelte_child_cache_keeps_last_write_witness :
  let ops := [SvelteChild.Subscribe "theme" 7;
              SvelteChild.SetValue "count" (VNumber 1);
              SvelteChild.MessageArrives
                {| data := DataMessage (AtomSync "count" (VNumber 2) 0);
                   source := None |};
              SvelteChild.RequestSync;
              SvelteChild.Unsubscribe "theme" 7] in
  Forall (fun op => SvelteChild.writes "theme" op = false) ops /\
  outcome (SvelteChild.getValue "theme"
             (SvelteChild.run ops
                (final (SvelteChild.setValue "theme" (VString "dark")
                          svelte_child)))) = Normal (VString "dark").
Proof.
  cbv zeta.
  assert (F : Forall (fun op => SvelteChild.writes "theme" op = false)
                [SvelteChild.Subscribe "theme" 7;
                 SvelteChild.SetValue "count" (VNumber 1);
                 SvelteChild.MessageArrives
                   {| data := DataMessage (AtomSync "count" (VNumber 2) 0);
                      source := None |};
                 SvelteChild.RequestSync;
                 SvelteChild.Unsubscribe "theme" 7])
    by (repeat constructor).
  split; [exact F |].
  exact (proj2 (proj2 (proj1 (svelte_child_cache_keeps_last_write
                                svelte_child "theme" (VString "dark") F)))).
Defined.

(** X2.  [destroy()] of the svelte child client empties the cache and the
    subscriber sets and detaches the message listener for good: whatever is
    done with the client afterwards, a message that arrives changes nothing,
    invokes nothing and throws nothing, also for callbacks subscribed after
    the call.  The client can still send: [setValue] posts to the parent as
    before. *)
Theorem svelte_child_destroy_detaches_for_good :
  forall s ops ev,
    let s1 := final (SvelteChild.destroy s) in
    let s2 := SvelteChild.run ops s1 in
    returns (SvelteChild.destroy s) /\
    (forall key, SvelteChild.current key s1 = VUndefined) /\
    SvelteChild.subscribers s1 = [] /\
    SvelteChild.handleMessage ev s2 = mkRun (Normal tt) s2 [] /\
    (forall key v,
       posted_to ToParent (effects (SvelteChild.setValue key v s2)) =
         [AtomSync key v (SvelteChild.now s2 (SvelteChild.ticks s2))]).
Proof.
  intros s ops ev s1 s2. subst s2 s1.
  rewrite SvelteChildFacts.sc_destroy_run. cbn [outcome final].
  split; [exists tt; reflexivity | split; [| split; [| split]]].
  - intros key. reflexivity.
  - reflexivity.
  - apply SvelteChildFacts.sc_handleMessage_detached.
    apply SvelteChildFacts.sc_run_listening. reflexivity.
  - intros key v. rewrite SvelteChildFacts.sc_setValue_run. cbn [effects].
    cbn. destruct (SvelteChild.debug _); reflexivity.
Qed.

(** X3.  In a svelte child client that listens, a message for a key is
    stored in the cache and handed to every callback subscribed to that key
    exactly once; a callback that is not subscribed to the key is not
    invoked, and nothing is posted in reply. *)
Theorem svelte_child_message_notifies_each_subscriber_once :
  forall s key v ts src cb,
    SvelteChild.reachable s ->
    SvelteChild.listening s = true ->
    let r := SvelteChild.handleMessage
               {| data := DataMessage (AtomSync key v ts); source := src |} s in
    returns r /\
    SvelteChild.current key (final r) = v /\
    invocations cb (effects r) =
      (if SvelteChild.subscribed key cb s then [v] else []) /\
    (forall t m o, ~ In (PostMessage t m o) (effects r)).
Proof.
  intros s key v ts src cb R L r. subst r.
  split; [| split; [| split]].
  - rewrite (SvelteChildFacts.sc_handleMessage_sync key v ts src s L).
    exists tt. reflexivity.
  - rewrite (SvelteChildFacts.sc_handleMessage_sync key v ts src s L).
    cbn [final]. unfold SvelteChild.current. cbn. rewrite get_set_same.
    reflexivity.
  - apply SvelteChildFacts.sc_message_invocations; [| assumption].
    apply SvelteChildFacts.sc_reachable_sets_ok. assumption.
  - intros t m o H.
    rewrite (SvelteChildFacts.sc_handleMessage_sync key v ts src s L) in H.
    cbn [effects] in H. apply in_app_or in H. destruct H as [H | H].
    + destruct (SvelteChild.debug s); [destruct H as [H | []] |];
        [discriminate | destruct H].
    + destruct (map_get String.eqb key (SvelteChild.subscribers s));
        [| destruct H].
      apply in_map_iff in H. destruct H as [c [E _]]. discriminate.
Qed.

Lemma svelte_child_message_notifies_each_subscriber_once_witness :
  SvelteChild.reachable svelte_child_subscribed /\
  SvelteChild.listening svelte_child_subscribed = true /\
  invocations 7 (effects (SvelteChild.handleMessage (theme_dark 0)
                            svelte_child_subscribed)) = [VString "dark"] /\
  invocations 8 (effects (SvelteChild.handleMessage (theme_dark 0)
                            svelte_child_subscribed)) = [].
Proof.
  assert (R : SvelteChild.reachable svelte_child_subscribed).
  { exists SvelteChild.no_options, clock. eexists. reflexivity. }
  split; [exact R | split; [reflexivity | split]].
  - exact (proj1 (proj2 (proj2
             (svelte_child_message_notifies_each_subscriber_once
                "theme" (VString "dark") 0 (Some 0) 7 R eq_refl)))).
  - exact (proj1 (proj2 (proj2
             (svelte_child_message_notifies_each_subscriber_once
                "theme" (VString "dark") 0 (Some 0) 8 R eq_refl)))).
Defined.

(** X4.  Calling the function returned by [subscribe(key, cb)] of the svelte
    child client takes away that one subscription only: every other callback
    of the key and every callback of another key is subscribed as before and
    is invoked by the next message exactly as it would have been, and the
    cached values are untouched. *)
Theorem svelte_child_unsubscribe_leaves_the_others :
  forall s key cb key' cb',
    key' <> key \/ cb' <> cb ->
    let s1 := final (SvelteChild.unsubscribe key cb s) in
    SvelteChild.subscribed key' cb' s1 = SvelteChild.subscribed key' cb' s /\
    SvelteChild.state s1 = SvelteChild.state s /\
    forall v ts src,
      let ev := {| data := DataMessage (AtomSync key' v ts); source := src |} in
      invocations cb' (effects (SvelteChild.handleMessage ev s1)) =
      invocations cb' (effects (SvelteChild.handleMessage ev s)).
Proof.
  intros s key cb key' cb' N s1. subst s1. split; [| split].
  - apply SvelteChildFacts.sc_subscribed_unsubscribe. assumption.
  - rewrite SvelteChildFacts.sc_unsubscribe_run. cbn [final].
    destruct (map_get String.eqb key (SvelteChild.subscribers s));
      [| reflexivity].
    destruct (Nat.eqb _ 0); reflexivity.
  - intros v ts src. apply SvelteChildFacts.sc_invocations_unsubscribe.
    assumption.
Qed.

Lemma svelte_child_unsubscribe_leaves_the_others_witness :
  let s := final (SvelteChild.subscribe "theme" 8 svelte_child_subscribed) in
  let s1 := final (SvelteChild.unsubscribe "theme" 7 s) in
  ("theme" <> "theme" \/ 8 <> 7) /\
  SvelteChild.subscribed "theme" 8 s1 = true /\
  SvelteChild.subscribed "theme" 7 s1 = false /\
  invocations 8 (effects (SvelteChild.handleMessage (theme_dark 0) s1)) =
    [VString "dark"].
Proof.
  cbv zeta.
  assert (N : "theme" <> "theme" \/ 8 <> 7) by (right; discriminate).
  split; [exact N | split; [| split; [reflexivity |]]].
  - exact (eq_trans
             (proj1 (@svelte_child_unsubscribe_leaves_the_others
                       (final (SvelteChild.subscribe "theme" 8
                                 svelte_child_subscribed))
                       "theme" 7 "theme" 8 N))
             eq_refl).
  - exact (eq_trans
             (proj2 (proj2 (@svelte_child_unsubscribe_leaves_the_others
                              (final (SvelteChild.subscribe "theme" 8
                                        svelte_child_subscribed))
                              "theme" 7 "theme" 8 N))
                    (VString "dark") 0%Z (Some 0))
             eq_refl).
Defined.

(** X5.  Every message the svelte child client ever posts goes to the parent
    window and carries the target origin fixed when the client was made: the
    [targetOrigin] option, or ['*'] when the option is absent or the empty
    string.  Making the client posts one message, the sync request. *)
Theorem svelte_child_posts_to_parent_with_its_origin :
  forall opts clock ops t m o,
    let r0 := SvelteChild.createChildClient opts clock in
    let origin :=
      match SvelteChild.opt_targetOrigin opts with
      | Some x => if String.eqb x EmptyString then "*" else x
      | None => "*"
      end in
    In (PostMessage t m o) (effects r0 ++ SvelteChild.trace ops (final r0)) ->
    t = ToParent /\ o = origin /\
    posted_to ToParent (effects r0) = [AtomSyncRequest (clock 0)].
Proof.
  intros opts clock ops t m o r0 origin H. subst r0 origin.
  unfold SvelteChild.createChildClient in *.
  rewrite SvelteChildFacts.sc_requestSync_run in *. cbn [effects final] in *.
  assert (E : t = ToParent /\
              o = match SvelteChild.opt_targetOrigin opts with
                  | Some x => if String.eqb x EmptyString then "*" else x
                  | None => "*"
                  end).
  { apply in_app_or in H. destruct H as [[E | H] | H].
    - injection E as <- _ <-. split; reflexivity.
    - destruct (match SvelteChild.opt_debug opts with
                | Some d => d | None => false end);
        [destruct H as [H | []] |]; [discriminate | destruct H].
    - apply SvelteChildFacts.sc_trace_posts in H. exact H. }
  destruct E as [E1 E2]. split; [assumption | split; [assumption |]].
  cbn. destruct (match SvelteChild.opt_debug opts with
                 | Some d => d | None => false end); reflexivity.
Qed.

Lemma svelte_child_posts_to_parent_with_its_origin_witness :
  let opts := {| SvelteChild.opt_targetOrigin := Some EmptyString;
                 SvelteChild.opt_debug := Some true |} in
  let r0 := SvelteChild.createChildClient opts clock in
  let m := AtomSync "count" (VNumber 1) 1 in
  In (PostMessage ToParent m "*")
     (effects r0 ++
      SvelteChild.trace [SvelteChild.SetValue "count" (VNumber 1)] (final r0)) /\
  posted_to ToParent (effects r0) = [AtomSyncRequest 0].
Proof.
  cbv zeta.
  assert (H : In (PostMessage ToParent (AtomSync "count" (VNumber 1) 1) "*")
                (effects (SvelteChild.createChildClient
                            {| SvelteChild.opt_targetOrigin := Some EmptyString;
                               SvelteChild.opt_debug := Some true |} clock) ++
                 SvelteChild.trace [SvelteChild.SetValue "count" (VNumber 1)]
                   (final (SvelteChild.createChildClient
                             {| SvelteChild.opt_targetOrigin := Some EmptyString;
                                SvelteChild.opt_debug := Some true |} clock)))).
  { cbn. auto. }
  split; [exact H |].
  exact (proj2 (proj2 (@svelte_child_posts_to_parent_with_its_origin
                         _ _ _ _ _ _ H))).
Defined.

(** ** The coordinator of the JavaScript copy *)

(** X6.  [registerAtom] of the JavaScript copy on a key that already has an
    atom does not throw: it makes a new atom with the new initial value and
    puts it under the key, so [getAtom] returns the new atom from then on.
    The atom of the first registration is cut off: it keeps its value, a
    message for the key updates the new atom only, and no user callback is
    invoked by it, the callbacks subscribed to the first atom included. *)
Theorem js_registerAtom_again_replaces_the_atom :
  forall s key h0 a0 v,
    map_get String.eqb key (JS.atoms s) = Some h0 ->
    nth_error (JS.heap s) h0 = Some a0 ->
    let r := JS.registerAtom key v s in
    let h1 := List.length (JS.heap s) in
    outcome r = Normal h1 /\ h1 <> h0 /\
    outcome (JS.getAtom key (final r)) = Normal h1 /\
    outcome (JS.atom_get h1 (final r)) = Normal v /\
    outcome (JS.atom_get h0 (final r)) = Normal (JS.value a0) /\
    forall v' ts src,
      let r' := JS.handleMessage
                  {| data := DataMessage (AtomSync key v' ts); source := src |}
                  (final r) in
      outcome (JS.atom_get h1 (final r')) = Normal v' /\
      outcome (JS.atom_get h0 (final r')) = Normal (JS.value a0) /\
      forall cb, invocations cb (effects r') = [].
Proof.
  intros s key h0 a0 v G G0 r h1.
  destruct (JSFacts.js_registerAtom_final key v s) as [Ho [Ea [Eh [Er Eo]]]].
  fold r in Ho, Ea, Eh, Er, Eo.
  assert (L : h0 < h1).
  { apply nth_error_Some. rewrite G0. discriminate. }
  assert (G1 : map_get String.eqb key (JS.atoms (final r)) = Some h1).
  { rewrite Ea. apply get_set_same. }
  assert (A1 : nth_error (JS.heap (final r)) h1 =
               Some (JS.mkAtom v (if JS.isRoot s then [SubBroadcast key]
                                  else []))).
  { rewrite Eh. apply JSFacts.js_nth_error_last. }
  assert (A0 : nth_error (JS.heap (final r)) h0 = Some a0).
  { rewrite Eh, nth_error_app1 by exact L. exact G0. }
  split; [exact Ho | split; [lia | split; [| split; [| split]]]].
  - rewrite JSFacts.js_getAtom_run, G1. reflexivity.
  - rewrite JSFacts.js_atom_get_run, A1. reflexivity.
  - rewrite JSFacts.js_atom_get_run, A0. reflexivity.
  - intros v' ts src r'.
    destruct (JSFacts.js_handleMessage_sync_run key v' ts src (final r) G1 A1)
      as [_ [Eh' Ee]].
    fold r' in Eh', Ee. cbn [JS.subscribers] in Eh', Ee.
    split; [| split].
    + rewrite JSFacts.js_atom_get_run, Eh'.
      rewrite (JSFacts.js_heap_update_same _ _ _ A1). reflexivity.
    + rewrite JSFacts.js_atom_get_run, Eh'.
      rewrite JSFacts.js_heap_update_other by lia. rewrite A0. reflexivity.
    + intros cb. rewrite Ee, invocations_app, invocations_console, app_nil_r.
      apply invocations_nil. intros x Hx.
      destruct (JSFacts.js_notify_run
                  (if JS.isRoot s then [SubBroadcast key] else []) v'
                  (JS.with_heap
                     (JS.heap_update h1
                        (JS.mkAtom v' (if JS.isRoot s then [SubBroadcast key]
                                       else []))
                        (JS.heap (final r))) (final r)))
        as [_ [_ He]].
      specialize (He _ Hx). cbn in He. destruct He as [He _].
      destruct (JS.isRoot s); [destruct He as [He | []]; discriminate |
                               destruct He].
Qed.

Lemma js_registerAtom_again_replaces_the_atom_witness :
  let r := JS.registerAtom "theme" (VString "dark") js_root in
  map_get String.eqb "theme" (JS.atoms js_root) = Some 0 /\
  nth_error (JS.heap js_root) 0 = Some js_theme /\
  outcome r = Normal 1 /\
  outcome (JS.atom_get 1 (final r)) = Normal (VString "dark") /\
  outcome (JS.atom_get 0 (final r)) = Normal (VString "light").
Proof.
  cbv zeta.
  assert (G : map_get String.eqb "theme" (JS.atoms js_root) = Some 0)
    by reflexivity.
  assert (G0 : nth_error (JS.heap js_root) 0 = Some js_theme) by reflexivity.
  pose proof (@js_registerAtom_again_replaces_the_atom
                js_root "theme" 0 js_theme (VString "dark") G G0) as H.
  cbv zeta in H. destruct H as [H1 [_ [_ [H4 [H5 _]]]]].
  split; [exact G | split; [exact G0 | split; [| split]]].
  - exact (eq_trans H1 eq_refl).
  - exact (eq_trans H4 eq_refl).
  - exact (eq_trans H5 eq_refl).
Defined.

(** X7.  In a root coordinator of the JavaScript copy an iframe that has
    been registered stays in the broadcast set whatever is done afterwards
    (the copy has no way to take it out), and each change of a cell posts
    exactly one atom-sync message into its content window, with the key of
    the cell, the new value and the clock reading at the start of the call:
    both when the atom is set directly and when an update for the key
    arrives in a message, from whatever window. *)
Theorem js_root_broadcast_reaches_each_iframe_once :
  forall s0 f ops key h w v,
    JS.reachable_root s0 ->
    let s := JS.run ops (final (JS.registerIframe f s0)) in
    map_get String.eqb key (JS.atoms s) = Some h ->
    JS.contentWindow s f = Some w ->
    In f (JS.iframes s) /\
    posted_to (ToIframe f w) (effects (JS.atom_set h v s)) =
      [AtomSync key v (JS.now s (JS.ticks s))] /\
    forall ts src,
      posted_to (ToIframe f w)
        (effects (JS.handleMessage
                    {| data := DataMessage (AtomSync key v ts);
                       source := src |} s)) =
      [AtomSync key v (JS.now s (JS.ticks s))].
Proof.
  intros s0 f ops key h w v R s G Hw.
  assert (Hf : In f (JS.iframes s)).
  { subst s. apply JSFacts.js_iframes_run.
    unfold JS.registerIframe. rewrite !bind_modify, JSFacts.js_debug_log_run.
    cbn. apply In_nat_add. right. reflexivity. }
  assert (W : JS.wired s).
  { destruct (JSFacts.js_reachable_root_wired R) as [R0 W0].
    subst s.
    change (JS.wired (JS.run (JS.RegisterIframe f :: ops) s0)).
    apply JSFacts.js_wired_run; assumption. }
  destruct (@JSFacts.js_atom_set_posted key h v s f w W G Hf Hw) as [Hp _].
  split; [exact Hf | split; [exact Hp |]].
  intros ts src. rewrite (JSFacts.js_handleMessage_sync_present key v ts src s G).
  unfold bind. rewrite JSFacts.js_atom_set_returns, JSFacts.js_debug_log_run.
  cbn [effects]. rewrite posted_to_app, posted_to_console, app_nil_r.
  exact Hp.
Qed.

Lemma js_root_broadcast_reaches_each_iframe_once_witness :
  let s := JS.run [JS.RegisterAtom "count" (VNumber 0); JS.RegisterIframe 2]
                  (final (JS.registerIframe 2 js_root)) in
  JS.reachable_root js_root /\
  map_get String.eqb "theme" (JS.atoms s) = Some 0 /\
  JS.contentWindow s 2 = Some 102 /\
  In 2 (JS.iframes s) /\
  posted_to (ToIframe 2 102)
            (effects (JS.atom_set 0 (VString "dark") s)) =
    [AtomSync "theme" (VString "dark") 2].
Proof.
  cbv zeta.
  assert (R : JS.reachable_root js_root).
  { exists JS.no_options, dom, clock. eexists. reflexivity. }
  pose proof (@js_root_broadcast_reaches_each_iframe_once
                js_root 2
                [JS.RegisterAtom "count" (VNumber 0); JS.RegisterIframe 2]
                "theme" 0 102 (VString "dark") R eq_refl eq_refl) as H.
  cbv zeta in H. destruct H as [H1 [H2 _]].
  split; [exact R | split; [reflexivity | split; [reflexivity |]]].
  split; [exact H1 | exact (eq_trans H2 eq_refl)].
Defined.

(** X8.  [registerAtom] of the JavaScript copy broadcasts at once: in a
    root coordinator the call posts one atom-sync message with the initial
    value into the content window of every registered iframe, because the
    atom calls a new subscriber right away and the coordinator subscribes
    its broadcasting closure.  In a coordinator that is not the root the
    call posts nothing. *)
Theorem js_registerAtom_broadcasts_initial_value :
  (forall s key v f w,
     JS.reachable_root s -> In f (JS.iframes s) ->
     JS.contentWindow s f = Some w ->
     posted_to (ToIframe f w) (effects (JS.registerAtom key v s)) =
       [AtomSync key v (JS.now s (JS.ticks s))]) /\
  (forall s key v e,
     JS.isRoot s = false ->
     In e (effects (JS.registerAtom key v s)) -> is_post e = false).
Proof.
  split.
  - intros s key v f w R Hf Hw.
    destruct (JSFacts.js_reachable_root_wired R) as [R0 [N _]].
    rewrite JSFacts.js_registerAtom_effects, R0.
    rewrite !posted_to_app, !posted_to_console, !app_nil_r.
    rewrite (@JSFacts.js_posted_to_broadcast _ _ f w _ _ N).
    apply (set_has_true Nat.eqb Nat.eqb_spec) in Hf. rewrite Hf, Hw.
    rewrite Nat.eqb_refl. reflexivity.
  - intros s key v e R H. rewrite JSFacts.js_registerAtom_effects, R in H.
    cbn [app] in H. destruct (JS.debug (JS.options s)); [| destruct H].
    destruct H as [<- | []]. reflexivity.
Qed.

Lemma js_registerAtom_broadcasts_initial_value_witness :
  JS.reachable_root js_root /\ In 1 (JS.iframes js_root) /\
  JS.contentWindow js_root 1 = Some 101 /\
  posted_to (ToIframe 1 101)
            (effects (JS.registerAtom "count" (VNumber 5) js_root)) =
    [AtomSync "count" (VNumber 5) 1].
Proof.
  assert (R : JS.reachable_root js_root).
  { exists JS.no_options, dom, clock. eexists. reflexivity. }
  assert (Hf : In 1 (JS.iframes js_root)) by (left; reflexivity).
  split; [exact R | split; [exact Hf | split; [reflexivity |]]].
  exact (eq_trans
           (proj1 js_registerAtom_broadcasts_initial_value
                  js_root "count" (VNumber 5) 1 101 R Hf eq_refl)
           eq_refl).
Defined.

(** ** The child client of the JavaScript copy *)

(** X9.  [createChildClient] of the JavaScript copy never throws, also when
    a key is configured more than once: the last configuration of a key
    wins.  The client then holds for the key the atom its coordinator has
    under it, and [getAtomValue] returns the configured initial value, or
    [null] when that is [undefined].  In a window with a parent the call
    posts exactly one message, the sync request to the parent, stamped with
    the first clock reading; in a top-level window it posts nothing. *)
Theorem js_createChildClient_last_config_wins :
  forall cfgs1 config cfgs2 opts isTop dom clock,
    (forall c, In c cfgs2 -> JS.cfg_key c <> JS.cfg_key config) ->
    let r := JS.createChildClient (cfgs1 ++ config :: cfgs2) opts isTop dom
                                  clock in
    let origin :=
      match JS.opt_targetOrigin opts with Some t => t | None => "*" end in
    outcome r = Normal tt /\
    outcome (JS.getAtomValue (JS.cfg_key config) (final r)) =
      Normal (JS.initial config) /\
    JS.aligned (JS.cfg_key config) (final r) /\
    filter is_post (effects r) =
      (if isTop then []
       else [PostMessage ToParent (AtomSyncRequest (clock 0)) origin]).
Proof.
  intros cfgs1 config cfgs2 opts isTop dom clock N r origin. subst r origin.
  rewrite JSFacts.js_createChildClient_run. cbv zeta.
  set (c0 := JS.mkClient (final (JS.constructor opts isTop dom clock)) []).
  set (loop := forEach (cfgs1 ++ config :: cfgs2) _ c0).
  destruct (JSFacts.js_configs_last cfgs1 config cfgs2 c0 N) as [h [G [Gh Ga]]].
  fold loop in G, Gh, Ga.
  destruct (JSFacts.js_configs_run (cfgs1 ++ config :: cfgs2) c0)
    as [_ [Hr [Hop [Hi [Hn [_ [Ht [He _]]]]]]]].
  fold loop in Hr, Hop, Hi, Hn, Ht, He.
  destruct (JSFacts.js_requestStateFromParent_frame (JS.sync (final loop)))
    as [_ [Qh Qa]].
  cbn [outcome final effects].
  split; [reflexivity | split; [| split]].
  - rewrite JSFacts.js_getAtomValue_run. cbn [JS.record JS.sync].
    rewrite G, Qh, Gh. reflexivity.
  - intros h' G'. cbn [JS.record JS.sync] in *. rewrite G in G'.
    injection G' as <-. rewrite Qa, Qh. split; [assumption |].
    apply nth_error_Some. rewrite Gh. discriminate.
  - rewrite !filter_app.
    assert (E0 : filter is_post
                   (effects (JS.constructor opts isTop dom clock)) = []).
    { rewrite JSFacts.js_constructor_run. cbn [effects].
      destruct (match JS.opt_debug opts with Some d => d | None => true end);
        reflexivity. }
    assert (E1 : filter is_post (effects loop) = []).
    { apply filter_post_none. intros e H.
      destruct (is_post e) eqn:P; [| reflexivity].
      exfalso. apply (He e H P). subst c0. cbn [JS.sync].
      rewrite JSFacts.js_constructor_run. reflexivity. }
    rewrite E0, E1. cbn [app].
    assert (R : JS.isRoot (JS.sync (final loop)) = isTop).
    { rewrite Hr. subst c0. cbn [JS.sync].
      rewrite JSFacts.js_constructor_run. reflexivity. }
    destruct isTop.
    + rewrite (JSFacts.js_requestStateFromParent_root _ R). cbn [effects].
      destruct (JS.debug _); reflexivity.
    + rewrite (JSFacts.js_requestStateFromParent_child _ R). cbn [effects].
      rewrite Hn, Hop, (Ht (eq_trans (eq_sym Hr) R)). subst c0. cbn [JS.sync].
      rewrite JSFacts.js_constructor_run. cbn.
      destruct (match JS.opt_debug opts with Some d => d | None => true end);
        reflexivity.
Qed.

Lemma js_createChildClient_last_config_wins_witness :
  let first := {| JS.cfg_key := "count"; JS.cfg_initialValue := VNumber 1 |} in
  let last := {| JS.cfg_key := "count"; JS.cfg_initialValue := VUndefined |} in
  let other := {| JS.cfg_key := "theme"; JS.cfg_initialValue := VString "x" |} in
  let r := JS.createChildClient ([first] ++ last :: [other]) JS.no_options
                                false dom clock in
  (forall c, In c [other] -> JS.cfg_key c <> JS.cfg_key last) /\
  outcome r = Normal tt /\
  outcome (JS.getAtomValue "count" (final r)) = Normal VNull /\
  filter is_post (effects r) =
    [PostMessage ToParent (AtomSyncRequest 0) "*"].
Proof.
  cbv zeta.
  assert (N : forall c,
             In c [{| JS.cfg_key := "theme";
                      JS.cfg_initialValue := VString "x" |}] ->
             JS.cfg_key c <>
             JS.cfg_key {| JS.cfg_key := "count";
                           JS.cfg_initialValue := VUndefined |}).
  { intros c [<- | []]. discriminate. }
  pose proof (@js_createChildClient_last_config_wins
                [{| JS.cfg_key := "count"; JS.cfg_initialValue := VNumber 1 |}]
                {| JS.cfg_key := "count"; JS.cfg_initialValue := VUndefined |}
                [{| JS.cfg_key := "theme";
                    JS.cfg_initialValue := VString "x" |}]
                JS.no_options false dom clock N) as H.
  cbv zeta in H. destruct H as [H1 [H2 [_ H4]]].
  split; [exact N | split; [exact H1 | split; [exact H2 | exact H4]]].
Defined.

(** X10.  A child client of the JavaScript copy holds an atom for a key;
    as long as nobody registers the key anew through the client's
    coordinator, that atom is the one the coordinator updates.  So after an
    update for the key has arrived from the parent, [getAtomValue] returns
    the parent's value and the callbacks subscribed to the atom have been
    invoked with it; and after [updateAtom(key, v)], [getAtomValue] returns
    [v] and one atom-sync message with [v] has gone to the parent. *)
Theorem js_client_value_follows_parent_and_updates :
  forall c key h ops v,
    JS.aligned key c ->
    map_get String.eqb key (JS.record c) = Some h ->
    Forall (fun op => JS.registers key op = false) ops ->
    let c1 := JS.client_run ops c in
    (forall ts src,
       let r := JS.on_sync
                  (JS.handleMessage
                     {| data := DataMessage (AtomSync key v ts);
                        source := src |}) c1 in
       outcome (JS.getAtomValue key (final r)) = Normal v /\
       forall a cb,
         nth_error (JS.heap (JS.sync c1)) h = Some a ->
         In (SubUser cb) (JS.subscribers a) -> In (Invoke cb v) (effects r)) /\
    (let r := JS.updateAtom key v c1 in
     outcome r = Normal tt /\
     outcome (JS.getAtomValue key (final r)) = Normal v /\
     (JS.isRoot (JS.sync c1) = false ->
      exists ts, posted_to ToParent (effects r) = [AtomSync key v ts])).
Proof.
  intros c key h ops v A G F c1.
  assert (A1 : JS.aligned key c1) by (apply JSFacts.js_aligned_run; assumption).
  assert (G1 : map_get String.eqb key (JS.record c1) = Some h).
  { subst c1. rewrite JSFacts.js_record_run. assumption. }
  destruct (A1 h G1) as [Ga L].
  destruct (nth_error (JS.heap (JS.sync c1)) h) as [a |] eqn:Gh;
    [| apply nth_error_None in Gh; lia].
  split.
  - intros ts src r.
    destruct (JSFacts.js_handleMessage_sync_run key v ts src (JS.sync c1) Ga Gh)
      as [_ [Eh Ee]].
    subst r. split.
    + rewrite JSFacts.js_getAtomValue_run. unfold JS.on_sync.
      cbn [final JS.record JS.sync]. rewrite G1, Eh.
      rewrite (JSFacts.js_heap_update_same _ _ _ Gh). reflexivity.
    + intros a' cb E Hcb. injection E as <-.
      unfold JS.on_sync. cbn [effects]. rewrite Ee.
      apply in_or_app. left. apply JSFacts.js_notify_invokes. assumption.
  - cbv zeta. rewrite (JSFacts.js_updateAtom_run key v c1 G1).
    cbn [outcome final effects].
    destruct (JSFacts.js_atom_set_run h v (JS.sync c1) Gh) as [_ [[n Hf] _]].
    destruct (JSFacts.js_sendToParent_frame key v
                (final (JS.atom_set h v (JS.sync c1)))) as [_ [Sh _]].
    split; [reflexivity | split].
    + rewrite JSFacts.js_getAtomValue_run. cbn [JS.record JS.sync].
      rewrite G1, Sh, Hf. cbn [JS.heap JS.with_ticks JS.with_heap].
      rewrite (JSFacts.js_heap_update_same _ _ _ Gh). reflexivity.
    + intros R.
      assert (R' : JS.isRoot (final (JS.atom_set h v (JS.sync c1))) = false).
      { rewrite Hf. exact R. }
      rewrite (JSFacts.js_sendToParent_child key v _ R'). cbn [effects].
      eexists. rewrite posted_to_app.
      rewrite (posted_to_nil ToParent (effects (JS.atom_set h v (JS.sync c1)))).
      * cbn. destruct (JS.debug _); reflexivity.
      * intros m o H. apply JSFacts.js_atom_set_effects in H. exact H.
Qed.

Lemma js_client_value_follows_parent_and_updates_witness :
  let ops := [JS.SubscribeToAtom "theme" 7;
              JS.OnSync (JS.RegisterAtom "count" (VNumber 0))] in
  let c1 := JS.client_run ops js_child in
  JS.aligned "theme" js_child /\
  map_get String.eqb "theme" (JS.record js_child) = Some 0 /\
  Forall (fun op => JS.registers "theme" op = false) ops /\
  outcome (JS.getAtomValue "theme"
             (final (JS.on_sync (JS.handleMessage (theme_dark 0)) c1))) =
    Normal (VString "dark") /\
  outcome (JS.getAtomValue "theme"
             (final (JS.updateAtom "theme" (VString "blue") c1))) =
    Normal (VString "blue").
Proof.
  cbv zeta.
  assert (A : JS.aligned "theme" js_child).
  { intros h G. injection G as <-. split; [reflexivity | cbn; lia]. }
  assert (G : map_get String.eqb "theme" (JS.record js_child) = Some 0)
    by reflexivity.
  assert (F : Forall (fun op => JS.registers "theme" op = false)
                [JS.SubscribeToAtom "theme" 7;
                 JS.OnSync (JS.RegisterAtom "count" (VNumber 0))])
    by (repeat constructor).
  split; [exact A | split; [exact G | split; [exact F | split]]].
  - exact (proj1 (proj1 (@js_client_value_follows_parent_and_updates
                           js_child "theme" 0 _ (VString "dark") A G F)
                        0%Z (Some 0))).
  - exact (proj1 (proj2 (proj2 (@js_client_value_follows_parent_and_updates
                                  js_child "theme" 0 _ (VString "blue")
                                  A G F)))).
Defined.

(** ** Subscribing twice *)

(** X11.  The subscriber sets of the svelte child client and of the atom of
    the JavaScript copy are sets of functions: subscribing a callback that
    is subscribed already leaves the set as it is (the callback is handed
    the current value once more), and one call of either function returned
    takes the callback out, so that it is subscribed no more. *)
Theorem subscribing_twice_is_subscribing_once :
  (forall s key cb,
     let s1 := final (SvelteChild.subscribe key cb s) in
     let s2 := final (SvelteChild.subscribe key cb s1) in
     SvelteChild.subscribers s2 = SvelteChild.subscribers s1 /\
     SvelteChild.state s2 = SvelteChild.state s1 /\
     SvelteChild.not_subscribed key cb
       (final (SvelteChild.unsubscribe key cb s2))) /\
  (forall s h cb,
     let s1 := final (JS.atom_subscribe h (SubUser cb) s) in
     let r2 := JS.atom_subscribe h (SubUser cb) s1 in
     JS.heap (final r2) = JS.heap s1 /\
     (forall a, nth_error (JS.heap s) h = Some a ->
                effects r2 = [Invoke cb (JS.value a)]) /\
     JS.not_subscribed h cb
       (final (JS.atom_unsubscribe h (SubUser cb) (final r2)))).
Proof.
  split.
  - intros s key cb s1 s2. subst s2 s1.
    destruct (SvelteChildFacts.sc_subscribe_again key cb s) as [E1 E2].
    split; [exact E1 | split; [exact E2 |]].
    apply SvelteChildFacts.sc_unsubscribe_not_subscribed.
  - intros s h cb s1 r2. subst r2 s1.
    destruct (JSFacts.js_atom_subscribe_again h cb s) as [E1 E2].
    split; [exact E1 | split; [exact E2 |]].
    apply JSFacts.js_atom_unsubscribe_not_subscribed.
Qed.

Lemma subscribing_twice_is_subscribing_once_witness :
  let s1 := final (JS.atom_subscribe 0 (SubUser 7) js_root) in
  let r2 := JS.atom_subscribe 0 (SubUser 7) s1 in
  nth_error (JS.heap js_root) 0 = Some js_theme /\
  effects r2 = [Invoke 7 (VString "light")] /\
  JS.heap (final r2) = JS.heap s1.
Proof.
  cbv zeta.
  assert (G : nth_error (JS.heap js_root) 0 = Some js_theme) by reflexivity.
  split; [exact G | split].
  - exact (proj1 (proj2 (proj2 subscribing_twice_is_subscribing_once
                           js_root 0 7)) js_theme G).
  - exact (proj1 (proj2 subscribing_twice_is_subscribing_once js_root 0 7)).
Defined.

(** ** The target origin *)

(** X12.  Every message a coordinator ever posts carries the target origin
    fixed by its constructor, whatever is done with the coordinator: in the
    TypeScript and JavaScript copies the [targetOrigin] option, or ['*']
    when the option is absent; in the svelte copy the option, or ['*'] when
    it is absent or the empty string. *)
Theorem coordinator_posts_carry_the_constructed_origin :
  (forall opts isTop dom clock ops t m o,
     let r0 := TS.constructor opts isTop dom clock in
     In (PostMessage t m o) (effects r0 ++ TS.trace ops (final r0)) ->
     o = match TS.opt_targetOrigin opts with Some x => x | None => "*" end) /\
  (forall opts isTop dom clock ops t m o,
     let r0 := JS.constructor opts isTop dom clock in
     In (PostMessage t m o) (effects r0 ++ JS.trace ops (final r0)) ->
     o = match JS.opt_targetOrigin opts with Some x => x | None => "*" end) /\
  (forall opts dom clock ops t m o,
     let r0 := Svelte.constructor opts dom clock in
     In (PostMessage t m o) (effects r0 ++ Svelte.trace ops (final r0)) ->
     o = match Svelte.opt_targetOrigin opts with
         | Some x => if String.eqb x EmptyString then "*" else x
         | None => "*"
         end).
Proof.
  split; [| split].
  - intros opts isTop dom clock ops t m o r0 H. subst r0.
    unfold TS.constructor in H. rewrite TSFacts.ts_debug_log_run in H.
    cbn [effects final] in H. apply in_app_or in H. destruct H as [H | H].
    + cbn in H. destruct (match TS.opt_debug opts with
                          | Some d => d | None => false end);
        [destruct H as [H | []]; discriminate | destruct H].
    + exact (@TSFacts.ts_trace_origin _ ops _ _ eq_refl H).
  - intros opts isTop dom clock ops t m o r0 H. subst r0.
    rewrite JSFacts.js_constructor_run in H.
    cbn [effects final] in H. apply in_app_or in H. destruct H as [H | H].
    + destruct (match JS.opt_debug opts with
                | Some d => d | None => true end);
        [destruct H as [H | []]; discriminate | destruct H].
    + exact (@JSFacts.js_trace_origin _ ops _ _ eq_refl H).
  - intros opts dom clock ops t m o r0 H. subst r0.
    unfold Svelte.constructor in H. cbn [effects final ret app] in H.
    exact (@SvelteFacts.sv_trace_origin _ ops _ _ eq_refl H).
Qed.

Lemma coordinator_posts_carry_the_constructed_origin_witness :
  (let opts := {| TS.opt_targetOrigin := Some "https://app.example";
                  TS.opt_debug := None |} in
   let r0 := TS.constructor opts true dom clock in
   let ops := [TS.RegisterIframe 1; TS.RegisterAtom "count" (VNumber 0)] in
   In (PostMessage (ToIframe 1 101) (AtomSync "count" (VNumber 0) 0)
                   "https://app.example")
      (effects r0 ++ TS.trace ops (final r0))) /\
  (let opts := {| Svelte.opt_targetOrigin := Some EmptyString;
                  Svelte.opt_debug := None |} in
   let r0 := Svelte.constructor opts dom clock in
   let ops := [Svelte.RegisterIframe 1;
               Svelte.RegisterAtom "count" (VNumber 0)] in
   In (PostMessage (ToIframe 1 101) (AtomSync "count" (VNumber 0) 0) "*")
      (effects r0 ++ Svelte.trace ops (final r0)) /\
   "*" = (if String.eqb EmptyString EmptyString then "*" else EmptyString)).
Proof.
  cbv zeta. split.
  - cbn. auto.
  - assert (H : In (PostMessage (ToIframe 1 101)
                      (AtomSync "count" (VNumber 0) 0) "*")
                  (effects (Svelte.constructor
                              {| Svelte.opt_targetOrigin := Some EmptyString;
                                 Svelte.opt_debug := None |} dom clock) ++
                   Svelte.trace [Svelte.RegisterIframe 1;
                                 Svelte.RegisterAtom "count" (VNumber 0)]
                     (final (Svelte.constructor
                               {| Svelte.opt_targetOrigin := Some EmptyString;
                                  Svelte.opt_debug := None |} dom clock))))
      by (cbn; auto).
    split; [exact H |].
    exact (proj2 (proj2 coordinator_posts_carry_the_constructed_origin)
                 _ _ _ _ _ _ _ H).
Defined.

(** ** Coordinators that are not the root *)

(** X13.  A coordinator of the TypeScript or of the JavaScript copy that was
    constructed in a window with a parent never passes an update on: when
    one of its cells is set, and when a message arrives (an update or a
    sync request), it posts nothing, neither to its parent nor to iframes
    that were registered with it. *)
Theorem child_coordinator_never_relays :
  (forall s, TS.reachable_child s ->
     (forall key v, filter is_post (effects (TS.atom_set key v s)) = []) /\
     (forall ev, filter is_post (effects (TS.handleMessage ev s)) = [])) /\
  (forall s, JS.reachable_child s ->
     (forall h v, filter is_post (effects (JS.atom_set h v s)) = []) /\
     (forall ev, filter is_post (effects (JS.handleMessage ev s)) = [])).
Proof.
  split.
  - intros s R. destruct (TSFacts.ts_reachable_child_unwired R) as [R0 W].
    split.
    + intros key v. apply filter_post_none. intros e H.
      apply (@TSFacts.ts_atom_set_silent key v s e W H).
    + intros ev. apply filter_post_none. intros e H.
      apply (@TSFacts.ts_handleMessage_silent ev s e R0 W H).
  - intros s R. destruct (JSFacts.js_reachable_child_unwired R) as [R0 W].
    split.
    + intros h v. apply filter_post_none. intros e H.
      apply (@JSFacts.js_atom_set_quiet h v s e W H).
    + intros ev. apply filter_post_none. intros e H.
      apply (@JSFacts.js_handleMessage_silent ev s e R0 W H).
Qed.

Lemma child_coordinator_never_relays_witness :
  (TS.reachable_child ts_middle /\ In 5 (TS.iframes ts_middle) /\
   effects (TS.handleMessage (theme_dark 0) ts_middle) =
     [Invoke 7 (VString "dark")] /\
   filter is_post (effects (TS.handleMessage (theme_dark 0) ts_middle)) = []) /\
  (JS.reachable_child js_middle /\ In 5 (JS.iframes js_middle) /\
   filter is_post (effects (JS.handleMessage (theme_dark 0) js_middle)) = []).
Proof.
  assert (R : TS.reachable_child ts_middle).
  { exists TS.no_options, dom, clock. eexists. reflexivity. }
  assert (R' : JS.reachable_child js_middle).
  { exists JS.no_options, dom, clock. eexists. reflexivity. }
  split.
  - split; [exact R | split; [left; reflexivity | split; [reflexivity |]]].
    exact (proj2 (proj1 child_coordinator_never_relays ts_middle R)
                 (theme_dark 0)).
  - split; [exact R' | split; [left; reflexivity |]].
    exact (proj2 (proj2 child_coordinator_never_relays js_middle R')
                 (theme_dark 0)).
Defined.

(** ** The child client of the TypeScript copy *)

(** X14.  [createChildClient] of the TypeScript copy registers each
    configured key once.  When the keys are all different it returns a
    client in which [getAtomValue] gives, for every configured key, the
    configured initial value, or [null] when that is [undefined]; in a
    window with a parent it has then posted exactly one message, the sync
    request to the parent, and in a top-level window nothing.  When a key
    is configured twice the call throws, no client is returned, and no
    request has been sent. *)
Theorem ts_createChildClient_registers_each_key_once :
  forall cfgs opts isTop dom clock,
    let r := TS.createChildClient cfgs opts isTop dom clock in
    let origin :=
      match TS.opt_targetOrigin opts with Some t => t | None => "*" end in
    (NoDup (map TS.cfg_key cfgs) ->
     outcome r = Normal tt /\
     (forall config, In config cfgs ->
        outcome (TS.getAtomValue (TS.cfg_key config) (final r)) =
          Normal (TS.initial config)) /\
     filter is_post (effects r) =
       (if isTop then []
        else [PostMessage ToParent (AtomSyncRequest (clock 0)) origin])) /\
    (~ NoDup (map TS.cfg_key cfgs) ->
     raises r /\ filter is_post (effects r) = []).
Proof.
  intros cfgs opts isTop dom clock r origin. subst r origin.
  rewrite TSFacts.ts_createChildClient_run. cbv zeta.
  set (c0 := TS.mkClient (final (TS.constructor opts isTop dom clock)) []).
  set (loop := forEach cfgs _ c0).
  destruct (TSFacts.ts_configs_run cfgs c0)
    as [[Hr [Hop [Hi [Hn Ht]]]] [He [_ [_ [Hok Hno]]]]].
  fold loop in Hr, Hop, Hi, Hn, Ht, He, Hok, Hno.
  assert (E0 : filter is_post
                 (effects (TS.constructor opts isTop dom clock)) = []).
  { rewrite TSFacts.ts_constructor_run. cbn [effects].
    destruct (match TS.opt_debug opts with Some d => d | None => false end);
      reflexivity. }
  assert (E1 : filter is_post (effects loop) = []).
  { apply filter_post_none. intros e H.
    destruct (is_post e) eqn:P; [| reflexivity].
    exfalso. apply (He e H P). subst c0. cbn [TS.sync].
    rewrite TSFacts.ts_constructor_run. reflexivity. }
  split.
  - intros Nd.
    assert (Ho : outcome loop = Normal tt).
    { apply Hno; [assumption |]. intros config _. subst c0. cbn [TS.sync].
      rewrite TSFacts.ts_constructor_run. reflexivity. }
    rewrite Ho. cbn [outcome final effects].
    destruct (Hok Ho) as [_ Hall].
    destruct (TSFacts.ts_requestStateFromParent_frame (TS.sync (final loop)))
      as [_ Qa].
    split; [reflexivity | split].
    + intros config Hin. destruct (Hall config Hin) as [_ [Hrec [a [Ga Va]]]].
      rewrite TSFacts.ts_getAtomValue_run. cbn [TS.record TS.sync].
      apply (set_has_true String.eqb String.eqb_spec) in Hrec.
      rewrite Hrec, Qa, Ga, Va. reflexivity.
    + rewrite !filter_app, E0, E1. cbn [app].
      assert (R : TS.isRoot (TS.sync (final loop)) = isTop).
      { rewrite Hr. subst c0. cbn [TS.sync].
        rewrite TSFacts.ts_constructor_run. reflexivity. }
      destruct isTop.
      * rewrite (TSFacts.ts_requestStateFromParent_root _ R). cbn [effects].
        destruct (TS.debug _); reflexivity.
      * rewrite (TSFacts.ts_requestStateFromParent_child _ R). cbn [effects].
        rewrite Hn, Hop, (Ht (eq_trans (eq_sym Hr) R)). subst c0.
        cbn [TS.sync]. rewrite TSFacts.ts_constructor_run. cbn.
        destruct (match TS.opt_debug opts with Some d => d | None => false end);
          reflexivity.
  - intros Nd. destruct (outcome loop) as [[] | e] eqn:Ho.
    + exfalso. apply Nd. apply (Hok eq_refl).
    + cbn [outcome final effects]. split; [exists e; reflexivity |].
      rewrite filter_app, E0, E1. reflexivity.
Qed.

Lemma ts_createChildClient_registers_each_key_once_witness :
  let count := {| TS.cfg_key := "count"; TS.cfg_initialValue := VNumber 1 |} in
  let theme := {| TS.cfg_key := "theme"; TS.cfg_initialValue := VUndefined |} in
  (NoDup (map TS.cfg_key [count; theme]) /\
   outcome (TS.getAtomValue "theme"
              (final (TS.createChildClient [count; theme] TS.no_options false
                                           dom clock))) = Normal VNull /\
   filter is_post
     (effects (TS.createChildClient [count; theme] TS.no_options false dom
                                    clock)) =
     [PostMessage ToParent (AtomSyncRequest 0) "*"]) /\
  (~ NoDup (map TS.cfg_key [count; theme; count]) /\
   raises (TS.createChildClient [count; theme; count] TS.no_options false dom
                                clock) /\
   filter is_post
     (effects (TS.createChildClient [count; theme; count] TS.no_options false
                                    dom clock)) = []).
Proof.
  cbv zeta. split.
  - assert (Nd : NoDup (map TS.cfg_key
                   [{| TS.cfg_key := "count"; TS.cfg_initialValue := VNumber 1 |};
                    {| TS.cfg_key := "theme";
                       TS.cfg_initialValue := VUndefined |}])).
    { cbn. constructor; [intros [H | []]; discriminate |].
      constructor; [intros [] | constructor]. }
    pose proof (proj1 (ts_createChildClient_registers_each_key_once
                         _ TS.no_options false dom clock) Nd) as H.
    destruct H as [_ [H2 H3]].
    split; [exact Nd | split; [| exact H3]].
    exact (H2 {| TS.cfg_key := "theme"; TS.cfg_initialValue := VUndefined |}
              (or_intror (or_introl eq_refl))).
  - assert (Nd : ~ NoDup (map TS.cfg_key
                   [{| TS.cfg_key := "count"; TS.cfg_initialValue := VNumber 1 |};
                    {| TS.cfg_key := "theme";
                       TS.cfg_initialValue := VUndefined |};
                    {| TS.cfg_key := "count";
                       TS.cfg_initialValue := VNumber 1 |}])).
    { cbn. intros H. inversion H as [| ? ? Hn _]; subst. apply Hn.
      right. left. reflexivity. }
    pose proof (proj2 (ts_createChildClient_registers_each_key_once
                         _ TS.no_options false dom clock) Nd) as H.
    split; [exact Nd | exact H].
Defined.

(** X15.  The methods of a child client of the TypeScript copy work on the
    configured keys and on no other.  For a configured key,
    [updateAtom(key, v)] sets the cell, so that [getAtomValue] then returns
    [v], invokes the callbacks subscribed to the cell with [v], and in a
    window with a parent posts exactly one atom-sync message with [v] to the
    parent.  For any other key, one that the [atoms] object does not
    inherit (no member of [Object.prototype], and [__proto__] was not
    configured), the three methods throw and change nothing, even when the
    key has been registered afterwards through the coordinator of the
    client. *)
Theorem ts_client_methods_know_the_configured_keys :
  forall c key v,
    (forall a,
       In key (TS.record c) ->
       map_get String.eqb key (TS.atoms (TS.sync c)) = Some a ->
       let r := TS.updateAtom key v c in
       outcome r = Normal tt /\
       outcome (TS.getAtomValue key (final r)) = Normal v /\
       (forall cb, In (SubUser cb) (Vendored.subscribers a) ->
                   In (Invoke cb v) (effects r)) /\
       (TS.isRoot (TS.sync c) = false ->
        exists ts, posted_to ToParent (effects r) = [AtomSync key v ts])) /\
    (~ In key (TS.record c) ->
     inherited_property key = false -> ~ In "__proto__" (TS.record c) ->
     forall v0 cb,
       let c1 := final (TS.client_step (TS.OnSync (TS.RegisterAtom key v0)) c) in
       TS.updateAtom key v c1 =
         mkRun (Thrown (ClientAtomNotFound key)) c1 [] /\
       outcome (TS.getAtomValue key c1) = Thrown (ClientAtomNotFound key) /\
       TS.subscribeToAtom key cb c1 =
         mkRun (Thrown (ClientAtomNotFound key)) c1 [] /\
       returns (TS.on_sync (TS.getAtom key) c1)).
Proof.
  intros c key v. split.
  - intros a Hrec G r. subst r.
    rewrite (@TSFacts.ts_updateAtom_run key v c Hrec). cbn [outcome final effects].
    destruct (TSFacts.ts_atom_set_run key v (TS.sync c) G) as [_ [[n Hf] He]].
    destruct (TSFacts.ts_sendToParent_frame key v
                (final (TS.atom_set key v (TS.sync c)))) as [_ [Sa _]].
    split; [reflexivity | split; [| split]].
    + rewrite TSFacts.ts_getAtomValue_run. cbn [TS.record TS.sync].
      apply (set_has_true String.eqb String.eqb_spec) in Hrec.
      rewrite Hrec, Sa, Hf. cbn [TS.atoms TS.with_ticks TS.with_atoms].
      rewrite get_set_same. reflexivity.
    + intros cb Hcb. apply in_or_app. left. rewrite He.
      apply TSFacts.ts_notify_invokes. assumption.
    + intros R.
      assert (R' : TS.isRoot (final (TS.atom_set key v (TS.sync c))) = false).
      { rewrite Hf. exact R. }
      rewrite (TSFacts.ts_sendToParent_child key v _ R'). cbn [effects].
      eexists. rewrite posted_to_app.
      rewrite (posted_to_nil ToParent
                 (effects (TS.atom_set key v (TS.sync c)))).
      * cbn. destruct (TS.debug _); reflexivity.
      * intros m o H. apply TSFacts.ts_atom_set_effects in H. exact H.
  - intros Hn Hi _ v0 cb c1.
    assert (Hn1 : ~ In key (TS.record c1)) by exact Hn.
    split; [| split; [| split]].
    + rewrite (@TSFacts.ts_updateAtom_absent key v c1 Hn1), Hi. reflexivity.
    + rewrite (@TSFacts.ts_getAtomValue_absent key c1 Hn1), Hi. reflexivity.
    + rewrite (@TSFacts.ts_subscribeToAtom_absent key cb c1 Hn1), Hi.
      reflexivity.
    + subst c1. cbn [TS.client_step TS.step]. unfold TS.on_sync.
      cbn [outcome final TS.sync]. rewrite TSFacts.ts_getAtom_run.
      destruct (map_get String.eqb key (TS.atoms (TS.sync c))) as [a |] eqn:G.
      * rewrite (@TSFacts.ts_registerAtom_present key v0 (TS.sync c) a G). cbn [final].
        rewrite G. eexists. reflexivity.
      * destruct (TSFacts.ts_registerAtom_fresh key v0 (TS.sync c) G)
          as [_ [[n Hf] _]].
        rewrite Hf. cbn [TS.atoms TS.with_ticks TS.with_atoms].
        rewrite get_set_same. eexists. reflexivity.
Qed.

Lemma ts_client_methods_know_the_configured_keys_witness :
  (In "theme" (TS.record ts_child) /\
   map_get String.eqb "theme" (TS.atoms (TS.sync ts_child)) =
     Some (Vendored.mkCell VNull []) /\
   outcome (TS.getAtomValue "theme"
              (final (TS.updateAtom "theme" (VString "dark") ts_child))) =
     Normal (VString "dark")) /\
  (~ In "count" (TS.record ts_child) /\
   let c1 := final (TS.client_step
                      (TS.OnSync (TS.RegisterAtom "count" (VNumber 0)))
                      ts_child) in
   outcome (TS.getAtomValue "count" c1) = Thrown (ClientAtomNotFound "count") /\
   returns (TS.on_sync (TS.getAtom "count") c1)).
Proof.
  split.
  - assert (H : In "theme" (TS.record ts_child)) by (left; reflexivity).
    assert (G : map_get String.eqb "theme" (TS.atoms (TS.sync ts_child)) =
                Some (Vendored.mkCell VNull [])) by reflexivity.
    split; [exact H | split; [exact G |]].
    exact (proj1 (proj2 (proj1 (ts_client_methods_know_the_configured_keys
                                  ts_child "theme" (VString "dark"))
                               _ H G))).
  - assert (H : ~ In "count" (TS.record ts_child)).
    { intros [E | []]. discriminate. }
    assert (Hp : ~ In "__proto__" (TS.record ts_child)).
    { intros [E | []]. discriminate. }
    split; [exact H |]. cbv zeta.
    pose proof (proj2 (ts_client_methods_know_the_configured_keys
                         ts_child "count" (VNumber 1)) H eq_refl Hp
                      (VNumber 0) 7) as P.
    cbv zeta in P. destruct P as [_ [P2 [_ P4]]].
    split; [exact P2 | exact P4].
Defined.

(** X16.  The initial synchronisation of the TypeScript copy, end to end.
    A root coordinator answers a sync request with one message per cell;
    when these messages are handled, in order, by the coordinator of a child
    client, every key of the client that the root also has ends up with the
    root's value, and every key that the root does not have keeps the value
    it had in the client. *)
Theorem ts_sync_request_brings_the_parent_state :
  forall s c w ts src key,
    TS.reachable_root s ->
    let request := {| data := DataMessage (AtomSyncRequest ts);
                      source := Some w |} in
    let reply := posted_to (ToSource w) (effects (TS.handleMessage request s)) in
    let c' := final (TS.deliver reply src c) in
    In key (TS.record c) ->
    map_has String.eqb key (TS.atoms (TS.sync c)) = true ->
    map payload reply = TS.cells s /\
    outcome (TS.getAtomValue key c') =
      match map_get String.eqb key (TS.atoms s) with
      | Some a => Normal (Vendored.value a)
      | None => outcome (TS.getAtomValue key c)
      end.
Proof.
  intros s c w ts src key R request reply c' Hrec Hreg.
  destruct (TSFacts.ts_reachable_root_wired R) as [R0 _].
  destruct (@TSFacts.ts_request_reply s ts w R0) as [_ [Hp _]].
  fold request in Hp. fold reply in Hp.
  split; [exact Hp |].
  pose proof (TSFacts.ts_reachable_root_keys R) as Nd.
  destruct (TSFacts.ts_deliver_run reply src c) as [_ Er]. fold c' in Er.
  rewrite !TSFacts.ts_getAtomValue_run, Er.
  apply (set_has_true String.eqb String.eqb_spec) in Hrec. rewrite Hrec.
  cbn [outcome].
  unfold map_has in Hreg.
  destruct (map_get String.eqb key (TS.atoms (TS.sync c))) as [ac |] eqn:Gc;
    [| discriminate].
  unfold TS.cells in Hp.
  destruct (map_get String.eqb key (TS.atoms s)) as [a |] eqn:G.
  - destruct (@payloads_split _ (@Vendored.value Subscriber) (TS.atoms s)
                reply key a Hp Nd G)
      as [r1 [m [r2 [Er' [Pm N2]]]]].
    destruct (@TSFacts.ts_deliver_hit r1 m r2 src c key (Vendored.value a) ac
                Pm N2 Gc) as [a' [Ga' Va']].
    subst c'. rewrite Er', Ga', Va'. reflexivity.
  - pose proof (@payloads_miss _ (@Vendored.value Subscriber) (TS.atoms s)
                  reply key Hp G) as N.
    subst c'. rewrite (TSFacts.ts_deliver_other _ src c N), Gc. reflexivity.
Qed.

Lemma ts_sync_request_brings_the_parent_state_witness :
  let request := {| data := DataMessage (AtomSyncRequest 0);
                    source := Some 101 |} in
  let reply := posted_to (ToSource 101)
                 (effects (TS.handleMessage request ts_root)) in
  let c' := final (TS.deliver reply None ts_child) in
  TS.reachable_root ts_root /\ In "theme" (TS.record ts_child) /\
  map_has String.eqb "theme" (TS.atoms (TS.sync ts_child)) = true /\
  outcome (TS.getAtomValue "theme" ts_child) = Normal VNull /\
  outcome (TS.getAtomValue "theme" c') = Normal (VString "light").
Proof.
  cbv zeta.
  assert (H : In "theme" (TS.record ts_child)) by (left; reflexivity).
  split; [exact ts_root_reachable | split; [exact H | split; [reflexivity |]]].
  split; [reflexivity |].
  exact (eq_trans
           (proj2 (@ts_sync_request_brings_the_parent_state
                     ts_root ts_child 101 0%Z None "theme"
                     ts_root_reachable H eq_refl))
           eq_refl).
Defined.

(** X17.  The svelte coordinator keeps what [setValue(key, v)] wrote into a
    registered store: [getValue(key)] returns [v] after any operations other
    than a [setValue] on the key, an update for the key in a message, or
    [destroy()].  [registerAtom] on the key is among them: registering a key
    again does not reset its value. *)
Theorem svelte_coordinator_value_is_last_set :
  forall s key v ops,
    map_has String.eqb key (Svelte.stores s) = true ->
    Forall (fun op => Svelte.writes key op = false) ops ->
    outcome (Svelte.getValue key
               (Svelte.run ops (final (Svelte.setValue key v s)))) = Normal v.
Proof.
  intros s key v ops H F. unfold map_has in H.
  destruct (map_get String.eqb key (Svelte.stores s)) as [c |] eqn:G;
    [| discriminate].
  rewrite (SvelteFacts.sv_setValue_present key v s G).
  destruct (SvelteFacts.sv_store_send_run key v s G) as [_ [[n Hf] _]].
  rewrite Hf.
  assert (G1 : map_get String.eqb key
                 (Svelte.stores
                    (Svelte.with_ticks n
                       (Svelte.with_stores
                          (map_set String.eqb key (Vendored.cell_set v c)
                             (Svelte.stores s)) s))) =
               Some (Vendored.cell_set v c))
    by (cbn; apply get_set_same).
  destruct (@SvelteFacts.sv_run_value key ops _ _ G1 F) as [c' [G' V']].
  rewrite SvelteFacts.sv_getValue_run, G'. cbn [outcome]. rewrite V'.
  reflexivity.
Qed.

Lemma svelte_coordinator_value_is_last_set_witness :
  outcome (Svelte.getValue "theme"
             (Svelte.run [Svelte.RegisterAtom "theme" (VString "light");
                          Svelte.Subscribe "theme" 8;
                          Svelte.MessageArrives (request 101)]
                (final (Svelte.setValue "theme" (VString "dark")
                          svelte_root)))) = Normal (VString "dark").
Proof.
  apply (@svelte_coordinator_value_is_last_set svelte_root "theme"
           (VString "dark")); [reflexivity |].
  repeat constructor.
Defined.

(** X18.  The svelte coordinator ignores a key that is not registered:
    [setValue], an update for the key in a message and [subscribe] leave the
    coordinator as it was, post nothing and invoke no callback, and
    [subscribe] returns null; [getValue] returns undefined.  What was set is
    lost: after a later [registerAtom(key, v0)] the value is [v0]. *)
Theorem svelte_coordinator_ignores_unregistered_key :
  forall s key v ts src cb v0,
    map_has String.eqb key (Svelte.stores s) = false ->
    let update := {| data := DataMessage (AtomSync key v ts);
                     source := src |} in
    final (Svelte.setValue key v s) = s /\
    final (Svelte.handleMessage update s) = s /\
    Svelte.subscribe key cb s =
      mkRun (Normal None) s
        (if Svelte.debug s
         then [ConsoleLog (LogNotFoundForSubscription key)] else []) /\
    (forall e, In e (effects (Svelte.setValue key v s) ++
                     effects (Svelte.handleMessage update s)) ->
               is_console e = true) /\
    outcome (Svelte.getValue key s) = Normal VUndefined /\
    outcome (Svelte.getValue key
               (final (Svelte.registerAtom key v0
                         (final (Svelte.setValue key v s))))) = Normal v0.
Proof.
  intros s key v ts src cb v0 H update. unfold map_has in H.
  destruct (map_get String.eqb key (Svelte.stores s)) as [c |] eqn:G;
    [discriminate |].
  subst update. rewrite SvelteFacts.sv_handleMessage_sync.
  rewrite (SvelteFacts.sv_setValue_absent key v s G). unfold prepend.
  cbn [final effects].
  split; [reflexivity | split; [reflexivity | split; [| split; [| split]]]].
  - apply SvelteFacts.sv_subscribe_absent, G.
  - intros e Hin.
    destruct (Svelte.debug s); cbn in Hin;
      repeat (destruct Hin as [<- | Hin]; [reflexivity |]); destruct Hin.
  - rewrite SvelteFacts.sv_getValue_run, G. reflexivity.
  - destruct (SvelteFacts.sv_registerAtom_fresh key v0 s G) as [_ [[n Hf] _]].
    rewrite Hf, SvelteFacts.sv_getValue_run. cbn. rewrite get_set_same.
    reflexivity.
Qed.

Lemma svelte_coordinator_ignores_unregistered_key_witness :
  map_has String.eqb "size" (Svelte.stores svelte_root) = false /\
  final (Svelte.setValue "size" (VNumber 3) svelte_root) = svelte_root /\
  outcome (Svelte.getValue "size"
             (final (Svelte.registerAtom "size" (VNumber 1)
                       (final (Svelte.setValue "size" (VNumber 3)
                                 svelte_root))))) = Normal (VNumber 1).
Proof.
  split; [reflexivity |].
  pose proof (@svelte_coordinator_ignores_unregistered_key svelte_root "size"
                (VNumber 3) 0%Z None 7 (VNumber 1) eq_refl) as H.
  cbv zeta in H. destruct H as [H1 [_ [_ [_ [_ H6]]]]].
  split; [exact H1 | exact H6].
Defined.

(** X19.  [destroy()] of the svelte coordinator forgets every store and
    every iframe, but unlike the child client it stays attached: as long as
    no key is registered the coordinator posts nothing and invokes no
    callback, whatever arrives or is called, and every value reads as
    undefined; a key registered afterwards works again. *)
Theorem svelte_coordinator_destroy_forgets_until_registered :
  forall s ops key v,
    Forall (fun op => Svelte.is_register op = false) ops ->
    let s' := Svelte.run ops (final (Svelte.destroy s)) in
    (forall e, In e (Svelte.trace ops (final (Svelte.destroy s))) ->
               is_console e = true) /\
    outcome (Svelte.getValue key s') = Normal VUndefined /\
    outcome (Svelte.getValue key (final (Svelte.registerAtom key v s'))) =
      Normal v.
Proof.
  intros s ops key v F s'.
  assert (H0 : Svelte.stores (final (Svelte.destroy s)) = []) by reflexivity.
  pose proof (@SvelteFacts.sv_run_destroyed ops _ F H0) as H. fold s' in H.
  assert (G : map_get String.eqb key (Svelte.stores s') = None)
    by (rewrite H; reflexivity).
  split; [| split].
  - apply Forall_forall. apply SvelteFacts.sv_trace_destroyed; assumption.
  - rewrite SvelteFacts.sv_getValue_run, G. reflexivity.
  - destruct (SvelteFacts.sv_registerAtom_fresh key v s' G) as [_ [[n Hf] _]].
    rewrite Hf, SvelteFacts.sv_getValue_run. cbn. rewrite get_set_same.
    reflexivity.
Qed.

Lemma svelte_coordinator_destroy_forgets_until_registered_witness :
  let ops := [Svelte.MessageArrives (theme_dark 101); Svelte.LoadFires 1;
              Svelte.SetValue "theme" (VString "dark");
              Svelte.MessageArrives (request 101)] in
  Forall (fun op => Svelte.is_register op = false) ops /\
  Svelte.trace ops (final (Svelte.destroy svelte_root)) = [] /\
  outcome (Svelte.getValue "theme"
             (Svelte.run ops (final (Svelte.destroy svelte_root)))) =
    Normal VUndefined.
Proof.
  cbv zeta.
  assert (F : Forall (fun op => Svelte.is_register op = false)
                [Svelte.MessageArrives (theme_dark 101); Svelte.LoadFires 1;
                 Svelte.SetValue "theme" (VString "dark");
                 Svelte.MessageArrives (request 101)])
    by (repeat constructor).
  split; [exact F | split; [reflexivity |]].
  exact (proj1 (proj2 (@svelte_coordinator_destroy_forgets_until_registered
                         svelte_root _ "theme" VNull F))).
Defined.

(** X20.  The initial synchronisation of the svelte copy, end to end.  When
    the coordinator handles the sync request of a registered iframe, the
    messages it posts into that iframe carry the key and value of every store
    in the order of the map; once the child client in the iframe has handled
    them in that order, [getValue(key)] of the client returns the value of
    the parent for every registered key, and what it returned before for any
    other key. *)
Theorem svelte_sync_request_brings_the_parent_state :
  forall s c w f ts src key,
    Svelte.reachable s ->
    Svelte.find_iframe s (Some w) = Some f ->
    SvelteChild.listening c = true ->
    let request := {| data := DataMessage (AtomSyncRequest ts);
                      source := Some w |} in
    let reply := posted_to (ToIframe f w)
                   (effects (Svelte.handleMessage request s)) in
    let c' := final (SvelteChild.deliver reply src c) in
    map payload reply = Svelte.cells s /\
    outcome (SvelteChild.getValue key c') =
      match map_get String.eqb key (Svelte.stores s) with
      | Some a => Normal (Vendored.value a)
      | None => outcome (SvelteChild.getValue key c)
      end.
Proof.
  intros s c w f ts src key R Hfind L request reply c'.
  destruct (SvelteFacts.sv_request_reply s ts w) as [_ [Hp _]].
  destruct (Hp f Hfind) as [_ [_ Hr]]. clear Hp.
  fold request in Hr. fold reply in Hr.
  split; [exact Hr |].
  pose proof (SvelteFacts.sv_reachable_keys R) as Nd.
  rewrite !SvelteChildFacts.sc_getValue_run. cbn [outcome].
  unfold SvelteChild.current, Svelte.cells in *.
  destruct (map_get String.eqb key (Svelte.stores s)) as [a |] eqn:G.
  - destruct (@payloads_split _ (@Vendored.value Svelte.Subscriber)
                (Svelte.stores s) reply key a Hr Nd G)
      as [r1 [m [r2 [Er [Pm N2]]]]].
    subst c'. rewrite Er.
    rewrite (@SvelteChildFacts.sc_deliver_hit r1 m r2 src c key
               (Vendored.value a) L Pm N2).
    reflexivity.
  - pose proof (@payloads_miss _ (@Vendored.value Svelte.Subscriber)
                  (Svelte.stores s) reply key Hr G) as N.
    subst c'. rewrite (@SvelteChildFacts.sc_deliver_other reply src c key L N).
    reflexivity.
Qed.

Lemma svelte_sync_request_brings_the_parent_state_witness :
  let reply := posted_to (ToIframe 1 101)
                 (effects (Svelte.handleMessage (request 101) svelte_root)) in
  let c' := final (SvelteChild.deliver reply None svelte_child) in
  Svelte.reachable svelte_root /\
  Svelte.find_iframe svelte_root (Some 101) = Some 1 /\
  SvelteChild.listening svelte_child = true /\
  outcome (SvelteChild.getValue "theme" svelte_child) = Normal VUndefined /\
  outcome (SvelteChild.getValue "theme" c') = Normal (VString "light").
Proof.
  cbv zeta.
  split; [exact svelte_root_reachable | split; [reflexivity |]].
  split; [reflexivity | split; [reflexivity |]].
  exact (proj2 (@svelte_sync_request_brings_the_parent_state
                  svelte_root svelte_child 101 1 0%Z None "theme"
                  svelte_root_reachable eq_refl eq_refl)).
Defined.
